(** * BNGGdiff: the contact-map diff/merge engine of PyBioNetGen

    A shallow embedding of [bionetgen/tools/gdiff.py] (class [BNGGdiff]).
    The two parsed graphml documents are the nested dictionaries produced by
    [xmltodict]; they are modelled as trees, Python exceptions as an error
    monad, in-place mutation of a document through a reference as an update
    at an index path of the document that owns the node. *)

From Stdlib Require Import ZArith String Ascii Bool Lia Arith List Sorted.
From Stdlib Require Decimal DecimalString DecimalZ DecimalFacts.
Import ListNotations.

Local Open Scope string_scope.
Local Open Scope list_scope.

Set Implicit Arguments.

(* ================================================================== *)
(** * Python exceptions and the error monad *)

(** The exceptions the engine can raise.  [OutOfFuel] is not a Python
    exception: it is what a fuel-bounded loop of the model answers when its
    fuel does not suffice. *)
Inductive exn : Type :=
| KeyError
| TypeError
| ValueError
| IndexError
| AttributeError
| UnboundLocalError
| RuntimeError (msg : string)
| OutOfFuel.

Inductive result (A : Type) : Type :=
| Ok (a : A)
| Err (e : exn).

Arguments Ok {A} a.
Arguments Err {A} e.

Definition bind {A B} (r : result A) (k : A -> result B) : result B :=
  match r with
  | Ok a => k a
  | Err e => Err e
  end.

Notation "x <- r ;; k" := (bind r (fun x => k))
  (at level 61, r at next level, right associativity).
Notation "' p <- r ;; k" := (bind r (fun p => k))
  (at level 61, p pattern, r at next level, right associativity).

Definition from_option {A} (e : exn) (o : option A) : result A :=
  match o with
  | Some a => Ok a
  | None => Err e
  end.

(** [[f(x) for x in l]], the first exception aborting the comprehension. *)
Fixpoint mapM {A B} (f : A -> result B) (l : list A) : result (list B) :=
  match l with
  | [] => Ok []
  | x :: l' => y <- f x ;; ys <- mapM f l' ;; Ok (y :: ys)
  end.

(** A Python value that is either [None] or a [str]. *)
Definition pystr := option string.

Definition pystr_eqb (a b : pystr) : bool :=
  match a, b with
  | None, None => true
  | Some x, Some y => String.eqb x y
  | _, _ => false
  end.

(** What [xmltodict] yields for a child element: a dict when the element
    occurs once, a list when it is repeated. *)
Inductive one_or_many (A : Type) : Type :=
| One (a : A)
| Many (l : list A).

Arguments One {A} a.
Arguments Many {A} l.

(* ================================================================== *)
(** * Python string primitives used by the identifier functions *)

Module PyStr.

  (** [str(i)] for an [int]. *)
Definition str_of_int (z : Z) : string :=
    DecimalString.NilZero.string_of_int (Z.to_int z).

Definition is_space (a : ascii) : bool :=
    let n := nat_of_ascii a in
    (n =? 32)%nat || ((9 <=? n)%nat && (n <=? 13)%nat).

Definition is_digit (a : ascii) : bool :=
    let n := nat_of_ascii a in
    (48 <=? n)%nat && (n <=? 57)%nat.

Fixpoint lstrip (s : string) : string :=
    match s with
    | EmptyString => EmptyString
    | String a s' => if is_space a then lstrip s' else s
    end.

Fixpoint rstrip (s : string) : string :=
    match s with
    | EmptyString => EmptyString
    | String a s' =>
        match rstrip s' with
        | EmptyString => if is_space a then EmptyString else String a EmptyString
        | r => String a r
        end
    end.

Definition strip (s : string) : string := rstrip (lstrip s).

  (** The digits of an integer literal with its digit separators removed:
      an underscore is accepted only between two digits. *)
Fixpoint digits (after_digit : bool) (s : string) : option string :=
    match s with
    | EmptyString => if after_digit then Some EmptyString else None
    | String a s' =>
        if is_digit a then option_map (String a) (digits true s')
        else if Ascii.eqb a "_" && after_digit then digits false s'
        else None
    end.

Definition unsigned_of_string (s : string) : option Z :=
    match digits false s with
    | Some ds => option_map Z.of_uint (DecimalString.NilEmpty.uint_of_string ds)
    | None => None
    end.

  (** [int(s)] for a [str]: surrounding white space, an optional sign,
      decimal digits with single underscores between them; anything else is
      a [ValueError].  (Python also reads the decimal digits and the white
      space that are outside ASCII; a byte outside ASCII is neither a digit
      nor white space here.) *)
Definition int_of_str (s : string) : result Z :=
    match strip s with
    | EmptyString => Err ValueError
    | String a s' as t =>
        if Ascii.eqb a "-" then
          from_option ValueError (option_map Z.opp (unsigned_of_string s'))
        else if Ascii.eqb a "+" then
          from_option ValueError (unsigned_of_string s')
        else from_option ValueError (unsigned_of_string t)
    end.

Definition cons_head (a : ascii) (l : list string) : list string :=
    match l with
    | [] => [String a EmptyString]
    | x :: xs => String a x :: xs
    end.

  (** [s.split("::")]: the separator occurrences are taken leftmost first
      and do not overlap. *)
Fixpoint split_colons (s : string) : list string :=
    match s with
    | EmptyString => [EmptyString]
    | String a s1 =>
        match s1 with
        | String b s2 =>
            if Ascii.eqb a ":" && Ascii.eqb b ":"
            then EmptyString :: split_colons s2
            else cons_head a (split_colons s1)
        | EmptyString => [String a EmptyString]
        end
    end.

  (** A [str] is a sequence of characters (code points); it is held here
      as its UTF-8 encoding, in which a character is a leading byte followed
      by the continuation bytes that the leading byte announces. *)
Definition continuation_bytes (a : ascii) : nat :=
    let n := nat_of_ascii a in
    if (n <? 192)%nat then 0
    else if (n <? 224)%nat then 1
    else if (n <? 240)%nat then 2
    else 3.

Fixpoint skip_bytes (k : nat) (s : string) : string :=
    match k with
    | O => s
    | S k' =>
        match s with
        | EmptyString => EmptyString
        | String _ s' => skip_bytes k' s'
        end
    end.

  (** [s[1:]]: the string without its first character. *)
Definition drop_first (s : string) : string :=
    match s with
    | EmptyString => EmptyString
    | String a s' => skip_bytes (continuation_bytes a) s'
    end.

  (** [s.replace(old, new)] for a non-empty [old]: the occurrences of [old]
      are taken leftmost first and do not overlap.  [skip] counts the bytes
      of an occurrence that are still to be passed over. *)
Fixpoint replace_from (old new : string) (skip : nat) (s : string) : string :=
    match s with
    | EmptyString => EmptyString
    | String a s' =>
        match skip with
        | S k => replace_from old new k s'
        | O =>
            if String.prefix old s
            then new ++ replace_from old new (String.length old - 1) s'
            else String a (replace_from old new 0 s')
        end
    end.

Definition replace (old new s : string) : string := replace_from old new 0 s.

Fixpoint has_slash (s : string) : bool :=
    match s with
    | EmptyString => false
    | String a s' => Ascii.eqb a "/" || has_slash s'
    end.

  (** [os.path.basename(p)], on a system with POSIX paths: what follows the
      last slash, [p[p.rfind("/") + 1:]]. *)
Fixpoint basename (p : string) : string :=
    match p with
    | EmptyString => EmptyString
    | String a p' =>
        if has_slash p' then basename p'
        else if Ascii.eqb a "/" then p' else p
    end.

Definition is_continuation (a : ascii) : bool :=
    let n := nat_of_ascii a in
    (128 <=? n)%nat && (n <? 192)%nat.

  (** One character: a leading byte with its continuation bytes. *)
Definition one_char (c : string) : bool :=
    match c with
    | EmptyString => false
    | String a rest =>
        let n := nat_of_ascii a in
        ((n <? 128)%nat || ((194 <=? n)%nat && (n <? 245)%nat))
        && (String.length rest =? continuation_bytes a)%nat
        && forallb is_continuation (list_ascii_of_string rest)
    end.

End PyStr.

(* ================================================================== *)
(** * Hierarchical identifiers (gdiff.py, lines 573-579) *)

(** [_get_id_list]: [[int(x[1:]) for x in idstr.split("::")]]. *)
Definition _get_id_list (idstr : string) : result (list Z) :=
  mapM (fun x => PyStr.int_of_str (PyStr.drop_first x)) (PyStr.split_colons idstr).

(** [_get_id_str]: ["::".join([f"n{i}" for i in id_list])]. *)
Definition _get_id_str (id_list : list Z) : string :=
  String.concat "::" (map (fun i => String "n" (PyStr.str_of_int i)) id_list).

Fixpoint all_digits (s : string) : bool :=
  match s with
  | EmptyString => true
  | String a s' => PyStr.is_digit a && all_digits s'
  end.

(** The canonical form of one identifier segment: the letter [n] followed by
    decimal digits with no leading zero. *)
Definition canonical_digits (ds : string) : bool :=
  match ds with
  | EmptyString => false
  | String a rest =>
      PyStr.is_digit a && all_digits rest
      && (negb (Ascii.eqb a "0") || String.eqb rest EmptyString)
  end.

Definition canonical_segment (x : string) : bool :=
  match x with
  | EmptyString => false
  | String a ds => Ascii.eqb a "n" && canonical_digits ds
  end.

(* ================================================================== *)
(** * The document model: what [xmltodict.parse] returns for a graphml file *)

(** The yEd realizer of a node (a [y:GroupNode] or a [y:ShapeNode]): the
    three attributes the engine reads and writes. *)
Record properties : Type := mkProperties {
  NodeLabel_text : string;      (* properties["y:NodeLabel"]["#text"] *)
  NodeLabel_fontSize : string;  (* properties["y:NodeLabel"]["@fontSize"] *)
  Fill_color : string           (* properties["y:Fill"]["@color"] *)
}.

(** One [data] element of a node.  A [ProxyAutoBoundsNode] holds
    [["y:Realizers"]["y:GroupNode"]]. *)
Inductive datum : Type :=
| ProxyAutoBoundsNode (GroupNode : one_or_many properties)
| ShapeNode (snode : one_or_many properties)
| OtherData.

(** An [edge] element.  A field is [None] when the dictionary has no such
    key; an endpoint that is present holds a Python value, which is [None]
    or a string once it went through the rename map. *)
Record edge : Type := mkEdge {
  edge_id : option string;      (* "@id" *)
  edge_source : option pystr;   (* "@source" *)
  edge_target : option pystr    (* "@target" *)
}.

Record graph_of (N : Type) : Type := mkGraph {
  graph_id : option string;               (* "@id" *)
  graph_node : option (one_or_many N);    (* "node" *)
  graph_edge : option (one_or_many edge)  (* "edge" *)
}.

Arguments mkGraph {N} _ _ _.
Arguments graph_id {N} _.
Arguments graph_node {N} _.
Arguments graph_edge {N} _.

(** A [node] element, and also the root [graphml] element, which has a
    ["graph"] but neither ["@id"] nor ["data"]. *)
#[local] Unset Elimination Schemes.
Inductive node : Type := mkNode {
  node_id : option string;                  (* "@id" *)
  node_data : option (one_or_many datum);   (* "data" *)
  node_graph : option (graph_of node)       (* "graph" *)
}.
#[local] Set Elimination Schemes.

(** A parsed document: the dictionary with the single key ["graphml"]. *)
Record document : Type := mkDocument { graphml : node }.

Definition graph := graph_of node.

(** ** References into a document

    The engine keeps references to nodes of a document on its stacks and
    mutates the nodes through them.  A reference is modelled as the path of
    child indices that leads from the root of the owning document to the
    node; a mutation through the reference is [set_at]. *)
Definition path := list nat.

Definition graph_nodes (g : graph) : list node :=
  match graph_node g with
  | Some (One n) => [n]
  | Some (Many l) => l
  | None => []
  end.

Definition kids (n : node) : list node :=
  match node_graph n with
  | Some g => graph_nodes g
  | None => []
  end.

Fixpoint get_at (n : node) (p : path) : option node :=
  match p with
  | [] => Some n
  | i :: p' =>
      match nth_error (kids n) i with
      | Some c => get_at c p'
      | None => None
      end
  end.

Fixpoint set_nth {A} (i : nat) (x : A) (l : list A) : list A :=
  match l, i with
  | [], _ => []
  | _ :: l', O => x :: l'
  | a :: l', S i' => a :: set_nth i' x l'
  end.

(** The children of [n] replaced by [l], the container keeping its kind. *)
Definition set_kids (n : node) (l : list node) : node :=
  match node_graph n with
  | Some g =>
      match graph_node g with
      | Some (One c) =>
          mkNode (node_id n) (node_data n)
            (Some (mkGraph (graph_id g) (Some (One (hd c l))) (graph_edge g)))
      | Some (Many _) =>
          mkNode (node_id n) (node_data n)
            (Some (mkGraph (graph_id g) (Some (Many l)) (graph_edge g)))
      | None => n
      end
  | None => n
  end.

Fixpoint set_at (n : node) (p : path) (x : node) : node :=
  match p with
  | [] => x
  | i :: p' =>
      match nth_error (kids n) i with
      | Some c => set_kids n (set_nth i (set_at c p' x) (kids n))
      | None => n
      end
  end.

(** A reference that points nowhere cannot arise in Python; the model
    answers [OutOfFuel] for it, like for the other artefact of the model. *)
Definition deref (root : node) (p : path) : result node :=
  from_option OutOfFuel (get_at root p).

Definition doc_set_at (d : document) (p : path) (x : node) : document :=
  mkDocument (set_at (graphml d) p x).

(** The number of [node] elements of a tree, the root included: the number
    of iterations of every traversal loop of the engine on that tree. *)
Fixpoint size (n : node) : nat :=
  match n with
  | mkNode _ _ (Some (mkGraph _ (Some (One c)) _)) => S (size c)
  | mkNode _ _ (Some (mkGraph _ (Some (Many l)) _)) => S (list_sum (map size l))
  | _ => 1
  end.

(* ================================================================== *)
(** * Node accessors (gdiff.py, lines 437-505 and 539-571) *)

Definition cant_find : exn := RuntimeError "Can't find properties for nodes".

(** [gnode[0]] if [gnode] is a list, else [gnode]. *)
Definition realizer_first (r : one_or_many properties) : result properties :=
  match r with
  | One p => Ok p
  | Many [] => Err IndexError
  | Many (p :: _) => Ok p
  end.

(** The loop of lines 440-454 over a list of [data] elements: [cur] is the
    variable [properties], bound once a realizer was met. *)
Fixpoint data_list_properties (l : list datum) (cur : option properties)
  : result (option properties) :=
  match l with
  | [] => Ok cur
  | ProxyAutoBoundsNode r :: l' | ShapeNode r :: l' =>
      p <- realizer_first r ;; data_list_properties l' (Some p)
  | OtherData :: l' => data_list_properties l' cur
  end.

(** [_get_node_properties].  When ["data"] is a single dictionary the
    realizer is returned as it is, also when it is a list; every caller
    subscripts the result with a string at once, which is a [TypeError] on
    a list, raised here. *)
Definition _get_node_properties (n : node) : result properties :=
  data <- from_option KeyError (node_data n) ;;
  match data with
  | Many l =>
      r <- data_list_properties l None ;;
      from_option cant_find r
  | One (ProxyAutoBoundsNode (One p)) => Ok p
  | One (ShapeNode (One p)) => Ok p
  | One (ProxyAutoBoundsNode (Many _)) => Err TypeError
  | One (ShapeNode (Many _)) => Err TypeError
  | One OtherData => Err cant_find
  end.

(** The dictionary returned by [_get_node_properties] is a reference into
    the node; writing an attribute of it is writing it in the node. *)
Definition realizer_set (r : one_or_many properties) (p' : properties)
  : one_or_many properties :=
  match r with
  | One _ => One p'
  | Many [] => Many []
  | Many (_ :: l) => Many (p' :: l)
  end.

Definition is_realizer (d : datum) : bool :=
  match d with
  | OtherData => false
  | _ => true
  end.

Definition datum_set (d : datum) (p' : properties) : datum :=
  match d with
  | ProxyAutoBoundsNode r => ProxyAutoBoundsNode (realizer_set r p')
  | ShapeNode r => ShapeNode (realizer_set r p')
  | OtherData => OtherData
  end.

Fixpoint data_list_set (l : list datum) (p' : properties) : list datum :=
  match l with
  | [] => []
  | d :: l' =>
      if existsb is_realizer l' then d :: data_list_set l' p'
      else datum_set d p' :: l'
  end.

Definition set_node_properties (n : node) (p' : properties) : node :=
  match node_data n with
  | Some (Many l) =>
      mkNode (node_id n) (Some (Many (data_list_set l p'))) (node_graph n)
  | Some (One d) =>
      mkNode (node_id n) (Some (One (datum_set d p'))) (node_graph n)
  | None => n
  end.

Definition _get_node_name (n : node) : result string :=
  p <- _get_node_properties n ;; Ok (NodeLabel_text p).

Definition _get_node_color (n : node) : result string :=
  p <- _get_node_properties n ;; Ok (Fill_color p).

(** [_resize_node_font]: [properties["y:NodeLabel"]["@fontSize"] = str(size)]. *)
Definition _resize_node_font (n : node) (size : Z) : result node :=
  p <- _get_node_properties n ;;
  Ok (set_node_properties n
        (mkProperties (NodeLabel_text p) (PyStr.str_of_int size) (Fill_color p))).

Definition _get_font_size (n : node) : result Z :=
  p <- _get_node_properties n ;; PyStr.int_of_str (NodeLabel_fontSize p).

Definition unknown_color (c : string) : exn :=
  RuntimeError ("Node color " ++ c ++ " doesn't match known colors")%string.

Definition _get_color_id (n : node) : result nat :=
  curr_color <- _get_node_color n ;;
  if String.eqb curr_color "#D2D2D2" then Ok 0%nat
  else if String.eqb curr_color "#FFFFFF" then Ok 1%nat
  else if String.eqb curr_color "#FFCC00" then Ok 2%nat
  else Err (unknown_color curr_color).

Definition _color_node (n : node) (color : string) : result node :=
  p <- _get_node_properties n ;;
  Ok (set_node_properties n
        (mkProperties (NodeLabel_text p) (NodeLabel_fontSize p) color)).

Definition _get_node_id (n : node) : pystr := node_id n.

Definition _set_node_id (n : node) (idstr : string) : node :=
  match node_id n with
  | Some _ => mkNode (Some idstr) (node_data n) (node_graph n)
  | None => n
  end.

(** [node["@id"]] *)
Definition subscript_id (n : node) : result string :=
  from_option KeyError (node_id n).

(** [l[i]] on a list *)
Definition index {A} (l : list A) (i : nat) : result A :=
  from_option IndexError (nth_error l i).

(** The palette: three lists of fill colours, indexed by colour class. *)
Record palette : Type := mkPalette {
  pal_g1 : list string;         (* colors["g1"] *)
  pal_g2 : list string;         (* colors["g2"] *)
  pal_intersect : list string   (* colors["intersect"] *)
}.

(** [self.colors], set by [__init__] and never changed. *)
Definition self_colors : palette :=
  mkPalette ["#dadbfd"; "#e6e7fe"; "#f3f3ff"]
            ["#ff9e81"; "#ffbfaa"; "#ffdfd4"]
            ["#c4ed9e"; "#d9f4be"; "#ecf9df"].

(** The rename map: a Python [dict] from identifiers to identifiers, in
    insertion order. *)
Definition rename_map := list (pystr * pystr).

Fixpoint dict_set (k v : pystr) (m : rename_map) : rename_map :=
  match m with
  | [] => [(k, v)]
  | (k', v') :: m' =>
      if pystr_eqb k' k then (k', v) :: m' else (k', v') :: dict_set k v m'
  end.

Fixpoint dict_get (m : rename_map) (k : pystr) : result pystr :=
  match m with
  | [] => Err KeyError
  | (k', v') :: m' => if pystr_eqb k' k then Ok v' else dict_get m' k
  end.
(* ================================================================== *)
(** * The Path Resolver: [_get_node_from_names] (lines 403-435) *)

(** The first argument of [_get_node_from_names] is a whole document (a
    dictionary with the key ["graphml"]) or an element. *)
Inductive gdict : Type :=
| Doc (d : document)
| Elem (n : node).

Definition gdict_root (g : gdict) : node :=
  match g with
  | Doc d => graphml d
  | Elem n => n
  end.

(** [x["graph"]["node"]] *)
Definition subscript_graph_node (n : node) : result (one_or_many node) :=
  g <- from_option KeyError (node_graph n) ;;
  from_option KeyError (graph_node g).

(** The [for cnode in nodes] loop of lines 417-425: the first node of the
    list whose label is [key], with its index; the labels of the nodes
    before it are computed, and may raise. *)
Fixpoint scan_nodes (l : list node) (key : string) (i : nat)
  : result (option (nat * node)) :=
  match l with
  | [] => Ok None
  | cnode :: l' =>
      cname <- _get_node_name cnode ;;
      if String.eqb cname key then Ok (Some (i, cnode))
      else scan_nodes l' key (S i)
  end.

(** The [while len(copy_names) > 0] loop.  [nodes] is the variable of that
    name and [owner] the reference to the node it was read from; [bound] is
    the variable [node], [None] while it is unbound; [found] is the flag.
    A node is returned with the reference to it. *)
Fixpoint names_loop (copy_names : list string) (nodes : one_or_many node)
    (owner : path) (bound : option (path * node)) (found : bool)
  : result (option (path * node)) :=
  match copy_names with
  | [] => Ok (if found then bound else None)
  | key :: rest =>
      match nodes with
      | Many l =>
          r <- scan_nodes l key 0 ;;
          match r with
          | Some (i, cnode) =>
              match node_graph cnode with
              | Some g =>
                  nodes' <- from_option KeyError (graph_node g) ;;
                  names_loop rest nodes' (owner ++ [i])
                             (Some (owner ++ [i], cnode)) true
              | None =>
                  names_loop rest nodes owner (Some (owner ++ [i], cnode)) true
              end
          | None => names_loop rest nodes owner bound false
          end
      | One n =>
          cname <- _get_node_name n ;;
          let hit := String.eqb cname key in
          let bound' := if hit then Some (owner ++ [0%nat], n) else bound in
          match bound' with
          | None => Err UnboundLocalError
          | Some (p, nd) =>
              match node_graph nd with
              | Some g =>
                  nodes' <- from_option KeyError (graph_node g) ;;
                  names_loop rest nodes' p bound' hit
              | None => names_loop rest nodes owner bound' hit
              end
          end
      end
  end.

Definition _get_node_from_names (g : gdict) (names : list string)
  : result (option (path * node)) :=
  nodes <- subscript_graph_node (gdict_root g) ;;
  match names with
  | [] => Ok (Some ([], gdict_root g))
  | _ => names_loop names nodes [] None false
  end.

(* ================================================================== *)
(** * The explicit-stack traversal shared by the five walks *)

(** A stack entry [(curr_keys, curr_names, curr_node)].  The node is held
    as a value when the walked document is not mutated during the walk, and
    as a reference when it is. *)
Definition ventry : Type := list string * list string * node.
Definition rentry : Type := list string * list string * path.

Definition child_entry (curr_keys curr_names : list string) (n : node)
  : result ventry :=
  id <- subscript_id n ;;
  name <- _get_node_name n ;;
  Ok (curr_keys ++ [id], curr_names ++ [name], n).

(** The block [if "graph" in curr_node.keys(): ...] that ends every loop
    body (lines 206-223, 306-339, 357-374, 384-401, 640-661): the entries
    appended to the stack, in the order they are appended. *)
Definition push_children (curr_keys curr_names : list string) (curr_node : node)
  : result (list ventry) :=
  match node_graph curr_node with
  | None => Ok []
  | Some g =>
      nodes <- from_option KeyError (graph_node g) ;;
      match nodes with
      | Many l => mapM (child_entry curr_keys curr_names) l
      | One n => e <- child_entry curr_keys curr_names n ;; Ok [e]
      end
  end.

Fixpoint enumerate_from {A} (i : nat) (l : list A) : list (nat * A) :=
  match l with
  | [] => []
  | x :: l' => (i, x) :: enumerate_from (S i) l'
  end.

(** The same entries when the nodes are held by reference: the [i]-th child
    of the node at [p] is at [p ++ [i]]. *)
Definition push_children_ref (curr_keys curr_names : list string) (p : path)
    (curr_node : node) : result (list rentry) :=
  es <- push_children curr_keys curr_names curr_node ;;
  Ok (map (fun ie : nat * ventry =>
             let '(i, (k, nm, _)) := ie in (k, nm, p ++ [i]))
          (enumerate_from 0 es)).

(** [while len(node_stack) > 0: ... node_stack.pop(-1) ...]: the head of the
    list is the top of the stack, that is the last element of the Python
    list; [step] answers the entries it appends, in order, so that the last
    one appended is the next one popped.  [fuel] bounds the iterations. *)
Section Run.
Variables E S : Type.
Variable step : E -> S -> result (list E * S).

Fixpoint run (fuel : nat) (node_stack : list E) (s : S) : result S :=
    match node_stack with
    | [] => Ok s
    | e :: rest =>
        match fuel with
        | O => Err OutOfFuel
        | Datatypes.S fuel' =>
            '(pushed, s') <- step e s ;;
            run fuel' (rev pushed ++ rest) s'
        end
    end.
End Run.

Definition nonempty {A} (l : list A) : bool :=
  match l with
  | [] => false
  | _ => true
  end.

(** A walk that mutates every node but the root in place ([_recolor_graph]
    and [_resize_fonts], lines 351-374 and 378-401): [visit] is the
    statement under [if len(curr_names) > 0]. *)
Definition walk_step (visit : node -> result node) (e : rentry) (g : node)
  : result (list rentry * node) :=
  let '(curr_keys, curr_names, ref) := e in
  curr_node <- deref g ref ;;
  curr_node' <- (if nonempty curr_names then visit curr_node else Ok curr_node) ;;
  pushed <- push_children_ref curr_keys curr_names ref curr_node' ;;
  Ok (pushed, set_at g ref curr_node').

Definition walk (visit : node -> result node) (g : document) : result document :=
  r <- run (walk_step visit) (size (graphml g)) [(["graphml"], [], [])] (graphml g) ;;
  Ok (mkDocument r).

(** Line 355: [self._color_node(curr_node, color_list[self._get_color_id(curr_node)])]. *)
Definition recolor_visit (color_list : list string) (curr_node : node)
  : result node :=
  cid <- _get_color_id curr_node ;;
  c <- index color_list cid ;;
  _color_node curr_node c.

(** [_recolor_graph]: the walk runs on a deep copy, which is returned. *)
Definition _recolor_graph (g : document) (color_list : list string)
  : result document :=
  walk (recolor_visit color_list) g.

(** Line 382: [self._resize_node_font(curr_node, add_to_font)]. *)
Definition resize_visit (add_to_font : Z) (curr_node : node) : result node :=
  _resize_node_font curr_node add_to_font.

(** [_resize_fonts]: the walk runs on [g] itself; the result is the state
    of [g] afterwards. *)
Definition _resize_fonts (g : document) (add_to_font : Z) : result document :=
  walk (resize_visit add_to_font) g.
(* ================================================================== *)
(** * The engine state *)

(** The attributes of a [BNGGdiff] object that the engine reads or writes:
    the paths of the two input files, the names of the two output files, the
    two parsed documents, the mode.  [gdict_1_recolor] and [gdict_2_recolor]
    do not exist before the first [_find_diff]. *)
Record BNGGdiff : Type := mkBNGGdiff {
  input : string;
  input2 : string;
  output : string;
  output2 : string;
  gdict_1 : document;
  gdict_2 : document;
  gdict_1_recolor : option document;
  gdict_2_recolor : option document;
  mode : string
}.

Definition invalid_mode (m : string) : exn :=
  RuntimeError
    ("Mode " ++ m ++ " is not a valid mode, please choose from ['matrix', 'union']")%string.

(** [__init__] (lines 25-51).  [parsed1] and [parsed2] are what
    [xmltodict.parse] makes of the two files; the reading of the files is
    outside the model. *)
Definition __init__ (inp1 inp2 : string) (out out2 : option string)
    (mode : string) (parsed1 parsed2 : document) : result BNGGdiff :=
  let iname1 := PyStr.replace ".graphml" "" (PyStr.basename inp1) in
  let iname2 := PyStr.replace ".graphml" "" (PyStr.basename inp2) in
  let out := match out with
             | Some o => o
             | None => (iname1 ++ "_" ++ iname2 ++ "_diff.graphml")%string
             end in
  let out2 := match out2 with
              | Some o => o
              | None => (iname2 ++ "_" ++ iname1 ++ "_diff.graphml")%string
              end in
  if String.eqb mode "matrix" || String.eqb mode "union"
  then Ok (mkBNGGdiff inp1 inp2 out out2 parsed1 parsed2 None None mode)
  else Err (invalid_mode mode).

(** [run] calls [diff_graphs] on [self.gdict_1] and [self.gdict_2]: the
    documents the engine works on are the two objects held by [self].  An
    argument [g1] or [g2] is a reference to one of them, so that what
    [_resize_fonts] does to [self.gdict_1] is seen through [g1]. *)
Inductive docref : Type :=
| Gdict1
| Gdict2.

Definition doc_of (self : BNGGdiff) (r : docref) : document :=
  match r with
  | Gdict1 => gdict_1 self
  | Gdict2 => gdict_2 self
  end.

(* ================================================================== *)
(** * The Differ: [_find_diff] (lines 253-347) *)

(** [self._color_node(curr_dnode, slot[self._get_color_id(curr_dnode)])],
    [curr_dnode] being the node of [dg] at [dref]. *)
Definition paint (dg : node) (dref : path) (curr_dnode : node)
    (slot : list string) : result node :=
  cid <- _get_color_id curr_dnode ;;
  c <- index slot cid ;;
  n' <- _color_node curr_dnode c ;;
  Ok (set_at dg dref n').

Definition has_data (n : node) : bool :=
  match node_data n with
  | Some _ => true
  | None => false
  end.

(** Lines 280-304. *)
Definition find_diff_paint (colors : palette) (curr_names : list string)
    (curr_node : node) (g2node : option (path * node)) (dref : path) (dg : node)
  : result node :=
  if nonempty curr_names then
    curr_name <- _get_node_name curr_node ;;
    curr_dnode <- deref dg dref ;;
    match g2node with
    | Some (_, g2n) =>
        if has_data g2n then
          g2name <- _get_node_name g2n ;;
          (* [g2name is not None or curr_name is not None]: both are strings *)
          if String.eqb g2name curr_name
          then paint dg dref curr_dnode (pal_intersect colors)
          else paint dg dref curr_dnode (pal_g1 colors)
        else Ok dg
    | None =>
        if has_data curr_dnode
        then paint dg dref curr_dnode (pal_g1 colors)
        else Ok dg
    end
  else Ok dg.

(** [curr_dnode["graph"]["node"][inode]] *)
Definition subscript_dnode (curr_dnode : node) (inode : nat) : result node :=
  nodes <- subscript_graph_node curr_dnode ;;
  match nodes with
  | Many dl => index dl inode
  | One _ => Err KeyError
  end.

(** Lines 306-339: the entries appended to [node_stack] and to
    [dnode_stack], pairwise. *)
Definition push_children2 (curr_keys curr_names : list string) (curr_node : node)
    (curr_dkeys curr_dnames : list string) (dref : path) (curr_dnode : node)
  : result (list (ventry * rentry)) :=
  match node_graph curr_node with
  | None => Ok []
  | Some g =>
      nodes <- from_option KeyError (graph_node g) ;;
      match nodes with
      | Many l =>
          mapM (fun inode_node : nat * node =>
                  let '(inode, n) := inode_node in
                  e <- child_entry curr_keys curr_names n ;;
                  dnode <- subscript_dnode curr_dnode inode ;;
                  did <- subscript_id dnode ;;
                  dname <- _get_node_name dnode ;;
                  Ok (e, (curr_dkeys ++ [did], curr_dnames ++ [dname],
                          dref ++ [inode])))
               (enumerate_from 0 l)
      | One n =>
          e <- child_entry curr_keys curr_names n ;;
          dnodes <- subscript_graph_node curr_dnode ;;
          match dnodes with
          | One dn =>
              dname <- _get_node_name dn ;;
              Ok [(e, (fst (fst e), curr_dnames ++ [dname], dref ++ [0%nat]))]
          | Many _ => Err TypeError
          end
      end
  end.

(** One iteration of the loop of lines 272-339. *)
Definition find_diff_body (g2 : document) (colors : palette)
    (e : ventry) (de : rentry) (dg : node) (rm : rename_map)
  : result (list (ventry * rentry) * node * rename_map) :=
  let '(curr_keys, curr_names, curr_node) := e in
  let '(curr_dkeys, curr_dnames, dref) := de in
  let rm' := dict_set (_get_node_id curr_node) (_get_node_id curr_node) rm in
  g2node <- _get_node_from_names (Doc g2) curr_names ;;
  dg' <- find_diff_paint colors curr_names curr_node g2node dref dg ;;
  curr_dnode <- deref dg' dref ;;
  pushed <- push_children2 curr_keys curr_names curr_node
                           curr_dkeys curr_dnames dref curr_dnode ;;
  Ok (pushed, dg', rm').

Fixpoint find_diff_loop (g2 : document) (colors : palette) (fuel : nat)
    (node_stack : list ventry) (dnode_stack : list rentry)
    (dg : node) (rm : rename_map) : result (node * rename_map) :=
  match node_stack with
  | [] => Ok (dg, rm)
  | e :: node_stack' =>
      match fuel with
      | O => Err OutOfFuel
      | S fuel' =>
          match dnode_stack with
          | [] => Err IndexError
          | de :: dnode_stack' =>
              '(pushed, dg', rm') <- find_diff_body g2 colors e de dg rm ;;
              find_diff_loop g2 colors fuel'
                (rev (map fst pushed) ++ node_stack')
                (rev (map snd pushed) ++ dnode_stack') dg' rm'
          end
      end
  end.

(** [_find_diff(g1, g2, colors=colors)]; [dg] is never passed, so it is the
    deep copy of [g1].  The result is the new state of [self], the painted
    copy and the rename map. *)
Definition _find_diff (self : BNGGdiff) (g1 g2 : docref) (colors : palette)
  : result (BNGGdiff * document * rename_map) :=
  let d1 := doc_of self g1 in
  let d2 := doc_of self g2 in
  '(dg, rm) <- find_diff_loop d2 colors (size (graphml d1))
                 [(["graphml"], [], graphml d1)] [(["graphml"], [], [])]
                 (graphml d1) [] ;;
  r1 <- _recolor_graph (gdict_1 self) (pal_g1 self_colors) ;;
  r2 <- _recolor_graph (gdict_2 self) (pal_g2 self_colors) ;;
  g1' <- _resize_fonts (gdict_1 self) 20 ;;
  g2' <- _resize_fonts (gdict_2 self) 20 ;;
  dg' <- _resize_fonts (mkDocument dg) 20 ;;
  Ok (mkBNGGdiff (input self) (input2 self) (output self) (output2 self)
        g1' g2' (Some r1) (Some r2) (mode self), dg', rm).

(* ================================================================== *)
(** * The Merger: [_add_node_to_graph] and [_find_diff_union] *)

(** [new_id[-1] += 1] *)
Fixpoint incr_last (l : list Z) : result (list Z) :=
  match l with
  | [] => Err IndexError
  | [x] => Ok [(x + 1)%Z]
  | x :: l' => r <- incr_last l' ;; Ok (x :: r)
  end.

(** [_get_id_list(idstr)] where [idstr] may be [None], which has no
    [split]. *)
Definition id_list_of (idstr : pystr) : result (list Z) :=
  s <- from_option AttributeError idstr ;; _get_id_list s.

(** Lines 589-595 and 603-607: the identifier given to the inserted node,
    from the nodes that are already under its parent. *)
Definition fresh_sibling_id (nodes : one_or_many node) : result string :=
  match nodes with
  | Many l =>
      node_lists <- mapM (fun n => id_list_of (_get_node_id n)) l ;;
      new_id <- from_option IndexError (last (map Some node_lists) None) ;;
      new_id' <- incr_last new_id ;;
      Ok (_get_id_str new_id')
  | One og =>
      new_id <- id_list_of (_get_node_id og) ;;
      new_id' <- incr_last new_id ;;
      Ok (_get_id_str new_id')
  end.

(** One iteration of the loop of lines 620-661, which re-identifies and
    recolours the descendants of the inserted node [copied_node]; the
    entries refer into [copied_node]. *)
Definition relabel_step (colors : palette) (e : rentry)
    (s : node * rename_map) : result (list rentry * (node * rename_map)) :=
  let '(curr_keys, curr_names, ref) := e in
  let '(copied_node, rmap) := s in
  curr_node <- deref copied_node ref ;;
  '(curr_node', rmap') <-
    (if nonempty curr_names then
       parent <- _get_node_from_names (Elem copied_node) (removelast curr_names) ;;
       cid <- _get_color_id curr_node ;;
       c <- index (pal_g2 colors) cid ;;
       painted <- _color_node curr_node c ;;
       parent_node_id <- match parent with
                         | Some (_, pn) => Ok (_get_node_id pn)
                         | None => Err TypeError
                         end ;;
       new_id <- id_list_of parent_node_id ;;
       curr_id <- id_list_of (_get_node_id painted) ;;
       l <- from_option IndexError (last (map Some curr_id) None) ;;
       let new_id_str := _get_id_str (new_id ++ [l]) in
       Ok (_set_node_id painted new_id_str,
           dict_set (Some (_get_id_str curr_id)) (Some new_id_str) rmap)
     else Ok (curr_node, rmap)) ;;
  pushed <- push_children_ref curr_keys curr_names ref curr_node' ;;
  Ok (pushed, (set_at copied_node ref curr_node', rmap')).

(** [copied_node["graph"]["@id"] = self._get_node_id(copied_node) + ":"] *)
Definition rename_graph (copied_node : node) : result node :=
  match node_graph copied_node with
  | Some g =>
      match graph_id g with
      | Some _ =>
          id <- from_option TypeError (_get_node_id copied_node) ;;
          Ok (mkNode (node_id copied_node) (node_data copied_node)
                (Some (mkGraph (Some (id ++ ":")%string) (graph_node g) (graph_edge g))))
      | None => Ok copied_node
      end
  | None => Ok copied_node
  end.

(** [node_to_add_to["graph"]["node"]] set to the list [l]. *)
Definition set_node_list (n : node) (l : list node) : node :=
  match node_graph n with
  | Some g =>
      mkNode (node_id n) (node_data n)
        (Some (mkGraph (graph_id g) (Some (Many l)) (graph_edge g)))
  | None => n
  end.

(** [_add_node_to_graph(node, dg, names, colors=colors, rmap=rename_map)].
    The copy is appended to the list of its parent before its descendants
    are relabelled, and the list holds a reference to it: what the document
    ends up with is the relabelled copy. *)
Definition _add_node_to_graph (n : node) (dg : document) (names : list string)
    (colors : palette) (rmap : rename_map) : result (document * rename_map) :=
  node_to_add_to <- _get_node_from_names (Doc dg) (removelast names) ;;
  cid <- _get_color_id n ;;
  c <- index (pal_g2 colors) cid ;;
  copied_node <- _color_node n c ;;
  match node_to_add_to with
  | None => Err AttributeError
  | Some (pref, parent) =>
      match node_graph parent with
      | None => Ok (dg, rmap)
      | Some g =>
          nodes <- from_option KeyError (graph_node g) ;;
          new_id <- fresh_sibling_id nodes ;;
          let copied_node1 := _set_node_id copied_node new_id in
          let rmap1 := dict_set (_get_node_id n) (_get_node_id copied_node1) rmap in
          '(copied_node2, rmap2) <-
            (match node_graph copied_node1 with
             | Some _ =>
                 renamed <- rename_graph copied_node1 ;;
                 run (relabel_step colors) (size renamed) [([], [], [])]
                     (renamed, rmap1)
             | None => Ok (copied_node1, rmap1)
             end) ;;
          let siblings := match nodes with One og => [og] | Many l => l end in
          Ok (doc_set_at dg pref (set_node_list parent (siblings ++ [copied_node2])),
              rmap2)
      end
  end.

(** One iteration of the loop of lines 187-223 over the nodes of [g2]. *)
Definition union_step (g1 : document) (colors : palette) (e : ventry)
    (s : document * rename_map) : result (list ventry * (document * rename_map)) :=
  let '(curr_keys, curr_names, curr_node) := e in
  let '(dg, rename_map) := s in
  dnode <- _get_node_from_names (Doc g1) curr_names ;;
  s' <- (if nonempty curr_names then
           match dnode with
           | None =>
               dgnode <- _get_node_from_names (Doc dg) curr_names ;;
               match dgnode with
               | None => _add_node_to_graph curr_node dg curr_names colors rename_map
               | Some (_, dgn) =>
                   Ok (dg, dict_set (_get_node_id curr_node) (_get_node_id dgn)
                                    rename_map)
               end
           | Some (_, dn) =>
               Ok (dg, dict_set (_get_node_id curr_node) (_get_node_id dn)
                                rename_map)
           end
         else Ok s) ;;
  pushed <- push_children curr_keys curr_names curr_node ;;
  Ok (pushed, s').

(** [x["graphml"]["graph"]["edge"]] *)
Definition subscript_edges (d : document) : result (one_or_many edge) :=
  g <- from_option KeyError (node_graph (graphml d)) ;;
  from_option KeyError (graph_edge g).

(** The loop of lines 233-245 over the edges already in [dg]: whether it
    ends with [to_add = False]. *)
Fixpoint edge_present (dedges : list edge) (source target : pystr) : result bool :=
  match dedges with
  | [] => Ok false
  | dedge :: rest =>
      ds <- from_option KeyError (edge_source dedge) ;;
      exact <- (if pystr_eqb ds source
                then dt <- from_option KeyError (edge_target dedge) ;;
                     Ok (pystr_eqb dt target)
                else Ok false) ;;
      if exact then Ok true
      else
        dt <- from_option KeyError (edge_target dedge) ;;
        inverse <- (if pystr_eqb dt source
                    then ds' <- from_option KeyError (edge_source dedge) ;;
                         Ok (pystr_eqb ds' target)
                    else Ok false) ;;
        if inverse then Ok true else edge_present rest source target
  end.

Definition key_count {A} (o : option A) : nat :=
  match o with
  | Some _ => 1
  | None => 0
  end.

(** [len(x)] where [x] is a list of edges or the dictionary of a single
    edge, whose length is its number of keys. *)
Definition len_edges (es : one_or_many edge) : Z :=
  match es with
  | Many l => Z.of_nat (length l)
  | One e =>
      Z.of_nat (key_count (edge_id e) + key_count (edge_source e)
                + key_count (edge_target e))
  end.

(** The body of the loop of lines 227-249 for one edge of [g2].  When the
    edges of [dg] are a single dictionary, iterating it yields its keys,
    strings, and subscripting a string with ["@source"] is a [TypeError]. *)
Definition union_edge (rename_map : rename_map)
    (s : one_or_many edge * Z) (e : edge) : result (one_or_many edge * Z) :=
  let '(dedges, edge_ctr) := s in
  src <- from_option KeyError (edge_source e) ;;
  source <- dict_get rename_map src ;;
  tgt <- from_option KeyError (edge_target e) ;;
  target <- dict_get rename_map tgt ;;
  match dedges with
  | One _ =>
      (* the loop runs over the keys of the dictionary; with no key at all
         it is [dict.append] that fails *)
      if Z.eqb (len_edges dedges) 0 then Err AttributeError else Err TypeError
  | Many dl =>
      present <- edge_present dl source target ;;
      if present then Ok s
      else
        Ok (Many (dl ++ [mkEdge (Some ("e" ++ PyStr.str_of_int edge_ctr)%string)
                                (Some source) (Some target)]),
            (edge_ctr + 1)%Z)
  end.

Fixpoint foldM {A B} (f : A -> B -> result A) (a : A) (l : list B) : result A :=
  match l with
  | [] => Ok a
  | x :: l' => a' <- f a x ;; foldM f a' l'
  end.

(** What [for edge in g2["graphml"]["graph"]["edge"]] runs over.  A single
    edge is a dictionary: the loop variable is then one of its keys, a
    string, and [edge["@source"]] is a [TypeError] at the first one. *)
Definition edges_iter (es : one_or_many edge) : result (list edge) :=
  match es with
  | Many l => Ok l
  | One _ => if Z.eqb (len_edges es) 0 then Ok [] else Err TypeError
  end.

(** Lines 226-249. *)
Definition union_edges (rename_map : rename_map) (dg g2 : document)
  : result document :=
  dedges <- subscript_edges dg ;;
  let edge_ctr := len_edges dedges in
  g2edges <- subscript_edges g2 ;;
  l <- edges_iter g2edges ;;
  '(dedges', _) <- foldM (union_edge rename_map) (dedges, edge_ctr) l ;;
  match node_graph (graphml dg) with
  | Some g =>
      Ok (mkDocument
            (mkNode (node_id (graphml dg)) (node_data (graphml dg))
               (Some (mkGraph (graph_id g) (graph_node g) (Some dedges')))))
  | None => Err KeyError
  end.

Definition _find_diff_union (self : BNGGdiff) (g1 g2 : docref) (colors : palette)
  : result (BNGGdiff * document) :=
  '(self', dg, rename_map) <- _find_diff self g1 g2 colors ;;
  let d1 := doc_of self' g1 in
  let d2 := doc_of self' g2 in
  '(dg', rename_map') <- run (union_step d1 colors) (size (graphml d2))
                           [(["graphml"], [], graphml d2)] (dg, rename_map) ;;
  dg'' <- union_edges rename_map' dg' d2 ;;
  Ok (self', dg'').

(* ================================================================== *)
(** * [diff_graphs] and [run] (lines 100-138 and 664-671) *)

(** The dictionary [graphs]: its keys are the names of the files to write.
    [graphs[k] = v] replaces the value of a key that is already there and
    adds the key at the end otherwise. *)
Definition graphs_dict := list (string * document).

Fixpoint graphs_set (k : string) (v : document) (graphs : graphs_dict) : graphs_dict :=
  match graphs with
  | [] => [(k, v)]
  | (k', v') :: graphs' =>
      if String.eqb k' k then (k', v) :: graphs'
      else (k', v') :: graphs_set k v graphs'
  end.

Fixpoint graphs_get (graphs : graphs_dict) (k : string) : option document :=
  match graphs with
  | [] => None
  | (k', v') :: graphs' => if String.eqb k' k then Some v' else graphs_get graphs' k
  end.

(** [os.path.basename(inp).replace(".graphml", "_recolored.graphml")] *)
Definition recolor_name (inp : string) : string :=
  PyStr.replace ".graphml" "_recolored.graphml" (PyStr.basename inp).

(** [f"{g1_name}_{g2_name}_union.graphml"] *)
Definition union_name (inp inp2 : string) : string :=
  (PyStr.replace ".graphml" "" (PyStr.basename inp) ++ "_"
   ++ PyStr.replace ".graphml" "" (PyStr.basename inp2) ++ "_union.graphml")%string.

(** In matrix mode the recoloured documents stored are the ones [self]
    holds after the first direction; the second direction gives [self] new
    ones and leaves these as they are. *)
Definition diff_graphs (self : BNGGdiff) (g1 g2 : docref) (colors : palette)
  : result (BNGGdiff * graphs_dict) :=
  if String.eqb (mode self) "matrix" then
    '(self1, diff_gml, _) <- _find_diff self g1 g2 colors ;;
    let graphs := graphs_set (output self1) diff_gml [] in
    let g1_recolor_name := recolor_name (input self1) in
    r1 <- from_option AttributeError (gdict_1_recolor self1) ;;
    let graphs := graphs_set g1_recolor_name r1 graphs in
    let g2_recolor_name := recolor_name (input2 self1) in
    r2 <- from_option AttributeError (gdict_2_recolor self1) ;;
    let graphs := graphs_set g2_recolor_name r2 graphs in
    '(self2, diff_gml_2, _) <-
       _find_diff self1 g2 g1
         (mkPalette (pal_g2 colors) (pal_g1 colors) (pal_intersect colors)) ;;
    Ok (self2, graphs_set (output2 self2) diff_gml_2 graphs)
  else if String.eqb (mode self) "union" then
    '(self1, union_gml) <- _find_diff_union self g1 g2 colors ;;
    Ok (self1, graphs_set (union_name (input self) (input2 self)) union_gml [])
  else Err (invalid_mode (mode self)).

(** [run]: [self.diff_graphs(self.gdict_1, self.gdict_2, self.colors)]; the
    writing of the files is outside the model. *)
Definition run_gdiff (self : BNGGdiff) : result (BNGGdiff * graphs_dict) :=
  diff_graphs self Gdict1 Gdict2 self_colors.
(* ================================================================== *)
(** * Specification vocabulary: what the claims are stated with *)

(** The label of a node, the empty string when it has none. *)
Definition label_of (n : node) : string :=
  match _get_node_name n with
  | Ok s => s
  | Err _ => EmptyString
  end.

(** The label path of the node at [p]: the labels met on the way down. *)
Fixpoint labels_along (n : node) (p : path) : list string :=
  match p with
  | [] => []
  | i :: p' =>
      match nth_error (kids n) i with
      | Some c => label_of c :: labels_along c p'
      | None => []
      end
  end.

(** [f] applied to every node of a tree, each with its label path, the
    shape of the tree being kept: the closed form of a traversal that
    mutates the nodes one by one. *)
Fixpoint tmapn (f : list string -> node -> node) (names : list string)
    (n : node) : node :=
  set_kids (f names n)
    (match n with
     | mkNode _ _ (Some (mkGraph _ (Some (One c)) _)) =>
         [tmapn f (names ++ [label_of c]) c]
     | mkNode _ _ (Some (mkGraph _ (Some (Many l)) _)) =>
         map (fun c => tmapn f (names ++ [label_of c]) c) l
     | _ => []
     end).

Definition or_self (r : result node) (n : node) : node :=
  match r with
  | Ok n' => n'
  | Err _ => n
  end.

(** What a walk does to the node met under the label path [names]. *)
Definition walk_fn (visit : node -> result node) (names : list string)
    (n : node) : node :=
  if nonempty names then or_self (visit n) n else n.

(** What [_find_diff] does to the node of the copy met under [names]. *)
Definition paint_fn (g2 : document) (colors : palette) (names : list string)
    (n : node) : node :=
  match _get_node_from_names (Doc g2) names with
  | Ok g2node => or_self (find_diff_paint colors names n g2node [] n) n
  | Err _ => n
  end.

(** Every node of the tree, the root included, satisfies [P]. *)
Definition all_nodes (P : node -> Prop) (n : node) : Prop :=
  forall p c, get_at n p = Some c -> P c.

(** Every node below the root satisfies [P]. *)
Definition all_below (P : node -> Prop) (n : node) : Prop :=
  forall p c, p <> [] -> get_at n p = Some c -> P c.

(** A ["graph"], when there is one, has a ["node"]. *)
Definition graph_ok (n : node) : Prop :=
  forall g, node_graph n = Some g -> graph_node g <> None.

Definition known_color (c : string) : Prop :=
  c = "#D2D2D2" \/ c = "#FFFFFF" \/ c = "#FFCC00".

(** A node of a well-formed document: it has an identifier and a style
    block with one of the three recognised fill colours. *)
Definition styled (n : node) : Prop :=
  node_id n <> None
  /\ exists p, _get_node_properties n = Ok p /\ known_color (Fill_color p).

(** No two nodes of one graph have the same label. *)
Definition unique_labels (n : node) : Prop :=
  NoDup (map label_of (kids n)).

(** A well-formed document: the root has a graph, every graph has nodes,
    every node but the root is styled, sibling labels are unique. *)
Definition well_formed (d : document) : Prop :=
  node_graph (graphml d) <> None
  /\ all_nodes graph_ok (graphml d)
  /\ all_below styled (graphml d)
  /\ all_nodes unique_labels (graphml d).

(** Where the resolver can raise on a well-formed document: comparing a
    label that does not match against a single top-level node.  The
    top-level nodes being a list excludes it. *)
Definition top_level_list (d : document) : Prop :=
  exists g l, node_graph (graphml d) = Some g /\ graph_node g = Some (Many l).

Definition palette_ok (colors : palette) : Prop :=
  length (pal_g1 colors) = 3 /\ length (pal_g2 colors) = 3
  /\ length (pal_intersect colors) = 3.

(** Two edges with the same unordered pair of endpoints. *)
Definition same_pair (e1 e2 : edge) : Prop :=
  (edge_source e1 = edge_source e2 /\ edge_target e1 = edge_target e2)
  \/ (edge_source e1 = edge_target e2 /\ edge_target e1 = edge_source e2).

(** No two edges of the list share an unordered pair of endpoints. *)
Definition distinct_pairs (l : list edge) : Prop :=
  ForallOrdPairs (fun e1 e2 => ~ same_pair e1 e2) l.

Definition siblings_of (nodes : one_or_many node) : list node :=
  match nodes with
  | One og => [og]
  | Many l => l
  end.

(** A node on which the statement [visit] of a walk does not raise, and
    leaves the graph of the node alone. *)
Definition visitable (visit : node -> result node) (n : node) : Prop :=
  exists n', visit n = Ok n' /\ node_graph n' = node_graph n.

(** A node with an identifier and a label. *)
Definition named (n : node) : Prop :=
  node_id n <> None /\ exists s, _get_node_name n = Ok s.

(** A tree on which the walk with [visit] does not raise. *)
Definition walkable (visit : node -> result node) (n : node) : Prop :=
  all_nodes graph_ok n /\ all_below (fun c => named c /\ visitable visit c) n.

Definition id_of (n : node) : string :=
  match node_id n with
  | Some s => s
  | None => EmptyString
  end.

(** The stack entries of the children [ks] of the node at [p], the first of
    them being the child of index [i], each with the child it refers to. *)
Fixpoint child_refs (keys names : list string) (p : path) (i : nat)
    (ks : list node) : list (rentry * node) :=
  match ks with
  | [] => []
  | k :: ks' =>
      ((keys ++ [id_of k], names ++ [label_of k], p ++ [i]), k)
        :: child_refs keys names p (S i) ks'
  end.

(** One iteration of [_find_diff] seen as a step on the two stacks zipped
    into one: the two are pushed and popped together. *)
Definition fd_step (g2 : document) (colors : palette) (e : ventry * rentry)
    (s : node * rename_map)
  : result (list (ventry * rentry) * (node * rename_map)) :=
  '(pushed, dg', rm') <- find_diff_body g2 colors (fst e) (snd e) (fst s) (snd s) ;;
  Ok (pushed, (dg', rm')).

(** The pairs of entries pushed for the children [ks]. *)
Fixpoint child_pairs (keys names dkeys dnames : list string) (p : path) (i : nat)
    (ks : list node) : list ((ventry * rentry) * node) :=
  match ks with
  | [] => []
  | k :: ks' =>
      (((keys ++ [id_of k], names ++ [label_of k], k),
        (dkeys ++ [id_of k], dnames ++ [label_of k], p ++ [i])), k)
        :: child_pairs keys names dkeys dnames p (S i) ks'
  end.

(** The resolver raises on no label path of the document. *)
Definition resolver_total (d : document) : Prop :=
  forall names, exists r, _get_node_from_names (Doc d) names = Ok r.

(** A subtree every node of which is styled and has a sound graph. *)
Definition good (n : node) : Prop :=
  styled n /\ all_nodes graph_ok n /\ all_below styled n.

(** The resolver raises on the label path of no node of the tree [n], whose
    root is met under [names]. *)
Definition resolves (g2 : document) (names : list string) (n : node) : Prop :=
  forall q c, get_at n q = Some c ->
              exists r, _get_node_from_names (Doc g2) (names ++ labels_along n q) = Ok r.

(** The closed forms of the three whole-document passes. *)
Definition resized (z : Z) (d : document) : document :=
  mkDocument (tmapn (walk_fn (resize_visit z)) [] (graphml d)).

Definition recolored (slot : list string) (d : document) : document :=
  mkDocument (tmapn (walk_fn (recolor_visit slot)) [] (graphml d)).

Definition painted (g2 : document) (colors : palette) (d : document) : document :=
  mkDocument (tmapn (paint_fn g2 colors) [] (graphml d)).

(** A node with an identifier and a style block, whatever its colour. *)
Definition propertied (n : node) : Prop :=
  node_id n <> None /\ exists p, _get_node_properties n = Ok p.

(** A rewriting of nodes that keeps their graph, identifier and label, and
    keeps a style block where there is one. *)
Definition style_only (f : list string -> node -> node) : Prop :=
  forall names n,
    node_graph (f names n) = node_graph n
    /\ node_id (f names n) = node_id n
    /\ _get_node_name (f names n) = _get_node_name n
    /\ (forall p, _get_node_properties n = Ok p ->
                  exists p', _get_node_properties (f names n) = Ok p').

(** ** Decision procedures for the hypotheses on documents *)

Definition known_color_b (c : string) : bool :=
  String.eqb c "#D2D2D2" || String.eqb c "#FFFFFF" || String.eqb c "#FFCC00".

Definition styled_b (n : node) : bool :=
  match node_id n, _get_node_properties n with
  | Some _, Ok p => known_color_b (Fill_color p)
  | _, _ => false
  end.

Definition graph_ok_b (n : node) : bool :=
  match node_graph n with
  | Some g => match graph_node g with
              | Some _ => true
              | None => false
              end
  | None => true
  end.

Fixpoint nodup_b (l : list string) : bool :=
  match l with
  | [] => true
  | x :: l' => negb (existsb (String.eqb x) l') && nodup_b l'
  end.

Fixpoint tree_ok (n : node) : bool :=
  graph_ok_b n && nodup_b (map label_of (kids n))
  && match n with
     | mkNode _ _ (Some (mkGraph _ (Some (One c)) _)) => styled_b c && tree_ok c
     | mkNode _ _ (Some (mkGraph _ (Some (Many l)) _)) =>
         forallb (fun c => styled_b c && tree_ok c) l
     | _ => true
     end.

Definition well_formed_b (d : document) : bool :=
  match node_graph (graphml d) with
  | Some _ => tree_ok (graphml d)
  | None => false
  end.

Definition top_level_list_b (d : document) : bool :=
  match node_graph (graphml d) with
  | Some g => match graph_node g with
              | Some (Many _) => true
              | _ => false
              end
  | None => false
  end.

Definition palette_ok_b (colors : palette) : bool :=
  Nat.eqb (length (pal_g1 colors)) 3 && Nat.eqb (length (pal_g2 colors)) 3
  && Nat.eqb (length (pal_intersect colors)) 3.

(** The label paths of the nodes of a tree, the root first (its label path
    is empty), each node once. *)
Fixpoint label_paths (n : node) : list (list string) :=
  [] :: match n with
        | mkNode _ _ (Some (mkGraph _ (Some (One c)) _)) =>
            map (cons (label_of c)) (label_paths c)
        | mkNode _ _ (Some (mkGraph _ (Some (Many l)) _)) =>
            flat_map (fun c => map (cons (label_of c)) (label_paths c)) l
        | _ => []
        end.

Definition list_string_eq_dec : forall a b : list string, {a = b} + {a <> b} :=
  list_eq_dec string_dec.

(** The edges of the graph of a node, if any. *)
Definition top_edges (n : node) : option (one_or_many edge) :=
  match node_graph n with
  | Some g => graph_edge g
  | None => None
  end.

(** The edge appended for an edge of the second document: its identifier is
    made from the counter, its endpoints are the remapped endpoints. *)
Definition appended_edge (edge_ctr : Z) (source target : pystr) : edge :=
  mkEdge (Some ("e" ++ PyStr.str_of_int edge_ctr)%string) (Some source) (Some target).

(** The identifier of the edge at index [i] of a list whose edges are
    identified by their index. *)
Definition edge_number (i : nat) : pystr :=
  Some ("e" ++ PyStr.str_of_int (Z.of_nat i))%string.

(** The edges of the list are identified [e0], [e1], ... in order. *)
Definition numbered (l : list edge) : Prop :=
  map edge_id l = map edge_number (seq 0 (length l)).

(** Two fill colours of a node of colour class [cid] that are complements
    of each other: one from the intersect slot, one from the source-only
    slot. *)
Definition complementary (colors : palette) (cid : nat) (c1 c2 : string) : Prop :=
  (nth_error (pal_intersect colors) cid = Some c1 /\ nth_error (pal_g1 colors) cid = Some c2)
  \/ (nth_error (pal_g1 colors) cid = Some c1 /\ nth_error (pal_intersect colors) cid = Some c2).

(** The fill colour of the node at [p], if there is one. *)
Definition color_at (d : document) (p : path) : result string :=
  n <- from_option KeyError (get_at (graphml d) p) ;; _get_node_color n.

(* ================================================================== *)
(** * Sample documents *)

Module Samples.

  (** A leaf node drawn as a [y:ShapeNode]. *)
Definition leaf (id label color font : string) : node :=
    mkNode (Some id)
      (Some (One (ShapeNode (One (mkProperties label font color))))) None.

  (** A group node drawn as a [y:ProxyAutoBoundsNode], with its nodes. *)
Definition group (id label color font : string) (ks : one_or_many node) : node :=
    mkNode (Some id)
      (Some (Many [OtherData;
                   ProxyAutoBoundsNode (One (mkProperties label font color))]))
      (Some (mkGraph (Some (id ++ ":")%string) (Some ks) None)).

Definition doc (ks : one_or_many node) (es : option (one_or_many edge)) : document :=
    mkDocument (mkNode None None (Some (mkGraph (Some "G") (Some ks) es))).

Definition ed (i s t : string) : edge :=
    mkEdge (Some i) (Some (Some s)) (Some (Some t)).

  (** The engine made for the files [a.graphml] and [b.graphml], with the
      default names of the output files. *)
Definition engine (a b : document) (m : string) : BNGGdiff :=
    mkBNGGdiff "a.graphml" "b.graphml" "a_b_diff.graphml" "b_a_diff.graphml"
               a b None None m.

  (** One molecule [X], and one molecule [Y]: the documents of the first
      scenario of the specification. *)
Definition doc_X : document := doc (One (leaf "n0" "X" "#D2D2D2" "12")) None.
Definition doc_Y : document := doc (One (leaf "n0" "Y" "#D2D2D2" "12")) None.

  (** Two molecules [X] and [Z], and the molecule [X] alone. *)
Definition doc_XZ : document :=
    doc (Many [leaf "n0" "X" "#D2D2D2" "12"; leaf "n1" "Z" "#D2D2D2" "12"]) None.

  (** Molecules [A] and [B] without components, bound to each other. *)
Definition doc_AB : document :=
    doc (Many [leaf "n0" "A" "#D2D2D2" "12"; leaf "n1" "B" "#D2D2D2" "12"])
        (Some (Many [ed "e0" "n0" "n1"; ed "e1" "n1" "n1"])).

  (** The same, [A] now having the components [x] and [y]. *)
Definition doc_AxyB : document :=
    doc (Many [group "n0" "A" "#D2D2D2" "12"
                 (Many [leaf "n0::n0" "x" "#FFFFFF" "12";
                        leaf "n0::n1" "y" "#FFFFFF" "12"]);
               leaf "n1" "B" "#D2D2D2" "12"])
        (Some (Many [ed "e0" "n0" "n1"; ed "e1" "n1" "n1"])).

  (** A molecule [A] with components [a] and [b], and a molecule [B]. *)
Definition doc_AabB : document :=
    doc (Many [group "n0" "A" "#D2D2D2" "12"
                 (Many [leaf "n0::n0" "a" "#FFFFFF" "12";
                        leaf "n0::n1" "b" "#FFFFFF" "12"]);
               leaf "n1" "B" "#D2D2D2" "12"])
        (Some (Many [ed "e0" "n0::n0" "n0::n1"; ed "e1" "n0::n0" "n1"])).

  (** A molecule [A] with components [a] and [c], and a molecule [C] with a
      component [x] that has a state [s]. *)
Definition doc_AacC : document :=
    doc (Many [group "n0" "A" "#D2D2D2" "12"
                 (Many [leaf "n0::n0" "a" "#FFFFFF" "12";
                        leaf "n0::n1" "c" "#FFFFFF" "12"]);
               group "n1" "C" "#D2D2D2" "12"
                 (One (group "n1::n0" "x" "#FFFFFF" "12"
                         (One (leaf "n1::n0::n0" "s" "#FFCC00" "10"))))])
        (Some (Many [ed "e0" "n0::n1" "n0::n0"; ed "e1" "n0::n0" "n1::n0"])).

  (** Molecules [A], [B] and [C]; [A] is bound to [B] and to [C], and the
      identifiers of the two edges are not consecutive. *)
Definition doc_ABC_gap : document :=
    doc (Many [leaf "n0" "A" "#D2D2D2" "12"; leaf "n1" "B" "#D2D2D2" "12";
               leaf "n2" "C" "#D2D2D2" "12"])
        (Some (Many [ed "e0" "n0" "n1"; ed "e2" "n0" "n2"])).

  (** The same molecules, [B] bound to [C] and [A] to [B]. *)
Definition doc_ABC_bc : document :=
    doc (Many [leaf "n0" "A" "#D2D2D2" "12"; leaf "n1" "B" "#D2D2D2" "12";
               leaf "n2" "C" "#D2D2D2" "12"])
        (Some (Many [ed "e0" "n1" "n2"; ed "e1" "n0" "n1"])).

End Samples.

(* ================================================================== *)
(** * The key-list resolver: [_get_node_from_keylist] (lines 507-537) *)

(** The variables of the [while] loop that the [for] loop writes: [found],
    [node], [nodes] with the reference to the node it was read from, and
    the loop variable [cnode], which stays bound once the [for] loop is
    over. *)
Record keylist_state : Type := mkKeylistState {
  ks_found : bool;
  ks_node : option (path * node);
  ks_nodes : one_or_many node;
  ks_owner : path;
  ks_cnode : option (path * node)
}.

(** The [for cnode in nodes] loop of lines 523-530 over the list [l], whose
    [i]-th element is at [owner ++ [i]].  The list iterated is the one
    [nodes] was bound to when the loop began: rebinding [nodes] in the body
    does not change it.  The loop goes on after a match, and is left only
    when the matched node has no [["graph"]["node"]]. *)
Fixpoint keylist_scan (l : list node) (key : string) (owner : path) (i : nat)
    (st : keylist_state) : result keylist_state :=
  match l with
  | [] => Ok st
  | cnode :: l' =>
      id <- subscript_id cnode ;;
      let here := (owner ++ [i], cnode) in
      if String.eqb id key then
        match subscript_graph_node cnode with
        | Ok nodes' =>
            keylist_scan l' key owner (S i)
              (mkKeylistState true (Some here) nodes' (owner ++ [i]) (Some here))
        | Err _ =>
            Ok (mkKeylistState true (Some here) (ks_nodes st) (ks_owner st) (Some here))
        end
      else
        keylist_scan l' key owner (S i)
          (mkKeylistState (ks_found st) (ks_node st) (ks_nodes st) (ks_owner st)
             (Some here))
  end.

(** The [while len(copy_keylist) > 0] loop of lines 519-536. *)
Fixpoint keylist_loop (copy_keylist : list string) (nodes : one_or_many node)
    (owner : path) (bound cnode : option (path * node))
  : result (option (path * node)) :=
  match copy_keylist with
  | [] =>
      match bound with
      | Some r => Ok (Some r)
      | None => Err UnboundLocalError
      end
  | key :: rest =>
      match nodes with
      | Many l =>
          st <- keylist_scan l key owner 0
                  (mkKeylistState false bound nodes owner cnode) ;;
          if ks_found st
          then keylist_loop rest (ks_nodes st) (ks_owner st) (ks_node st) (ks_cnode st)
          else Ok None
      | One _ =>
          match cnode with
          | None => Err UnboundLocalError
          | Some (p, c) =>
              id <- subscript_id c ;;
              if String.eqb id key
              then keylist_loop rest nodes owner (Some (p, c)) cnode
              else Ok None
          end
      end
  end.

(** [_get_node_from_keylist(g, keylist)], [g] being a document: its only
    key is ["graphml"]. *)
Definition _get_node_from_keylist (g : document) (keylist : list string)
  : result (option (path * node)) :=
  match keylist with
  | [] => Err IndexError
  | gkey :: copy_keylist =>
      if String.eqb gkey "graphml" then
        match copy_keylist with
        | [] => Ok (Some ([], graphml g))
        | _ :: _ =>
            match node_graph (graphml g) with
            | None => Ok None
            | Some gr =>
                nodes <- from_option KeyError (graph_node gr) ;;
                keylist_loop copy_keylist nodes [] None None
            end
        end
      else Err KeyError
  end.

(* ================================================================== *)
(** * Vocabulary of the further properties *)

(** The identifiers met on the way down to the node at [p]. *)
Fixpoint ids_along (n : node) (p : path) : list string :=
  match p with
  | [] => []
  | i :: p' =>
      match nth_error (kids n) i with
      | Some c => id_of c :: ids_along c p'
      | None => []
      end
  end.

(** The colour class of a fill colour, if it is one of the three. *)
Definition class_of_color (c : string) : option nat :=
  if String.eqb c "#D2D2D2" then Some 0
  else if String.eqb c "#FFFFFF" then Some 1
  else if String.eqb c "#FFCC00" then Some 2
  else None.

(** One reference leads through the other. *)
Definition is_prefix (r p : path) : Prop := exists q, p = r ++ q.

(** Two references none of which leads through the other: the nodes they
    refer to are in disjoint subtrees. *)
Definition apart (a b : path) : Prop := ~ is_prefix a b /\ ~ is_prefix b a.

(** A node that [_recolor_graph] can recolour with [color_list]: it has an
    identifier and a style block, its fill colour is one of the three
    recognised ones, and the list has a colour for its class. *)
Definition recolorable (color_list : list string) (n : node) : Prop :=
  node_id n <> None
  /\ exists pr cid c,
       _get_node_properties n = Ok pr
       /\ class_of_color (Fill_color pr) = Some cid
       /\ nth_error color_list cid = Some c.

(** The font size of the node at [p], if there is one. *)
Definition font_size_at (d : document) (p : path) : result Z :=
  n <- from_option KeyError (get_at (graphml d) p) ;; _get_font_size n.

(** The label of the node at [p], if there is one. *)
Definition name_at (d : document) (p : path) : result string :=
  n <- from_option KeyError (get_at (graphml d) p) ;; _get_node_name n.

(** The identifier of the node at [p], if there is one. *)
Definition id_at (d : document) (p : path) : option pystr :=
  option_map _get_node_id (get_at (graphml d) p).

(** Every entry of the map sends an identifier to itself. *)
Definition identity_map (rm : rename_map) : Prop :=
  forall k v, dict_get rm k = Ok v -> v = k.

(** The node [c] is in the tree of root [n]. *)
Definition under (n c : node) : Prop := exists q, get_at n q = Some c.

(** A tree the key-list resolver can be used on: the nodes of every graph
    are a list, every node in such a list has an identifier, and no two
    nodes of one list have the same. *)
Definition keyed_b (n : node) : bool :=
  match node_graph n with
  | Some g => match graph_node g with
              | Some (One _) => false
              | _ => true
              end
  | None => true
  end
  && forallb (fun k => match node_id k with Some _ => true | None => false end) (kids n)
  && nodup_b (map id_of (kids n)).

Fixpoint keyed_tree_b (n : node) : bool :=
  keyed_b n
  && match n with
     | mkNode _ _ (Some (mkGraph _ (Some (Many l)) _)) => forallb keyed_tree_b l
     | _ => true
     end.

(** The identifiers of the nodes of a tree, the root first. *)
Fixpoint node_ids (n : node) : list pystr :=
  _get_node_id n
    :: match n with
       | mkNode _ _ (Some (mkGraph _ (Some (One c)) _)) => node_ids c
       | mkNode _ _ (Some (mkGraph _ (Some (Many l)) _)) => flat_map node_ids l
       | _ => []
       end.

(** An edge with its two endpoints, both identifiers of the list. *)
Definition edge_closed_b (ids : list pystr) (e : edge) : bool :=
  match edge_source e, edge_target e with
  | Some s, Some t => existsb (pystr_eqb s) ids && existsb (pystr_eqb t) ids
  | _, _ => false
  end.

(** The top-level edges of the document are a list, and every edge joins
    two nodes of the document. *)
Definition edges_closed_b (d : document) : bool :=
  match top_edges (graphml d) with
  | Some (Many el) => forallb (edge_closed_b (node_ids (graphml d))) el
  | _ => false
  end.

(** The tree [b] holds every node of the tree [a], at the same place and
    with the same identifier and data (label, colour, font size); it may
    hold more. *)
Definition extends (a b : node) : Prop :=
  forall p n, get_at a p = Some n ->
              exists n', get_at b p = Some n'
                         /\ node_id n' = node_id n /\ node_data n' = node_data n.

(** The tree [b] holds, at the place of every node of the tree [a], a node
    with the same identifier and label. *)
Definition same_names (a b : node) : Prop :=
  forall p n, get_at a p = Some n ->
              exists n', get_at b p = Some n'
                         /\ node_id n' = node_id n
                         /\ _get_node_name n' = _get_node_name n.

(** The tree has a top-level node of label [L]. *)
Definition has_top_level (L : string) (d : node) : Prop :=
  exists j n', get_at d [j] = Some n' /\ _get_node_name n' = Ok L.

Unset Implicit Arguments.

(* ================================================================== *)
(** * Identifier strings: parsing and rendering *)

Section ErrorMonad.
Context {A B : Type}.

Lemma bind_ok (r : result A) (k : A -> result B) (b : B) :
    bind r k = Ok b -> exists a, r = Ok a /\ k a = Ok b.
  Proof. destruct r as [a|e]; simpl; [eauto | discriminate]. Qed.

Lemma mapM_app (f : A -> result B) (l1 l2 : list A) (r1 r2 : list B) :
    mapM f l1 = Ok r1 -> mapM f l2 = Ok r2 -> mapM f (l1 ++ l2) = Ok (r1 ++ r2).
  Proof.
    revert r1; induction l1 as [|x l1 IH]; simpl; intros r1 H1 H2.
    - injection H1 as <-. exact H2.
    - destruct (f x) as [y|]; simpl in *; [|discriminate].
      destruct (mapM f l1) as [ys|]; simpl in *; [|discriminate].
      injection H1 as <-. rewrite (IH ys eq_refl H2). reflexivity.
  Qed.

Lemma mapM_length (f : A -> result B) (l : list A) (r : list B) :
    mapM f l = Ok r -> length r = length l.
  Proof.
    revert r; induction l as [|x l IH]; simpl; intros r H.
    - injection H as <-. reflexivity.
    - destruct (f x); simpl in H; [|discriminate].
      destruct (mapM f l) as [ys|]; simpl in H; [|discriminate].
      injection H as <-. simpl. f_equal. auto.
  Qed.

Lemma mapM_nth (f : A -> result B) (l : list A) (r : list B) i x :
    mapM f l = Ok r -> nth_error l i = Some x ->
    exists y, nth_error r i = Some y /\ f x = Ok y.
  Proof.
    revert r i; induction l as [|a l IH]; simpl; intros r i H Hn.
    - destruct i; discriminate.
    - destruct (f a) as [y|] eqn:Hf; simpl in H; [|discriminate].
      destruct (mapM f l) as [ys|]; simpl in H; [|discriminate].
      injection H as <-. destruct i as [|i]; simpl in *.
      + injection Hn as <-. eauto.
      + eauto.
  Qed.
End ErrorMonad.

Lemma mapM_map {A B C} (f : B -> result C) (g : A -> B) (l : list A) :
  mapM f (map g l) = mapM (fun x => f (g x)) l.
Proof. induction l as [|x l IH]; simpl; [reflexivity | now rewrite IH]. Qed.

Lemma mapM_ok_id {A B} (f : A -> result B) (g : A -> B) (l : list A) :
  (forall x, In x l -> f x = Ok (g x)) -> mapM f l = Ok (map g l).
Proof.
  induction l as [|x l IH]; simpl; intros H; [reflexivity|].
  rewrite (H x (or_introl eq_refl)). simpl. rewrite IH by auto. reflexivity.
Qed.

Module PyStrFacts.
Import PyStr.

Fixpoint no_space (s : string) : bool :=
    match s with
    | EmptyString => true
    | String a s' => negb (is_space a) && no_space s'
    end.

Fixpoint no_colon (s : string) : bool :=
    match s with
    | EmptyString => true
    | String a s' => negb (Ascii.eqb a ":") && no_colon s'
    end.

Lemma digit_cases a :
    is_digit a = true ->
    is_space a = false /\ Ascii.eqb a ":" = false /\ Ascii.eqb a "-" = false
    /\ Ascii.eqb a "+" = false /\ Ascii.eqb a "_" = false.
  Proof.
    destruct a as [[|] [|] [|] [|] [|] [|] [|] [|]]; vm_compute;
      try discriminate; auto.
  Qed.

Lemma all_digits_no_space s : all_digits s = true -> no_space s = true.
  Proof.
    induction s as [|a s IH]; simpl; [reflexivity|].
    intros [Ha Hs]%andb_prop. destruct (digit_cases _ Ha) as [-> _]. simpl. auto.
  Qed.

Lemma all_digits_no_colon s : all_digits s = true -> no_colon s = true.
  Proof.
    induction s as [|a s IH]; simpl; [reflexivity|].
    intros [Ha Hs]%andb_prop. destruct (digit_cases _ Ha) as (_ & -> & _). simpl. auto.
  Qed.

Lemma rstrip_no_space s : no_space s = true -> rstrip s = s.
  Proof.
    induction s as [|a s IH]; simpl; [reflexivity|].
    intros [Ha Hs]%andb_prop. rewrite (IH Hs).
    apply negb_true_iff in Ha. rewrite Ha. now destruct s.
  Qed.

Lemma strip_no_space s : no_space s = true -> strip s = s.
  Proof.
    intros H. unfold strip.
    assert (lstrip s = s) as ->.
    { destruct s as [|a s]; [reflexivity|]. simpl in *.
      apply andb_prop in H as [Ha _]. apply negb_true_iff in Ha. now rewrite Ha. }
    now apply rstrip_no_space.
  Qed.

Lemma digits_all_digits s : all_digits s = true -> digits true s = Some s.
  Proof.
    induction s as [|a s IH]; simpl; [reflexivity|].
    intros [Ha Hs]%andb_prop. rewrite Ha, (IH Hs). reflexivity.
  Qed.

Lemma digits_nonempty a s :
    all_digits (String a s) = true -> digits false (String a s) = Some (String a s).
  Proof.
    simpl. intros [Ha Hs]%andb_prop. rewrite Ha, (digits_all_digits _ Hs). reflexivity.
  Qed.

Lemma string_of_uint_digits d :
    all_digits (DecimalString.NilEmpty.string_of_uint d) = true.
  Proof. induction d; simpl; auto. Qed.

Lemma uint_of_all_digits s :
    all_digits s = true -> exists d, DecimalString.NilEmpty.uint_of_string s = Some d.
  Proof.
    induction s as [|a s IH]; simpl; [eauto|].
    intros [Ha Hs]%andb_prop. destruct (IH Hs) as [d ->].
    destruct a as [[|] [|] [|] [|] [|] [|] [|] [|]]; vm_compute in Ha;
      try discriminate; simpl; eauto.
  Qed.

  (** Reading a non-empty string of digits. *)
Lemma int_of_digits a s d :
    all_digits (String a s) = true ->
    DecimalString.NilEmpty.uint_of_string (String a s) = Some d ->
    int_of_str (String a s) = Ok (Z.of_uint d).
  Proof.
    intros Hd Hu. unfold int_of_str.
    rewrite (strip_no_space _ (all_digits_no_space _ Hd)).
    pose proof Hd as Hd'. simpl in Hd'. apply andb_prop in Hd' as [Ha _].
    destruct (digit_cases _ Ha) as (_ & _ & -> & -> & _).
    unfold unsigned_of_string. rewrite (digits_nonempty _ _ Hd), Hu. reflexivity.
  Qed.

Lemma uint_string_nonempty d :
    d <> Decimal.Nil ->
    exists a s, DecimalString.NilEmpty.string_of_uint d = String a s.
  Proof. destruct d; simpl; intros H; try congruence; eauto. Qed.

Lemma nilzero_nonnil d :
    d <> Decimal.Nil ->
    DecimalString.NilZero.string_of_uint d = DecimalString.NilEmpty.string_of_uint d.
  Proof. destruct d; simpl; intros; congruence. Qed.

  (** [int(str(z)) == z] *)
Lemma int_of_str_of_int z : int_of_str (str_of_int z) = Ok z.
  Proof.
    destruct z as [|p|p]; [reflexivity| |].
    - unfold str_of_int. simpl.
      pose proof (DecimalPos.Unsigned.to_uint_nonnil p) as Hn.
      rewrite (nilzero_nonnil _ Hn).
      destruct (uint_string_nonempty _ Hn) as (a & s & Hs).
      pose proof (string_of_uint_digits (Pos.to_uint p)) as Hd.
      pose proof (DecimalString.NilEmpty.usu (Pos.to_uint p)) as Hu.
      rewrite Hs in *. rewrite (int_of_digits _ _ _ Hd Hu).
      f_equal. exact (DecimalZ.of_to (Z.pos p)).
    - unfold str_of_int. simpl.
      pose proof (DecimalPos.Unsigned.to_uint_nonnil p) as Hn.
      rewrite (nilzero_nonnil _ Hn).
      destruct (uint_string_nonempty _ Hn) as (a & s & Hs).
      pose proof (string_of_uint_digits (Pos.to_uint p)) as Hd.
      pose proof (DecimalString.NilEmpty.usu (Pos.to_uint p)) as Hu.
      rewrite Hs in *. unfold int_of_str.
      assert (no_space (String "-" (String a s)) = true) as Hns
          by (simpl; apply (all_digits_no_space _ Hd)).
      rewrite (strip_no_space _ Hns). simpl Ascii.eqb. cbv iota.
      unfold unsigned_of_string. rewrite (digits_nonempty _ _ Hd), Hu. simpl.
      f_equal. exact (DecimalZ.of_to (Z.neg p)).
  Qed.

  (** [str(int(ds)) == ds] for digits in canonical form. *)
Lemma str_of_int_of_canonical ds :
    canonical_digits ds = true ->
    exists z, int_of_str ds = Ok z /\ str_of_int z = ds.
  Proof.
    destruct ds as [|a rest]; [discriminate|].
    unfold canonical_digits.
    intros [[Ha Hr]%andb_prop Hz]%andb_prop.
    assert (Hd : all_digits (String a rest) = true) by (simpl; now rewrite Ha, Hr).
    destruct (uint_of_all_digits _ Hd) as [d Hu].
    exists (Z.of_uint d). split; [now apply int_of_digits|].
    pose proof (DecimalString.NilEmpty.sus _ _ Hu) as Hs.
    unfold str_of_int.
    change (Z.of_uint d) with (Z.of_int (Decimal.Pos d)).
    rewrite DecimalZ.to_of. simpl.
    assert (Decimal.unorm d = d) as ->.
    { destruct d; simpl in Hs; try discriminate; try reflexivity.
      injection Hs as <- Hrest. simpl in Hz.
      apply String.eqb_eq in Hz. subst rest.
      destruct d; simpl in Hrest; try discriminate. reflexivity. }
    rewrite <- Hs. destruct d; simpl in *; congruence.
  Qed.

Lemma split_colons_no_colon s : no_colon s = true -> split_colons s = [s].
  Proof.
    induction s as [|a s IH]; [reflexivity|].
    intros H. simpl in H. apply andb_prop in H as [Ha Hs].
    apply negb_true_iff in Ha.
    simpl. destruct s as [|b s']; [reflexivity|].
    rewrite Ha. simpl andb. cbv iota. rewrite (IH Hs). reflexivity.
  Qed.

Lemma split_colons_cons a s :
    Ascii.eqb a ":" = false -> s <> EmptyString ->
    split_colons (String a s) = cons_head a (split_colons s).
  Proof.
    intros Ha Hs. destruct s as [|b s2]; [congruence|].
    change (split_colons (String a (String b s2)))
      with (if Ascii.eqb a ":" && Ascii.eqb b ":"
            then EmptyString :: split_colons s2
            else cons_head a (split_colons (String b s2))).
    now rewrite Ha.
  Qed.

Lemma split_colons_app x t :
    no_colon x = true ->
    split_colons (x ++ "::" ++ t)%string = x :: split_colons t.
  Proof.
    induction x as [|a x IH]; [reflexivity|].
    intros H. simpl in H. apply andb_prop in H as [Ha Hx].
    apply negb_true_iff in Ha.
    change (String a x ++ "::" ++ t)%string with (String a (x ++ "::" ++ t)%string).
    rewrite split_colons_cons, (IH Hx); trivial.
    destruct x; discriminate.
  Qed.

Lemma split_concat segs :
    segs <> [] -> forallb no_colon segs = true ->
    split_colons (String.concat "::" segs) = segs.
  Proof.
    induction segs as [|x segs IH]; [congruence|].
    intros _ H. simpl in H. apply andb_prop in H as [Hx Hs].
    destruct segs as [|y segs]; [now apply split_colons_no_colon|].
    change (String.concat "::" (x :: y :: segs))
      with (x ++ "::" ++ String.concat "::" (y :: segs))%string.
    rewrite (split_colons_app _ _ Hx), IH by (congruence || assumption).
    reflexivity.
  Qed.

Lemma str_of_int_digits_or_sign z : no_colon (str_of_int z) = true.
  Proof.
    destruct z as [|p|p]; [reflexivity| |]; unfold str_of_int; simpl;
      pose proof (DecimalPos.Unsigned.to_uint_nonnil p) as Hn;
      rewrite (nilzero_nonnil _ Hn);
      apply all_digits_no_colon, string_of_uint_digits.
  Qed.

End PyStrFacts.

Lemma get_id_list_segments segs :
  segs <> [] -> forallb PyStrFacts.no_colon segs = true ->
  _get_id_list (String.concat "::" segs)
  = mapM (fun x => PyStr.int_of_str (PyStr.drop_first x)) segs.
Proof.
  intros Hne Hc. unfold _get_id_list. now rewrite PyStrFacts.split_concat.
Qed.

(** Parsing inverts rendering, for every non-empty list of integers. *)
Lemma get_id_list_of_str (l : list Z) :
  l <> [] -> _get_id_list (_get_id_str l) = Ok l.
Proof.
  intros Hne. unfold _get_id_str.
  rewrite get_id_list_segments.
  - rewrite mapM_map. simpl. rewrite (mapM_ok_id _ (fun z => z)).
    + now rewrite map_id.
    + intros z _. apply PyStrFacts.int_of_str_of_int.
  - destruct l; [congruence | discriminate].
  - rewrite forallb_forall. intros x [z [<- _]]%in_map_iff.
    simpl. apply PyStrFacts.str_of_int_digits_or_sign.
Qed.

Lemma canonical_segment_no_colon x :
  canonical_segment x = true -> PyStrFacts.no_colon x = true.
Proof.
  destruct x as [|a ds]; [discriminate|]. simpl.
  intros [Ha Hd]%andb_prop. apply Ascii.eqb_eq in Ha. subst a. simpl.
  destruct ds as [|b rest]; [discriminate|].
  unfold canonical_digits in Hd.
  apply andb_prop in Hd as [[Hb Hr]%andb_prop _].
  apply (PyStrFacts.all_digits_no_colon (String b rest)). simpl. now rewrite Hb, Hr.
Qed.

(** Rendering inverts parsing, for segments in canonical form. *)
Lemma get_id_str_of_list (segs : list string) :
  segs <> [] -> forallb canonical_segment segs = true ->
  exists l, _get_id_list (String.concat "::" segs) = Ok l
            /\ _get_id_str l = String.concat "::" segs.
Proof.
  intros Hne Hc.
  rewrite get_id_list_segments; trivial.
  2:{ rewrite forallb_forall in *. intros x Hx.
      apply canonical_segment_no_colon; auto. }
  clear Hne. unfold _get_id_str.
  enough (exists l, mapM (fun x => PyStr.int_of_str (PyStr.drop_first x)) segs = Ok l
                    /\ map (fun i => String "n" (PyStr.str_of_int i)) l = segs)
    as (l & H1 & H2) by (exists l; now rewrite H2).
  induction segs as [|x segs IH]; [exists []; auto|].
  simpl in Hc. apply andb_prop in Hc as [Hx Hs].
  destruct (IH Hs) as (l & Hl & Hm).
  destruct x as [|a ds]; [discriminate|]. simpl in Hx.
  apply andb_prop in Hx as [Ha Hd]. apply Ascii.eqb_eq in Ha. subst a.
  destruct (PyStrFacts.str_of_int_of_canonical _ Hd) as (z & Hz & Hz').
  exists (z :: l). simpl. rewrite Hz. simpl. rewrite Hl. simpl.
  now rewrite Hz', Hm.
Qed.

(* ================================================================== *)
(** * Claims on identifiers and colour classes *)

(** C10, the claim as stated fails: the empty list renders as the empty
    string, which does not parse. *)
Lemma id_roundtrip_empty_list_fails :
  _get_id_list (_get_id_str []) <> Ok [].
Proof. vm_compute. discriminate. Qed.

(** C10 (amended): parsing and rendering of identifiers are mutually inverse:
    [_get_id_list (_get_id_str l) = l] for every NON-EMPTY list [l] of
    non-negative integers, and [_get_id_str (_get_id_list s) = s] for every
    identifier [s] made of one or more canonical segments joined by ["::"]. *)
Theorem id_roundtrip (l : list Z) (segs : list string) :
  l <> [] -> Forall (fun i => (0 <= i)%Z) l ->
  segs <> [] -> forallb canonical_segment segs = true ->
  _get_id_list (_get_id_str l) = Ok l
  /\ exists l', _get_id_list (String.concat "::" segs) = Ok l'
                /\ _get_id_str l' = String.concat "::" segs.
Proof.
  intros Hl _ Hs Hc. split.
  - now apply get_id_list_of_str.
  - now apply get_id_str_of_list.
Qed.

Lemma id_roundtrip_witness :
  _get_id_list (_get_id_str [0; 12; 3]%Z) = Ok [0; 12; 3]%Z
  /\ exists l', _get_id_list (String.concat "::" ["n0"; "n12"; "n3"]) = Ok l'
                /\ _get_id_str l' = String.concat "::" ["n0"; "n12"; "n3"].
Proof.
  apply (id_roundtrip [0; 12; 3]%Z ["n0"; "n12"; "n3"]).
  - discriminate.
  - repeat constructor; discriminate.
  - discriminate.
  - reflexivity.
Defined.

(** C9: the colour class of a node is defined exactly when its fill colour
    is one of the three recognised values, and is then the class of that
    value; any other fill colour raises the error of an unknown colour, and
    the recolouring and the painting of the node raise it in turn, leaving
    no node or document behind. *)
Theorem color_id_iff_known (n : node) (c : string) :
  _get_node_color n = Ok c ->
  (forall cid, _get_color_id n = Ok cid <->
               (c = "#D2D2D2" /\ cid = 0) \/ (c = "#FFFFFF" /\ cid = 1)
               \/ (c = "#FFCC00" /\ cid = 2))
  /\ ((c <> "#D2D2D2" /\ c <> "#FFFFFF" /\ c <> "#FFCC00") ->
      _get_color_id n = Err (unknown_color c)
      /\ (forall color_list, recolor_visit color_list n = Err (unknown_color c))
      /\ (forall dg dref slot, paint dg dref n slot = Err (unknown_color c))).
Proof.
  intros Hc. unfold recolor_visit, paint, _get_color_id. rewrite Hc. simpl.
  destruct (String.eqb_spec c "#D2D2D2") as [E1|N1];
    [|destruct (String.eqb_spec c "#FFFFFF") as [E2|N2];
      [|destruct (String.eqb_spec c "#FFCC00") as [E3|N3]]].
  - subst c. split.
    + intros cid. split.
      * intros [= <-]. auto.
      * intros [[_ ->]|[[H _]|[H _]]]; [reflexivity | discriminate H ..].
    + intros [H _]. congruence.
  - subst c. split.
    + intros cid. split.
      * intros [= <-]. auto.
      * intros [[H _]|[[_ ->]|[H _]]]; [discriminate H | reflexivity | discriminate H].
    + intros (_ & H & _). congruence.
  - subst c. split.
    + intros cid. split.
      * intros [= <-]. auto.
      * intros [[H _]|[[H _]|[_ ->]]]; [discriminate H .. | reflexivity].
    + intros (_ & _ & H). congruence.
  - split.
    + intros cid. split; [discriminate|].
      intros [[H _]|[[H _]|[H _]]]; congruence.
    + intros _. repeat split.
Qed.

Lemma color_id_iff_known_witness :
  _get_node_color (mkNode (Some "n0")
    (Some (One (ShapeNode (One (mkProperties "X" "12" "#FF0000"))))) None)
  = Ok "#FF0000"
  /\ _get_color_id (mkNode (Some "n0")
       (Some (One (ShapeNode (One (mkProperties "X" "12" "#FF0000"))))) None)
     = Err (unknown_color "#FF0000").
Proof.
  split; [reflexivity|].
  apply (color_id_iff_known
           (mkNode (Some "n0")
              (Some (One (ShapeNode (One (mkProperties "X" "12" "#FF0000"))))) None)
           "#FF0000"); [reflexivity|].
  repeat split; discriminate.
Defined.

(** ** The identifier of an inserted node *)

Lemma incr_last_app (pre : list Z) (k : Z) :
  incr_last (pre ++ [k]) = Ok (pre ++ [(k + 1)%Z]).
Proof.
  induction pre as [|x pre IH]; [reflexivity|].
  simpl app. simpl incr_last. rewrite IH.
  destruct (pre ++ [k]) eqn:E; [destruct pre; discriminate | reflexivity].
Qed.

Lemma last_map_some {A} (l : list A) (x : A) :
  last (map Some (l ++ [x])) None = Some x.
Proof.
  induction l as [|a l IH]; [reflexivity|].
  simpl. rewrite IH. destruct (l ++ [x]) eqn:E; [destruct l; discriminate|reflexivity].
Qed.

Lemma mapM_in {A B} (f : A -> result B) (l : list A) (r : list B) (x : A) :
  mapM f l = Ok r -> In x l -> exists y, In y r /\ f x = Ok y.
Proof.
  intros H [i Hi]%In_nth_error.
  destruct (mapM_nth _ _ _ _ _ H Hi) as (y & Hy & Hf).
  exists y. split; [eapply nth_error_In; eauto | assumption].
Qed.

(** The identifier allocated for a node to insert: when the identifiers of
    the nodes already under the parent are a prefix followed by indices
    stored in ascending order, it is the prefix followed by the greatest of
    these indices plus one, and differs from the identifier of every node
    already there. *)
Lemma fresh_sibling_id_after_max
    (nodes : one_or_many node) (prefix ks : list Z) (k : Z) :
  mapM (fun n => id_list_of (_get_node_id n)) (siblings_of nodes)
  = Ok (map (fun i => prefix ++ [i]) (ks ++ [k])) ->
  StronglySorted Z.le (ks ++ [k]) ->
  fresh_sibling_id nodes = Ok (_get_id_str (prefix ++ [(k + 1)%Z]))
  /\ Forall (fun i => (i <= k)%Z) (ks ++ [k])
  /\ Forall (fun n => _get_node_id n <> Some (_get_id_str (prefix ++ [(k + 1)%Z])))
            (siblings_of nodes).
Proof.
  intros Hids Hsorted.
  assert (Hmax : Forall (fun i => (i <= k)%Z) (ks ++ [k])).
  { clear Hids. induction ks as [|a ks IH]; simpl in *.
    - repeat constructor. lia.
    - inversion Hsorted as [|? ? Hs Ha]; subst. constructor; [|auto].
      rewrite Forall_forall in Ha. apply Ha, in_or_app. right. now left. }
  split; [|split; [exact Hmax|]].
  - destruct nodes as [og|l]; unfold fresh_sibling_id; cbn [siblings_of mapM] in Hids.
    + destruct (id_list_of (_get_node_id og)) as [x|] eqn:E;
        cbn [bind] in Hids; [|discriminate].
      injection Hids as Hx.
      destruct ks as [|a [|b ks]]; simpl in Hx; try discriminate.
      injection Hx as ->. cbn [bind]. now rewrite incr_last_app.
    + rewrite Hids. cbn [bind]. rewrite map_app. cbn [map].
      rewrite last_map_some. cbn [from_option bind]. now rewrite incr_last_app.
  - rewrite Forall_forall. intros n Hn Hcol.
    destruct (mapM_in _ _ _ _ Hids Hn) as (y & Hy & Hf).
    apply in_map_iff in Hy as (i & <- & Hi).
    unfold id_list_of in Hf. rewrite Hcol in Hf. cbn [from_option bind] in Hf.
    rewrite get_id_list_of_str in Hf by (destruct prefix; discriminate).
    injection Hf as Hf. apply app_inv_head in Hf. injection Hf as Hf.
    rewrite Forall_forall in Hmax. specialize (Hmax _ Hi). lia.
Qed.


(* ================================================================== *)
(** * Trees, references and in-place updates *)

Lemma size_kids (n : node) : size n = S (list_sum (map size (kids n))).
Proof.
  destruct n as [i d [[gi [[c|l]|] ge]|]]; simpl; try reflexivity.
  unfold kids, graph_nodes. simpl. now rewrite Nat.add_0_r.
Qed.

Lemma size_pos (n : node) : 0 < size n.
Proof. rewrite size_kids. lia. Qed.

Lemma set_kids_graph_free (n : node) (l : list node) :
  node_id (set_kids n l) = node_id n /\ node_data (set_kids n l) = node_data n.
Proof.
  unfold set_kids. destruct (node_graph n) as [g|]; [|auto].
  destruct (graph_node g) as [[c|l']|]; auto.
Qed.

Lemma kids_set_kids (n : node) (l : list node) :
  length l = length (kids n) -> kids (set_kids n l) = l.
Proof.
  unfold set_kids, kids, graph_nodes.
  destruct (node_graph n) as [g|] eqn:Eg; simpl.
  - destruct (graph_node g) as [[c|l']|] eqn:En; simpl.
    + destruct l as [|x [|y l]]; simpl; intros H; try discriminate. reflexivity.
    + reflexivity.
    + rewrite Eg. simpl. rewrite En. destruct l; [reflexivity | discriminate].
  - rewrite Eg. destruct l; [reflexivity | discriminate].
Qed.

Lemma set_kids_kids (n : node) : set_kids n (kids n) = n.
Proof.
  destruct n as [i d [[gi [[c|l]|] ge]|]]; reflexivity.
Qed.

Lemma set_kids_twice (n : node) (l l' : list node) :
  length l' = length (kids n) -> set_kids (set_kids n l) l' = set_kids n l'.
Proof.
  destruct n as [i d [[gi [[c|l0]|] ge]|]]; simpl; try reflexivity.
  unfold set_kids. simpl.
  destruct l' as [|x [|y l']]; simpl; intros H; try discriminate. reflexivity.
Qed.

(** [set_kids] only looks at the graph of the node it rebuilds. *)
Lemma set_kids_same_graph (n m : node) (l : list node) :
  node_graph n = node_graph m -> kids (set_kids n l) = kids (set_kids m l).
Proof.
  unfold set_kids, kids. intros E. rewrite E.
  destruct (node_graph m) as [g|] eqn:Eg; [|now rewrite E, Eg].
  destruct (graph_node g) as [[c|l']|] eqn:En; simpl; try reflexivity.
  now rewrite E, Eg.
Qed.

Lemma kids_same_graph (n m : node) :
  node_graph n = node_graph m -> kids n = kids m.
Proof. unfold kids. now intros ->. Qed.

Lemma set_nth_length {A} (i : nat) (x : A) (l : list A) :
  length (set_nth i x l) = length l.
Proof.
  revert i; induction l as [|a l IH]; intros [|i]; simpl; auto.
Qed.

Lemma set_nth_middle {A} (pre : list A) (x y : A) (post : list A) :
  set_nth (length pre) y (pre ++ x :: post) = pre ++ y :: post.
Proof. induction pre as [|a pre IH]; simpl; [reflexivity | now rewrite IH]. Qed.

Lemma nth_error_middle {A} (pre : list A) (x : A) (post : list A) :
  nth_error (pre ++ x :: post) (length pre) = Some x.
Proof. induction pre as [|a pre IH]; simpl; auto. Qed.

Lemma get_at_app (n : node) (p q : path) :
  get_at n (p ++ q) = match get_at n p with
                      | Some m => get_at m q
                      | None => None
                      end.
Proof.
  revert n; induction p as [|i p IH]; intros n; simpl; [reflexivity|].
  destruct (nth_error (kids n) i); [apply IH | reflexivity].
Qed.

Lemma nth_error_set_nth {A} (i : nat) (x : A) (l : list A) (a : A) :
  nth_error l i = Some a -> nth_error (set_nth i x l) i = Some x.
Proof.
  revert i; induction l as [|b l IH]; intros [|i]; simpl; try discriminate; auto.
Qed.

Lemma set_nth_twice {A} (i : nat) (x y : A) (l : list A) :
  set_nth i y (set_nth i x l) = set_nth i y l.
Proof.
  revert i; induction l as [|b l IH]; intros [|i]; simpl; auto. now rewrite IH.
Qed.

Lemma set_at_cons (n : node) (i : nat) (p : path) (x c : node) :
  nth_error (kids n) i = Some c ->
  set_at n (i :: p) x = set_kids n (set_nth i (set_at c p x) (kids n)).
Proof. simpl. now intros ->. Qed.

Lemma get_at_cons (n : node) (i : nat) (p : path) (c : node) :
  nth_error (kids n) i = Some c -> get_at n (i :: p) = get_at c p.
Proof. simpl. now intros ->. Qed.

Lemma get_at_set_at (n : node) (p : path) (m x : node) :
  get_at n p = Some m -> get_at (set_at n p x) p = Some x.
Proof.
  revert n; induction p as [|i p IH]; intros n; [reflexivity|].
  intros H.
  destruct (nth_error (kids n) i) as [c|] eqn:E;
    [|simpl in H; rewrite E in H; discriminate].
  rewrite (get_at_cons _ _ _ _ E) in H.
  rewrite (set_at_cons _ _ _ _ _ E).
  assert (E' : nth_error (kids (set_kids n (set_nth i (set_at c p x) (kids n)))) i
               = Some (set_at c p x)).
  { rewrite kids_set_kids by apply set_nth_length.
    apply (nth_error_set_nth _ _ _ _ E). }
  rewrite (get_at_cons _ _ _ _ E'). now apply IH.
Qed.

Lemma set_at_twice (n : node) (p : path) (m x y : node) :
  get_at n p = Some m -> set_at (set_at n p x) p y = set_at n p y.
Proof.
  revert n; induction p as [|i p IH]; intros n; [reflexivity|].
  intros H.
  destruct (nth_error (kids n) i) as [c|] eqn:E;
    [|simpl in H; rewrite E in H; discriminate].
  rewrite (get_at_cons _ _ _ _ E) in H.
  rewrite !(set_at_cons _ _ _ _ _ E).
  assert (E' : nth_error (kids (set_kids n (set_nth i (set_at c p x) (kids n)))) i
               = Some (set_at c p x)).
  { rewrite kids_set_kids by apply set_nth_length.
    apply (nth_error_set_nth _ _ _ _ E). }
  rewrite (set_at_cons _ _ _ _ _ E').
  rewrite kids_set_kids by apply set_nth_length.
  rewrite set_kids_twice by (now rewrite !set_nth_length).
  rewrite set_nth_twice. now rewrite (IH c H).
Qed.

Lemma set_at_app (n : node) (p q : path) (m x : node) :
  get_at n p = Some m -> set_at n (p ++ q) x = set_at n p (set_at m q x).
Proof.
  revert n; induction p as [|i p IH]; intros n; simpl.
  - now intros [= ->].
  - destruct (nth_error (kids n) i) as [c|] eqn:E; [|discriminate].
    intros H. now rewrite (IH c H).
Qed.

(** Updating below a node that was itself just written. *)
Lemma set_at_below (n : node) (p q : path) (m y x : node) :
  get_at n p = Some m ->
  set_at (set_at n p y) (p ++ q) x = set_at n p (set_at y q x).
Proof.
  intros H.
  rewrite (set_at_app _ _ _ _ x (get_at_set_at _ _ _ y H)).
  now rewrite (set_at_twice _ _ _ _ _ H).
Qed.

Lemma get_at_below (n : node) (p q : path) (m y : node) :
  get_at n p = Some m -> get_at (set_at n p y) (p ++ q) = get_at y q.
Proof.
  intros H. now rewrite get_at_app, (get_at_set_at _ _ _ y H).
Qed.

Lemma set_at_child (m : node) (j : nat) (c x : node) :
  nth_error (kids m) j = Some c ->
  set_at m [j] x = set_kids m (set_nth j x (kids m)).
Proof. simpl. now intros ->. Qed.

Lemma all_nodes_kid (P : node -> Prop) (n c : node) (i : nat) :
  all_nodes P n -> nth_error (kids n) i = Some c -> all_nodes P c.
Proof.
  intros H Hi p x Hx. apply (H (i :: p)). simpl. now rewrite Hi.
Qed.

Lemma all_below_kid (P : node -> Prop) (n c : node) (i : nat) :
  all_below P n -> nth_error (kids n) i = Some c -> P c /\ all_below P c.
Proof.
  intros H Hi. split.
  - apply (H [i]); [discriminate|]. simpl. now rewrite Hi.
  - intros p x _ Hx. apply (H (i :: p)); [discriminate|]. simpl. now rewrite Hi.
Qed.

Lemma all_nodes_root (P : node -> Prop) (n : node) : all_nodes P n -> P n.
Proof. intros H. now apply (H []). Qed.

(* ================================================================== *)
(** * A traversal that rewrites the nodes below its references *)

(** The explicit-stack loop started on one entry runs through the whole
    subtree under the reference of that entry, and leaves the document with
    that subtree replaced by its closed form [T]; the entries below it on
    the stack are not touched.  [step_spec] is what one iteration has to do
    for that: rewrite the node at its reference without changing its graph,
    and push one entry per child, referring to that child. *)
Section Subtree.
Variables E St : Type.
Variable step : E -> St -> result (list E * St).
Variable doc : St -> node.
Variable ref : E -> path.
Variable T : E -> node -> node.
Variable ok : E -> node -> Prop.

Let T2 (z : E * node) : node := T (fst z) (snd z).

Hypothesis step_spec : forall e n s,
    get_at (doc s) (ref e) = Some n -> ok e n ->
    exists (zs : list (E * node)) (s1 : St) (n' : node),
      step e s = Ok (map fst zs, s1)
      /\ doc s1 = set_at (doc s) (ref e) n'
      /\ node_graph n' = node_graph n
      /\ map snd zs = kids n
      /\ (forall pre c k post, zs = pre ++ (c, k) :: post ->
                               ref c = ref e ++ [length pre] /\ ok c k)
      /\ T e n = set_kids n' (map T2 zs).

Lemma size_in_kids (n k : node) : In k (kids n) -> size k < size n.
  Proof.
    intros H. rewrite (size_kids n).
    apply in_split in H as (l1 & l2 & ->).
    rewrite map_app, list_sum_app. simpl. lia.
  Qed.

Lemma run_subtree_bounded (m : nat) :
    forall n, size n < m ->
    forall e s rest fuel,
      get_at (doc s) (ref e) = Some n -> ok e n ->
      exists s', run step (size n + fuel) (e :: rest) s = run step fuel rest s'
                 /\ doc s' = set_at (doc s) (ref e) (T e n).
  Proof.
    induction m as [|m IH]; intros n Hm e s rest fuel Hget Hok; [lia|].
    destruct (step_spec _ _ _ Hget Hok) as (zs & s1 & n' & Hstep & Hdoc & Hgr & Hkids & Hch & HT).
    rewrite (size_kids n). cbn [plus run]. rewrite Hstep. cbn [bind].
    assert (Hk' : kids n' = kids n) by now apply kids_same_graph.
    assert (Hlen : forall pre post, zs = pre ++ post ->
               length (map snd pre ++ map T2 post) = length (kids n')).
    { intros pre post ->. rewrite Hk', <- Hkids.
      now rewrite length_app, !length_map, length_app. }
    enough (Hinner : forall pre post, zs = pre ++ post ->
              forall sj, doc sj = set_at (doc s) (ref e)
                                    (set_kids n' (map snd pre ++ map T2 post)) ->
              exists s', run step (list_sum (map size (map snd pre)) + fuel)
                             (rev (map fst pre) ++ rest) sj
                         = run step fuel rest s'
                         /\ doc s' = set_at (doc s) (ref e) (set_kids n' (map T2 zs))).
    { destruct (Hinner zs [] (eq_sym (app_nil_r zs)) s1) as (s' & Hrun & Hs').
      - rewrite Hdoc. simpl. rewrite app_nil_r, Hkids, <- Hk'.
        now rewrite set_kids_kids.
      - exists s'. rewrite <- Hkids, HT. auto. }
    intros pre. induction pre as [|[c k] pre IHpre] using rev_ind;
      intros post Hzs sj Hsj.
    - exists sj. simpl in *. subst post. auto.
    - rewrite <- app_assoc in Hzs. simpl in Hzs.
      destruct (Hch _ _ _ _ Hzs) as [Href Hokc].
      assert (Hin : In k (kids n)).
      { rewrite <- Hkids, Hzs, map_app. apply in_or_app. right. now left. }
      rewrite !map_app, rev_app_distr, list_sum_app. simpl.
      rewrite map_app in Hsj. simpl in Hsj. rewrite <- app_assoc in Hsj. simpl in Hsj.
      assert (HlenM : length (map snd pre ++ k :: map T2 post) = length (kids n'))
        by (rewrite <- (Hlen _ _ Hzs), !length_app; reflexivity).
      set (M := set_kids n' (map snd pre ++ k :: map T2 post)) in *.
      assert (HkM : kids M = map snd pre ++ k :: map T2 post)
        by (apply kids_set_kids; exact HlenM).
      assert (Hgetc : get_at (doc sj) (ref c) = Some k).
      { rewrite Hsj, Href, (get_at_below _ _ _ _ _ Hget). simpl.
        rewrite HkM, <- (length_map snd pre), nth_error_middle. reflexivity. }
      assert (Hsz : size k < m) by (pose proof (size_in_kids _ _ Hin); lia).
      destruct (IH k Hsz c sj (rev (map fst pre) ++ rest)
                   (list_sum (map size (map snd pre)) + fuel) Hgetc Hokc)
        as (s2 & Hrun2 & Hdoc2).
      replace (list_sum (map size (map snd pre)) + (size k + 0) + fuel)
        with (size k + (list_sum (map size (map snd pre)) + fuel)) by lia.
      rewrite Hrun2.
      apply (IHpre ((c, k) :: post) Hzs s2).
      rewrite Hdoc2, Hsj, Href, (set_at_below _ _ _ _ _ _ Hget).
      f_equal.
      assert (HnthM : nth_error (kids M) (length pre) = Some k)
        by (rewrite HkM, <- (length_map snd pre); apply nth_error_middle).
      rewrite (set_at_child _ _ _ _ HnthM), HkM.
      unfold M. rewrite set_kids_twice.
      + rewrite <- (length_map snd pre), set_nth_middle. reflexivity.
      + rewrite set_nth_length. exact HlenM.
  Qed.

Lemma run_subtree (n : node) (e : E) (s : St) (rest : list E) (fuel : nat) :
    get_at (doc s) (ref e) = Some n -> ok e n ->
    exists s', run step (size n + fuel) (e :: rest) s = run step fuel rest s'
               /\ doc s' = set_at (doc s) (ref e) (T e n).
  Proof. apply (run_subtree_bounded (S (size n))). lia. Qed.
End Subtree.

(* ================================================================== *)
(** * Node attributes under the mutations of the engine *)

Lemma data_list_no_realizer (l : list datum) (cur : option properties) :
  existsb is_realizer l = false -> data_list_properties l cur = Ok cur.
Proof.
  induction l as [|d l IH]; simpl; [reflexivity|].
  destruct d; simpl; try discriminate. exact IH.
Qed.

Lemma realizer_first_set (r : one_or_many properties) (p p' : properties) :
  realizer_first r = Ok p -> realizer_first (realizer_set r p') = Ok p'.
Proof. destruct r as [q|[|q l]]; simpl; intros H; try discriminate; reflexivity. Qed.

Lemma data_list_set_get (l : list datum) (cur : option properties) (p p' : properties) :
  existsb is_realizer l = true ->
  data_list_properties l cur = Ok (Some p) ->
  data_list_properties (data_list_set l p') cur = Ok (Some p').
Proof.
  revert cur; induction l as [|d l IH]; intros cur Hex H; [discriminate|].
  cbn [data_list_set]. destruct (existsb is_realizer l) eqn:El.
  - destruct d as [r|r|]; cbn [data_list_properties] in *.
    + destruct (realizer_first r) as [q|]; cbn [bind] in *; [|discriminate]. now apply IH.
    + destruct (realizer_first r) as [q|]; cbn [bind] in *; [|discriminate]. now apply IH.
    + now apply IH.
  - destruct d as [r|r|]; cbn [data_list_properties datum_set] in *.
    + destruct (realizer_first r) as [q|] eqn:Er; cbn [bind] in *; [|discriminate].
      rewrite (realizer_first_set _ _ p' Er). cbn [bind].
      now apply data_list_no_realizer.
    + destruct (realizer_first r) as [q|] eqn:Er; cbn [bind] in *; [|discriminate].
      rewrite (realizer_first_set _ _ p' Er). cbn [bind].
      now apply data_list_no_realizer.
    + simpl in Hex. congruence.
Qed.

Lemma set_properties_frame (n : node) (p' : properties) :
  node_id (set_node_properties n p') = node_id n
  /\ node_graph (set_node_properties n p') = node_graph n.
Proof.
  unfold set_node_properties. destruct (node_data n) as [[d|l]|]; auto.
Qed.

(** What is written through the dictionary [_get_node_properties] returned
    is what it returns afterwards. *)
Lemma get_set_properties (n : node) (p p' : properties) :
  _get_node_properties n = Ok p ->
  _get_node_properties (set_node_properties n p') = Ok p'.
Proof.
  unfold _get_node_properties, set_node_properties.
  destruct (node_data n) as [[d|l]|] eqn:Ed; cbn [from_option bind]; [| |discriminate].
  - destruct d as [[q|ql]|[q|ql]|]; simpl; intros H; try discriminate; reflexivity.
  - cbn [node_data from_option bind].
    destruct (data_list_properties l None) as [[q|]|] eqn:El;
      cbn [bind from_option]; intros H; try discriminate.
    assert (Hex : existsb is_realizer l = true).
    { destruct (existsb is_realizer l) eqn:E; [reflexivity|].
      rewrite (data_list_no_realizer _ None E) in El. discriminate. }
    now rewrite (data_list_set_get _ _ _ p' Hex El).
Qed.

Lemma color_node_spec (n : node) (p : properties) (c : string) :
  _get_node_properties n = Ok p ->
  exists n', _color_node n c = Ok n'
             /\ node_id n' = node_id n /\ node_graph n' = node_graph n
             /\ _get_node_properties n'
                = Ok (mkProperties (NodeLabel_text p) (NodeLabel_fontSize p) c).
Proof.
  intros H. unfold _color_node. rewrite H. cbn [bind].
  eexists. split; [reflexivity|].
  destruct (set_properties_frame n (mkProperties (NodeLabel_text p) (NodeLabel_fontSize p) c)).
  repeat split; trivial. now apply (get_set_properties _ p).
Qed.

Lemma resize_node_font_spec (n : node) (p : properties) (z : Z) :
  _get_node_properties n = Ok p ->
  exists n', _resize_node_font n z = Ok n'
             /\ node_id n' = node_id n /\ node_graph n' = node_graph n
             /\ _get_node_properties n'
                = Ok (mkProperties (NodeLabel_text p) (PyStr.str_of_int z) (Fill_color p)).
Proof.
  intros H. unfold _resize_node_font. rewrite H. cbn [bind].
  eexists. split; [reflexivity|].
  destruct (set_properties_frame n
              (mkProperties (NodeLabel_text p) (PyStr.str_of_int z) (Fill_color p))).
  repeat split; trivial. now apply (get_set_properties _ p).
Qed.

Lemma known_color_id (n : node) (p : properties) :
  _get_node_properties n = Ok p -> known_color (Fill_color p) ->
  exists cid, _get_color_id n = Ok cid /\ cid < 3.
Proof.
  intros H Hk. unfold _get_color_id, _get_node_color. rewrite H. cbn [bind].
  destruct Hk as [ -> | [ -> | -> ] ]; simpl;
    [exists 0 | exists 1 | exists 2]; split; (reflexivity || lia).
Qed.

Lemma index_ok {A} (l : list A) (i : nat) :
  i < length l -> exists x, index l i = Ok x /\ nth_error l i = Some x.
Proof.
  intros H. unfold index. destruct (nth_error l i) as [x|] eqn:E.
  - exists x. split; reflexivity.
  - apply nth_error_None in E. lia.
Qed.

(* ================================================================== *)
(** * The closed form of a walk *)

Lemma tmapn_kids_eq (f : list string -> node -> node) (names : list string) (n : node) :
  tmapn f names n
  = set_kids (f names n) (map (fun c => tmapn f (names ++ [label_of c]) c) (kids n)).
Proof.
  destruct n as [i d [[gi [[c|l]|] ge]|]]; reflexivity.
Qed.

Lemma child_refs_fst_snd (keys names : list string) (p : path) (i : nat) (ks : list node) :
  map snd (child_refs keys names p i ks) = ks.
Proof.
  revert i; induction ks as [|k ks IH]; intros i; simpl; [reflexivity | now rewrite IH].
Qed.

Lemma child_refs_split (keys names : list string) (p : path) (ks : list node) :
  forall i pre c k post,
    child_refs keys names p i ks = pre ++ (c, k) :: post ->
    c = (keys ++ [id_of k], names ++ [label_of k], p ++ [i + length pre])
    /\ In k ks.
Proof.
  induction ks as [|k0 ks IH]; intros i pre c k post H; simpl in H.
  - destruct pre; discriminate.
  - destruct pre as [|x pre]; simpl in H.
    + injection H as <- <- _. rewrite Nat.add_0_r. split; [reflexivity | now left].
    + injection H as _ H. destruct (IH _ _ _ _ _ H) as [-> Hin].
      simpl. rewrite Nat.add_succ_r. split; [reflexivity | now right].
Qed.

Lemma child_refs_tmapn (f : list string -> node -> node) (keys names : list string)
    (p : path) (i : nat) (ks : list node) :
  map (fun z : rentry * node => tmapn f (snd (fst (fst z))) (snd z))
      (child_refs keys names p i ks)
  = map (fun c => tmapn f (names ++ [label_of c]) c) ks.
Proof.
  revert i; induction ks as [|k ks IH]; intros i; simpl; [reflexivity | now rewrite IH].
Qed.

Lemma child_entry_named (keys names : list string) (k : node) :
  named k ->
  child_entry keys names k = Ok (keys ++ [id_of k], names ++ [label_of k], k).
Proof.
  intros [Hid [s Hs]]. unfold child_entry, subscript_id, id_of, label_of.
  destruct (node_id k); [|congruence]. rewrite Hs. reflexivity.
Qed.

Lemma push_children_named (keys names : list string) (n : node) :
  graph_ok n -> Forall named (kids n) ->
  push_children keys names n
  = Ok (map (fun k => (keys ++ [id_of k], names ++ [label_of k], k)) (kids n)).
Proof.
  intros Hg Hk. unfold push_children, kids, graph_nodes in *.
  destruct (node_graph n) as [g|] eqn:Eg; [|reflexivity].
  destruct (graph_node g) as [[c|l]|] eqn:En; cbn [from_option bind].
  - inversion Hk as [|? ? Hc _]; subst. now rewrite (child_entry_named _ _ _ Hc).
  - apply mapM_ok_id. intros k Hin. rewrite Forall_forall in Hk.
    now apply child_entry_named, Hk.
  - now destruct (Hg g Eg).
Qed.

Lemma enumerate_child_refs (keys names : list string) (p : path) (i : nat) (ks : list node) :
  map (fun ie : nat * ventry =>
         let '(j, (k, nm, _)) := ie in (k, nm, p ++ [j]))
      (enumerate_from i
         (map (fun k => (keys ++ [id_of k], names ++ [label_of k], k)) ks))
  = map fst (child_refs keys names p i ks).
Proof.
  revert i; induction ks as [|k ks IH]; intros i; simpl; [reflexivity | now rewrite IH].
Qed.

Lemma kids_below (P : node -> Prop) (n : node) : all_below P n -> Forall P (kids n).
Proof.
  intros H. rewrite Forall_forall. intros k [i Hi]%In_nth_error.
  now destruct (all_below_kid _ _ _ _ H Hi).
Qed.

Section WalkClosedForm.
Variable visit : node -> result node.

Let ok (e : rentry) (n : node) : Prop :=
    (nonempty (snd (fst e)) = true -> visitable visit n) /\ walkable visit n.

Let T (e : rentry) (n : node) : node := tmapn (walk_fn visit) (snd (fst e)) n.

Lemma walk_step_spec (e : rentry) (n s : node) :
    get_at s (snd e) = Some n -> ok e n ->
    exists (zs : list (rentry * node)) (s1 n' : node),
      walk_step visit e s = Ok (map fst zs, s1)
      /\ s1 = set_at s (snd e) n'
      /\ node_graph n' = node_graph n
      /\ map snd zs = kids n
      /\ (forall pre c k post, zs = pre ++ (c, k) :: post ->
                               snd c = snd e ++ [length pre] /\ ok c k)
      /\ T e n = set_kids n' (map (fun z => T (fst z) (snd z)) zs).
  Proof.
    destruct e as [[keys names] p]. cbn [snd fst]. intros Hget [Hv [Hg Hb]].
    set (n' := walk_fn visit names n).
    assert (Hn' : (if nonempty names then visit n else Ok n) = Ok n'
                  /\ node_graph n' = node_graph n).
    { unfold n', walk_fn. cbn [fst snd] in Hv.
      destruct (nonempty names); [|auto].
      destruct (Hv eq_refl) as (x & -> & Hx). auto. }
    destruct Hn' as [Hvis Hgr].
    exists (child_refs keys names p 0 (kids n)), (set_at s p n'), n'.
    assert (Hnamed : Forall named (kids n)).
    { apply kids_below in Hb. rewrite Forall_forall in *. intros k Hk. now apply Hb. }
    split; [|split; [reflexivity|split; [exact Hgr|split; [|split]]]].
    - unfold walk_step, deref. rewrite Hget. cbn [from_option bind].
      rewrite Hvis. cbn [bind]. unfold push_children_ref.
      rewrite push_children_named.
      + cbn [bind]. rewrite (kids_same_graph _ _ Hgr), enumerate_child_refs. reflexivity.
      + intros g Eg. rewrite Hgr in Eg. exact (all_nodes_root _ _ Hg g Eg).
      + now rewrite (kids_same_graph _ _ Hgr).
    - apply child_refs_fst_snd.
    - intros pre c k post H.
      destruct (child_refs_split _ _ _ _ _ _ _ _ _ H) as [-> Hin]. cbn [fst snd].
      apply In_nth_error in Hin as [i Hi].
      destruct (all_below_kid _ _ _ _ Hb Hi) as [[_ Hvk] Hbk].
      split; [reflexivity|]. split; [intros _; exact Hvk|].
      split; [eapply all_nodes_kid; eauto | exact Hbk].
    - unfold T. cbn [fst snd]. rewrite tmapn_kids_eq. fold n'. f_equal.
      symmetry. apply (child_refs_tmapn (walk_fn visit)).
  Qed.

  (** A walk on a tree it does not raise on applies [visit] to every node
      but the root, and nothing else. *)
Lemma walk_closed_form (g : document) :
    walkable visit (graphml g) ->
    walk visit g = Ok (mkDocument (tmapn (walk_fn visit) [] (graphml g))).
  Proof.
    intros Hw. unfold walk.
    destruct (run_subtree _ _ (walk_step visit) (fun s => s) (fun e => snd e) T ok
                walk_step_spec (graphml g) (["graphml"], [], []) (graphml g) [] 0)
      as (s' & Hrun & Hs').
    - reflexivity.
    - split; [discriminate | exact Hw].
    - rewrite Nat.add_0_r in Hrun.
      match goal with
      | |- bind ?r _ = _ => replace r with (Ok s' : result node) by (symmetry; exact Hrun)
      end.
      simpl. now rewrite Hs'.
  Qed.
End WalkClosedForm.

(* ================================================================== *)
(** * The Path Resolver *)

Lemma styled_named (n : node) : styled n -> named n.
Proof.
  intros [Hid (p & Hp & _)]. split; [exact Hid|].
  exists (NodeLabel_text p). unfold _get_node_name. now rewrite Hp.
Qed.

Lemma named_label (n : node) : named n -> _get_node_name n = Ok (label_of n).
Proof. intros [_ [s Hs]]. unfold label_of. now rewrite Hs. Qed.

Lemma named_has_data (n : node) (s : string) :
  _get_node_name n = Ok s -> has_data n = true.
Proof.
  unfold _get_node_name, _get_node_properties, has_data.
  destruct (node_data n); [reflexivity | discriminate].
Qed.

Lemma scan_nodes_hit (l : list node) (key : string) :
  forall i0 i c, scan_nodes l key i0 = Ok (Some (i, c)) ->
                 _get_node_name c = Ok key /\ In c l.
Proof.
  induction l as [|a l IH]; intros i0 i c H; simpl in H; [discriminate|].
  destruct (_get_node_name a) as [s|] eqn:Ea; cbn [bind] in H; [|discriminate].
  destruct (String.eqb_spec s key) as [->|Hne].
  - injection H as _ <-. split; [exact Ea | now left].
  - destruct (IH _ _ _ H). split; [assumption | now right].
Qed.

Lemma scan_nodes_total (l : list node) (key : string) (i0 : nat) :
  Forall named l -> exists r, scan_nodes l key i0 = Ok r.
Proof.
  revert i0; induction l as [|a l IH]; intros i0 H; simpl; [eauto|].
  inversion H as [|? ? Ha Hl]; subst.
  rewrite (named_label _ Ha). cbn [bind].
  destruct (String.eqb (label_of a) key); eauto.
Qed.

Lemma scan_nodes_unique (l : list node) :
  forall i0 i k, Forall named l -> NoDup (map label_of l) -> nth_error l i = Some k ->
                 scan_nodes l (label_of k) i0 = Ok (Some (i0 + i, k)).
Proof.
  induction l as [|a l IH]; intros i0 i k Hn Hu Hi; [destruct i; discriminate|].
  inversion Hn as [|? ? Ha Hl]; subst. inversion Hu as [|? ? Hnotin Hu']; subst.
  simpl. rewrite (named_label _ Ha). cbn [bind].
  destruct i as [|i]; simpl in Hi.
  - injection Hi as ->. rewrite String.eqb_refl, Nat.add_0_r. reflexivity.
  - destruct (String.eqb_spec (label_of a) (label_of k)) as [E|_].
    + exfalso. apply Hnotin. rewrite E. apply in_map. eapply nth_error_In; eauto.
    + rewrite (IH (S i0) i k Hl Hu' Hi). do 3 f_equal. lia.
Qed.

(** What holds of every node whose label the resolver compared with
    success holds of the node it answers. *)
Lemma names_loop_hit (Q : path * node -> Prop) (names : list string) :
  (forall owner i c key, _get_node_name c = Ok key -> Q (owner ++ [i], c)) ->
  forall nodes owner bound found r,
    names_loop names nodes owner bound found = Ok (Some r) ->
    (forall b, bound = Some b -> Q b) ->
    Q r.
Proof.
  intros HQ.
  induction names as [|key names IH]; intros nodes owner bound found r H Hb.
  - simpl in H. destruct found; [|discriminate]. injection H as H. now apply Hb.
  - cbn [names_loop] in H. destruct nodes as [n|l].
    + destruct (_get_node_name n) as [cname|] eqn:En; cbn [bind] in H; [|discriminate].
      set (bound' := if String.eqb cname key then Some (owner ++ [0], n) else bound) in *.
      assert (Hb' : forall b, bound' = Some b -> Q b).
      { unfold bound'. destruct (String.eqb cname key); [|exact Hb].
        intros b [= <-]. eapply HQ; eauto. }
      destruct bound' as [[p nd]|]; [|discriminate].
      destruct (node_graph nd) as [g|].
      * destruct (graph_node g); cbn [from_option bind] in H; [|discriminate].
        eapply IH; eauto.
      * eapply IH; eauto.
    + destruct (scan_nodes l key 0) as [[[i c]|]|] eqn:Es; cbn [bind] in H; [| |discriminate].
      * destruct (scan_nodes_hit _ _ _ _ _ Es) as [Hc _].
        assert (Hb' : forall b, Some (owner ++ [i], c) = Some b -> Q b)
          by (intros b [= <-]; eapply HQ; eauto).
        destruct (node_graph c) as [g|].
        -- destruct (graph_node g); cbn [from_option bind] in H; [|discriminate].
           eapply IH; eauto.
        -- eapply IH; eauto.
      * eapply IH; eauto.
Qed.

Lemma resolver_named (g : gdict) (names : list string) (q : path) (m : node) :
  names <> [] ->
  _get_node_from_names g names = Ok (Some (q, m)) ->
  exists s, _get_node_name m = Ok s.
Proof.
  intros Hne H. unfold _get_node_from_names in H.
  destruct (subscript_graph_node (gdict_root g)) as [nodes|]; cbn [bind] in H; [|discriminate].
  destruct names as [|key names]; [congruence|].
  apply (names_loop_hit (fun r => exists s, _get_node_name (snd r) = Ok s)
           _ (fun _ _ c key Hc => ex_intro _ key Hc) _ _ _ _ _ H).
  discriminate.
Qed.

(** The root is answered for the empty label path only. *)
Lemma resolver_root (g : gdict) (names : list string) (m : node) :
  _get_node_from_names g names = Ok (Some ([], m)) -> m = gdict_root g.
Proof.
  intros H. unfold _get_node_from_names in H.
  destruct (subscript_graph_node (gdict_root g)) as [nodes|]; cbn [bind] in H; [|discriminate].
  destruct names as [|key names]; [now injection H as <-|].
  exfalso.
  assert (HQ : forall (owner : path) (i : nat) (c : node) (k : string),
             _get_node_name c = Ok k -> fst (owner ++ [i], c) <> []).
  { intros owner i c k _. simpl. destruct owner; discriminate. }
  apply (names_loop_hit (fun r => fst r <> []) _ HQ _ _ _ _ _ H);
    [discriminate | reflexivity].
Qed.

Lemma good_kid (n k : node) :
  all_nodes graph_ok n -> all_below styled n -> In k (kids n) -> good k.
Proof.
  intros Hg Hb [i Hi]%In_nth_error.
  destruct (all_below_kid _ _ _ _ Hb Hi). split; [assumption|].
  split; [eapply all_nodes_kid; eauto | assumption].
Qed.

Lemma kids_siblings (n : node) (g : graph) (nodes : one_or_many node) :
  node_graph n = Some g -> graph_node g = Some nodes -> kids n = siblings_of nodes.
Proof.
  unfold kids, graph_nodes. intros -> ->. now destruct nodes.
Qed.

(** The resolver does not raise once the variable [node] is bound or the
    nodes it scans are a list. *)
Lemma names_loop_total (names : list string) :
  forall nodes owner bound found,
    Forall good (siblings_of nodes) ->
    (forall b, bound = Some b -> good (snd b)) ->
    (bound = None -> exists l, nodes = Many l) ->
    exists r, names_loop names nodes owner bound found = Ok r.
Proof.
  induction names as [|key names IH]; intros nodes owner bound found Hn Hb Hm;
    [simpl; eauto|].
  cbn [names_loop]. destruct nodes as [n|l].
  - simpl in Hn. inversion Hn as [|? ? Hgn _]; subst.
    rewrite (named_label _ (styled_named _ (proj1 Hgn))). cbn [bind].
    set (bound' := if String.eqb (label_of n) key then Some (owner ++ [0], n) else bound).
    assert (Hb' : forall b, bound' = Some b -> good (snd b)).
    { unfold bound'. destruct (String.eqb (label_of n) key); [|exact Hb].
      now intros b [= <-]. }
    assert (Hsome : bound' <> None).
    { unfold bound'. destruct (String.eqb (label_of n) key); [discriminate|].
      intros E. destruct (Hm E) as [l Hl]. discriminate. }
    destruct bound' as [[p nd]|] eqn:Eb; [|congruence].
    pose proof (Hb' _ eq_refl) as Hnd. simpl in Hnd.
    destruct (node_graph nd) as [g|] eqn:Eg.
    + destruct Hnd as (_ & Hgo & Hbe).
      destruct (graph_node g) as [nodes'|] eqn:En;
        [|now destruct (all_nodes_root _ _ Hgo g Eg)].
      cbn [from_option bind]. apply IH; [|exact Hb'|discriminate].
      rewrite <- (kids_siblings _ _ _ Eg En). rewrite Forall_forall.
      intros k Hk. now apply (good_kid nd).
    + apply IH; [exact Hn | exact Hb' | congruence].
  - destruct (scan_nodes_total l key 0) as [r Hr].
    { simpl in Hn. rewrite Forall_forall in *. intros x Hx.
      apply styled_named, (Hn x Hx). }
    rewrite Hr. cbn [bind]. destruct r as [[i c]|].
    + destruct (scan_nodes_hit _ _ _ _ _ Hr) as [_ Hin].
      assert (Hc : good c) by (simpl in Hn; rewrite Forall_forall in Hn; auto).
      assert (Hb' : forall b, Some (owner ++ [i], c) = Some b -> good (snd b))
        by now intros b [= <-].
      destruct (node_graph c) as [g|] eqn:Eg.
      * destruct Hc as (_ & Hgo & Hbe).
        destruct (graph_node g) as [nodes'|] eqn:En;
          [|now destruct (all_nodes_root _ _ Hgo g Eg)].
        cbn [from_option bind]. apply IH; [|exact Hb'|discriminate].
        rewrite <- (kids_siblings _ _ _ Eg En). rewrite Forall_forall.
        intros k Hk. now apply (good_kid c).
      * apply IH; [exact Hn | exact Hb' | discriminate].
    + apply IH; [exact Hn | exact Hb | eauto].
Qed.

(** On a well-formed document whose top-level nodes are a list the resolver
    never raises. *)
Lemma well_formed_resolver_total (d : document) :
  well_formed d -> top_level_list d -> resolver_total d.
Proof.
  intros (Hgr & Hgo & Hst & _) (g & l & Eg & En) names.
  unfold _get_node_from_names, subscript_graph_node. simpl.
  rewrite Eg. cbn [from_option bind]. rewrite En. cbn [from_option bind].
  destruct names as [|key names]; [eauto|].
  apply names_loop_total; [|discriminate|eauto].
  rewrite <- (kids_siblings _ _ _ Eg En). rewrite Forall_forall.
  intros k Hk. now apply (good_kid (graphml d)).
Qed.

(** With unique sibling labels, the label path of a node resolves to that
    node. *)
Lemma names_loop_complete (q : path) :
  forall m g nodes n owner bound found,
    q <> [] -> get_at m q = Some n ->
    node_graph m = Some g -> graph_node g = Some nodes ->
    all_nodes graph_ok m -> all_below styled m -> all_nodes unique_labels m ->
    names_loop (labels_along m q) nodes owner bound found = Ok (Some (owner ++ q, n)).
Proof.
  induction q as [|i q IH]; intros m g nodes n owner bound found Hne Hget Eg En Hgo Hst Hu;
    [congruence|].
  cbn [get_at labels_along] in *.
  destruct (nth_error (kids m) i) as [k|] eqn:Ei; [|discriminate].
  pose proof (good_kid m k Hgo Hst (nth_error_In _ _ Ei)) as (Hk & Hgok & Hstk).
  pose proof (all_nodes_kid _ _ _ _ Hu Ei) as Huk.
  assert (Hnk : _get_node_name k = Ok (label_of k))
    by apply named_label, styled_named, Hk.
  (* what happens once [k] is found, whatever container it was found in *)
  assert (Hafter :
    match node_graph k with
    | Some g' =>
        nodes' <- from_option KeyError (graph_node g') ;;
        names_loop (labels_along k q) nodes' (owner ++ [i]) (Some (owner ++ [i], k)) true
    | None =>
        names_loop (labels_along k q) nodes owner (Some (owner ++ [i], k)) true
    end = Ok (Some (owner ++ i :: q, n))).
  { destruct q as [|j q'].
    - simpl in Hget. injection Hget as ->.
      destruct (node_graph n) as [g'|] eqn:Eg'; [|reflexivity].
      destruct (graph_node g') eqn:En'; [reflexivity|].
      now destruct (all_nodes_root _ _ Hgok g' Eg').
    - destruct (node_graph k) as [g'|] eqn:Eg'.
      + destruct (graph_node g') as [nodes'|] eqn:En';
          [|now destruct (all_nodes_root _ _ Hgok g' Eg')].
        cbn [from_option bind].
        rewrite (IH k g' nodes' n (owner ++ [i])); auto; [|discriminate].
        now rewrite <- app_assoc.
      + simpl in Hget. unfold kids in Hget. rewrite Eg' in Hget.
        destruct j; discriminate. }
  pose proof (kids_siblings _ _ _ Eg En) as Hks.
  cbn [names_loop]. destruct nodes as [c|l]; simpl in Hks.
  - rewrite Hks in Ei. destruct i as [|[|i]]; simpl in Ei; try discriminate.
    injection Ei as ->. rewrite Hnk. cbn [bind]. rewrite String.eqb_refl.
    exact Hafter.
  - rewrite Hks in Ei.
    assert (Hscan : scan_nodes l (label_of k) 0 = Ok (Some (0 + i, k))).
    { apply scan_nodes_unique; trivial.
      - rewrite <- Hks. rewrite Forall_forall. intros x Hx.
        apply styled_named. now destruct (good_kid m x Hgo Hst Hx).
      - rewrite <- Hks. exact (all_nodes_root _ _ Hu). }
    rewrite Hscan. cbn [bind plus]. exact Hafter.
Qed.

Lemma labels_along_nonempty (m : node) (q : path) (n : node) :
  q <> [] -> get_at m q = Some n -> labels_along m q <> [].
Proof.
  destruct q as [|i q]; [congruence|]. simpl.
  destruct (nth_error (kids m) i); [discriminate | discriminate].
Qed.

Lemma resolver_complete (d : document) (q : path) (n : node) :
  well_formed d -> q <> [] -> get_at (graphml d) q = Some n ->
  _get_node_from_names (Doc d) (labels_along (graphml d) q) = Ok (Some (q, n)).
Proof.
  intros (Hgr & Hgo & Hst & Hu) Hne Hget.
  unfold _get_node_from_names, subscript_graph_node. simpl.
  destruct (node_graph (graphml d)) as [g|] eqn:Eg; [|congruence].
  destruct (graph_node g) as [nodes|] eqn:En;
    [|now destruct (all_nodes_root _ _ Hgo g Eg)].
  cbn [from_option bind].
  pose proof (labels_along_nonempty _ _ _ Hne Hget) as Hl.
  pose proof (names_loop_complete q (graphml d) g nodes n [] None false
                Hne Hget Eg En Hgo Hst Hu) as H.
  destruct (labels_along (graphml d) q) as [|key names] eqn:El; [congruence|].
  rewrite ?En. cbn [from_option bind]. exact H.
Qed.

(* ================================================================== *)
(** * The closed form of [_find_diff] *)

Lemma set_nth_same {A} (i : nat) (a : A) (l : list A) :
  nth_error l i = Some a -> set_nth i a l = l.
Proof.
  revert i; induction l as [|b l IH]; intros [|i]; simpl; try discriminate.
  - now intros [= ->].
  - intros H. now rewrite IH.
Qed.

Lemma set_at_same (n : node) (p : path) (m : node) :
  get_at n p = Some m -> set_at n p m = n.
Proof.
  revert n; induction p as [|i p IH]; intros n H; simpl in *.
  - now injection H as ->.
  - destruct (nth_error (kids n) i) as [c|] eqn:E; [|discriminate].
    rewrite (IH c H), (set_nth_same _ _ _ E). apply set_kids_kids.
Qed.

(** Painting a styled node with a three-colour slot. *)
Lemma paint_spec (n : node) (slot : list string) :
  styled n -> length slot = 3 ->
  exists n1 cid c pr,
    _get_node_properties n = Ok pr
    /\ _get_color_id n = Ok cid /\ nth_error slot cid = Some c
    /\ _color_node n c = Ok n1
    /\ (forall dg p, paint dg p n slot = Ok (set_at dg p n1))
    /\ node_id n1 = node_id n /\ node_graph n1 = node_graph n
    /\ _get_node_properties n1
       = Ok (mkProperties (NodeLabel_text pr) (NodeLabel_fontSize pr) c).
Proof.
  intros [_ (pr & Hpr & Hk)] Hlen.
  destruct (known_color_id _ _ Hpr Hk) as (cid & Hcid & Hlt).
  destruct (index_ok slot cid) as (c & Hc & Hnth); [lia|].
  destruct (color_node_spec n pr c Hpr) as (n1 & Hn1 & Hid & Hgr & Hp1).
  exists n1, cid, c, pr. repeat split; trivial.
  intros dg p. unfold paint. rewrite Hcid. cbn [bind]. rewrite Hc. cbn [bind].
  rewrite Hn1. reflexivity.
Qed.

Lemma paint_at (dg : node) (p : path) (n : node) (slot : list string) :
  paint dg p n slot = (x <- paint n [] n slot ;; Ok (set_at dg p x)).
Proof.
  unfold paint. destruct (_get_color_id n); cbn [bind]; [|reflexivity].
  destruct (index slot a); cbn [bind]; [|reflexivity].
  destruct (_color_node n a0); reflexivity.
Qed.

(** Painting through the reference is painting the node and storing it. *)
Lemma find_diff_paint_at (colors : palette) (names : list string) (n : node)
    (r : option (path * node)) (p : path) (dg : node) :
  get_at dg p = Some n ->
  find_diff_paint colors names n r p dg
  = (x <- find_diff_paint colors names n r [] n ;; Ok (set_at dg p x)).
Proof.
  intros Hget. unfold find_diff_paint, deref. rewrite Hget. simpl get_at.
  cbn [from_option].
  assert (Hsame : Ok dg = Ok (set_at dg p n)) by now rewrite (set_at_same _ _ _ Hget).
  destruct (nonempty names); [|exact Hsame].
  destruct (_get_node_name n); cbn [bind]; [|reflexivity].
  destruct r as [[q g2n]|].
  - destruct (has_data g2n); [|exact Hsame].
    destruct (_get_node_name g2n); cbn [bind]; [|reflexivity].
    destruct (String.eqb a0 a); rewrite (paint_at dg p);
      destruct (paint n [] n _); reflexivity.
  - destruct (has_data n); [|exact Hsame].
    rewrite (paint_at dg p). destruct (paint n [] n _); reflexivity.
Qed.

Lemma named_id (k : node) : named k -> subscript_id k = Ok (id_of k).
Proof.
  intros [Hid _]. unfold subscript_id, id_of.
  destruct (node_id k); [reflexivity | congruence].
Qed.

Section FindDiffClosedForm.
Variable g2 : document.
Variable colors : palette.
Hypothesis colors_ok : palette_ok colors.

Lemma fd_visit_ok (names : list string) (n : node) :
    resolves g2 names n ->
    (nonempty names = true -> styled n) ->
    exists r x,
      _get_node_from_names (Doc g2) names = Ok r
      /\ find_diff_paint colors names n r [] n = Ok x
      /\ node_graph x = node_graph n
      /\ x = paint_fn g2 colors names n.
  Proof.
    intros Hres Hst. destruct (Hres [] n eq_refl) as [r Hr].
    simpl in Hr. rewrite app_nil_r in Hr. exists r.
    enough (exists x, find_diff_paint colors names n r [] n = Ok x
                      /\ node_graph x = node_graph n) as (x & Hx & Hg).
    { exists x. repeat split; trivial. unfold paint_fn. now rewrite Hr, Hx. }
    unfold find_diff_paint. destruct (nonempty names) eqn:Hne; [|eauto].
    specialize (Hst eq_refl).
    rewrite (named_label _ (styled_named _ Hst)). cbn [bind].
    unfold deref. cbn [get_at from_option bind].
    destruct colors_ok as (H1 & _ & H3).
    destruct (paint_spec n (pal_g1 colors) Hst H1)
      as (a1 & cid1 & c1 & pr1 & _ & _ & _ & _ & Hp1 & _ & Hg1 & _).
    destruct (paint_spec n (pal_intersect colors) Hst H3)
      as (a3 & cid3 & c3 & pr3 & _ & _ & _ & _ & Hp3 & _ & Hg3 & _).
    destruct r as [[q g2n]|].
    - assert (Hnamed : exists s, _get_node_name g2n = Ok s).
      { apply (resolver_named (Doc g2) names q g2n); [|exact Hr].
        destruct names; [discriminate | discriminate]. }
      destruct Hnamed as [s Hs]. rewrite (named_has_data _ _ Hs), Hs. cbn [bind].
      destruct (String.eqb s (label_of n)).
      + rewrite Hp3. simpl. eauto.
      + rewrite Hp1. simpl. eauto.
    - destruct Hst as [_ (pr & Hpr & _)].
      assert (Hd : has_data n = true).
      { apply (named_has_data n (NodeLabel_text pr)).
        unfold _get_node_name. now rewrite Hpr. }
      rewrite Hd, Hp1. simpl. eauto.
  Qed.

Lemma child_pairs_snd (keys names dkeys dnames : list string) (p : path) (i : nat)
      (ks : list node) :
    map snd (child_pairs keys names dkeys dnames p i ks) = ks.
  Proof.
    revert i; induction ks as [|k ks IH]; intros i; simpl; [reflexivity | now rewrite IH].
  Qed.

Lemma child_pairs_split (keys names dkeys dnames : list string) (p : path)
      (ks : list node) :
    forall i pre c k post,
      child_pairs keys names dkeys dnames p i ks = pre ++ (c, k) :: post ->
      c = ((keys ++ [id_of k], names ++ [label_of k], k),
           (dkeys ++ [id_of k], dnames ++ [label_of k], p ++ [i + length pre]))
      /\ In k ks.
  Proof.
    induction ks as [|k0 ks IH]; intros i pre c k post H; simpl in H.
    - destruct pre; discriminate.
    - destruct pre as [|x pre]; simpl in H.
      + injection H as <- <- _. rewrite Nat.add_0_r. split; [reflexivity | now left].
      + injection H as _ H. destruct (IH _ _ _ _ _ H) as [-> Hin].
        simpl. rewrite Nat.add_succ_r. split; [reflexivity | now right].
  Qed.

Lemma child_pairs_tmapn (f : list string -> node -> node)
      (keys names dkeys dnames : list string) (p : path) (i : nat) (ks : list node) :
    map (fun z : (ventry * rentry) * node =>
           tmapn f (snd (fst (fst (fst z)))) (snd z))
        (child_pairs keys names dkeys dnames p i ks)
    = map (fun c => tmapn f (names ++ [label_of c]) c) ks.
  Proof.
    revert i; induction ks as [|k ks IH]; intros i; simpl; [reflexivity | now rewrite IH].
  Qed.

  (** The pushes of one iteration, when the node of the copy has the graph
      of the node of the source. *)
Lemma push_children2_named (keys names dkeys dnames : list string) (p : path)
      (n dn : node) :
    graph_ok n -> Forall named (kids n) -> node_graph dn = node_graph n ->
    exists dk,
      push_children2 keys names n dkeys dnames p dn
      = Ok (map fst (child_pairs keys names dk dnames p 0 (kids n))).
  Proof.
    intros Hg Hk Hgr. unfold push_children2, kids, graph_nodes in *.
    destruct (node_graph n) as [g|] eqn:Eg; [|exists dkeys; reflexivity].
    destruct (graph_node g) as [[c|l]|] eqn:En; cbn [from_option bind].
    - exists keys. inversion Hk as [|? ? Hc _]; subst.
      rewrite (child_entry_named _ _ _ Hc). cbn [bind].
      unfold subscript_graph_node. rewrite Hgr. cbn [from_option bind].
      rewrite En. cbn [from_option bind].
      rewrite (named_label _ Hc). reflexivity.
    - exists dkeys.
      assert (Hsub : forall i, subscript_dnode dn i = index l i).
      { intros i. unfold subscript_dnode, subscript_graph_node.
        rewrite Hgr. cbn [from_option bind]. rewrite En. reflexivity. }
      enough (Hgen : forall pre post, l = pre ++ post ->
         mapM (fun inode_node : nat * node =>
                 let '(inode, n0) := inode_node in
                 e <- child_entry keys names n0 ;;
                 dnode <- subscript_dnode dn inode ;;
                 did <- subscript_id dnode ;;
                 dname <- _get_node_name dnode ;;
                 Ok (e, (dkeys ++ [did], dnames ++ [dname], p ++ [inode])))
              (enumerate_from (length pre) post)
         = Ok (map fst (child_pairs keys names dkeys dnames p (length pre) post)))
        by exact (Hgen [] l eq_refl).
      intros pre post. revert pre.
      induction post as [|k post IH]; intros pre Hl; [reflexivity|].
      assert (Hkn : named k).
      { rewrite Forall_forall in Hk. apply Hk. rewrite Hl.
        apply in_or_app. right. now left. }
      cbn [enumerate_from mapM child_pairs map fst].
      rewrite (child_entry_named _ _ _ Hkn). cbn [bind].
      rewrite Hsub. unfold index. rewrite Hl, nth_error_middle. cbn [from_option bind].
      rewrite (named_id _ Hkn). cbn [bind].
      rewrite (named_label _ Hkn). cbn [bind].
      specialize (IH (pre ++ [k])). rewrite length_app in IH. simpl in IH.
      rewrite Nat.add_1_r in IH.
      rewrite IH by (now rewrite <- app_assoc). reflexivity.
    - now destruct (Hg g Eg).
  Qed.

Let ok (e : ventry * rentry) (n : node) : Prop :=
    snd (fst e) = n
    /\ resolves g2 (snd (fst (fst e))) n
    /\ (nonempty (snd (fst (fst e))) = true -> styled n)
    /\ all_nodes graph_ok n /\ all_below styled n.

Let T (e : ventry * rentry) (n : node) : node :=
    tmapn (paint_fn g2 colors) (snd (fst (fst e))) n.

Lemma fd_step_spec (e : ventry * rentry) (n : node) (s : node * rename_map) :
    get_at (fst s) (snd (snd e)) = Some n -> ok e n ->
    exists (zs : list ((ventry * rentry) * node)) (s1 : node * rename_map) (n' : node),
      fd_step g2 colors e s = Ok (map fst zs, s1)
      /\ fst s1 = set_at (fst s) (snd (snd e)) n'
      /\ node_graph n' = node_graph n
      /\ map snd zs = kids n
      /\ (forall pre c k post, zs = pre ++ (c, k) :: post ->
                               snd (snd c) = snd (snd e) ++ [length pre] /\ ok c k)
      /\ T e n = set_kids n' (map (fun z => T (fst z) (snd z)) zs).
  Proof.
    destruct e as [[[keys names] cn] [[dkeys dnames] p]]. destruct s as [dg rm].
    cbn [fst snd]. intros Hget Hok. unfold ok in Hok. cbn [fst snd] in Hok.
    destruct Hok as (-> & Hres & Hst & Hgo & Hb).
    destruct (fd_visit_ok names n Hres Hst) as (r & n' & Hr & Hx & Hgr & Hpf).
    assert (Hnamed : Forall named (kids n)).
    { apply kids_below in Hb. rewrite Forall_forall in *. intros k Hk.
      now apply styled_named, Hb. }
    destruct (push_children2_named keys names dkeys dnames p n n'
                (all_nodes_root _ _ Hgo) Hnamed Hgr) as [dk Hpush].
    exists (child_pairs keys names dk dnames p 0 (kids n)),
      (set_at dg p n', dict_set (_get_node_id n) (_get_node_id n) rm), n'.
    split; [|split; [reflexivity|split; [exact Hgr|split; [|split]]]].
    - unfold fd_step, find_diff_body. cbn [fst snd]. rewrite Hr. cbn [bind].
      rewrite (find_diff_paint_at colors names n r p dg Hget), Hx. cbn [bind].
      unfold deref. rewrite (get_at_set_at _ _ _ n' Hget). cbn [from_option bind].
      rewrite Hpush. reflexivity.
    - apply child_pairs_snd.
    - intros pre c k post H.
      destruct (child_pairs_split _ _ _ _ _ _ _ _ _ _ _ H) as [-> Hin]. cbn [fst snd].
      destruct (good_kid n k Hgo Hb Hin) as (Hk & Hgk & Hbk).
      split; [reflexivity|]. split; [reflexivity|].
      split; [|split; [intros _; exact Hk | split; assumption]].
      apply In_nth_error in Hin as [i Hi].
      unfold resolves. cbn [fst snd]. intros q c Hq. rewrite <- app_assoc.
      specialize (Hres (i :: q) c). simpl in Hres. rewrite Hi in Hres.
      now apply Hres.
    - unfold T. cbn [fst snd]. rewrite tmapn_kids_eq, <- Hpf. f_equal.
      symmetry. apply (child_pairs_tmapn (paint_fn g2 colors)).
  Qed.

Lemma find_diff_loop_run (fuel : nat) :
    forall (zs : list (ventry * rentry)) (dg : node) (rm : rename_map),
      find_diff_loop g2 colors fuel (map fst zs) (map snd zs) dg rm
      = run (fd_step g2 colors) fuel zs (dg, rm).
  Proof.
    induction fuel as [|fuel IH]; intros [|e zs] dg rm; try reflexivity.
    cbn [map find_diff_loop run]. unfold fd_step at 1. cbn [fst snd].
    destruct (find_diff_body g2 colors (fst e) (snd e) dg rm) as [[[pushed dg'] rm']|];
      cbn [bind]; [|reflexivity].
    rewrite <- IH. now rewrite !map_app, !map_rev.
  Qed.

  (** The loop of [_find_diff] on a well-formed source paints every node of
      the copy but the root as [paint_fn] says, and changes nothing else. *)
Lemma find_diff_loop_closed_form (n : node) :
    resolves g2 [] n -> all_nodes graph_ok n -> all_below styled n ->
    exists rm,
      find_diff_loop g2 colors (size n)
        [(["graphml"], [], n)] [(["graphml"], [], [])] n []
      = Ok (tmapn (paint_fn g2 colors) [] n, rm).
  Proof.
    intros Hres Hgo Hb.
    destruct (run_subtree _ _ (fd_step g2 colors) fst (fun e => snd (snd e)) T ok
                fd_step_spec n ((["graphml"], [], n), (["graphml"], [], []))
                (n, []) [] 0)
      as ([dg' rm'] & Hrun & Hs').
    - reflexivity.
    - split; [reflexivity|]. split; [exact Hres|]. split; [discriminate|].
      split; assumption.
    - exists rm'. rewrite Nat.add_0_r in Hrun.
      pose proof (find_diff_loop_run (size n)
                    [((["graphml"], [], n), (["graphml"], [], []))] n []) as Hsim.
      cbn [map fst snd] in Hsim, Hs'. etransitivity; [exact Hsim|].
      etransitivity; [exact Hrun|]. simpl. now rewrite Hs'.
  Qed.
End FindDiffClosedForm.

(* ================================================================== *)
(** * What a style-only rewriting of a tree preserves *)

Lemma properties_same_data (a b : node) :
  node_data a = node_data b -> _get_node_properties a = _get_node_properties b.
Proof. unfold _get_node_properties. now intros ->. Qed.

Lemma properties_set_kids (n : node) (l : list node) :
  _get_node_properties (set_kids n l) = _get_node_properties n.
Proof. apply properties_same_data, set_kids_graph_free. Qed.

Lemma graph_free_label (a b : node) :
  _get_node_properties a = _get_node_properties b -> label_of a = label_of b.
Proof. unfold label_of, _get_node_name. now intros ->. Qed.

Section StyleOnly.
Variable f : list string -> node -> node.
Hypothesis Hf : style_only f.

Lemma kids_tmapn (names : list string) (n : node) :
    kids (tmapn f names n)
    = map (fun c => tmapn f (names ++ [label_of c]) c) (kids n).
  Proof.
    rewrite tmapn_kids_eq. apply kids_set_kids.
    rewrite length_map. f_equal. symmetry. apply kids_same_graph, Hf.
  Qed.

Lemma properties_tmapn (names : list string) (n : node) :
    _get_node_properties (tmapn f names n) = _get_node_properties (f names n).
  Proof. rewrite tmapn_kids_eq. apply properties_set_kids. Qed.

Lemma id_tmapn (names : list string) (n : node) :
    node_id (tmapn f names n) = node_id n.
  Proof.
    rewrite tmapn_kids_eq. destruct (set_kids_graph_free (f names n)
      (map (fun c => tmapn f (names ++ [label_of c]) c) (kids n))) as [-> _].
    apply Hf.
  Qed.

Lemma name_tmapn (names : list string) (n : node) :
    _get_node_name (tmapn f names n) = _get_node_name n.
  Proof.
    destruct (Hf names n) as (_ & _ & <- & _).
    unfold _get_node_name. now rewrite properties_tmapn.
  Qed.

Lemma label_tmapn (names : list string) (n : node) :
    label_of (tmapn f names n) = label_of n.
  Proof. unfold label_of. now rewrite name_tmapn. Qed.

Lemma get_at_tmapn (p : path) :
    forall names n,
      get_at (tmapn f names n) p
      = option_map (tmapn f (names ++ labels_along n p)) (get_at n p).
  Proof.
    induction p as [|i p IH]; intros names n; simpl.
    - now rewrite app_nil_r.
    - rewrite kids_tmapn, nth_error_map.
      destruct (nth_error (kids n) i) as [k|]; simpl; [|reflexivity].
      rewrite IH. now rewrite <- app_assoc.
  Qed.

Lemma labels_along_tmapn (p : path) :
    forall names n, labels_along (tmapn f names n) p = labels_along n p.
  Proof.
    induction p as [|i p IH]; intros names n; simpl; [reflexivity|].
    rewrite kids_tmapn, nth_error_map.
    destruct (nth_error (kids n) i) as [k|]; simpl; [|reflexivity].
    now rewrite label_tmapn, IH.
  Qed.

Lemma graph_tmapn (names : list string) (n : node) :
    match node_graph n with
    | Some g =>
        exists g', node_graph (tmapn f names n) = Some g'
                   /\ (graph_node g = None <-> graph_node g' = None)
                   /\ ((exists l, graph_node g = Some (Many l))
                       <-> (exists l, graph_node g' = Some (Many l)))
                   /\ graph_edge g' = graph_edge g
    | None => node_graph (tmapn f names n) = None
    end.
  Proof.
    rewrite tmapn_kids_eq. unfold set_kids.
    destruct (Hf names n) as (-> & _).
    destruct (node_graph n) as [g|] eqn:Eg; [|now destruct (Hf names n) as (-> & _)].
    destruct (graph_node g) as [[c|l]|] eqn:En.
    - eexists. split; [reflexivity|]. simpl.
      split; [split; discriminate|]. split; [|reflexivity].
      split; intros [l H]; discriminate.
    - eexists. split; [reflexivity|]. simpl.
      split; [split; discriminate|]. split; [|reflexivity]. split; eauto.
    - exists g. destruct (Hf names n) as (-> & _). rewrite En. tauto.
  Qed.

Lemma graph_ok_tmapn (names : list string) (n : node) :
    graph_ok n -> graph_ok (tmapn f names n).
  Proof.
    intros H g' Eg'. pose proof (graph_tmapn names n) as Hg.
    destruct (node_graph n) as [g|] eqn:Eg; [|congruence].
    destruct Hg as (g'' & E & Hnone & _). rewrite E in Eg'. injection Eg' as <-.
    intros Hn. apply (H g Eg). now apply Hnone.
  Qed.

Lemma all_nodes_tmapn (P Q : node -> Prop) (names : list string) (n : node) :
    (forall nm c, P c -> Q (tmapn f nm c)) ->
    all_nodes P n -> all_nodes Q (tmapn f names n).
  Proof.
    intros HPQ H p c Hc. rewrite get_at_tmapn in Hc.
    destruct (get_at n p) as [c0|] eqn:E; [|discriminate].
    injection Hc as <-. apply HPQ. exact (H p c0 E).
  Qed.

Lemma all_below_tmapn (P Q : node -> Prop) (names : list string) (n : node) :
    (forall nm c, P c -> Q (tmapn f nm c)) ->
    all_below P n -> all_below Q (tmapn f names n).
  Proof.
    intros HPQ H p c Hp Hc. rewrite get_at_tmapn in Hc.
    destruct (get_at n p) as [c0|] eqn:E; [|discriminate].
    injection Hc as <-. apply HPQ. exact (H p c0 Hp E).
  Qed.

Lemma propertied_tmapn (names : list string) (n : node) :
    propertied n -> propertied (tmapn f names n).
  Proof.
    intros [Hid [p Hp]]. split.
    - now rewrite id_tmapn.
    - rewrite properties_tmapn. destruct (Hf names n) as (_ & _ & _ & H). eauto.
  Qed.

Lemma unique_labels_tmapn (names : list string) (n : node) :
    unique_labels n -> unique_labels (tmapn f names n).
  Proof.
    unfold unique_labels. intros H. rewrite kids_tmapn, map_map.
    erewrite map_ext; [exact H|]. intros c. apply label_tmapn.
  Qed.
End StyleOnly.

(** The three rewritings of the engine are style-only. *)
Lemma color_node_style (n x : node) (c : string) :
  _color_node n c = Ok x ->
  node_graph x = node_graph n /\ node_id x = node_id n
  /\ _get_node_name x = _get_node_name n
  /\ exists p, _get_node_properties n = Ok p
               /\ _get_node_properties x
                  = Ok (mkProperties (NodeLabel_text p) (NodeLabel_fontSize p) c).
Proof.
  intros H. destruct (_get_node_properties n) as [p|] eqn:Hp.
  - destruct (color_node_spec n p c Hp) as (n1 & Hn1 & Hid & Hgr & Hp1).
    rewrite Hn1 in H. injection H as <-. repeat split; trivial.
    + unfold _get_node_name. now rewrite Hp1, Hp.
    + eauto.
  - unfold _color_node in H. rewrite Hp in H. discriminate.
Qed.

Lemma resize_node_font_style (n x : node) (z : Z) :
  _resize_node_font n z = Ok x ->
  node_graph x = node_graph n /\ node_id x = node_id n
  /\ _get_node_name x = _get_node_name n
  /\ exists p, _get_node_properties n = Ok p
               /\ _get_node_properties x
                  = Ok (mkProperties (NodeLabel_text p) (PyStr.str_of_int z) (Fill_color p)).
Proof.
  intros H. destruct (_get_node_properties n) as [p|] eqn:Hp.
  - destruct (resize_node_font_spec n p z Hp) as (n1 & Hn1 & Hid & Hgr & Hp1).
    rewrite Hn1 in H. injection H as <-. repeat split; trivial.
    + unfold _get_node_name. now rewrite Hp1, Hp.
    + eauto.
  - unfold _resize_node_font in H. rewrite Hp in H. discriminate.
Qed.

Lemma style_only_self : forall n : node,
  node_graph n = node_graph n /\ node_id n = node_id n
  /\ _get_node_name n = _get_node_name n
  /\ (forall p, _get_node_properties n = Ok p ->
                exists p', _get_node_properties n = Ok p').
Proof. intros n. repeat split; eauto. Qed.

Lemma style_only_resize (z : Z) : style_only (walk_fn (resize_visit z)).
Proof.
  intros names n. unfold walk_fn, resize_visit.
  destruct (nonempty names); [|apply style_only_self].
  destruct (_resize_node_font n z) as [x|] eqn:E; [|apply style_only_self].
  destruct (resize_node_font_style _ _ _ E) as (H1 & H2 & H3 & p & _ & H4).
  simpl. repeat split; eauto.
Qed.

Lemma style_only_recolor (slot : list string) : style_only (walk_fn (recolor_visit slot)).
Proof.
  intros names n. unfold walk_fn, recolor_visit.
  destruct (nonempty names); [|apply style_only_self].
  destruct (_get_color_id n) as [cid|]; cbn [bind]; [|apply style_only_self].
  destruct (index slot cid) as [c|]; cbn [bind]; [|apply style_only_self].
  destruct (_color_node n c) as [x|] eqn:E; [|apply style_only_self].
  destruct (color_node_style _ _ _ E) as (H1 & H2 & H3 & p & _ & H4).
  simpl. repeat split; eauto.
Qed.

(** What [find_diff_paint] answers for a node is the node itself or the
    node painted from one of the two slots it reads. *)
Lemma find_diff_paint_cases (colors : palette) (names : list string) (n : node)
    (r : option (path * node)) (x : node) :
  find_diff_paint colors names n r [] n = Ok x ->
  x = n \/ exists cid c, _get_color_id n = Ok cid /\ _color_node n c = Ok x
                         /\ (nth_error (pal_intersect colors) cid = Some c
                             \/ nth_error (pal_g1 colors) cid = Some c).
Proof.
  unfold find_diff_paint, deref. cbn [get_at from_option].
  assert (Hp : forall slot, paint n [] n slot = Ok x ->
                 exists cid c, _get_color_id n = Ok cid /\ _color_node n c = Ok x
                               /\ nth_error slot cid = Some c).
  { intros slot. unfold paint.
    destruct (_get_color_id n) as [cid|]; cbn [bind]; [|discriminate].
    unfold index. destruct (nth_error slot cid) as [c|] eqn:Ec;
      cbn [from_option bind]; [|discriminate].
    destruct (_color_node n c) as [y|] eqn:Ey; cbn [bind]; [|discriminate].
    simpl. intros [= <-]. exists cid, c. auto. }
  destruct (nonempty names); [|intros [= <-]; now left].
  destruct (_get_node_name n); cbn [bind]; [|discriminate].
  destruct r as [[q g2n]|].
  - destruct (has_data g2n); [|intros [= <-]; now left].
    destruct (_get_node_name g2n); cbn [bind]; [|discriminate].
    destruct (String.eqb a0 a); intros H; right;
      destruct (Hp _ H) as (cid & c & ? & ? & ?); eauto 6.
  - destruct (has_data n); [|intros [= <-]; now left].
    intros H; right. destruct (Hp _ H) as (cid & c & ? & ? & ?); eauto 6.
Qed.

Lemma style_only_paint (g2 : document) (colors : palette) :
  style_only (paint_fn g2 colors).
Proof.
  intros names n. unfold paint_fn.
  destruct (_get_node_from_names (Doc g2) names) as [r|]; [|apply style_only_self].
  destruct (find_diff_paint colors names n r [] n) as [x|] eqn:E; [|apply style_only_self].
  destruct (find_diff_paint_cases _ _ _ _ _ E) as [->|(cid & c & _ & Hc & _)];
    [apply style_only_self|].
  destruct (color_node_style _ _ _ Hc) as (H1 & H2 & H3 & p & _ & H4).
  simpl. repeat split; eauto.
Qed.

(* ================================================================== *)
(** * The decision procedures are sound *)

Lemma known_color_b_sound (c : string) : known_color_b c = true -> known_color c.
Proof.
  unfold known_color_b, known_color.
  destruct (String.eqb_spec c "#D2D2D2"); [auto|].
  destruct (String.eqb_spec c "#FFFFFF"); [auto|].
  destruct (String.eqb_spec c "#FFCC00"); [auto|discriminate].
Qed.

Lemma styled_b_sound (n : node) : styled_b n = true -> styled n.
Proof.
  unfold styled_b, styled. destruct (node_id n); [|discriminate].
  destruct (_get_node_properties n) as [p|]; [|discriminate].
  intros H. split; [discriminate|]. exists p. split; [reflexivity|].
  now apply known_color_b_sound.
Qed.

Lemma graph_ok_b_sound (n : node) : graph_ok_b n = true -> graph_ok n.
Proof.
  unfold graph_ok_b, graph_ok. intros H g Eg. rewrite Eg in H.
  destruct (graph_node g); [discriminate | discriminate].
Qed.

Lemma nodup_b_sound (l : list string) : nodup_b l = true -> NoDup l.
Proof.
  induction l as [|x l IH]; simpl; [constructor|].
  intros [Hx Hl]%andb_prop. constructor; [|auto].
  intros Hin. apply negb_true_iff in Hx.
  assert (existsb (String.eqb x) l = true); [|congruence].
  apply existsb_exists. exists x. split; [assumption | apply String.eqb_refl].
Qed.

Lemma tree_ok_kids (n : node) :
  tree_ok n = graph_ok_b n && nodup_b (map label_of (kids n))
              && forallb (fun c => styled_b c && tree_ok c) (kids n).
Proof.
  destruct n as [i d [[gi [[c|l]|] ge]|]]; try reflexivity.
  change (tree_ok (mkNode i d (Some (mkGraph gi (Some (One c)) ge))))
    with (graph_ok_b (mkNode i d (Some (mkGraph gi (Some (One c)) ge)))
          && nodup_b (map label_of (kids (mkNode i d (Some (mkGraph gi (Some (One c)) ge)))))
          && (styled_b c && tree_ok c)).
  change (kids (mkNode i d (Some (mkGraph gi (Some (One c)) ge)))) with [c].
  cbn [forallb]. f_equal. symmetry. apply andb_true_r.
Qed.

Lemma tree_ok_sound (p : path) :
  forall n c, tree_ok n = true -> get_at n p = Some c ->
              graph_ok c /\ unique_labels c /\ tree_ok c = true
              /\ (p <> [] -> styled c).
Proof.
  induction p as [|i p IH]; intros n c Hn Hget; simpl in Hget.
  - injection Hget as <-. pose proof Hn as Hn'. rewrite tree_ok_kids in Hn'.
    apply andb_prop in Hn' as [[Hg Hu]%andb_prop _].
    split; [now apply graph_ok_b_sound|].
    split; [now apply nodup_b_sound|]. split; [exact Hn | congruence].
  - destruct (nth_error (kids n) i) as [k|] eqn:Ei; [|discriminate].
    rewrite tree_ok_kids in Hn. apply andb_prop in Hn as [_ Hall].
    rewrite forallb_forall in Hall.
    specialize (Hall k (nth_error_In _ _ Ei)). apply andb_prop in Hall as [Hs Hk].
    destruct (IH k c Hk Hget) as (H1 & H2 & H3 & H4).
    split; [exact H1|]. split; [exact H2|]. split; [exact H3|]. intros _.
    destruct p as [|j p']; [|apply H4; discriminate].
    simpl in Hget. injection Hget as <-. now apply styled_b_sound.
Qed.

Lemma well_formed_b_sound (d : document) : well_formed_b d = true -> well_formed d.
Proof.
  unfold well_formed_b, well_formed. intros H.
  destruct (node_graph (graphml d)) as [g|] eqn:Eg; [|discriminate].
  split; [discriminate|]. split; [|split].
  - intros p c Hc. now destruct (tree_ok_sound p _ _ H Hc).
  - intros p c Hp Hc. destruct (tree_ok_sound p _ _ H Hc) as (_ & _ & _ & Hs). auto.
  - intros p c Hc. now destruct (tree_ok_sound p _ _ H Hc) as (_ & ? & _).
Qed.

Lemma top_level_list_b_sound (d : document) :
  top_level_list_b d = true -> top_level_list d.
Proof.
  unfold top_level_list_b, top_level_list.
  destruct (node_graph (graphml d)) as [g|]; [|discriminate].
  destruct (graph_node g) as [[c|l]|] eqn:E; try discriminate.
  intros _. exists g, l. auto.
Qed.

Lemma palette_ok_b_sound (colors : palette) : palette_ok_b colors = true -> palette_ok colors.
Proof.
  unfold palette_ok_b, palette_ok.
  intros [[H1 H2]%andb_prop H3]%andb_prop.
  apply Nat.eqb_eq in H1, H2, H3. auto.
Qed.

(* ================================================================== *)
(** * The cosmetic passes and [_find_diff] in closed form *)

Lemma styled_propertied (n : node) : styled n -> propertied n.
Proof. intros [Hid (p & Hp & _)]. split; eauto. Qed.

Lemma propertied_named (n : node) : propertied n -> named n.
Proof.
  intros [Hid [p Hp]]. split; [exact Hid|].
  exists (NodeLabel_text p). unfold _get_node_name. now rewrite Hp.
Qed.

Lemma walkable_resize (z : Z) (n : node) :
  all_nodes graph_ok n -> all_below propertied n -> walkable (resize_visit z) n.
Proof.
  intros Hg Hb. split; [exact Hg|]. intros p c Hp Hc.
  pose proof (Hb p c Hp Hc) as Hpc. split; [now apply propertied_named|].
  destruct Hpc as [_ [pr Hpr]].
  destruct (resize_node_font_spec c pr z Hpr) as (x & Hx & _ & Hgr & _).
  exists x. split; assumption.
Qed.

Lemma walkable_recolor (slot : list string) (n : node) :
  length slot = 3 -> all_nodes graph_ok n -> all_below styled n ->
  walkable (recolor_visit slot) n.
Proof.
  intros Hl Hg Hb. split; [exact Hg|]. intros p c Hp Hc.
  pose proof (Hb p c Hp Hc) as Hs. split; [now apply styled_named|].
  destruct (paint_spec c slot Hs Hl)
    as (x & cid & col & pr & _ & Hcid & Hnth & Hcol & _ & _ & Hgr & _).
  exists x. split; [|exact Hgr].
  unfold recolor_visit, index. rewrite Hcid. cbn [bind]. rewrite Hnth. exact Hcol.
Qed.

Lemma resize_fonts_closed_form (d : document) (z : Z) :
  all_nodes graph_ok (graphml d) -> all_below propertied (graphml d) ->
  _resize_fonts d z = Ok (resized z d).
Proof.
  intros Hg Hb. unfold _resize_fonts, resized.
  now apply walk_closed_form, walkable_resize.
Qed.

Lemma recolor_graph_closed_form (d : document) (slot : list string) :
  length slot = 3 -> all_nodes graph_ok (graphml d) -> all_below styled (graphml d) ->
  _recolor_graph d slot = Ok (recolored slot d).
Proof.
  intros Hl Hg Hb. unfold _recolor_graph, recolored.
  now apply walk_closed_form, walkable_recolor.
Qed.

Lemma below_styled_propertied (n : node) : all_below styled n -> all_below propertied n.
Proof. intros H p c Hp Hc. apply styled_propertied. exact (H p c Hp Hc). Qed.

(** [_find_diff] on well-formed documents: the painted copy is the source
    painted node by node and then resized; the two documents held by the
    engine are resized in place, and recoloured copies of them are stored. *)
Lemma find_diff_closed_form (self : BNGGdiff) (g1 g2 : docref) (colors : palette) :
  palette_ok colors ->
  all_nodes graph_ok (graphml (gdict_1 self)) -> all_below styled (graphml (gdict_1 self)) ->
  all_nodes graph_ok (graphml (gdict_2 self)) -> all_below styled (graphml (gdict_2 self)) ->
  resolves (doc_of self g2) [] (graphml (doc_of self g1)) ->
  exists rm,
    _find_diff self g1 g2 colors
    = Ok (mkBNGGdiff (input self) (input2 self) (output self) (output2 self)
            (resized 20 (gdict_1 self)) (resized 20 (gdict_2 self))
            (Some (recolored (pal_g1 self_colors) (gdict_1 self)))
            (Some (recolored (pal_g2 self_colors) (gdict_2 self)))
            (mode self),
          resized 20 (painted (doc_of self g2) colors (doc_of self g1)), rm).
Proof.
  intros Hpal Hg1 Hb1 Hg2 Hb2 Hres.
  assert (Hd1 : all_nodes graph_ok (graphml (doc_of self g1))
                /\ all_below styled (graphml (doc_of self g1)))
    by (destruct g1; auto).
  destruct Hd1 as [Hgd Hbd].
  destruct (find_diff_loop_closed_form (doc_of self g2) colors Hpal
              (graphml (doc_of self g1)) Hres Hgd Hbd) as [rm Hloop].
  exists rm. unfold _find_diff. cbv zeta. rewrite Hloop. cbn [bind].
  rewrite recolor_graph_closed_form by (trivial; reflexivity).
  rewrite recolor_graph_closed_form by (trivial; reflexivity).
  cbn [bind].
  rewrite !resize_fonts_closed_form by (trivial; now apply below_styled_propertied).
  cbn [bind].
  rewrite resize_fonts_closed_form; [reflexivity| |]; cbn [graphml].
  - apply (all_nodes_tmapn _ (style_only_paint _ _) graph_ok graph_ok); [|exact Hgd].
    intros nm c. apply graph_ok_tmapn, style_only_paint.
  - apply (all_below_tmapn _ (style_only_paint _ _) styled propertied); [|exact Hbd].
    intros nm c Hc. apply propertied_tmapn; [apply style_only_paint|].
    now apply styled_propertied.
Qed.

(* ================================================================== *)
(** * Nodes of the painted and of the resized document *)

Lemma nonempty_app_labels (nm : list string) (t : node) (p : path) (m : node) :
  p <> [] -> get_at t p = Some m -> nonempty (nm ++ labels_along t p) = true.
Proof.
  intros Hp Hm. pose proof (labels_along_nonempty _ _ _ Hp Hm) as H.
  destruct (labels_along t p); [congruence|]. now destruct nm.
Qed.

(** The font pass on a node below the root: the font size is replaced, the
    identifier, the label and the fill colour are kept. *)
Lemma resized_node (z : Z) (nm : list string) (t : node) (p : path) (m : node)
    (pm : properties) :
  p <> [] -> get_at t p = Some m -> _get_node_properties m = Ok pm ->
  exists m', get_at (tmapn (walk_fn (resize_visit z)) nm t) p = Some m'
             /\ node_id m' = node_id m
             /\ _get_node_properties m'
                = Ok (mkProperties (NodeLabel_text pm) (PyStr.str_of_int z) (Fill_color pm)).
Proof.
  intros Hp Hm Hpm.
  rewrite (get_at_tmapn _ (style_only_resize z)), Hm. simpl.
  eexists. split; [reflexivity|]. split.
  - apply id_tmapn, style_only_resize.
  - rewrite properties_tmapn.
    unfold walk_fn. rewrite (nonempty_app_labels nm t p m Hp Hm).
    unfold resize_visit.
    destruct (resize_node_font_spec m pm z Hpm) as (x & -> & _ & _ & Hx). exact Hx.
Qed.

Lemma get_at_none_tmapn (f : list string -> node -> node) (nm : list string)
    (t : node) (p : path) :
  style_only f -> get_at t p = None -> get_at (tmapn f nm t) p = None.
Proof. intros Hf H. now rewrite (get_at_tmapn _ Hf), H. Qed.

(** A node whose label path resolves in the other document to a node of the
    same label is painted from the intersect slot. *)
Lemma paint_fn_shared (g2 : document) (colors : palette) (names : list string)
    (n : node) (q : path) (m : node) :
  palette_ok colors -> styled n -> nonempty names = true ->
  _get_node_from_names (Doc g2) names = Ok (Some (q, m)) ->
  _get_node_name m = _get_node_name n ->
  exists cid c pr,
    _get_node_properties n = Ok pr
    /\ _get_color_id n = Ok cid
    /\ nth_error (pal_intersect colors) cid = Some c
    /\ _color_node n c = Ok (paint_fn g2 colors names n)
    /\ _get_node_properties (paint_fn g2 colors names n)
       = Ok (mkProperties (NodeLabel_text pr) (NodeLabel_fontSize pr) c).
Proof.
  intros (_ & _ & H3) Hst Hne Hr Hname.
  destruct (paint_spec n (pal_intersect colors) Hst H3)
    as (x & cid & c & pr & Hpr & Hcid & Hnth & Hcol & Hpaint & _ & _ & Hpx).
  exists cid, c, pr.
  assert (Hpf : paint_fn g2 colors names n = x).
  { unfold paint_fn. rewrite Hr. unfold find_diff_paint. rewrite Hne.
    pose proof (named_label _ (styled_named _ Hst)) as Hn.
    rewrite Hn. cbn [bind]. unfold deref. cbn [get_at from_option bind].
    rewrite Hname, Hn in *. rewrite (named_has_data _ _ Hname). cbn [bind].
    rewrite String.eqb_refl, Hpaint. reflexivity. }
  rewrite Hpf. auto 6.
Qed.

(** Every node below the root of the painted copy is painted from the
    intersect slot or from the source-only slot, by its colour class. *)
Lemma paint_fn_covers (g2 : document) (colors : palette) (names : list string)
    (n : node) :
  palette_ok colors -> styled n -> nonempty names = true ->
  (exists r, _get_node_from_names (Doc g2) names = Ok r) ->
  exists cid c pr,
    _get_node_properties n = Ok pr
    /\ _get_color_id n = Ok cid
    /\ (nth_error (pal_intersect colors) cid = Some c
        \/ nth_error (pal_g1 colors) cid = Some c)
    /\ _get_node_properties (paint_fn g2 colors names n)
       = Ok (mkProperties (NodeLabel_text pr) (NodeLabel_fontSize pr) c).
Proof.
  intros (H1 & _ & H3) Hst Hne [r Hr].
  destruct (paint_spec n (pal_g1 colors) Hst H1)
    as (x1 & cid1 & c1 & pr1 & Hpr1 & Hcid1 & Hnth1 & _ & Hp1 & _ & _ & Hx1).
  destruct (paint_spec n (pal_intersect colors) Hst H3)
    as (x3 & cid3 & c3 & pr3 & Hpr3 & Hcid3 & Hnth3 & _ & Hp3 & _ & _ & Hx3).
  rewrite Hpr1 in Hpr3. injection Hpr3 as <-.
  rewrite Hcid1 in Hcid3. injection Hcid3 as <-.
  pose proof (named_label _ (styled_named _ Hst)) as Hn.
  unfold paint_fn. rewrite Hr. unfold find_diff_paint. rewrite Hne, Hn.
  cbn [bind]. unfold deref. cbn [get_at from_option bind].
  destruct r as [[q g2n]|].
  - destruct (resolver_named (Doc g2) names q g2n) as [s Hs];
      [destruct names; discriminate | exact Hr |].
    rewrite (named_has_data _ _ Hs), Hs. cbn [bind].
    destruct (String.eqb s (label_of n)).
    + rewrite Hp3. simpl. exists cid1, c3, pr1. auto.
    + rewrite Hp1. simpl. exists cid1, c1, pr1. auto.
  - rewrite (named_has_data _ _ Hn), Hp1. simpl. exists cid1, c1, pr1. auto.
Qed.

(* ================================================================== *)
(** * Claims on the Differ *)

Lemma tmapn_ext (f g : list string -> node -> node) (m : nat) :
  forall n names, size n < m ->
    (forall p c, get_at n p = Some c ->
                 f (names ++ labels_along n p) c = g (names ++ labels_along n p) c) ->
    tmapn f names n = tmapn g names n.
Proof.
  induction m as [|m IH]; intros n names Hm H; [lia|].
  rewrite !tmapn_kids_eq.
  pose proof (H [] n eq_refl) as H0. simpl in H0. rewrite app_nil_r in H0.
  rewrite H0. f_equal. apply map_ext_in. intros c Hc.
  pose proof (size_in_kids _ _ Hc) as Hsz.
  apply In_nth_error in Hc as [i Hi].
  apply IH; [lia|]. intros p c' Hc'. rewrite <- app_assoc.
  specialize (H (i :: p) c'). simpl in H. rewrite Hi in H. now apply H.
Qed.

Lemma resolves_self (d : document) : well_formed d -> resolves d [] (graphml d).
Proof.
  intros Hwf q c Hq. simpl. destruct q as [|i q].
  - simpl. destruct Hwf as (Hgr & Hgo & _).
    unfold _get_node_from_names, subscript_graph_node. simpl.
    destruct (node_graph (graphml d)) as [g|] eqn:Eg; [|congruence].
    destruct (graph_node g) eqn:En; [|now destruct (all_nodes_root _ _ Hgo g Eg)].
    simpl. rewrite En. simpl. eauto.
  - rewrite (resolver_complete d (i :: q) c Hwf); [eauto | discriminate | exact Hq].
Qed.

Lemma paint_fn_root (g2 : document) (colors : palette) (n : node) :
  paint_fn g2 colors [] n = n.
Proof.
  unfold paint_fn. destruct (_get_node_from_names (Doc g2) []); reflexivity.
Qed.

(** C4: a well-formed document diffed against itself.  [_find_diff]
    returns; every node of the painted copy below the root carries the
    colour of the intersect slot for its colour class; the copy has the
    nodes of the document and no others; and the painted copy does not
    depend on the source-only and other-only slots of the palette. *)
Theorem diff_self_paints_intersect (self : BNGGdiff) (colors : palette) :
  well_formed_b (gdict_1 self) = true ->
  gdict_2 self = gdict_1 self ->
  palette_ok_b colors = true ->
  exists self' dg rm,
    _find_diff self Gdict1 Gdict2 colors = Ok (self', dg, rm)
    /\ (forall p n, p <> [] -> get_at (graphml (gdict_1 self)) p = Some n ->
          exists n' cid c,
            get_at (graphml dg) p = Some n'
            /\ _get_color_id n = Ok cid
            /\ nth_error (pal_intersect colors) cid = Some c
            /\ _get_node_color n' = Ok c)
    /\ (forall p, get_at (graphml (gdict_1 self)) p = None ->
                  get_at (graphml dg) p = None)
    /\ (forall colors', palette_ok_b colors' = true ->
          pal_intersect colors' = pal_intersect colors ->
          exists self'' rm',
            _find_diff self Gdict1 Gdict2 colors' = Ok (self'', dg, rm')).
Proof.
  intros Hwfb H2 Hpalb.
  pose proof (well_formed_b_sound _ Hwfb) as Hwf.
  pose proof (palette_ok_b_sound _ Hpalb) as Hpal.
  pose proof Hwf as (Hgr & Hgo & Hst & Hu).
  assert (Hclosed : forall cs, palette_ok cs ->
            exists self' rm, _find_diff self Gdict1 Gdict2 cs
                       = Ok (self', resized 20 (painted (gdict_1 self) cs (gdict_1 self)), rm)).
  { intros cs Hcs.
    assert (Hgo2 : all_nodes graph_ok (graphml (gdict_2 self))) by now rewrite H2.
    assert (Hst2 : all_below styled (graphml (gdict_2 self))) by now rewrite H2.
    assert (Hres : resolves (doc_of self Gdict2) [] (graphml (doc_of self Gdict1)))
      by (simpl; rewrite H2; now apply resolves_self).
    destruct (find_diff_closed_form self Gdict1 Gdict2 cs Hcs Hgo Hst Hgo2 Hst2 Hres)
      as [rm Hrm].
    simpl doc_of in Hrm. rewrite H2 in Hrm. eauto. }
  destruct (Hclosed colors Hpal) as (self' & rm & Hrm).
  do 3 eexists. split; [exact Hrm|]. split; [|split].
  - intros p n Hp Hn.
    pose proof (Hst p n Hp Hn) as Hsn.
    pose proof (resolver_complete _ p n Hwf Hp Hn) as Hlook.
    destruct (paint_fn_shared (gdict_1 self) colors
                (labels_along (graphml (gdict_1 self)) p) n p n Hpal Hsn)
      as (cid & c & pr & Hpr & Hcid & Hnth & _ & Hpx); trivial.
    { exact (nonempty_app_labels [] _ p n Hp Hn). }
    set (fp := paint_fn (gdict_1 self) colors) in *.
    assert (Hpn : get_at (tmapn fp [] (graphml (gdict_1 self))) p
                  = Some (tmapn fp (labels_along (graphml (gdict_1 self)) p) n)).
    { rewrite (get_at_tmapn fp (style_only_paint _ _)), Hn. reflexivity. }
    destruct (resized_node 20 [] _ p _
                (mkProperties (NodeLabel_text pr) (NodeLabel_fontSize pr) c) Hp Hpn)
      as (n' & Hn' & _ & Hpn').
    { now rewrite properties_tmapn. }
    exists n', cid, c. repeat split; trivial.
    unfold _get_node_color. now rewrite Hpn'.
  - intros p Hp. simpl.
    apply get_at_none_tmapn; [apply style_only_resize|].
    apply get_at_none_tmapn; [apply style_only_paint | exact Hp].
  - intros colors' Hpalb' Hint.
    pose proof (palette_ok_b_sound _ Hpalb') as Hpal'.
    destruct (Hclosed colors' Hpal') as (self'' & rm' & Hrm').
    exists self'', rm'. rewrite Hrm'.
    replace (painted (gdict_1 self) colors' (gdict_1 self))
      with (painted (gdict_1 self) colors (gdict_1 self)); [reflexivity|].
    unfold painted. f_equal.
    apply (tmapn_ext _ _ (S (size (graphml (gdict_1 self))))); [lia|].
    intros p c Hc. simpl. destruct p as [|i p].
    + simpl. now rewrite !paint_fn_root.
    + assert (Hp : i :: p <> []) by discriminate.
      pose proof (Hst _ c Hp Hc) as Hsc.
      pose proof (resolver_complete _ _ c Hwf Hp Hc) as Hlook.
      pose proof (nonempty_app_labels [] _ _ c Hp Hc) as Hne. simpl in Hne.
      destruct (paint_fn_shared (gdict_1 self) colors _ c _ c Hpal Hsc Hne Hlook eq_refl)
        as (cid & col & pr & _ & Hcid & Hnth & Hcol & _).
      destruct (paint_fn_shared (gdict_1 self) colors' _ c _ c Hpal' Hsc Hne Hlook eq_refl)
        as (cid' & col' & pr' & _ & Hcid' & Hnth' & Hcol' & _).
      rewrite Hcid in Hcid'. injection Hcid' as <-.
      rewrite Hint, Hnth in Hnth'. injection Hnth' as <-.
      rewrite Hcol in Hcol'. now injection Hcol'.
Qed.

Import Samples.

Lemma diff_self_paints_intersect_witness :
  well_formed_b (gdict_1 (engine doc_AabB doc_AabB "matrix")) = true
  /\ exists self' dg rm,
      _find_diff (engine doc_AabB doc_AabB "matrix") Gdict1 Gdict2 self_colors
      = Ok (self', dg, rm)
      /\ (forall p n, p <> [] -> get_at (graphml doc_AabB) p = Some n ->
            exists n' cid c,
              get_at (graphml dg) p = Some n'
              /\ _get_color_id n = Ok cid
              /\ nth_error (pal_intersect self_colors) cid = Some c
              /\ _get_node_color n' = Ok c)
      /\ (forall p, get_at (graphml doc_AabB) p = None -> get_at (graphml dg) p = None)
      /\ (forall colors', palette_ok_b colors' = true ->
            pal_intersect colors' = pal_intersect self_colors ->
            exists self'' rm',
              _find_diff (engine doc_AabB doc_AabB "matrix") Gdict1 Gdict2 colors'
              = Ok (self'', dg, rm')).
Proof.
  split; [reflexivity|].
  apply (diff_self_paints_intersect (engine doc_AabB doc_AabB "matrix") self_colors);
    reflexivity.
Defined.

(** C2, the failing input: the documents of the first scenario of the
    specification, one molecule [X] against one molecule [Y].  The resolver
    compares the label [X] with the single top-level node [Y] of the other
    document and reads the variable [node] before it was ever bound
    (line 431): [_find_diff] raises and nothing is painted, where the claim
    has [X] painted with the source-only colour. *)
Theorem diff_single_mismatch_raises :
  _find_diff (engine doc_X doc_Y "matrix") Gdict1 Gdict2 self_colors
  = Err UnboundLocalError.
Proof. vm_compute. reflexivity. Qed.

(** C5, the failing input: the molecule [X] is in both documents, at the
    label path [X]; the other molecule [Z] of the first document is
    compared with the single top-level node of the second one, and the
    resolver reads the variable [node] before it was ever bound (line 431),
    the defect met with the documents [X] and [Y] above.  The first of the
    two directions raises, and so does a whole run: there are no two
    outputs to be mirrors of each other. *)
Theorem diff_mirror_raises :
  labels_along (graphml doc_XZ) [0] = labels_along (graphml doc_X) [0]
  /\ _find_diff (engine doc_XZ doc_X "matrix") Gdict1 Gdict2 self_colors
     = Err UnboundLocalError
  /\ run_gdiff (engine doc_XZ doc_X "matrix") = Err UnboundLocalError.
Proof. vm_compute. auto. Qed.

(** C6, the failing input: a node whose font size is 12.  The font pass
    stores [str(size)], the delta itself, where its comment (line 343,
    "this adds +20") and the name of its parameter, [add_to_font], say that
    the delta is added: the node reports 20 afterwards, not 32. *)
Theorem resize_sets_the_delta :
  (n' <- _resize_node_font (leaf "n0" "X" "#D2D2D2" "12") 20 ;; _get_font_size n')
  = Ok 20%Z
  /\ (d <- _resize_fonts doc_X 20 ;;
      n' <- from_option KeyError (get_at (graphml d) [0]) ;; _get_font_size n')
     = Ok 20%Z
  /\ _get_font_size (leaf "n0" "X" "#D2D2D2" "12") = Ok 12%Z.
Proof. vm_compute. auto. Qed.

(** C1, the failing input: molecule [A] has no component in the first
    document and the components [x] and [y] in the second.  The node to add
    [x] to, [A] of the merged document, has no ["graph"], and
    [_add_node_to_graph] adds nothing in that case (line 586 has no
    [else]): the merge returns a document without the label paths [A.x] and
    [A.y] of the second document. *)
Theorem union_drops_components :
  exists self' dg,
    _find_diff_union (engine doc_AB doc_AxyB "union") Gdict1 Gdict2 self_colors
    = Ok (self', dg)
    /\ count_occ list_string_eq_dec (label_paths (graphml doc_AxyB)) ["A"; "x"] = 1
    /\ count_occ list_string_eq_dec (label_paths (graphml dg)) ["A"; "x"] = 0
    /\ label_paths (graphml dg) = [[]; ["A"]; ["B"]].
Proof. do 2 eexists. vm_compute. auto. Qed.

(** The documents of the first scenario of the specification cannot be
    merged either: the merge starts with [_find_diff]. *)
Lemma union_single_mismatch_raises :
  _find_diff_union (engine doc_X doc_Y "union") Gdict1 Gdict2 self_colors
  = Err UnboundLocalError.
Proof. vm_compute. reflexivity. Qed.

(* ================================================================== *)
(** * The engine and its two input documents *)

Lemma styled_resized (z : Z) (nm : list string) (c : node) :
  styled c -> styled (tmapn (walk_fn (resize_visit z)) nm c).
Proof.
  intros [Hid (p & Hp & Hk)]. split.
  - now rewrite (id_tmapn _ (style_only_resize z)).
  - rewrite properties_tmapn. unfold walk_fn.
    destruct (nonempty nm); [|eauto].
    unfold resize_visit.
    destruct (resize_node_font_spec c p z Hp) as (x & -> & _ & _ & Hx).
    simpl. eexists. split; [exact Hx | exact Hk].
Qed.

Lemma well_formed_resized (z : Z) (d : document) :
  well_formed d -> well_formed (resized z d).
Proof.
  intros (Hgr & Hgo & Hst & Hu). unfold well_formed, resized. cbn [graphml].
  pose proof (style_only_resize z) as Hf.
  split; [|split; [|split]].
  - pose proof (graph_tmapn _ Hf [] (graphml d)) as H.
    destruct (node_graph (graphml d)); [|congruence].
    destruct H as (g' & -> & _). discriminate.
  - apply (all_nodes_tmapn _ Hf graph_ok graph_ok); [|exact Hgo].
    intros nm c. now apply graph_ok_tmapn.
  - apply (all_below_tmapn _ Hf styled styled); [|exact Hst].
    intros nm c. apply styled_resized.
  - apply (all_nodes_tmapn _ Hf unique_labels unique_labels); [|exact Hu].
    intros nm c. now apply unique_labels_tmapn.
Qed.

Lemma top_level_list_resized (z : Z) (d : document) :
  top_level_list d -> top_level_list (resized z d).
Proof.
  intros (g & l & Eg & En). unfold top_level_list, resized. cbn [graphml].
  pose proof (graph_tmapn _ (style_only_resize z) [] (graphml d)) as H.
  rewrite Eg in H. destruct H as (g' & Eg' & _ & Hl & _).
  destruct (proj1 Hl (ex_intro _ l En)) as [l' Hl']. eauto.
Qed.

(** A document after two font passes: the nodes are where they were, with
    their identifier, label and fill colour. *)
Lemma resized_twice_frame (z : Z) (d : document) (p : path) (n : node)
    (pr : properties) :
  p <> [] -> get_at (graphml d) p = Some n -> _get_node_properties n = Ok pr ->
  exists n' pr',
    get_at (graphml (resized z (resized z d))) p = Some n'
    /\ node_id n' = node_id n
    /\ _get_node_properties n' = Ok pr'
    /\ NodeLabel_text pr' = NodeLabel_text pr
    /\ Fill_color pr' = Fill_color pr.
Proof.
  intros Hp Hn Hpr. unfold resized. cbn [graphml].
  destruct (resized_node z [] _ p n pr Hp Hn Hpr) as (n1 & Hn1 & Hid1 & Hp1).
  destruct (resized_node z [] _ p n1 _ Hp Hn1 Hp1) as (n2 & Hn2 & Hid2 & Hp2).
  exists n2. eexists. split; [exact Hn2|]. split; [congruence|].
  split; [exact Hp2|]. split; reflexivity.
Qed.

Lemma resized_twice_none (z : Z) (d : document) (p : path) :
  get_at (graphml d) p = None ->
  get_at (graphml (resized z (resized z d))) p = None.
Proof.
  intros H. unfold resized. cbn [graphml].
  apply get_at_none_tmapn; [apply style_only_resize|].
  apply get_at_none_tmapn; [apply style_only_resize | exact H].
Qed.

Lemma well_formed_basic (d : document) :
  well_formed d ->
  all_nodes graph_ok (graphml d) /\ all_below styled (graphml d).
Proof. intros (_ & Hgo & Hst & _). auto. Qed.

Lemma total_resolves (d2 : document) (n : node) : resolver_total d2 -> resolves d2 [] n.
Proof. intros H q c _. apply H. Qed.

(** [_find_diff] on well-formed documents whose top-level nodes are lists. *)
Lemma find_diff_on_lists (self : BNGGdiff) (g1 g2 : docref) (colors : palette) :
  palette_ok colors ->
  well_formed (gdict_1 self) -> well_formed (gdict_2 self) ->
  top_level_list (gdict_1 self) -> top_level_list (gdict_2 self) ->
  exists rm,
    _find_diff self g1 g2 colors
    = Ok (mkBNGGdiff (input self) (input2 self) (output self) (output2 self)
            (resized 20 (gdict_1 self)) (resized 20 (gdict_2 self))
            (Some (recolored (pal_g1 self_colors) (gdict_1 self)))
            (Some (recolored (pal_g2 self_colors) (gdict_2 self)))
            (mode self),
          resized 20 (painted (doc_of self g2) colors (doc_of self g1)), rm).
Proof.
  intros Hpal Hw1 Hw2 Ht1 Ht2.
  destruct (well_formed_basic _ Hw1) as [Hg1 Hs1].
  destruct (well_formed_basic _ Hw2) as [Hg2 Hs2].
  apply find_diff_closed_form; trivial.
  apply total_resolves, well_formed_resolver_total; destruct g2; assumption.
Qed.

Lemma graphs_get_set_same (k : string) (v : document) (graphs : graphs_dict) :
  graphs_get (graphs_set k v graphs) k = Some v.
Proof.
  induction graphs as [|[k' v'] graphs IH]; cbn [graphs_set graphs_get].
  - now rewrite String.eqb_refl.
  - destruct (String.eqb k' k) eqn:E; cbn [graphs_get]; now rewrite E.
Qed.

Lemma graphs_get_set_other (k k0 : string) (v : document) (graphs : graphs_dict) :
  k <> k0 -> graphs_get (graphs_set k v graphs) k0 = graphs_get graphs k0.
Proof.
  intros Hk. induction graphs as [|[k' v'] graphs IH]; cbn [graphs_set graphs_get].
  - destruct (String.eqb_spec k k0); [contradiction | reflexivity].
  - destruct (String.eqb_spec k' k) as [->|Hk']; cbn [graphs_get].
    + destruct (String.eqb_spec k k0); [contradiction | reflexivity].
    + now rewrite IH.
Qed.

(** C7, the claim as stated fails: a matrix run leaves [self.gdict_1]
    different from what was parsed. *)
Lemma matrix_run_mutates_input :
  exists self' graphs,
    run_gdiff (Samples.engine Samples.doc_AabB Samples.doc_AacC "matrix")
    = Ok (self', graphs)
    /\ gdict_1 self' <> Samples.doc_AabB
    /\ gdict_1 self' = resized 20 Samples.doc_AabB.
Proof.
  do 2 eexists. split; [vm_compute; reflexivity|].
  split; [vm_compute; discriminate | vm_compute; reflexivity].
Qed.

(** C7 (amended): a matrix run on well-formed documents returns, and
    - the painting is done on deep copies, and the documents assigned in
      the returned dictionary under the two recolour names are recoloured
      copies of the inputs as they were parsed; the dictionary is keyed by
      file name, so that an entry is found under its name when no later
      entry has the same name;
    - the font pass is applied to the two parsed inputs themselves, which
      are changed by it in nothing but their font sizes: every node keeps
      its place, its identifier, its label and its fill colour;
    - both cosmetic passes run in each of the two diff directions: the
      inputs end up resized twice, and the recoloured copy the engine holds
      at the end was taken in the second direction, from the input already
      resized. *)
Theorem matrix_run_effects (self : BNGGdiff) (colors : palette) :
  mode self = "matrix" ->
  well_formed_b (gdict_1 self) = true -> well_formed_b (gdict_2 self) = true ->
  top_level_list_b (gdict_1 self) = true -> top_level_list_b (gdict_2 self) = true ->
  palette_ok_b colors = true ->
  exists self2 graphs,
    diff_graphs self Gdict1 Gdict2 colors = Ok (self2, graphs)
    /\ gdict_1 self2 = resized 20 (resized 20 (gdict_1 self))
    /\ gdict_2 self2 = resized 20 (resized 20 (gdict_2 self))
    /\ (forall p n pr, p <> [] -> get_at (graphml (gdict_1 self)) p = Some n ->
          _get_node_properties n = Ok pr ->
          exists n' pr',
            get_at (graphml (gdict_1 self2)) p = Some n'
            /\ node_id n' = node_id n
            /\ _get_node_properties n' = Ok pr'
            /\ NodeLabel_text pr' = NodeLabel_text pr
            /\ Fill_color pr' = Fill_color pr)
    /\ (forall p n pr, p <> [] -> get_at (graphml (gdict_2 self)) p = Some n ->
          _get_node_properties n = Ok pr ->
          exists n' pr',
            get_at (graphml (gdict_2 self2)) p = Some n'
            /\ node_id n' = node_id n
            /\ _get_node_properties n' = Ok pr'
            /\ NodeLabel_text pr' = NodeLabel_text pr
            /\ Fill_color pr' = Fill_color pr)
    /\ (forall p, get_at (graphml (gdict_1 self)) p = None ->
                  get_at (graphml (gdict_1 self2)) p = None)
    /\ (forall p, get_at (graphml (gdict_2 self)) p = None ->
                  get_at (graphml (gdict_2 self2)) p = None)
    /\ graphs
       = graphs_set (output2 self)
           (resized 20 (painted (resized 20 (gdict_1 self))
                          (mkPalette (pal_g2 colors) (pal_g1 colors)
                             (pal_intersect colors))
                          (resized 20 (gdict_2 self))))
           (graphs_set (recolor_name (input2 self))
              (recolored (pal_g2 self_colors) (gdict_2 self))
              (graphs_set (recolor_name (input self))
                 (recolored (pal_g1 self_colors) (gdict_1 self))
                 [(output self,
                   resized 20 (painted (gdict_2 self) colors (gdict_1 self)))]))
    /\ (recolor_name (input self) <> recolor_name (input2 self) ->
        recolor_name (input self) <> output2 self ->
        graphs_get graphs (recolor_name (input self))
        = Some (recolored (pal_g1 self_colors) (gdict_1 self)))
    /\ (recolor_name (input2 self) <> output2 self ->
        graphs_get graphs (recolor_name (input2 self))
        = Some (recolored (pal_g2 self_colors) (gdict_2 self)))
    /\ gdict_1_recolor self2
       = Some (recolored (pal_g1 self_colors) (resized 20 (gdict_1 self)))
    /\ gdict_2_recolor self2
       = Some (recolored (pal_g2 self_colors) (resized 20 (gdict_2 self))).
Proof.
  intros Hmode Hw1b Hw2b Ht1b Ht2b Hpalb.
  pose proof (well_formed_b_sound _ Hw1b) as Hw1.
  pose proof (well_formed_b_sound _ Hw2b) as Hw2.
  pose proof (top_level_list_b_sound _ Ht1b) as Ht1.
  pose proof (top_level_list_b_sound _ Ht2b) as Ht2.
  pose proof (palette_ok_b_sound _ Hpalb) as Hpal.
  destruct (find_diff_on_lists self Gdict1 Gdict2 colors Hpal Hw1 Hw2 Ht1 Ht2)
    as [rm1 H1].
  set (self1 := mkBNGGdiff (input self) (input2 self) (output self) (output2 self)
                  (resized 20 (gdict_1 self)) (resized 20 (gdict_2 self))
                  (Some (recolored (pal_g1 self_colors) (gdict_1 self)))
                  (Some (recolored (pal_g2 self_colors) (gdict_2 self)))
                  (mode self)) in *.
  assert (Hpal' : palette_ok (mkPalette (pal_g2 colors) (pal_g1 colors)
                                (pal_intersect colors)))
    by (destruct Hpal as (? & ? & ?); repeat split; assumption).
  destruct (find_diff_on_lists self1 Gdict2 Gdict1 _ Hpal')
    as [rm2 H2]; cbn [self1 gdict_1 gdict_2];
    try (now apply well_formed_resized); try (now apply top_level_list_resized).
  unfold diff_graphs. rewrite Hmode. cbn [String.eqb Ascii.eqb Bool.eqb].
  rewrite H1. cbn [bind gdict_1_recolor gdict_2_recolor self1 from_option].
  fold self1. rewrite H2. cbn [bind].
  do 2 eexists. split; [reflexivity|].
  cbn [gdict_1 gdict_2 gdict_1_recolor gdict_2_recolor input input2 output output2
       doc_of self1].
  split; [reflexivity|]. split; [reflexivity|].
  split; [intros p n pr; apply resized_twice_frame|].
  split; [intros p n pr; apply resized_twice_frame|].
  split; [intros p; apply resized_twice_none|].
  split; [intros p; apply resized_twice_none|].
  split; [reflexivity|].
  split.
  { intros Hn1 Hn2.
    rewrite graphs_get_set_other by congruence.
    rewrite graphs_get_set_other by congruence.
    apply graphs_get_set_same. }
  split.
  { intros Hn. rewrite graphs_get_set_other by congruence.
    apply graphs_get_set_same. }
  split; reflexivity.
Qed.

Lemma matrix_run_effects_witness :
  mode (Samples.engine Samples.doc_AabB Samples.doc_AacC "matrix") = "matrix"
  /\ exists self2 graphs,
      diff_graphs (Samples.engine Samples.doc_AabB Samples.doc_AacC "matrix")
        Gdict1 Gdict2 self_colors = Ok (self2, graphs)
      /\ gdict_1 self2 = resized 20 (resized 20 Samples.doc_AabB)
      /\ gdict_2 self2 = resized 20 (resized 20 Samples.doc_AacC)
      /\ map fst graphs
         = ["a_b_diff.graphml"; "a_recolored.graphml"; "b_recolored.graphml";
            "b_a_diff.graphml"]
      /\ graphs_get graphs "a_recolored.graphml"
         = Some (recolored (pal_g1 self_colors) Samples.doc_AabB)
      /\ gdict_1_recolor self2
         = Some (recolored (pal_g1 self_colors) (resized 20 Samples.doc_AabB)).
Proof.
  split; [reflexivity|].
  destruct (matrix_run_effects
              (Samples.engine Samples.doc_AabB Samples.doc_AacC "matrix") self_colors)
    as (self2 & graphs & H & H1 & H2 & _ & _ & _ & _ & H3 & H4 & _ & H5 & _);
    try reflexivity.
  exists self2, graphs.
  split; [exact H|]. split; [exact H1|]. split; [exact H2|].
  split; [rewrite H3; reflexivity|].
  split; [apply H4; discriminate | exact H5].
Defined.

(** The sample engine is the one [__init__] makes for the files
    [a.graphml] and [b.graphml], wherever they are, when no name is given
    for the output files. *)
Lemma init_sample_engine (a b : document) :
  __init__ "a.graphml" "b.graphml" None None "matrix" a b
  = Ok (Samples.engine a b "matrix")
  /\ (self <- __init__ "run1/a.graphml" "run2/b.graphml" None None "union" a b ;;
      Ok (output self, output2 self, union_name (input self) (input2 self)))
     = Ok ("a_b_diff.graphml", "b_a_diff.graphml", "a_b_union.graphml")
  /\ __init__ "a.graphml" "b.graphml" None None "both" a b
     = Err (invalid_mode "both").
Proof. repeat split. Qed.

(** Two input files of the same name in two directories: the dictionary a
    matrix run returns is keyed by file name, the two diffs have one name
    and the two recoloured documents have one name, and what is returned
    are the second diff and the recoloured second document. *)
Lemma matrix_run_same_basenames :
  exists self graphs self2,
    __init__ "run1/m.graphml" "run2/m.graphml" None None "matrix"
      Samples.doc_AabB Samples.doc_AacC = Ok self
    /\ run_gdiff self = Ok (self2, graphs)
    /\ map fst graphs = ["m_m_diff.graphml"; "m_recolored.graphml"]
    /\ graphs_get graphs "m_recolored.graphml"
       = Some (recolored (pal_g2 self_colors) Samples.doc_AacC)
    /\ (v <- from_option KeyError (graphs_get graphs "m_m_diff.graphml") ;;
        Ok (label_paths (graphml v)))
       = Ok (label_paths (graphml Samples.doc_AacC)).
Proof.
  do 3 eexists. split; [reflexivity|].
  split; [vm_compute; reflexivity|].
  split; [reflexivity|]. split; vm_compute; reflexivity.
Qed.

(* ================================================================== *)
(** * The top-level edge list through the Differ and the Merger *)

Lemma subscript_edges_top (d : document) :
  subscript_edges d = from_option KeyError (top_edges (graphml d)).
Proof.
  unfold subscript_edges, top_edges.
  destruct (node_graph (graphml d)); reflexivity.
Qed.

Lemma top_edges_set_kids (n : node) (l : list node) :
  top_edges (set_kids n l) = top_edges n.
Proof.
  unfold top_edges, set_kids. destruct (node_graph n) as [g|] eqn:Eg; [|now rewrite Eg].
  destruct (graph_node g) as [[c|l']|]; simpl; try reflexivity. now rewrite Eg.
Qed.

Lemma top_edges_same_graph (a b : node) :
  node_graph a = node_graph b -> top_edges a = top_edges b.
Proof. unfold top_edges. now intros ->. Qed.

(** Writing a node through a reference leaves the edges of the root alone,
    if it leaves the edges of the node alone. *)
Lemma top_edges_set_at (d : node) (p : path) (cur x : node) :
  get_at d p = Some cur -> top_edges x = top_edges cur ->
  top_edges (set_at d p x) = top_edges d.
Proof.
  destruct p as [|i p]; simpl.
  - now intros [= ->].
  - destruct (nth_error (kids d) i); [|reflexivity].
    intros _ _. apply top_edges_set_kids.
Qed.

Lemma run_invariant {E St : Type} (step : E -> St -> result (list E * St))
    (I : St -> Prop) :
  (forall e s cs s', I s -> step e s = Ok (cs, s') -> I s') ->
  forall fuel stack s s', I s -> run step fuel stack s = Ok s' -> I s'.
Proof.
  intros Hstep. induction fuel as [|fuel IH]; intros [|e stack] s s' Hs H; simpl in H;
    try discriminate; try (injection H as <-; exact Hs).
  destruct (step e s) as [[cs s1]|] eqn:E1; cbn [bind] in H; [|discriminate].
  eapply IH; [|exact H]. eapply Hstep; eauto.
Qed.

Lemma walk_edges (visit : node -> result node) (g g' : document) :
  (forall n x, visit n = Ok x -> node_graph x = node_graph n) ->
  walk visit g = Ok g' -> top_edges (graphml g') = top_edges (graphml g).
Proof.
  intros Hv H. unfold walk in H.
  destruct (run (walk_step visit) (size (graphml g)) [(["graphml"], [], [])] (graphml g))
    as [r|] eqn:Er; cbn [bind] in H; [|discriminate].
  injection H as <-. cbn [graphml].
  refine (run_invariant (walk_step visit)
            (fun s => top_edges s = top_edges (graphml g)) _ _ _ _ _ eq_refl Er).
  intros [[keys names] p] s cs s' Hs Hstep. unfold walk_step, deref in Hstep.
  destruct (get_at s p) as [cur|] eqn:Ec; cbn [from_option bind] in Hstep; [|discriminate].
  destruct (if nonempty names then visit cur else Ok cur) as [cur'|] eqn:Ev;
    cbn [bind] in Hstep; [|discriminate].
  destruct (push_children_ref keys names p cur'); cbn [bind] in Hstep; [|discriminate].
  injection Hstep as _ <-. rewrite <- Hs.
  apply (top_edges_set_at _ _ cur); [exact Ec|].
  apply top_edges_same_graph.
  destruct (nonempty names); [now apply Hv | now injection Ev as <-].
Qed.

Lemma resize_fonts_edges (g g' : document) (z : Z) :
  _resize_fonts g z = Ok g' -> top_edges (graphml g') = top_edges (graphml g).
Proof.
  apply walk_edges. intros n x H. now destruct (resize_node_font_style _ _ _ H).
Qed.

Lemma paint_edges (dg : node) (p : path) (cur : node) (slot : list string) (dg' : node) :
  get_at dg p = Some cur -> paint dg p cur slot = Ok dg' ->
  top_edges dg' = top_edges dg.
Proof.
  intros Hget H. unfold paint in H.
  destruct (_get_color_id cur); cbn [bind] in H; [|discriminate].
  destruct (index slot a); cbn [bind] in H; [|discriminate].
  destruct (_color_node cur a0) as [x|] eqn:Ex; cbn [bind] in H; [|discriminate].
  injection H as <-. apply (top_edges_set_at _ _ cur); [exact Hget|].
  apply top_edges_same_graph. now destruct (color_node_style _ _ _ Ex).
Qed.

Lemma find_diff_paint_edges (colors : palette) (names : list string) (n : node)
    (r : option (path * node)) (p : path) (dg dg' : node) :
  find_diff_paint colors names n r p dg = Ok dg' -> top_edges dg' = top_edges dg.
Proof.
  unfold find_diff_paint, deref.
  destruct (nonempty names); [|now intros [= <-]].
  destruct (_get_node_name n); cbn [bind]; [|discriminate].
  destruct (get_at dg p) as [cur|] eqn:Ec; cbn [from_option bind]; [|discriminate].
  destruct r as [[q g2n]|].
  - destruct (has_data g2n); [|now intros [= <-]].
    destruct (_get_node_name g2n); cbn [bind]; [|discriminate].
    destruct (String.eqb a0 a); now apply paint_edges.
  - destruct (has_data cur); [|now intros [= <-]]. now apply paint_edges.
Qed.

Lemma find_diff_loop_edges (g2 : document) (colors : palette) (fuel : nat) :
  forall ns ds dg rm dg' rm',
    find_diff_loop g2 colors fuel ns ds dg rm = Ok (dg', rm') ->
    top_edges dg' = top_edges dg.
Proof.
  induction fuel as [|fuel IH]; intros [|e ns] ds dg rm dg' rm' H; simpl in H;
    try discriminate; try (now injection H as <- _).
  destruct ds as [|de ds]; [discriminate|].
  destruct (find_diff_body g2 colors e de dg rm) as [[[pushed dg1] rm1]|] eqn:Eb;
    cbn [bind] in H; [|discriminate].
  rewrite (IH _ _ _ _ _ _ H).
  destruct e as [[keys names] cn], de as [[dkeys dnames] p].
  unfold find_diff_body in Eb.
  destruct (_get_node_from_names (Doc g2) names) as [r|]; cbn [bind] in Eb; [|discriminate].
  destruct (find_diff_paint colors names cn r p dg) as [dgp|] eqn:Ep;
    cbn [bind] in Eb; [|discriminate].
  destruct (deref dgp p); cbn [bind] in Eb; [|discriminate].
  destruct (push_children2 keys names cn dkeys dnames p a); cbn [bind] in Eb; [|discriminate].
  injection Eb as _ <- _. now apply find_diff_paint_edges in Ep.
Qed.

(** [_find_diff] hands back the edges of the source, and leaves the edges
    of the two documents of the engine as they are. *)
Lemma find_diff_edges (self : BNGGdiff) (g1 g2 : docref) (colors : palette)
    (self' : BNGGdiff) (dg : document) (rm : rename_map) :
  _find_diff self g1 g2 colors = Ok (self', dg, rm) ->
  top_edges (graphml dg) = top_edges (graphml (doc_of self g1))
  /\ forall g, top_edges (graphml (doc_of self' g)) = top_edges (graphml (doc_of self g)).
Proof.
  intros H. unfold _find_diff in H. cbv zeta in H.
  destruct (find_diff_loop _ _ _ _ _ _ _) as [[dg0 rm0]|] eqn:El; cbn [bind] in H; [|discriminate].
  destruct (_recolor_graph (gdict_1 self) _); cbn [bind] in H; [|discriminate].
  destruct (_recolor_graph (gdict_2 self) _); cbn [bind] in H; [|discriminate].
  destruct (_resize_fonts (gdict_1 self) 20) as [g1'|] eqn:E1; cbn [bind] in H; [|discriminate].
  destruct (_resize_fonts (gdict_2 self) 20) as [g2'|] eqn:E2; cbn [bind] in H; [|discriminate].
  destruct (_resize_fonts (mkDocument dg0) 20) as [dg'|] eqn:E3; cbn [bind] in H; [|discriminate].
  injection H as <- <- _. split.
  - rewrite (resize_fonts_edges _ _ _ E3). cbn [graphml].
    now apply find_diff_loop_edges in El.
  - intros [|]; cbn [doc_of gdict_1 gdict_2]; eapply resize_fonts_edges; eassumption.
Qed.

Lemma top_edges_set_node_list (n : node) (l : list node) :
  top_edges (set_node_list n l) = top_edges n.
Proof.
  unfold top_edges, set_node_list. destruct (node_graph n) as [g|] eqn:Eg; [reflexivity|].
  now rewrite Eg.
Qed.

Lemma add_node_edges (n : node) (dg : document) (names : list string)
    (colors : palette) (rmap : rename_map) (dg' : document) (rmap' : rename_map) :
  _add_node_to_graph n dg names colors rmap = Ok (dg', rmap') ->
  top_edges (graphml dg') = top_edges (graphml dg).
Proof.
  intros H. unfold _add_node_to_graph in H.
  destruct (_get_node_from_names (Doc dg) (removelast names)) as [r|] eqn:Er;
    cbn [bind] in H; [|discriminate].
  destruct (_get_color_id n); cbn [bind] in H; [|discriminate].
  destruct (index (pal_g2 colors) a); cbn [bind] in H; [|discriminate].
  destruct (_color_node n a0); cbn [bind] in H; [|discriminate].
  destruct r as [[pref parent]|]; [|discriminate].
  destruct (node_graph parent) as [g|] eqn:Eg; [|now injection H as <- _].
  destruct (graph_node g) as [nodes|]; cbn [from_option bind] in H; [|discriminate].
  destruct (fresh_sibling_id nodes); cbn [bind] in H; [|discriminate].
  match type of H with
  | bind ?r _ = _ => destruct r as [[c2 rm2]|]; cbn [bind] in H; [|discriminate]
  end.
  injection H as <- _. unfold doc_set_at. cbn [graphml].
  destruct pref as [|i pref].
  - apply resolver_root in Er. simpl in Er. subst parent.
    simpl. apply top_edges_set_node_list.
  - simpl. destruct (nth_error (kids (graphml dg)) i); [|reflexivity].
    apply top_edges_set_kids.
Qed.

Lemma union_step_edges (g1 : document) (colors : palette) (e : ventry)
    (s : document * rename_map) (cs : list ventry) (s' : document * rename_map) :
  union_step g1 colors e s = Ok (cs, s') ->
  top_edges (graphml (fst s')) = top_edges (graphml (fst s)).
Proof.
  destruct e as [[keys names] cn], s as [dg rm]. unfold union_step.
  destruct (_get_node_from_names (Doc g1) names) as [dnode|]; cbn [bind]; [|discriminate].
  intros H.
  match type of H with
  | bind ?r _ = _ => destruct r as [s1|] eqn:E1; cbn [bind] in H; [|discriminate]
  end.
  destruct (push_children keys names cn); cbn [bind] in H; [|discriminate].
  injection H as _ <-.
  destruct (nonempty names); [|now injection E1 as <-].
  destruct dnode as [[q dn]|]; [now injection E1 as <-|].
  destruct (_get_node_from_names (Doc dg) names) as [[[q dgn]|]|];
    cbn [bind] in E1; try discriminate.
  - now injection E1 as <-.
  - destruct s1 as [dg1 rm1]. now apply add_node_edges in E1.
Qed.

(* ================================================================== *)
(** * Merging the edges of the second document *)

Lemma pystr_eqb_spec (a b : pystr) : reflect (a = b) (pystr_eqb a b).
Proof.
  destruct a as [x|], b as [y|]; simpl; try (constructor; congruence).
  destruct (String.eqb_spec x y); constructor; congruence.
Qed.

(** The scan of the edges of the merged document finds an edge with the
    endpoints [source] and [target], in one direction or the other, exactly
    when there is one. *)
Lemma edge_present_spec (dl : list edge) (source target : pystr) (b : bool) :
  edge_present dl source target = Ok b ->
  forall i,
    if b then exists d, In d dl /\ same_pair d (appended_edge i source target)
    else forall d, In d dl -> ~ same_pair d (appended_edge i source target).
Proof.
  revert b; induction dl as [|d dl IH]; intros b H i; simpl in H.
  - injection H as <-. intros d [].
  - destruct (edge_source d) as [ds|] eqn:Es; cbn [from_option bind] in H; [|discriminate].
    destruct (edge_target d) as [dt|] eqn:Et; cbn [from_option bind] in H.
    2:{ destruct (pystr_eqb ds source); discriminate. }
    assert (Hsame : same_pair d (appended_edge i source target)
                    <-> (ds = source /\ dt = target) \/ (ds = target /\ dt = source)).
    { unfold same_pair, appended_edge. simpl. rewrite Es, Et.
      split; (intros [[H1 H2]|[H1 H2]]; [left|right]; split; congruence). }
    destruct (pystr_eqb_spec ds source) as [E1|N1]; cbn [bind] in H.
    + destruct (pystr_eqb_spec dt target) as [E2|N2].
      * injection H as <-. exists d. split; [now left | apply Hsame; auto].
      * destruct (pystr_eqb_spec dt source) as [E3|N3]; cbn [bind] in H.
        -- destruct (pystr_eqb_spec ds target) as [E4|N4].
           ++ injection H as <-. exists d. split; [now left | apply Hsame; auto].
           ++ specialize (IH b H i). destruct b.
              ** destruct IH as (d' & Hin & Hd'). exists d'. split; [now right | exact Hd'].
              ** intros d' [<-|Hin]; [|now apply IH]. rewrite Hsame. tauto.
        -- specialize (IH b H i). destruct b.
           ++ destruct IH as (d' & Hin & Hd'). exists d'. split; [now right | exact Hd'].
           ++ intros d' [<-|Hin]; [|now apply IH]. rewrite Hsame. tauto.
    + destruct (pystr_eqb_spec dt source) as [E3|N3]; cbn [bind] in H.
      * destruct (pystr_eqb_spec ds target) as [E4|N4].
        -- injection H as <-. exists d. split; [now left | apply Hsame; auto].
        -- specialize (IH b H i). destruct b.
           ++ destruct IH as (d' & Hin & Hd'). exists d'. split; [now right | exact Hd'].
           ++ intros d' [<-|Hin]; [|now apply IH]. rewrite Hsame. tauto.
      * specialize (IH b H i). destruct b.
        -- destruct IH as (d' & Hin & Hd'). exists d'. split; [now right | exact Hd'].
        -- intros d' [<-|Hin]; [|now apply IH]. rewrite Hsame. tauto.
Qed.

(** One edge of the second document: it is skipped when its remapped pair
    of endpoints is there already, and else appended under the identifier
    made from the counter, which is then incremented. *)
Lemma union_edge_spec (rm : rename_map) (dl : list edge) (ctr : Z) (e : edge)
    (s' : one_or_many edge * Z) :
  union_edge rm (Many dl, ctr) e = Ok s' ->
  exists src tgt source target,
    edge_source e = Some src /\ dict_get rm src = Ok source
    /\ edge_target e = Some tgt /\ dict_get rm tgt = Ok target
    /\ (((exists d, In d dl /\ same_pair d (appended_edge ctr source target))
         /\ s' = (Many dl, ctr))
        \/ ((forall d, In d dl -> ~ same_pair d (appended_edge ctr source target))
            /\ s' = (Many (dl ++ [appended_edge ctr source target]), (ctr + 1)%Z))).
Proof.
  unfold union_edge.
  destruct (edge_source e) as [src|] eqn:Es; cbn [from_option bind]; [|discriminate].
  destruct (dict_get rm src) as [source|] eqn:Eds; cbn [bind]; [|discriminate].
  destruct (edge_target e) as [tgt|] eqn:Et; cbn [from_option bind]; [|discriminate].
  destruct (dict_get rm tgt) as [target|] eqn:Edt; cbn [bind]; [|discriminate].
  destruct (edge_present dl source target) as [b|] eqn:Ep; cbn [bind]; [|discriminate].
  pose proof (edge_present_spec _ _ _ _ Ep ctr) as Hb.
  intros H. exists src, tgt, source, target.
  split; [reflexivity|]. split; [exact Eds|].
  split; [reflexivity|]. split; [exact Edt|].
  destruct b; injection H as <-; [left | right]; split; trivial.
Qed.

Lemma distinct_pairs_snoc (l : list edge) (c : edge) :
  distinct_pairs l -> (forall d, In d l -> ~ same_pair d c) -> distinct_pairs (l ++ [c]).
Proof.
  unfold distinct_pairs. intros Hl Hc. induction Hl as [|a l Ha Hl IH]; simpl.
  - repeat constructor.
  - constructor.
    + apply Forall_app. split; [exact Ha|]. constructor; [|constructor].
      apply Hc. now left.
    + apply IH. intros d Hd. apply Hc. now right.
Qed.

Lemma union_edges_fold (rm : rename_map) (es : list edge) :
  forall dl ctr s',
    foldM (union_edge rm) (Many dl, ctr) es = Ok s' ->
    distinct_pairs dl -> ctr = Z.of_nat (length dl) ->
    exists dl', s' = (Many dl', Z.of_nat (length dl')) /\ distinct_pairs dl'.
Proof.
  induction es as [|e es IH]; intros dl ctr s' H Hd Hc; cbn [foldM] in H.
  - injection H as <-. subst ctr. eauto.
  - destruct (union_edge rm (Many dl, ctr) e) as [s1|] eqn:E1; cbn [bind] in H; [|discriminate].
    destruct (union_edge_spec _ _ _ _ _ E1)
      as (src & tgt & source & target & _ & _ & _ & _ & [[_ Hs1]|[Hnew Hs1]]);
      subst s1.
    + eapply IH; eauto.
    + eapply IH; [exact H | now apply distinct_pairs_snoc |].
      rewrite length_app. simpl. lia.
Qed.

Lemma union_edge_single (rm : rename_map) (e0 e : edge) (c : Z) (s' : one_or_many edge * Z) :
  union_edge rm (One e0, c) e = Ok s' -> False.
Proof.
  unfold union_edge.
  destruct (edge_source e); cbn [from_option bind]; [|discriminate].
  destruct (dict_get rm p); cbn [bind]; [|discriminate].
  destruct (edge_target e); cbn [from_option bind]; [|discriminate].
  destruct (dict_get rm p0); cbn [bind]; [|discriminate].
  destruct (Z.eqb (len_edges (One e0)) 0); discriminate.
Qed.

Lemma union_edges_fold_single (rm : rename_map) (e0 : edge) (c : Z) (es : list edge)
    (s' : one_or_many edge * Z) :
  foldM (union_edge rm) (One e0, c) es = Ok s' -> fst s' = One e0.
Proof.
  destruct es as [|e es]; cbn [foldM].
  - now intros [= <-].
  - destruct (union_edge rm (One e0, c) e) eqn:E; cbn [bind]; [|discriminate].
    now destruct (union_edge_single _ _ _ _ _ E).
Qed.

Lemma union_run_edges (g1 : document) (colors : palette) (fuel : nat)
    (stack : list ventry) (s s' : document * rename_map) :
  run (union_step g1 colors) fuel stack s = Ok s' ->
  top_edges (graphml (fst s')) = top_edges (graphml (fst s)).
Proof.
  intros H.
  refine (run_invariant (union_step g1 colors)
            (fun x => top_edges (graphml (fst x)) = top_edges (graphml (fst s)))
            _ _ _ _ _ eq_refl H).
  intros e x cs x' Hx Hstep. rewrite <- Hx. eapply union_step_edges; eauto.
Qed.

(** The fold of the merge of the edges: what it appends to the list. *)
Lemma union_edges_fold_app (rm : rename_map) (es : list edge) :
  forall dl ctr s',
    foldM (union_edge rm) (Many dl, ctr) es = Ok s' ->
    exists app,
      s' = (Many (dl ++ app), (ctr + Z.of_nat (length app))%Z)
      /\ (forall i a, nth_error app i = Some a ->
            exists e src tgt source target,
              In e es /\ edge_source e = Some src /\ dict_get rm src = Ok source
              /\ edge_target e = Some tgt /\ dict_get rm tgt = Ok target
              /\ a = appended_edge (ctr + Z.of_nat i) source target
              /\ forall d, In d dl -> ~ same_pair d a)
      /\ (forall e, In e es ->
            exists src tgt source target,
              edge_source e = Some src /\ dict_get rm src = Ok source
              /\ edge_target e = Some tgt /\ dict_get rm tgt = Ok target
              /\ exists d, In d (dl ++ app)
                           /\ same_pair d (appended_edge 0 source target)).
Proof.
  induction es as [|e es IH]; intros dl ctr s' H; cbn [foldM] in H.
  - injection H as <-. exists []. rewrite app_nil_r, Z.add_0_r.
    split; [reflexivity|]. split; [now intros [|i] a | intros e []].
  - destruct (union_edge rm (Many dl, ctr) e) as [s1|] eqn:E1; cbn [bind] in H;
      [|discriminate].
    destruct (union_edge_spec _ _ _ _ _ E1)
      as (src & tgt & source & target & Hs & Hds & Ht & Hdt & [[Hin Hs1]|[Hnew Hs1]]);
      subst s1.
    + destruct (IH _ _ _ H) as (app & -> & Happ & Hall).
      exists app. split; [reflexivity|]. split.
      * intros i a Hi.
        destruct (Happ i a Hi) as (e' & s0 & t0 & so & ta & He' & Hrest).
        exists e', s0, t0, so, ta. split; [now right | exact Hrest].
      * intros e' [<-|He'].
        -- exists src, tgt, source, target. repeat (split; [assumption|]).
           destruct Hin as (d & Hd & Hsame). exists d.
           split; [apply in_or_app; now left | exact Hsame].
        -- now apply Hall.
    + destruct (IH _ _ _ H) as (app & -> & Happ & Hall).
      exists (appended_edge ctr source target :: app).
      split; [|split].
      * rewrite <- app_assoc. cbn [List.app length]. f_equal. lia.
      * intros [|i] a Hi; cbn [nth_error] in Hi.
        -- injection Hi as <-. exists e, src, tgt, source, target.
           split; [now left|]. repeat (split; [assumption|]).
           split; [now rewrite Z.add_0_r | exact Hnew].
        -- destruct (Happ i a Hi)
             as (e' & s0 & t0 & so & ta & He' & H1 & H2 & H3 & H4 & -> & Hd).
           exists e', s0, t0, so, ta. split; [now right|].
           repeat (split; [assumption|]). split; [f_equal; lia|].
           intros d Hin. apply Hd, in_or_app. now left.
      * intros e' [<-|He'].
        -- exists src, tgt, source, target. repeat (split; [assumption|]).
           exists (appended_edge ctr source target).
           split; [apply in_or_app; right; now left | now left].
        -- destruct (Hall e' He') as (s0 & t0 & so & ta & H1 & H2 & H3 & H4 & d & Hd & Hsame).
           exists s0, t0, so, ta. repeat (split; [assumption|]).
           exists d. split; [now rewrite <- app_assoc in Hd | exact Hsame].
Qed.

Lemma edge_number_injective (i j : nat) : edge_number i = edge_number j -> i = j.
Proof.
  unfold edge_number. intros [= H].
  apply (f_equal PyStr.int_of_str) in H.
  rewrite !PyStrFacts.int_of_str_of_int in H. injection H as H. lia.
Qed.

Lemma NoDup_map_injective {A B} (f : A -> B) (l : list A) :
  (forall x y, f x = f y -> x = y) -> NoDup l -> NoDup (map f l).
Proof.
  intros Hf Hl. induction Hl as [|x l Hx Hl IH]; cbn [map]; constructor; [|exact IH].
  intros (y & Hy & Hin)%in_map_iff. apply Hf in Hy. now subst y.
Qed.

Lemma numbered_NoDup (l : list edge) : numbered l -> NoDup (map edge_id l).
Proof.
  unfold numbered. intros ->.
  apply NoDup_map_injective; [apply edge_number_injective | apply seq_NoDup].
Qed.

Lemma appended_ids (app : list edge) :
  forall c,
    (forall i a, nth_error app i = Some a -> edge_id a = edge_number (c + i)) ->
    map edge_id app = map edge_number (seq c (length app)).
Proof.
  induction app as [|a app IH]; intros c H; [reflexivity|].
  cbn [map length seq]. f_equal.
  - rewrite (H 0 a eq_refl). f_equal. lia.
  - apply IH. intros i x Hi. rewrite (H (S i) x Hi). f_equal. lia.
Qed.

Lemma numbered_app (l app : list edge) :
  numbered l ->
  (forall i a, nth_error app i = Some a -> edge_id a = edge_number (length l + i)) ->
  numbered (l ++ app).
Proof.
  unfold numbered. intros Hl Happ.
  rewrite map_app, length_app, seq_app, map_app, Hl. f_equal.
  now apply appended_ids.
Qed.

(** C3, the claim as stated fails: the identifier of an appended edge is
    made from the number of edges of the source, whatever the identifiers
    these edges have.  The two edges of the source are identified [e0] and
    [e2]; the edge of the second document from [B] to [C] is appended under
    the identifier [e2], which is the identifier of an edge that was there
    already. *)
Lemma union_edge_id_reused :
  exists self' dg es,
    _find_diff_union
      (Samples.engine Samples.doc_ABC_gap Samples.doc_ABC_bc "union")
      Gdict1 Gdict2 self_colors = Ok (self', dg)
    /\ subscript_edges Samples.doc_ABC_gap
       = Ok (Many [Samples.ed "e0" "n0" "n1"; Samples.ed "e2" "n0" "n2"])
    /\ distinct_pairs [Samples.ed "e0" "n0" "n1"; Samples.ed "e2" "n0" "n2"]
    /\ subscript_edges dg = Ok (Many es)
    /\ es = [Samples.ed "e0" "n0" "n1"; Samples.ed "e2" "n0" "n2";
             appended_edge 2 (Some "n1") (Some "n2")]
    /\ map edge_id es = [Some "e0"; Some "e2"; Some "e2"]
    /\ ~ NoDup (map edge_id es).
Proof.
  do 3 eexists. split; [vm_compute; reflexivity|].
  split; [reflexivity|]. split.
  { repeat constructor; intros [[Ha Hb]|[Ha Hb]]; discriminate. }
  split; [reflexivity|]. split; [reflexivity|]. split; [reflexivity|].
  intros H. inversion H as [|x l Hx Hl]; subst.
  inversion Hl as [|y l' Hy _]; subst. apply Hy. now left.
Qed.

(** C3 (amended): in the document a union-mode merge produces, no two
    edges of the top-level list share an unordered pair of endpoints,
    provided no two edges of the top-level list of the source do.  That
    list is the list of the source followed by the edges appended, [app].
    The edges of the second document are merged one by one, their
    endpoints remapped through the rename map that the merge of the nodes
    built: an edge is skipped when an edge with the same pair of endpoints,
    in either direction, is there already, and else appended under the
    identifier [e] followed by the counter, which starts at the number of
    edges of the source and is incremented at every append.  The [i]-th
    edge appended is thus identified by the number of edges of the source
    plus [i]; every edge of the second document has, remapped, its pair of
    endpoints in the merged list.  When the edges of the source are
    identified [e0], [e1], ... in order, so are the edges of the merged
    list, and no identifier is then used twice. *)
Theorem union_edges_merged (self : BNGGdiff) (g1 g2 : docref) (colors : palette)
    (self' : BNGGdiff) (dg : document) :
  _find_diff_union self g1 g2 colors = Ok (self', dg) ->
  (forall es1, subscript_edges (doc_of self g1) = Ok (Many es1) -> distinct_pairs es1) ->
  (forall es, subscript_edges dg = Ok (Many es) -> distinct_pairs es)
  /\ (forall es, subscript_edges dg = Ok (Many es) ->
      exists self1 dg0 rm0 dg1 rm es1 g2edges es2 app,
        _find_diff self g1 g2 colors = Ok (self1, dg0, rm0)
        /\ run (union_step (doc_of self1 g1) colors)
               (size (graphml (doc_of self1 g2)))
               [(["graphml"], [], graphml (doc_of self1 g2))] (dg0, rm0)
           = Ok (dg1, rm)
        /\ subscript_edges (doc_of self g1) = Ok (Many es1)
        /\ subscript_edges (doc_of self g2) = Ok g2edges
        /\ edges_iter g2edges = Ok es2
        /\ foldM (union_edge rm) (Many es1, Z.of_nat (length es1)) es2
           = Ok (Many es, Z.of_nat (length es))
        /\ es = es1 ++ app
        /\ (forall i a, nth_error app i = Some a ->
              exists e src tgt source target,
                In e es2 /\ edge_source e = Some src /\ dict_get rm src = Ok source
                /\ edge_target e = Some tgt /\ dict_get rm tgt = Ok target
                /\ a = appended_edge (Z.of_nat (length es1 + i)) source target
                /\ forall d, In d es1 -> ~ same_pair d a)
        /\ (forall e, In e es2 ->
              exists src tgt source target,
                edge_source e = Some src /\ dict_get rm src = Ok source
                /\ edge_target e = Some tgt /\ dict_get rm tgt = Ok target
                /\ exists d, In d es /\ same_pair d (appended_edge 0 source target))
        /\ (numbered es1 -> numbered es /\ NoDup (map edge_id es)))
  /\ (forall rm dl ctr e s',
         union_edge rm (Many dl, ctr) e = Ok s' ->
         exists src tgt source target,
           edge_source e = Some src /\ dict_get rm src = Ok source
           /\ edge_target e = Some tgt /\ dict_get rm tgt = Ok target
           /\ (((exists d, In d dl /\ same_pair d (appended_edge ctr source target))
                /\ s' = (Many dl, ctr))
               \/ ((forall d, In d dl -> ~ same_pair d (appended_edge ctr source target))
                   /\ s' = (Many (dl ++ [appended_edge ctr source target]),
                            (ctr + 1)%Z)))).
Proof.
  intros H Hsrc. unfold _find_diff_union in H.
  destruct (_find_diff self g1 g2 colors) as [[[self1 dg0] rm0]|] eqn:Ef;
    cbn [bind] in H; [|discriminate].
  destruct (find_diff_edges _ _ _ _ _ _ _ Ef) as [Hdg0 Hdocs].
  destruct (run (union_step (doc_of self1 g1) colors) (size (graphml (doc_of self1 g2)))
              [(["graphml"], [], graphml (doc_of self1 g2))] (dg0, rm0))
    as [[dg1 rm1]|] eqn:Er; cbn [bind] in H; [|discriminate].
  pose proof (union_run_edges _ _ _ _ _ _ Er) as Hdg1. cbn [fst] in Hdg1.
  destruct (union_edges rm1 dg1 (doc_of self1 g2)) as [dg2|] eqn:Ee;
    cbn [bind] in H; [|discriminate].
  injection H as _ <-.
  unfold union_edges in Ee. rewrite !subscript_edges_top in Ee.
  rewrite Hdocs, Hdg1, Hdg0 in Ee.
  destruct (top_edges (graphml (doc_of self g1))) as [es1|] eqn:E1;
    cbn [from_option bind] in Ee; [|discriminate].
  destruct (top_edges (graphml (doc_of self g2))) as [g2edges|] eqn:E2;
    cbn [from_option bind] in Ee; [|discriminate].
  destruct (edges_iter g2edges) as [es2|] eqn:Ei; cbn [bind] in Ee; [|discriminate].
  destruct (foldM (union_edge rm1) (es1, len_edges es1) es2) as [[esf ctr]|] eqn:Efold;
    cbn [bind] in Ee; [|discriminate].
  destruct (node_graph (graphml dg1)) as [g|]; [|discriminate].
  injection Ee as <-.
  assert (Hout : subscript_edges
                   (mkDocument (mkNode (node_id (graphml dg1)) (node_data (graphml dg1))
                      (Some (mkGraph (graph_id g) (graph_node g) (Some esf)))))
                 = Ok esf) by reflexivity.
  split; [|split].
  - intros es Hes. rewrite Hout in Hes. injection Hes as ->.
    destruct es1 as [e0|dl].
    + apply union_edges_fold_single in Efold. discriminate.
    + destruct (union_edges_fold _ _ _ _ _ Efold) as (dl' & Hdl' & Hdist).
      * apply Hsrc. now rewrite subscript_edges_top, E1.
      * reflexivity.
      * now injection Hdl' as <- _.
  - intros es Hes. rewrite Hout in Hes. injection Hes as ->.
    destruct es1 as [e0|dl];
      [apply union_edges_fold_single in Efold; discriminate|].
    cbn [len_edges] in Efold.
    destruct (union_edges_fold_app _ _ _ _ _ Efold) as (app & Hs' & Happ & Hall).
    injection Hs' as -> ->.
    exists self1, dg0, rm0, dg1, rm1, dl, g2edges, es2, app.
    split; [reflexivity|]. split; [exact Er|].
    rewrite !subscript_edges_top, E1, E2.
    split; [reflexivity|]. split; [reflexivity|]. split; [exact Ei|].
    split; [rewrite Efold, length_app; do 2 f_equal; lia|].
    split; [reflexivity|]. split; [|split].
    + intros i a Hi.
      destruct (Happ i a Hi)
        as (e' & s0 & t0 & so & ta & He' & H1 & H2 & H3 & H4 & -> & Hd).
      exists e', s0, t0, so, ta. repeat (split; [assumption|]).
      split; [f_equal; lia | exact Hd].
    + exact Hall.
    + intros Hnum.
      assert (Hn : numbered (dl ++ app)).
      { apply numbered_app; [exact Hnum|]. intros i a Hi.
        destruct (Happ i a Hi) as (_ & _ & _ & so & ta & _ & _ & _ & _ & _ & -> & _).
        unfold appended_edge, edge_number. cbn [edge_id]. do 3 f_equal. lia. }
      split; [exact Hn | now apply numbered_NoDup].
  - intros rm dl c e s'. apply union_edge_spec.
Qed.

Lemma union_edges_merged_witness :
  exists self' dg es,
    _find_diff_union (Samples.engine Samples.doc_AabB Samples.doc_AacC "union")
      Gdict1 Gdict2 self_colors = Ok (self', dg)
    /\ subscript_edges dg = Ok (Many es)
    /\ distinct_pairs es
    /\ map edge_id es = [Some "e0"; Some "e1"; Some "e2"; Some "e3"]
    /\ NoDup (map edge_id es).
Proof.
  destruct (_find_diff_union (Samples.engine Samples.doc_AabB Samples.doc_AacC "union")
              Gdict1 Gdict2 self_colors) as [[self' dg]|] eqn:E;
    [|vm_compute in E; discriminate].
  destruct (union_edges_merged _ _ _ _ _ _ E) as (Hdist & Hmerge & _).
  { intros es1 H1. vm_compute in H1. injection H1 as <-.
    repeat constructor; intros [[Ha Hb]|[Ha Hb]]; discriminate. }
  assert (Hes : exists es, subscript_edges dg = Ok (Many es)
                           /\ map edge_id es = [Some "e0"; Some "e1"; Some "e2"; Some "e3"]).
  { vm_compute in E. injection E as _ <-. eexists. split; reflexivity. }
  destruct Hes as (es & Hes & Hids).
  exists self', dg, es. split; [reflexivity|]. split; [exact Hes|].
  split; [exact (Hdist es Hes)|]. split; [exact Hids|].
  destruct (Hmerge es Hes)
    as (self1 & dg0 & rm0 & dg1 & rm & es1 & g2e & es2 & app & _ & _ & H1 & _ & _
        & _ & _ & _ & _ & Hnum).
  vm_compute in H1. injection H1 as <-.
  exact (proj2 (Hnum eq_refl)).
Defined.

(* ================================================================== *)
(** * The two directions of a matrix run *)

Lemma labels_along_last (p : path) :
  forall t n, p <> [] -> get_at t p = Some n ->
              last (labels_along t p) EmptyString = label_of n.
Proof.
  induction p as [|i p IH]; intros t n Hp Hn; [congruence|].
  cbn [get_at labels_along] in *.
  destruct (nth_error (kids t) i) as [k|]; [|discriminate].
  destruct p as [|j p'].
  - cbn [get_at labels_along last] in *. now injection Hn as ->.
  - specialize (IH k n (ltac:(discriminate)) Hn).
    pose proof (labels_along_nonempty k (j :: p') n (ltac:(discriminate)) Hn) as Hne.
    destruct (labels_along k (j :: p')) as [|x l]; [congruence|].
    exact IH.
Qed.

Lemma color_id_same_fill (a b : node) (pa pb : properties) :
  _get_node_properties a = Ok pa -> _get_node_properties b = Ok pb ->
  Fill_color pa = Fill_color pb -> _get_color_id a = _get_color_id b.
Proof.
  intros Ha Hb E. unfold _get_color_id, _get_node_color.
  rewrite Ha, Hb. cbn [bind]. now rewrite E.
Qed.

(** A node of the source whose label path is the label path of a node of
    the other document is painted from the intersect slot. *)
Lemma find_diff_shared_node (src other : document) (cs : palette)
    (ps po : path) (ns no : node) :
  well_formed src -> well_formed other -> palette_ok cs ->
  ps <> [] -> get_at (graphml src) ps = Some ns -> get_at (graphml other) po = Some no ->
  labels_along (graphml src) ps = labels_along (graphml other) po ->
  exists cid c,
    _get_color_id ns = Ok cid
    /\ nth_error (pal_intersect cs) cid = Some c
    /\ color_at (resized 20 (painted other cs src)) ps = Ok c.
Proof.
  intros Hws Hwo Hpal Hps Hns Hno Hlab.
  pose proof Hws as (_ & _ & Hsts & _). pose proof Hwo as (_ & _ & Hsto & _).
  pose proof (Hsts ps ns Hps Hns) as Hsn.
  assert (Hpo : po <> []).
  { intros ->. simpl in Hlab.
    now apply (labels_along_nonempty _ _ _ Hps Hns). }
  pose proof (Hsto po no Hpo Hno) as Hso.
  pose proof (resolver_complete other po no Hwo Hpo Hno) as Hlook.
  rewrite <- Hlab in Hlook.
  assert (Hname : _get_node_name no = _get_node_name ns).
  { rewrite (named_label _ (styled_named _ Hso)), (named_label _ (styled_named _ Hsn)).
    f_equal. rewrite <- (labels_along_last po _ no Hpo Hno).
    rewrite <- (labels_along_last ps _ ns Hps Hns). now rewrite Hlab. }
  destruct (paint_fn_shared other cs _ ns po no Hpal Hsn
              (nonempty_app_labels [] _ ps ns Hps Hns) Hlook Hname)
    as (cid & c & pr & Hpr & Hcid & Hnth & _ & Hpx).
  exists cid, c. split; [exact Hcid|]. split; [exact Hnth|].
  unfold color_at, resized, painted. cbn [graphml].
  set (fp := paint_fn other cs) in *.
  assert (Hpn : get_at (tmapn fp [] (graphml src)) ps
                = Some (tmapn fp (labels_along (graphml src) ps) ns)).
  { rewrite (get_at_tmapn fp (style_only_paint _ _)), Hns. reflexivity. }
  destruct (resized_node 20 [] _ ps _
              (mkProperties (NodeLabel_text pr) (NodeLabel_fontSize pr) c) Hps Hpn)
    as (n' & Hn' & _ & Hpn').
  { now rewrite properties_tmapn. }
  rewrite Hn'. cbn [from_option bind]. unfold _get_node_color. now rewrite Hpn'.
Qed.

(** The two directions on well-formed documents whose top-level nodes are
    lists, the second one run with the source-only and the intersect slots
    of the palette swapped: both return, and at every label path the two
    documents share, the first output carries the colour of the intersect
    slot and the second the colour of the source-only slot, each for the
    colour class of its node.  When the two nodes are of one class, the
    two colours are complements of each other. *)
Lemma mirror_complement_on_lists (self : BNGGdiff) (colors : palette) :
  well_formed_b (gdict_1 self) = true -> well_formed_b (gdict_2 self) = true ->
  top_level_list_b (gdict_1 self) = true -> top_level_list_b (gdict_2 self) = true ->
  palette_ok_b colors = true ->
  exists self1 out1 rm1 self2 out2 rm2,
    _find_diff self Gdict1 Gdict2 colors = Ok (self1, out1, rm1)
    /\ _find_diff self1 Gdict2 Gdict1
         (mkPalette (pal_intersect colors) (pal_g2 colors) (pal_g1 colors))
       = Ok (self2, out2, rm2)
    /\ forall pa pb na nb,
         pa <> [] ->
         get_at (graphml (gdict_1 self)) pa = Some na ->
         get_at (graphml (gdict_2 self)) pb = Some nb ->
         labels_along (graphml (gdict_1 self)) pa
         = labels_along (graphml (gdict_2 self)) pb ->
         exists ca cb xa xb,
           _get_color_id na = Ok ca /\ _get_color_id nb = Ok cb
           /\ nth_error (pal_intersect colors) ca = Some xa
           /\ nth_error (pal_g1 colors) cb = Some xb
           /\ color_at out1 pa = Ok xa
           /\ color_at out2 pb = Ok xb
           /\ (ca = cb -> complementary colors ca xa xb).
Proof.
  intros Hw1b Hw2b Ht1b Ht2b Hpalb.
  pose proof (well_formed_b_sound _ Hw1b) as Hw1.
  pose proof (well_formed_b_sound _ Hw2b) as Hw2.
  pose proof (top_level_list_b_sound _ Ht1b) as Ht1.
  pose proof (top_level_list_b_sound _ Ht2b) as Ht2.
  pose proof (palette_ok_b_sound _ Hpalb) as Hpal.
  destruct (find_diff_on_lists self Gdict1 Gdict2 colors Hpal Hw1 Hw2 Ht1 Ht2)
    as [rm1 H1].
  set (self1 := mkBNGGdiff (input self) (input2 self) (output self) (output2 self)
                  (resized 20 (gdict_1 self)) (resized 20 (gdict_2 self))
                  (Some (recolored (pal_g1 self_colors) (gdict_1 self)))
                  (Some (recolored (pal_g2 self_colors) (gdict_2 self)))
                  (mode self)) in *.
  set (colors2 := mkPalette (pal_intersect colors) (pal_g2 colors) (pal_g1 colors)).
  assert (Hpal' : palette_ok colors2)
    by (destruct Hpal as (? & ? & ?); repeat split; assumption).
  pose proof (well_formed_resized 20 _ Hw1) as Hw1'.
  pose proof (well_formed_resized 20 _ Hw2) as Hw2'.
  destruct (find_diff_on_lists self1 Gdict2 Gdict1 colors2 Hpal')
    as [rm2 H2]; cbn [self1 gdict_1 gdict_2]; trivial;
    try (now apply top_level_list_resized).
  do 6 eexists. split; [exact H1|]. split; [exact H2|].
  intros pa pb na nb Hpa Hna Hnb Hlab. cbn [doc_of self1 gdict_1 gdict_2].
  assert (Hpb : pb <> []).
  { intros ->. simpl in Hlab. now apply (labels_along_nonempty _ _ _ Hpa Hna). }
  destruct (find_diff_shared_node (gdict_1 self) (gdict_2 self) colors
              pa pb na nb Hw1 Hw2 Hpal Hpa Hna Hnb Hlab)
    as (ca & xa & Hca & Hxa & Hout1).
  pose proof Hw1 as (_ & _ & Hst1 & _). pose proof Hw2 as (_ & _ & Hst2 & _).
  destruct (Hst1 pa na Hpa Hna) as [_ (pra & Hpra & _)].
  destruct (Hst2 pb nb Hpb Hnb) as [_ (prb & Hprb & _)].
  destruct (resized_node 20 [] _ pa na pra Hpa Hna Hpra) as (na1 & Hna1 & _ & Hpna1).
  destruct (resized_node 20 [] _ pb nb prb Hpb Hnb Hprb) as (nb1 & Hnb1 & _ & Hpnb1).
  destruct (find_diff_shared_node (resized 20 (gdict_2 self)) (resized 20 (gdict_1 self))
              colors2 pb pa nb1 na1 Hw2' Hw1' Hpal' Hpb Hnb1 Hna1)
    as (cb & xb & Hcb & Hxb & Hout2).
  { unfold resized. cbn [graphml].
    rewrite !(labels_along_tmapn _ (style_only_resize 20)). now symmetry. }
  cbn [colors2 pal_intersect] in Hxb.
  exists ca, cb, xa, xb.
  rewrite <- (color_id_same_fill nb1 nb _ _ Hpnb1 Hprb eq_refl).
  repeat (split; [assumption|]).
  intros <-. left. split; assumption.
Qed.

(** The molecule [A] is at the label path [A] of both documents: the first
    output has it in the colour of the intersect slot, the second in the
    colour of the source-only slot. *)
Lemma mirror_complement_sample :
  exists self1 out1 rm1 self2 out2 rm2,
    _find_diff (Samples.engine Samples.doc_AabB Samples.doc_AacC "matrix")
      Gdict1 Gdict2 self_colors = Ok (self1, out1, rm1)
    /\ _find_diff self1 Gdict2 Gdict1
         (mkPalette (pal_intersect self_colors) (pal_g2 self_colors)
            (pal_g1 self_colors))
       = Ok (self2, out2, rm2)
    /\ color_at out1 [0] = Ok "#c4ed9e"
    /\ color_at out2 [0] = Ok "#dadbfd"
    /\ complementary self_colors 0 "#c4ed9e" "#dadbfd".
Proof.
  destruct (mirror_complement_on_lists
              (Samples.engine Samples.doc_AabB Samples.doc_AacC "matrix") self_colors)
    as (self1 & out1 & rm1 & self2 & out2 & rm2 & H1 & H2 & H); try reflexivity.
  exists self1, out1, rm1, self2, out2, rm2.
  split; [exact H1|]. split; [exact H2|].
  destruct (H [0] [0] _ _ ltac:(discriminate) eq_refl eq_refl eq_refl)
    as (ca & cb & xa & xb & Hca & Hcb & Hxa & Hxb & Ho1 & Ho2 & Hc).
  vm_compute in Hca, Hcb. injection Hca as <-. injection Hcb as <-.
  vm_compute in Hxa, Hxb. injection Hxa as <-. injection Hxb as <-.
  split; [exact Ho1|]. split; [exact Ho2|]. exact (Hc eq_refl).
Qed.



(** The coverage of the Differ on well-formed documents, the top-level
    nodes of the other document being a list: every node of the painted
    copy below the root carries the colour of the intersect slot or of the
    source-only slot for its colour class. *)
Lemma diff_coverage_on_lists (self : BNGGdiff) (colors : palette) :
  well_formed_b (gdict_1 self) = true -> well_formed_b (gdict_2 self) = true ->
  top_level_list_b (gdict_2 self) = true ->
  palette_ok_b colors = true ->
  exists self' dg rm,
    _find_diff self Gdict1 Gdict2 colors = Ok (self', dg, rm)
    /\ forall p n, p <> [] -> get_at (graphml (gdict_1 self)) p = Some n ->
         exists cid c,
           _get_color_id n = Ok cid
           /\ (nth_error (pal_intersect colors) cid = Some c
               \/ nth_error (pal_g1 colors) cid = Some c)
           /\ color_at dg p = Ok c.
Proof.
  intros Hw1b Hw2b Ht2b Hpalb.
  pose proof (well_formed_b_sound _ Hw1b) as Hw1.
  pose proof (well_formed_b_sound _ Hw2b) as Hw2.
  pose proof (top_level_list_b_sound _ Ht2b) as Ht2.
  pose proof (palette_ok_b_sound _ Hpalb) as Hpal.
  destruct (well_formed_basic _ Hw1) as [Hg1 Hs1].
  destruct (well_formed_basic _ Hw2) as [Hg2 Hs2].
  pose proof (well_formed_resolver_total _ Hw2 Ht2) as Htot.
  destruct (find_diff_closed_form self Gdict1 Gdict2 colors Hpal Hg1 Hs1 Hg2 Hs2
              (total_resolves _ _ Htot)) as [rm Hrm].
  do 3 eexists. split; [exact Hrm|].
  intros p n Hp Hn. cbn [doc_of].
  destruct (paint_fn_covers (gdict_2 self) colors
              (labels_along (graphml (gdict_1 self)) p) n Hpal (Hs1 p n Hp Hn)
              (nonempty_app_labels [] _ p n Hp Hn) (Htot _))
    as (cid & c & pr & Hpr & Hcid & Hslot & Hpx).
  exists cid, c. split; [exact Hcid|]. split; [exact Hslot|].
  unfold color_at, resized, painted. cbn [graphml].
  set (fp := paint_fn (gdict_2 self) colors) in *.
  assert (Hpn : get_at (tmapn fp [] (graphml (gdict_1 self))) p
                = Some (tmapn fp (labels_along (graphml (gdict_1 self)) p) n)).
  { rewrite (get_at_tmapn fp (style_only_paint _ _)), Hn. reflexivity. }
  destruct (resized_node 20 [] _ p _
              (mkProperties (NodeLabel_text pr) (NodeLabel_fontSize pr) c) Hp Hpn)
    as (n' & Hn' & _ & Hpn').
  { now rewrite properties_tmapn. }
  rewrite Hn'. cbn [from_option bind]. unfold _get_node_color. now rewrite Hpn'.
Qed.

(* ================================================================== *)
(** * Further properties of the identifier functions *)

Lemma split_colons_nonempty (s : string) : PyStr.split_colons s <> [].
Proof.
  induction s as [|a s IH]; [discriminate|].
  cbn [PyStr.split_colons]. destruct s as [|b s2]; [discriminate|].
  destruct (Ascii.eqb a ":" && Ascii.eqb b ":"); [discriminate|].
  unfold PyStr.cons_head. destruct (PyStr.split_colons (String b s2)); discriminate.
Qed.

Lemma int_of_str_error (s : string) (e : exn) :
  PyStr.int_of_str s = Err e -> e = ValueError.
Proof.
  unfold PyStr.int_of_str. destruct (PyStr.strip s) as [|a s']; [now intros [= <-]|].
  destruct (Ascii.eqb a "-").
  - destruct (option_map Z.opp (PyStr.unsigned_of_string s')); [discriminate|].
    now intros [= <-].
  - destruct (Ascii.eqb a "+").
    + destruct (PyStr.unsigned_of_string s'); [discriminate | now intros [= <-]].
    + destruct (PyStr.unsigned_of_string (String a s')); [discriminate | now intros [= <-]].
Qed.

Lemma mapM_error {A B} (f : A -> result B) (l : list A) (e : exn) :
  mapM f l = Err e -> exists x, In x l /\ f x = Err e.
Proof.
  induction l as [|a l IH]; [discriminate|]. cbn [mapM].
  destruct (f a) as [y|e'] eqn:Ea; cbn [bind].
  - destruct (mapM f l) as [ys|e'']; cbn [bind]; [discriminate|].
    intros [= <-]. destruct (IH eq_refl) as (x & Hx & Hfx).
    exists x. split; [now right | assumption].
  - intros [= <-]. exists a. split; [now left | assumption].
Qed.

Lemma nonempty_snoc {A} (l : list A) : l <> [] -> exists pre x, l = pre ++ [x].
Proof.
  intros H. destruct (exists_last H) as (pre & x & ->). now exists pre, x.
Qed.

Lemma concat_cons_nonempty (x : string) (l : list string) (a : ascii) (s : string) :
  x = String a s -> String.concat "::" (x :: l) <> EmptyString.
Proof.
  intros ->. cbn [String.concat]. destruct l; discriminate.
Qed.

(** X1: rendering is injective: two lists of integers that render as the
    same identifier are the same list. *)
Theorem get_id_str_injective (l1 l2 : list Z) :
  _get_id_str l1 = _get_id_str l2 -> l1 = l2.
Proof.
  intros H. destruct l1 as [|a l1], l2 as [|b l2]; [reflexivity | | |].
  - exfalso. symmetry in H.
    exact (concat_cons_nonempty _ _ "n" (PyStr.str_of_int b) eq_refl H).
  - exfalso.
    exact (concat_cons_nonempty _ _ "n" (PyStr.str_of_int a) eq_refl H).
  - apply (f_equal _get_id_list) in H.
    rewrite !get_id_list_of_str in H by discriminate. congruence.
Qed.

Lemma get_id_str_injective_witness :
  _get_id_str [1%Z; 20%Z] = "n1::n20" /\ [1%Z; 20%Z] = [1%Z; 20%Z].
Proof.
  split; [reflexivity|].
  apply (get_id_str_injective [1%Z; 20%Z] [1%Z; 20%Z]). reflexivity.
Defined.

Lemma skip_bytes_app (r s : string) :
  PyStr.skip_bytes (String.length r) (r ++ s)%string = s.
Proof.
  induction r as [|a r IH]; [reflexivity | exact IH].
Qed.

Lemma drop_first_one_char (c s : string) :
  PyStr.one_char c = true -> PyStr.drop_first (c ++ s)%string = s.
Proof.
  destruct c as [|a r]; [discriminate|].
  cbn [PyStr.one_char]. intros [[_ Hl]%andb_prop _]%andb_prop.
  apply Nat.eqb_eq in Hl. cbn [append PyStr.drop_first].
  rewrite <- Hl. apply skip_bytes_app.
Qed.

Lemma no_colon_app (r s : string) :
  PyStrFacts.no_colon r = true -> PyStrFacts.no_colon s = true ->
  PyStrFacts.no_colon (r ++ s)%string = true.
Proof.
  intros Hr Hs. induction r as [|a r IH]; [exact Hs|].
  cbn [append PyStrFacts.no_colon] in *.
  apply andb_prop in Hr as [Ha Hr]. now rewrite Ha, (IH Hr).
Qed.

Lemma continuation_no_colon (r : string) :
  forallb PyStr.is_continuation (list_ascii_of_string r) = true ->
  PyStrFacts.no_colon r = true.
Proof.
  induction r as [|a r IH]; [reflexivity|].
  cbn [list_ascii_of_string forallb PyStrFacts.no_colon].
  intros [Ha Hr]%andb_prop. rewrite (IH Hr), andb_true_r.
  destruct (Ascii.eqb_spec a ":") as [->|_]; [discriminate Ha | reflexivity].
Qed.

Lemma one_char_no_colon (c : string) :
  PyStr.one_char c = true -> String.eqb c ":" = false ->
  PyStrFacts.no_colon c = true.
Proof.
  destruct c as [|a r]; [discriminate|].
  cbn [PyStr.one_char]. intros [[_ Hl]%andb_prop Hr]%andb_prop Hc.
  cbn [PyStrFacts.no_colon]. rewrite (continuation_no_colon _ Hr), andb_true_r.
  destruct (Ascii.eqb_spec a ":") as [->|_]; [|reflexivity].
  apply Nat.eqb_eq in Hl. destruct r; [discriminate Hc | discriminate Hl].
Qed.

(** X2: parsing never looks at the first character of a segment: whatever
    character each segment begins with (a colon apart; the character may
    be any one, of one byte or of several), the integers that follow are
    what is parsed, and rendering the result puts the letter [n] in the
    place of that character. *)
Theorem get_id_list_ignores_first_char (cs : list (string * Z)) :
  cs <> [] ->
  Forall (fun ck => PyStr.one_char (fst ck) && negb (String.eqb (fst ck) ":") = true)
         cs ->
  _get_id_list
    (String.concat "::"
       (map (fun ck => (fst ck ++ PyStr.str_of_int (snd ck))%string) cs))
  = Ok (map snd cs)
  /\ (l <- _get_id_list
            (String.concat "::"
               (map (fun ck => (fst ck ++ PyStr.str_of_int (snd ck))%string) cs)) ;;
      Ok (_get_id_str l))
     = Ok (String.concat "::"
             (map (fun ck => String "n" (PyStr.str_of_int (snd ck))) cs)).
Proof.
  intros Hne Hc. rewrite Forall_forall in Hc.
  assert (H : _get_id_list
                (String.concat "::"
                   (map (fun ck => (fst ck ++ PyStr.str_of_int (snd ck))%string) cs))
              = Ok (map snd cs)).
  { rewrite get_id_list_segments.
    - clear Hne. induction cs as [|ck cs IH]; [reflexivity|].
      cbn [map mapM].
      destruct (andb_prop _ _ (Hc ck (or_introl eq_refl))) as [H1 _].
      rewrite (drop_first_one_char _ _ H1), PyStrFacts.int_of_str_of_int.
      cbn [bind]. rewrite IH; [reflexivity|].
      intros x Hx. apply Hc. now right.
    - destruct cs; [congruence | discriminate].
    - rewrite forallb_forall. intros x [ck [<- Hin]]%in_map_iff.
      destruct (andb_prop _ _ (Hc ck Hin)) as [H1 H2].
      apply negb_true_iff in H2.
      apply no_colon_app; [now apply one_char_no_colon|].
      apply PyStrFacts.str_of_int_digits_or_sign. }
  split; [exact H|]. rewrite H. cbn [bind]. unfold _get_id_str.
  now rewrite map_map.
Qed.

(** The second segment begins with the two bytes of a letter e with an
    acute accent. *)
Lemma get_id_list_ignores_first_char_witness :
  _get_id_list
    ("x3::" ++ String (ascii_of_nat 195) (String (ascii_of_nat 169) "10"))%string
  = Ok [3%Z; 10%Z]
  /\ (l <- _get_id_list
             ("x3::" ++ String (ascii_of_nat 195) (String (ascii_of_nat 169) "10"))%string ;;
      Ok (_get_id_str l))
     = Ok "n3::n10".
Proof.
  apply (get_id_list_ignores_first_char
           [("x", 3%Z);
            (String (ascii_of_nat 195) (String (ascii_of_nat 169) ""), 10%Z)]).
  - discriminate.
  - repeat constructor.
Defined.

(** X3: parsing an identifier either raises [ValueError] or yields a list
    with one integer for each segment of the string; that list is never
    empty, so that the increment of its last element, by which a fresh
    identifier is made, never raises: it adds one to the last element and
    keeps the others. *)
Theorem get_id_list_result (s : string) :
  _get_id_list s = Err ValueError
  \/ exists pre k,
       _get_id_list s = Ok (pre ++ [k])
       /\ length (pre ++ [k]) = length (PyStr.split_colons s)
       /\ incr_last (pre ++ [k]) = Ok (pre ++ [(k + 1)%Z]).
Proof.
  destruct (_get_id_list s) as [l|e] eqn:E.
  - right. unfold _get_id_list in E.
    pose proof (mapM_length _ _ _ E) as Hlen.
    assert (Hl : l <> []).
    { intros ->. pose proof (split_colons_nonempty s) as Hs.
      destruct (PyStr.split_colons s); [congruence | discriminate]. }
    destruct (nonempty_snoc l Hl) as (pre & k & ->).
    exists pre, k. split; [reflexivity|]. split; [exact Hlen|].
    apply incr_last_app.
  - left. unfold _get_id_list in E.
    destruct (mapM_error _ _ _ E) as (x & _ & Hx).
    now rewrite (int_of_str_error _ _ Hx).
Qed.

(* ================================================================== *)
(** * Further properties of the node accessors *)

Lemma class_of_color_id (n : node) (p : properties) :
  _get_node_properties n = Ok p ->
  _get_color_id n = match class_of_color (Fill_color p) with
                    | Some k => Ok k
                    | None => Err (unknown_color (Fill_color p))
                    end.
Proof.
  intros H. unfold _get_color_id, _get_node_color, class_of_color.
  rewrite H. cbn [bind].
  destruct (String.eqb (Fill_color p) "#D2D2D2"); [reflexivity|].
  destruct (String.eqb (Fill_color p) "#FFFFFF"); [reflexivity|].
  destruct (String.eqb (Fill_color p) "#FFCC00"); reflexivity.
Qed.

(** X4: colouring a node that has a style block, then reading it.  The
    colour read back is the colour written; the label, the font size, the
    identifier and the graph of the node are as before; and the colour
    class of the node is now that of the colour written, so that a node
    painted with a colour that is none of the three recognised ones can no
    longer be classified. *)
Theorem color_node_then_read (n : node) (c : string) (p : properties) :
  _get_node_properties n = Ok p ->
  exists n',
    _color_node n c = Ok n'
    /\ _get_node_color n' = Ok c
    /\ _get_node_name n' = _get_node_name n
    /\ _get_font_size n' = _get_font_size n
    /\ _get_node_id n' = _get_node_id n
    /\ node_graph n' = node_graph n
    /\ _get_color_id n' = match class_of_color c with
                          | Some k => Ok k
                          | None => Err (unknown_color c)
                          end.
Proof.
  intros Hp. destruct (color_node_spec n p c Hp) as (n' & Hc & Hid & Hg & Hp').
  exists n'. split; [exact Hc|].
  unfold _get_node_color, _get_node_name, _get_font_size, _get_node_id.
  rewrite (class_of_color_id _ _ Hp'). rewrite Hp', Hp. cbn [bind Fill_color
    NodeLabel_text NodeLabel_fontSize]. auto 8.
Qed.

Lemma color_node_then_read_witness :
  exists n',
    _color_node (Samples.group "n0" "A" "#D2D2D2" "12" (Many [])) "#c4ed9e" = Ok n'
    /\ _get_node_color n' = Ok "#c4ed9e"
    /\ _get_color_id n' = Err (unknown_color "#c4ed9e").
Proof.
  destruct (color_node_then_read
              (Samples.group "n0" "A" "#D2D2D2" "12" (Many [])) "#c4ed9e"
              (mkProperties "A" "12" "#D2D2D2") eq_refl)
    as (n' & H1 & H2 & _ & _ & _ & _ & H3).
  exists n'. auto.
Defined.

(** X5: setting the font size of a node that has a style block, then
    reading it.  The size read back is the size given, whatever the size
    was; the label, the colour, the colour class, the identifier and the
    graph of the node are as before. *)
Theorem resize_node_font_then_read (n : node) (z : Z) (p : properties) :
  _get_node_properties n = Ok p ->
  exists n',
    _resize_node_font n z = Ok n'
    /\ _get_font_size n' = Ok z
    /\ _get_node_name n' = _get_node_name n
    /\ _get_node_color n' = _get_node_color n
    /\ _get_color_id n' = _get_color_id n
    /\ _get_node_id n' = _get_node_id n
    /\ node_graph n' = node_graph n.
Proof.
  intros Hp. destruct (resize_node_font_spec n p z Hp) as (n' & Hc & Hid & Hg & Hp').
  exists n'. split; [exact Hc|].
  rewrite (class_of_color_id _ _ Hp'), (class_of_color_id _ _ Hp).
  unfold _get_node_color, _get_node_name, _get_font_size, _get_node_id.
  rewrite Hp', Hp. cbn [bind Fill_color NodeLabel_text NodeLabel_fontSize].
  rewrite PyStrFacts.int_of_str_of_int. auto 8.
Qed.

Lemma resize_node_font_then_read_witness :
  exists n',
    _resize_node_font (Samples.leaf "n0" "X" "#D2D2D2" "12") (-3) = Ok n'
    /\ _get_font_size n' = Ok (-3)%Z
    /\ _get_node_color n' = Ok "#D2D2D2".
Proof.
  destruct (resize_node_font_then_read
              (Samples.leaf "n0" "X" "#D2D2D2" "12") (-3)
              (mkProperties "X" "12" "#D2D2D2") eq_refl)
    as (n' & H1 & H2 & _ & H3 & _).
  exists n'. auto.
Defined.

(* ================================================================== *)
(** * Further properties of the Path Resolver *)

Lemma scan_nodes_index (l : list node) (key : string) :
  forall i0 i c, scan_nodes l key i0 = Ok (Some (i, c)) ->
                 exists j, i = i0 + j /\ nth_error l j = Some c
                           /\ _get_node_name c = Ok key.
Proof.
  induction l as [|a l IH]; intros i0 i c H; cbn [scan_nodes] in H; [discriminate|].
  destruct (_get_node_name a) as [s|] eqn:Ea; cbn [bind] in H; [|discriminate].
  destruct (String.eqb_spec s key) as [->|Hne].
  - injection H as <- <-. exists 0. rewrite Nat.add_0_r. auto.
  - destruct (IH _ _ _ H) as (j & -> & Hj & Hn).
    exists (S j). rewrite Nat.add_succ_r. auto.
Qed.

Lemma scan_nodes_miss (l : list node) (key : string) :
  forall i0,
    forallb (fun c => match _get_node_name c with
                      | Ok s => negb (String.eqb s key)
                      | Err _ => false
                      end) l = true ->
    scan_nodes l key i0 = Ok None.
Proof.
  induction l as [|a l IH]; intros i0 H; [reflexivity|].
  cbn [scan_nodes forallb] in *. apply andb_prop in H as [Ha Hl].
  destruct (_get_node_name a) as [s|]; [|discriminate]. cbn [bind].
  apply negb_true_iff in Ha. rewrite Ha. now apply IH.
Qed.

Lemma last_cons_default {A} (a : A) (l : list A) (d : A) :
  last (a :: l) d = last l a.
Proof.
  revert a d; induction l as [|b l IH]; intros a d; [reflexivity|].
  change (last (a :: b :: l) d) with (last (b :: l) d).
  now rewrite !IH.
Qed.

Lemma snoc_nonempty {A} (l : list A) (x : A) : l ++ [x] <> [].
Proof. destruct l; discriminate. Qed.

(** The invariant of the [while] loop of the resolver: [nodes] are the
    nodes of the graph of the node at [owner]; the variable [node], once
    bound, refers to a node of the tree below its root; and when [found] is
    set, the label of that node is the key of the iteration that set it. *)
Lemma names_loop_sound (root : node) (names : list string) :
  forall nodes owner bound found k0 q m,
    names_loop names nodes owner bound found = Ok (Some (q, m)) ->
    (exists mo g, get_at root owner = Some mo /\ node_graph mo = Some g
                  /\ graph_node g = Some nodes) ->
    (forall p nd, bound = Some (p, nd) -> get_at root p = Some nd /\ p <> []) ->
    (found = true -> forall p nd, bound = Some (p, nd) -> _get_node_name nd = Ok k0) ->
    get_at root q = Some m /\ q <> [] /\ _get_node_name m = Ok (last names k0).
Proof.
  induction names as [|key rest IH];
    intros nodes owner bound found k0 q m H Hown Hb Hf.
  - cbn [names_loop] in H. destruct found; [|discriminate].
    injection H as H. destruct (Hb _ _ H). cbn [last].
    pose proof (Hf eq_refl _ _ H). auto.
  - rewrite last_cons_default. cbn [names_loop] in H.
    destruct Hown as (mo & g & Hmo & Hg & Hnodes).
    pose proof (kids_siblings _ _ _ Hg Hnodes) as Hkids.
    destruct nodes as [n|l].
    + (* a single node *)
      destruct (_get_node_name n) as [cname|] eqn:En; cbn [bind] in H; [|discriminate].
      assert (Hn0 : get_at root (owner ++ [0]) = Some n).
      { rewrite get_at_app, Hmo. cbn [get_at]. now rewrite Hkids. }
      set (hit := String.eqb cname key) in *.
      set (bound' := if hit then Some (owner ++ [0], n) else bound) in *.
      assert (Hb' : forall p nd, bound' = Some (p, nd) ->
                                 get_at root p = Some nd /\ p <> []).
      { intros p nd E. unfold bound' in E. destruct hit; [|now apply Hb].
        injection E as <- <-. split; [exact Hn0 | apply snoc_nonempty]. }
      assert (Hf' : hit = true -> forall p nd, bound' = Some (p, nd) ->
                                               _get_node_name nd = Ok key).
      { intros Eh p nd E. unfold bound' in E. rewrite Eh in E.
        injection E as _ <-. unfold hit in Eh. apply String.eqb_eq in Eh.
        now rewrite En, Eh. }
      destruct bound' as [[p nd]|] eqn:Eb; [|discriminate].
      destruct (Hb' _ _ eq_refl) as [Hp Hpne].
      destruct (node_graph nd) as [g'|] eqn:Eg.
      * destruct (graph_node g') as [nodes'|] eqn:En';
          cbn [from_option bind] in H; [|discriminate].
        apply (IH _ _ _ _ key _ _ H); [now exists nd, g' | exact Hb' | exact Hf'].
      * apply (IH _ _ _ _ key _ _ H); [now exists mo, g | exact Hb' | exact Hf'].
    + (* a list of nodes *)
      destruct (scan_nodes l key 0) as [[[i cnode]|]|] eqn:Es;
        cbn [bind] in H; [| |discriminate].
      * destruct (scan_nodes_index _ _ _ _ _ Es) as (j & -> & Hj & Hname).
        cbn [Nat.add] in *.
        assert (Hc : get_at root (owner ++ [j]) = Some cnode).
        { rewrite get_at_app, Hmo. cbn [get_at]. rewrite Hkids. cbn [siblings_of].
          now rewrite Hj. }
        assert (Hb' : forall p nd, Some (owner ++ [j], cnode) = Some (p, nd) ->
                                   get_at root p = Some nd /\ p <> []).
        { intros p nd [= <- <-]. split; [exact Hc | apply snoc_nonempty]. }
        assert (Hf' : true = true -> forall p nd,
                        Some (owner ++ [j], cnode) = Some (p, nd) ->
                        _get_node_name nd = Ok key).
        { intros _ p nd [= _ <-]. exact Hname. }
        destruct (node_graph cnode) as [g'|] eqn:Eg.
        -- destruct (graph_node g') as [nodes'|] eqn:En';
             cbn [from_option bind] in H; [|discriminate].
           apply (IH _ _ _ _ key _ _ H); [now exists cnode, g' | exact Hb' | exact Hf'].
        -- apply (IH _ _ _ _ key _ _ H); [now exists mo, g | exact Hb' | exact Hf'].
      * apply (IH _ _ _ _ key _ _ H); [now exists mo, g | exact Hb | discriminate].
Qed.

Lemma resolver_sound (g : gdict) (names : list string) (q : path) (m : node) :
  names <> [] ->
  _get_node_from_names g names = Ok (Some (q, m)) ->
  get_at (gdict_root g) q = Some m /\ q <> []
  /\ _get_node_name m = Ok (last names EmptyString).
Proof.
  intros Hne H. unfold _get_node_from_names in H.
  unfold subscript_graph_node in H.
  destruct (node_graph (gdict_root g)) as [gr|] eqn:Eg;
    cbn [from_option bind] in H; [|discriminate].
  destruct (graph_node gr) as [nodes|] eqn:En; cbn [from_option bind] in H; [|discriminate].
  destruct names as [|k names]; [congruence|].
  apply (names_loop_sound (gdict_root g) _ _ _ _ _ EmptyString _ _ H).
  - now exists (gdict_root g), gr.
  - discriminate.
  - discriminate.
Qed.

(** X6: what the resolver returns for a non-empty list of names, on any
    document or element and whatever the names, is a node of the tree
    below its root, and the label of that node is the last of the names. *)
Theorem resolver_returns_last_name (g : gdict) (names : list string)
    (q : path) (m : node) :
  names <> [] ->
  _get_node_from_names g names = Ok (Some (q, m)) ->
  get_at (gdict_root g) q = Some m /\ q <> []
  /\ _get_node_name m = Ok (last names EmptyString).
Proof. apply resolver_sound. Qed.

Lemma resolver_returns_last_name_witness :
  exists q m,
    _get_node_from_names (Doc Samples.doc_AacC) ["C"; "x"; "s"] = Ok (Some (q, m))
    /\ get_at (graphml Samples.doc_AacC) q = Some m
    /\ _get_node_name m = Ok "s".
Proof.
  destruct (_get_node_from_names (Doc Samples.doc_AacC) ["C"; "x"; "s"])
    as [[[q m]|]|] eqn:E; try (vm_compute in E; discriminate).
  exists q, m. split; [reflexivity|].
  destruct (resolver_returns_last_name (Doc Samples.doc_AacC) ["C"; "x"; "s"] q m)
    as (H1 & _ & H2); [discriminate | exact E | auto].
Defined.

(** X7: on a well-formed document, the label path of a node resolves to
    that very node: the resolver finds every node of the document. *)
Theorem resolver_finds_every_node (d : document) (q : path) (n : node) :
  well_formed_b d = true -> q <> [] -> get_at (graphml d) q = Some n ->
  _get_node_from_names (Doc d) (labels_along (graphml d) q) = Ok (Some (q, n)).
Proof.
  intros Hw. apply resolver_complete. now apply well_formed_b_sound.
Qed.

Lemma resolver_finds_every_node_witness :
  _get_node_from_names (Doc Samples.doc_AacC) ["C"; "x"; "s"]
  = Ok (Some ([1; 0; 0], Samples.leaf "n1::n0::n0" "s" "#FFCC00" "10")).
Proof.
  apply (resolver_finds_every_node Samples.doc_AacC [1; 0; 0]
           (Samples.leaf "n1::n0::n0" "s" "#FFCC00" "10"));
    [reflexivity | discriminate | reflexivity].
Defined.

(** X8: on a well-formed document whose top-level nodes are a list, the
    resolver raises on no list of names at all, be they labels of the
    document or not. *)
Theorem resolver_never_raises_on_lists (d : document) (names : list string) :
  well_formed_b d = true -> top_level_list_b d = true ->
  exists r, _get_node_from_names (Doc d) names = Ok r.
Proof.
  intros Hw Ht.
  exact (well_formed_resolver_total d (well_formed_b_sound _ Hw)
           (top_level_list_b_sound _ Ht) names).
Qed.

Lemma resolver_never_raises_on_lists_witness :
  exists r, _get_node_from_names (Doc Samples.doc_AacC) ["no"; "such"; "label"] = Ok r.
Proof.
  apply (resolver_never_raises_on_lists Samples.doc_AacC); reflexivity.
Defined.

(** X9: when the top-level nodes of a document are a single node, not a
    list, every list of names whose first name is not the label of that
    node makes the resolver raise [UnboundLocalError]: the variable [node]
    is read (line 431) before anything was bound to it. *)
Theorem resolver_single_mismatch_unbound (g : gdict) (n : node)
    (label key : string) (names : list string) :
  subscript_graph_node (gdict_root g) = Ok (One n) ->
  _get_node_name n = Ok label -> label <> key ->
  _get_node_from_names g (key :: names) = Err UnboundLocalError.
Proof.
  intros Hn Hl Hk. unfold _get_node_from_names. rewrite Hn. cbn [bind names_loop].
  rewrite Hl. cbn [bind]. apply String.eqb_neq in Hk. now rewrite Hk.
Qed.

Lemma resolver_single_mismatch_unbound_witness :
  _get_node_from_names (Doc Samples.doc_X) ["Y"; "y"] = Err UnboundLocalError.
Proof.
  apply (resolver_single_mismatch_unbound (Doc Samples.doc_X)
           (Samples.leaf "n0" "X" "#D2D2D2" "12") "X" "Y" ["y"]);
    [reflexivity | reflexivity | discriminate].
Defined.

(** X10: a name that is the label of no top-level node is skipped, not
    reported: when the top-level nodes are a list of labelled nodes, the
    resolver answers for such a name followed by other names what it
    answers for the other names alone, and [None] when no name follows. *)
Theorem resolver_skips_unmatched_key (g : gdict) (l : list node)
    (key : string) (names : list string) :
  subscript_graph_node (gdict_root g) = Ok (Many l) ->
  forallb (fun c => match _get_node_name c with
                    | Ok s => negb (String.eqb s key)
                    | Err _ => false
                    end) l = true ->
  _get_node_from_names g (key :: names)
  = match names with
    | [] => Ok None
    | _ :: _ => _get_node_from_names g names
    end.
Proof.
  intros Hn Hall.
  unfold _get_node_from_names. rewrite Hn. cbn [bind names_loop].
  rewrite (scan_nodes_miss l key 0 Hall). cbn [bind].
  destruct names; reflexivity.
Qed.

Lemma resolver_skips_unmatched_key_witness :
  _get_node_from_names (Doc Samples.doc_AacC) ["Z"; "A"; "c"]
  = _get_node_from_names (Doc Samples.doc_AacC) ["A"; "c"]
  /\ exists r, _get_node_from_names (Doc Samples.doc_AacC) ["Z"; "A"; "c"] = Ok (Some r).
Proof.
  split.
  - apply (resolver_skips_unmatched_key (Doc Samples.doc_AacC)
             [Samples.group "n0" "A" "#D2D2D2" "12"
                (Many [Samples.leaf "n0::n0" "a" "#FFFFFF" "12";
                       Samples.leaf "n0::n1" "c" "#FFFFFF" "12"]);
              Samples.group "n1" "C" "#D2D2D2" "12"
                (One (Samples.group "n1::n0" "x" "#FFFFFF" "12"
                        (One (Samples.leaf "n1::n0::n0" "s" "#FFCC00" "10"))))]
             "Z" ["A"; "c"]); reflexivity.
  - eexists. vm_compute. reflexivity.
Defined.

(* ================================================================== *)
(** * What a traversal that returned has visited *)

Lemma nth_error_set_nth_other {A} (i j : nat) (x : A) (l : list A) :
  i <> j -> nth_error (set_nth i x l) j = nth_error l j.
Proof.
  revert i j; induction l as [|a l IH]; intros [|i] [|j] H; try reflexivity;
    [congruence|]. cbn [set_nth nth_error]. apply IH. congruence.
Qed.

Lemma apart_cons (i : nat) (r p : path) : apart (i :: r) (i :: p) -> apart r p.
Proof.
  intros [H1 H2]. split; intros [q Hq]; [apply H1 | apply H2];
    exists q; cbn [app]; now rewrite Hq.
Qed.

Lemma get_at_set_at_apart (r : path) :
  forall p s x, apart r p -> get_at (set_at s r x) p = get_at s p.
Proof.
  induction r as [|i r IH]; intros p s x Hap.
  - destruct Hap as [H _]. exfalso. apply H. now exists p.
  - destruct p as [|j p].
    + destruct Hap as [_ H]. exfalso. apply H. now exists (i :: r).
    + cbn [set_at]. destruct (nth_error (kids s) i) as [c|] eqn:Ei; [|reflexivity].
      cbn [get_at]. rewrite kids_set_kids by apply set_nth_length.
      destruct (Nat.eq_dec i j) as [<-|Hij].
      * rewrite (nth_error_set_nth _ _ _ _ Ei), Ei. apply IH.
        now apply (apart_cons i).
      * now rewrite (nth_error_set_nth_other _ _ _ _ Hij).
Qed.

Lemma is_prefix_snoc (b r : path) (i : nat) :
  is_prefix b (r ++ [i]) -> b = r ++ [i] \/ is_prefix b r.
Proof.
  intros [q Hq]. destruct q as [|x q'].
  - left. now rewrite app_nil_r in Hq.
  - right. destruct (nonempty_snoc (x :: q') (ltac:(discriminate))) as (q2 & j & E).
    rewrite E, app_assoc in Hq. apply app_inj_tail in Hq as [-> _].
    now exists q2.
Qed.

Lemma is_prefix_trans_snoc (r b : path) (i : nat) :
  is_prefix (r ++ [i]) b -> is_prefix r b.
Proof. intros [q ->]. exists ([i] ++ q). now rewrite app_assoc. Qed.

Lemma apart_child (r b : path) (i : nat) :
  apart r b -> apart (r ++ [i]) b.
Proof.
  intros [H1 H2]. split.
  - intros H. apply H1. now apply is_prefix_trans_snoc in H.
  - intros H. apply is_prefix_snoc in H as [->|H]; [|now apply H2].
    apply H1. now exists [i].
Qed.

Lemma apart_sym (a b : path) : apart a b -> apart b a.
Proof. intros [H1 H2]. now split. Qed.

Lemma apart_siblings (r : path) (i j : nat) : i <> j -> apart (r ++ [i]) (r ++ [j]).
Proof.
  intros Hij. split; intros [q Hq]; rewrite <- app_assoc in Hq;
    apply app_inv_head in Hq; cbn [app] in Hq; congruence.
Qed.

Lemma child_entry_inv (keys names : list string) (k : node) (e : ventry) :
  child_entry keys names k = Ok e ->
  named k /\ e = (keys ++ [id_of k], names ++ [label_of k], k).
Proof.
  unfold child_entry, subscript_id, named, id_of, label_of.
  destruct (node_id k) as [i|]; cbn [from_option bind]; [|discriminate].
  destruct (_get_node_name k) as [s|]; cbn [bind]; [|discriminate].
  intros [= <-]. split; [|reflexivity]. split; [discriminate | now exists s].
Qed.

Lemma mapM_child_entry_inv (keys names : list string) (l : list node) :
  forall es, mapM (child_entry keys names) l = Ok es ->
             Forall named l
             /\ es = map (fun k => (keys ++ [id_of k], names ++ [label_of k], k)) l.
Proof.
  induction l as [|k l IH]; intros es H; cbn [mapM] in H.
  - injection H as <-. split; [constructor | reflexivity].
  - destruct (child_entry keys names k) as [e|] eqn:Ee; cbn [bind] in H; [|discriminate].
    destruct (mapM (child_entry keys names) l) as [es'|]; cbn [bind] in H; [|discriminate].
    injection H as <-. destruct (child_entry_inv _ _ _ _ Ee) as [Hk ->].
    destruct (IH _ eq_refl) as [Hl ->]. split; [now constructor | reflexivity].
Qed.

(** The block that ends every loop body raises unless the node has a sound
    graph and every child an identifier and a label. *)
Lemma push_children_inv (keys names : list string) (n : node) (es : list ventry) :
  push_children keys names n = Ok es ->
  graph_ok n /\ Forall named (kids n)
  /\ es = map (fun k => (keys ++ [id_of k], names ++ [label_of k], k)) (kids n).
Proof.
  unfold push_children, graph_ok, kids, graph_nodes.
  destruct (node_graph n) as [g|] eqn:Eg.
  - destruct (graph_node g) as [[c|l]|] eqn:En; cbn [from_option bind]; [| |discriminate].
    + destruct (child_entry keys names c) as [e|] eqn:Ee; cbn [bind]; [|discriminate].
      intros [= <-]. destruct (child_entry_inv _ _ _ _ Ee) as [Hc ->].
      split; [intros g' [= <-]; congruence|].
      split; [constructor; [exact Hc | constructor] | reflexivity].
    + intros H. destruct (mapM_child_entry_inv _ _ _ _ H) as [Hl ->].
      split; [intros g' [= <-]; congruence|]. split; [assumption | reflexivity].
  - intros [= <-]. split; [discriminate|]. split; [constructor | reflexivity].
Qed.

Lemma push_children_ref_inv (keys names : list string) (r : path) (n : node)
    (pushed : list rentry) :
  push_children_ref keys names r n = Ok pushed ->
  graph_ok n /\ Forall named (kids n)
  /\ pushed = map fst (child_refs keys names r 0 (kids n)).
Proof.
  unfold push_children_ref.
  destruct (push_children keys names n) as [es|] eqn:E; cbn [bind]; [|discriminate].
  intros [= <-]. destruct (push_children_inv _ _ _ _ E) as (Hg & Hk & ->).
  split; [assumption|]. split; [assumption|]. apply enumerate_child_refs.
Qed.

Lemma in_child_refs (keys names : list string) (r : path) (ks : list node) :
  forall i0 c,
    In c (map fst (child_refs keys names r i0 ks)) <->
    exists j k, nth_error ks j = Some k
                /\ c = (keys ++ [id_of k], names ++ [label_of k], r ++ [i0 + j]).
Proof.
  induction ks as [|k ks IH]; intros i0 c; cbn [child_refs map In fst].
  - split; [contradiction|]. intros ([|j] & k & H & _); discriminate.
  - rewrite IH. split.
    + intros [<-|(j & k' & Hj & ->)].
      * exists 0, k. rewrite Nat.add_0_r. auto.
      * exists (S j), k'. rewrite Nat.add_succ_r. auto.
    + intros ([|j] & k' & Hj & ->).
      * injection Hj as <-. left. now rewrite Nat.add_0_r.
      * right. exists j, k'. rewrite Nat.add_succ_r. auto.
Qed.

Lemma child_refs_paths (keys names : list string) (r : path) (ks : list node) :
  forall i0,
    map snd (map fst (child_refs keys names r i0 ks))
    = map (fun j => r ++ [j]) (seq i0 (length ks)).
Proof.
  induction ks as [|k ks IH]; intros i0; [reflexivity|].
  cbn [child_refs map fst snd length seq]. now rewrite IH.
Qed.

(** A loop that pops one entry and pushes others keeps an invariant of the
    stack and the state together. *)
Lemma run_invariant_stack {E St : Type} (step : E -> St -> result (list E * St))
    (I : list E -> St -> Prop) :
  (forall e rest s pushed s',
      I (e :: rest) s -> step e s = Ok (pushed, s') -> I (rev pushed ++ rest) s') ->
  forall fuel stack s s', I stack s -> run step fuel stack s = Ok s' -> I [] s'.
Proof.
  intros Hstep. induction fuel as [|fuel IH]; intros stack s s' HI H.
  - destruct stack; [now injection H as <- | discriminate].
  - destruct stack as [|e rest]; [now injection H as <-|].
    cbn [run] in H. destruct (step e s) as [[pushed s1]|] eqn:Es; cbn [bind] in H;
      [|discriminate].
    apply (IH _ _ _ (Hstep _ _ _ _ _ HI Es) H).
Qed.

Section WalkConverse.
Variable visit : node -> result node.
Hypothesis visit_graph : forall n x, visit n = Ok x -> node_graph x = node_graph n.
Variable root0 : node.

  (** The node [c] at [p] went through the loop body without an error. *)
Let passed (p : path) (c : node) : Prop :=
    graph_ok c /\ (p <> [] -> named c /\ visitable visit c).

  (** The invariant: the entries of the stack refer to disjoint subtrees,
      which are as they were at the start; every node of the tree is in one
      of these subtrees or went through the loop body. *)
Let pending (stack : list rentry) (s : node) : Prop :=
    (forall e, In e stack ->
       exists n, get_at s (snd e) = Some n /\ get_at root0 (snd e) = Some n
                 /\ (snd e <> [] -> named n /\ nonempty (snd (fst e)) = true))
    /\ NoDup (map snd stack)
    /\ (forall a b, In a (map snd stack) -> In b (map snd stack) -> a <> b -> apart a b)
    /\ (forall p c, get_at root0 p = Some c ->
          (exists e, In e stack /\ is_prefix (snd e) p) \/ passed p c).

Lemma walk_step_pending (e : rentry) (rest : list rentry) (s : node)
      (pushed : list rentry) (s' : node) :
    pending (e :: rest) s -> walk_step visit e s = Ok (pushed, s') ->
    pending (rev pushed ++ rest) s'.
  Proof.
    intros (Hent & Hnd & Hap & Hcov) Hstep.
    destruct e as [[keys names] r]. unfold walk_step in Hstep.
    destruct (Hent _ (or_introl eq_refl)) as (n & Hs & H0 & Hr). cbn [fst snd] in *.
    unfold deref in Hstep. rewrite Hs in Hstep. cbn [from_option bind] in Hstep.
    destruct (if nonempty names then visit n else Ok n) as [n'|] eqn:Ev;
      cbn [bind] in Hstep; [|discriminate].
    destruct (push_children_ref keys names r n') as [pushed'|] eqn:Ep;
      cbn [bind] in Hstep; [|discriminate].
    injection Hstep as <- <-.
    destruct (push_children_ref_inv _ _ _ _ _ Ep) as (Hg' & Hk' & ->).
    assert (Hgr : node_graph n' = node_graph n).
    { destruct (nonempty names); [now apply visit_graph | now injection Ev as <-]. }
    pose proof (kids_same_graph _ _ Hgr) as Hkids. rewrite Hkids in *.
    assert (Hg : graph_ok n).
    { intros g Eg. apply Hg'. now rewrite Hgr. }
    inversion Hnd as [|? ? Hnotin Hnd']; subst.
    assert (Hrest_ap : forall b, In b (map snd rest) -> apart r b).
    { intros b Hb. apply Hap; [now left | now right |]. intros <-. contradiction. }
    assert (Hchild_in : forall c, In c (map fst (child_refs keys names r 0 (kids n))) ->
              exists j k, nth_error (kids n) j = Some k
                          /\ c = (keys ++ [id_of k], names ++ [label_of k], r ++ [j])).
    { intros c Hc. apply in_child_refs in Hc as (j & k & Hj & ->). now exists j, k. }
    split; [|split; [|split]].
    - (* the entries *)
      intros e He. apply in_app_or in He as [He|He].
      + apply In_rev in He. destruct (Hchild_in _ He) as (j & k & Hj & ->).
        cbn [fst snd]. exists k.
        split; [|split].
        * rewrite (get_at_below _ _ _ _ _ Hs). cbn [get_at]. now rewrite Hkids, Hj.
        * rewrite get_at_app, H0. cbn [get_at]. now rewrite Hj.
        * intros _. split.
          -- rewrite Forall_forall in Hk'. apply Hk'. eapply nth_error_In; eauto.
          -- destruct names; reflexivity.
      + destruct (Hent e (or_intror He)) as (m & Hm & Hm0 & Hmr).
        exists m. split; [|split; assumption].
        rewrite get_at_set_at_apart; [assumption|].
        apply Hrest_ap. now apply in_map.
    - (* no reference twice *)
      rewrite map_app, map_rev. apply NoDup_app.
      + apply NoDup_rev. rewrite child_refs_paths.
        apply NoDup_map_NoDup_ForallPairs; [|apply seq_NoDup].
        intros a b _ _ Hab. apply app_inv_head in Hab. congruence.
      + assumption.
      + intros a Ha Hb. apply In_rev in Ha. rewrite child_refs_paths in Ha.
        apply in_map_iff in Ha as (j & <- & _).
        destruct (Hrest_ap _ Hb) as [H1 _]. apply H1. now exists [j].
    - (* the references are apart *)
      intros a b Ha Hb Hab. rewrite map_app, map_rev in Ha, Hb.
      apply in_app_or in Ha as [Ha|Ha]; apply in_app_or in Hb as [Hb|Hb].
      + apply In_rev in Ha, Hb. rewrite child_refs_paths in Ha, Hb.
        apply in_map_iff in Ha as (i & <- & _). apply in_map_iff in Hb as (j & <- & _).
        apply apart_siblings. congruence.
      + apply In_rev in Ha. rewrite child_refs_paths in Ha.
        apply in_map_iff in Ha as (i & <- & _). now apply apart_child, Hrest_ap.
      + apply In_rev in Hb. rewrite child_refs_paths in Hb.
        apply in_map_iff in Hb as (j & <- & _).
        now apply apart_sym, apart_child, Hrest_ap.
      + apply Hap; [now right | now right | assumption].
    - (* every node is pending or passed *)
      intros p c Hc. destruct (Hcov p c Hc) as [(e & [<-|He] & Hpre)|Hdone].
      + cbn [snd] in Hpre. destruct Hpre as [q ->].
        destruct q as [|i q].
        * rewrite app_nil_r in *. rewrite H0 in Hc. injection Hc as <-.
          right. split; [assumption|]. intros Hne. destruct (Hr Hne) as [Hnm Hnn].
          split; [assumption|]. rewrite Hnn in Ev. exists n'. now split.
        * left. rewrite get_at_app, H0 in Hc. cbn [get_at] in Hc.
          destruct (nth_error (kids n) i) as [k|] eqn:Ei; [|discriminate].
          exists (keys ++ [id_of k], names ++ [label_of k], r ++ [i]). split.
          -- apply in_or_app. left. apply -> in_rev.
             apply in_child_refs. now exists i, k.
          -- cbn [snd]. exists q. now rewrite <- app_assoc.
      + left. exists e. split; [apply in_or_app; now right | assumption].
      + now right.
  Qed.

  (** A walk that returned has met every node of the tree, and raised on
      none: on the tree it was started on, every graph has nodes, every
      node below the root has an identifier and a label, and [visit]
      succeeds on it. *)
Lemma run_walk_passed (fuel : nat) (s' : node) :
    run (walk_step visit) fuel [(["graphml"], [], [])] root0 = Ok s' ->
    walkable visit root0.
  Proof.
    intros H.
    assert (Hinit : pending [(["graphml"], [], [])] root0).
    { split; [|split; [|split]].
      - intros e [<-|[]]. exists root0. cbn [snd]. repeat split; congruence.
      - repeat constructor. intros [].
      - intros a b [<-|[]] [<-|[]] Hab. congruence.
      - intros p c Hc. left. exists (["graphml"], [], []). split; [now left|].
        now exists p. }
    destruct (run_invariant_stack (walk_step visit) pending walk_step_pending
                fuel _ _ _ Hinit H) as (_ & _ & _ & Hcov).
    split.
    - intros p c Hc. destruct (Hcov p c Hc) as [(e & [] & _)|[Hg _]]. exact Hg.
    - intros p c Hp Hc. destruct (Hcov p c Hc) as [(e & [] & _)|[_ Hv]]. now apply Hv.
  Qed.
End WalkConverse.

Lemma walk_passed (visit : node -> result node) (g g' : document) :
  (forall n x, visit n = Ok x -> node_graph x = node_graph n) ->
  walk visit g = Ok g' ->
  walkable visit (graphml g)
  /\ g' = mkDocument (tmapn (walk_fn visit) [] (graphml g)).
Proof.
  intros Hv H.
  assert (Hw : walkable visit (graphml g)).
  { unfold walk in H.
    destruct (run (walk_step visit) (size (graphml g)) [(["graphml"], [], [])] (graphml g))
      as [r|] eqn:Er; [|discriminate].
    exact (run_walk_passed visit Hv (graphml g) _ _ Er). }
  split; [exact Hw|]. rewrite (walk_closed_form visit g Hw) in H. now injection H.
Qed.

(* ================================================================== *)
(** * Further properties of the two whole-document passes *)

Lemma recolor_visit_graph (color_list : list string) (n x : node) :
  recolor_visit color_list n = Ok x -> node_graph x = node_graph n.
Proof.
  unfold recolor_visit.
  destruct (_get_color_id n) as [cid|]; cbn [bind]; [|discriminate].
  destruct (index color_list cid) as [c|]; cbn [bind]; [|discriminate].
  intros H. now destruct (color_node_style _ _ _ H).
Qed.

Lemma resize_visit_graph (z : Z) (n x : node) :
  resize_visit z n = Ok x -> node_graph x = node_graph n.
Proof. intros H. now destruct (resize_node_font_style _ _ _ H). Qed.

Lemma class_of_color_bound (c : string) (cid : nat) :
  class_of_color c = Some cid -> cid < 3.
Proof.
  unfold class_of_color.
  destruct (String.eqb c "#D2D2D2"); [intros [= <-]; lia|].
  destruct (String.eqb c "#FFFFFF"); [intros [= <-]; lia|].
  destruct (String.eqb c "#FFCC00"); [intros [= <-]; lia | discriminate].
Qed.

(** What [recolor_visit] does to a node it does not raise on. *)
Lemma recolor_visit_inv (color_list : list string) (n x : node) :
  recolor_visit color_list n = Ok x ->
  exists pr cid c,
    _get_node_properties n = Ok pr
    /\ class_of_color (Fill_color pr) = Some cid
    /\ _get_color_id n = Ok cid
    /\ nth_error color_list cid = Some c
    /\ node_id x = node_id n
    /\ _get_node_properties x
       = Ok (mkProperties (NodeLabel_text pr) (NodeLabel_fontSize pr) c).
Proof.
  unfold recolor_visit, index. intros H.
  destruct (_get_color_id n) as [cid|] eqn:Ec; cbn [bind] in H; [|discriminate].
  destruct (nth_error color_list cid) as [c|] eqn:En; cbn [from_option bind] in H;
    [|discriminate].
  destruct (color_node_style _ _ _ H) as (_ & Hid & _ & pr & Hpr & Hx).
  exists pr, cid, c. rewrite (class_of_color_id _ _ Hpr) in Ec.
  destruct (class_of_color (Fill_color pr)) as [k|]; [|discriminate].
  injection Ec as ->. auto 10.
Qed.

Lemma recolorable_visit (color_list : list string) (n : node) :
  recolorable color_list n ->
  named n /\ visitable (recolor_visit color_list) n.
Proof.
  intros (Hid & pr & cid & c & Hpr & Hcl & Hnth). split.
  - split; [exact Hid|]. exists (NodeLabel_text pr). unfold _get_node_name.
    now rewrite Hpr.
  - destruct (color_node_spec n pr c Hpr) as (x & Hx & _ & Hg & _).
    exists x. split; [|exact Hg].
    unfold recolor_visit, index. rewrite (class_of_color_id _ _ Hpr), Hcl.
    cbn [bind]. rewrite Hnth. exact Hx.
Qed.

Lemma visit_recolorable (color_list : list string) (n : node) :
  named n -> visitable (recolor_visit color_list) n -> recolorable color_list n.
Proof.
  intros [Hid _] (x & Hx & _). split; [exact Hid|].
  destruct (recolor_visit_inv _ _ _ Hx) as (pr & cid & c & H1 & H2 & _ & H3 & _).
  now exists pr, cid, c.
Qed.

Lemma recolor_graph_returns_iff_aux (g : document) (color_list : list string) :
  (exists g', _recolor_graph g color_list = Ok g')
  <-> all_nodes graph_ok (graphml g)
      /\ all_below (recolorable color_list) (graphml g).
Proof.
  split.
  - intros [g' H].
    destruct (walk_passed _ _ _ (recolor_visit_graph color_list) H) as [[Hg Hb] _].
    split; [exact Hg|]. intros p c Hp Hc. destruct (Hb p c Hp Hc).
    now apply visit_recolorable.
  - intros [Hg Hb]. eexists. apply walk_closed_form. split; [exact Hg|].
    intros p c Hp Hc. apply recolorable_visit. exact (Hb p c Hp Hc).
Qed.

(** X11: [_recolor_graph] returns a document exactly when every graph of
    the document has nodes and every node below the root has an
    identifier, a style block and one of the three recognised fill
    colours, for the class of which the colour list has an entry.  On any
    other document it raises. *)
Theorem recolor_graph_returns_iff (g : document) (color_list : list string) :
  (exists g', _recolor_graph g color_list = Ok g')
  <-> all_nodes graph_ok (graphml g)
      /\ all_below (recolorable color_list) (graphml g).
Proof. apply recolor_graph_returns_iff_aux. Qed.

(** X12: what [_recolor_graph] returns, when it returns: a document with
    the nodes of the given one at the same places and no others; every node
    below the root has the colour the list gives for its colour class, and
    its label, font size and identifier are those of the given node; the
    top-level edges are those of the given document. *)
Theorem recolor_graph_result (g g' : document) (color_list : list string) :
  _recolor_graph g color_list = Ok g' ->
  (forall p n, p <> [] -> get_at (graphml g) p = Some n ->
     exists cid c,
       _get_color_id n = Ok cid /\ nth_error color_list cid = Some c
       /\ color_at g' p = Ok c
       /\ name_at g' p = _get_node_name n
       /\ font_size_at g' p = _get_font_size n
       /\ id_at g' p = Some (_get_node_id n))
  /\ (forall p, get_at (graphml g) p = None -> get_at (graphml g') p = None)
  /\ top_edges (graphml g') = top_edges (graphml g).
Proof.
  intros H.
  pose proof (walk_edges _ _ _ (recolor_visit_graph color_list) H) as He.
  destruct (walk_passed _ _ _ (recolor_visit_graph color_list) H) as [[Hg Hb] ->].
  split; [|split; [|exact He]].
  - intros p n Hp Hn. destruct (Hb p n Hp Hn) as [_ (x & Hx & _)].
    destruct (recolor_visit_inv _ _ _ Hx) as (pr & cid & c & Hpr & _ & Hcid & Hnth & Hid & Hpx).
    exists cid, c. split; [exact Hcid|]. split; [exact Hnth|].
    unfold color_at, name_at, font_size_at, id_at. cbn [graphml].
    rewrite (get_at_tmapn _ (style_only_recolor color_list)), Hn.
    cbn [option_map from_option bind app].
    unfold _get_node_color, _get_node_name, _get_font_size, _get_node_id.
    rewrite properties_tmapn, (id_tmapn _ (style_only_recolor color_list)).
    pose proof (nonempty_app_labels [] _ p n Hp Hn) as Hne. cbn [app] in Hne.
    unfold walk_fn. rewrite Hne, Hx.
    cbn [or_self]. rewrite Hpx, Hpr. cbn [bind Fill_color NodeLabel_text NodeLabel_fontSize].
    auto.
  - intros p Hn. cbn [graphml].
    now apply get_at_none_tmapn; [apply style_only_recolor|].
Qed.

Lemma recolor_graph_result_witness :
  exists g',
    _recolor_graph Samples.doc_AacC ["#111111"; "#222222"; "#333333"] = Ok g'
    /\ color_at g' [1; 0; 0] = Ok "#333333"
    /\ color_at g' [0] = Ok "#111111".
Proof.
  destruct (_recolor_graph Samples.doc_AacC ["#111111"; "#222222"; "#333333"])
    as [g'|] eqn:E; [|vm_compute in E; discriminate].
  exists g'. split; [reflexivity|].
  destruct (recolor_graph_result _ _ _ E) as (H & _ & _).
  split.
  - destruct (H [1; 0; 0] (Samples.leaf "n1::n0::n0" "s" "#FFCC00" "10"))
      as (cid & c & Hcid & Hnth & Hc & _); [discriminate | reflexivity |].
    vm_compute in Hcid. injection Hcid as <-. vm_compute in Hnth.
    injection Hnth as <-. exact Hc.
  - destruct (H [0] (Samples.group "n0" "A" "#D2D2D2" "12"
                       (Many [Samples.leaf "n0::n0" "a" "#FFFFFF" "12";
                              Samples.leaf "n0::n1" "c" "#FFFFFF" "12"])))
      as (cid & c & Hcid & Hnth & Hc & _); [discriminate | reflexivity |].
    vm_compute in Hcid. injection Hcid as <-. vm_compute in Hnth.
    injection Hnth as <-. exact Hc.
Defined.

(** ** The font pass *)

Lemma realizer_set_twice (r : one_or_many properties) (a b : properties) :
  realizer_set (realizer_set r a) b = realizer_set r b.
Proof. destruct r as [p|[|p l]]; reflexivity. Qed.

Lemma datum_set_twice (d : datum) (a b : properties) :
  datum_set (datum_set d a) b = datum_set d b.
Proof. destruct d; cbn [datum_set]; now rewrite ?realizer_set_twice. Qed.

Lemma is_realizer_set (d : datum) (a : properties) :
  is_realizer (datum_set d a) = is_realizer d.
Proof. now destruct d. Qed.

Lemma data_list_set_twice (l : list datum) (a b : properties) :
  data_list_set (data_list_set l a) b = data_list_set l b.
Proof.
  induction l as [|d l IH]; [reflexivity|]. cbn [data_list_set].
  destruct (existsb is_realizer l) eqn:E.
  - cbn [data_list_set].
    assert (E' : existsb is_realizer (data_list_set l a) = true).
    { clear IH. induction l as [|d' l IHl]; [discriminate|].
      cbn [data_list_set existsb] in *.
      destruct (existsb is_realizer l) eqn:El.
      - cbn [existsb]. rewrite (IHl eq_refl). apply orb_true_r.
      - cbn [existsb]. now rewrite is_realizer_set, El. }
    now rewrite E', IH.
  - cbn [data_list_set]. now rewrite E, datum_set_twice.
Qed.

Lemma set_node_properties_twice (n : node) (a b : properties) :
  set_node_properties (set_node_properties n a) b = set_node_properties n b.
Proof.
  unfold set_node_properties. destruct n as [i [[d|l]|] g]; cbn [node_data node_id node_graph].
  - now rewrite datum_set_twice.
  - now rewrite data_list_set_twice.
  - reflexivity.
Qed.

Lemma set_node_properties_set_kids (n : node) (p : properties) (l : list node) :
  set_node_properties (set_kids n l) p = set_kids (set_node_properties n p) l.
Proof.
  destruct n as [i d [[gi [[c|cs]|] ge]|]];
    unfold set_kids, set_node_properties; cbn [node_graph graph_node node_data node_id];
    destruct d as [[dd|dl]|]; reflexivity.
Qed.

Lemma resize_fn_set_kids (z : Z) (nm : list string) (n : node) (l : list node) :
  walk_fn (resize_visit z) nm (set_kids n l)
  = set_kids (walk_fn (resize_visit z) nm n) l.
Proof.
  unfold walk_fn, resize_visit, _resize_node_font.
  destruct (nonempty nm); [|reflexivity].
  rewrite properties_set_kids.
  destruct (_get_node_properties n) as [p|]; cbn [bind or_self]; [|reflexivity].
  apply set_node_properties_set_kids.
Qed.

Lemma resize_fn_twice (z z' : Z) (nm : list string) (n : node) :
  walk_fn (resize_visit z') nm (walk_fn (resize_visit z) nm n)
  = walk_fn (resize_visit z') nm n.
Proof.
  unfold walk_fn, resize_visit, _resize_node_font.
  destruct (nonempty nm); [|reflexivity].
  destruct (_get_node_properties n) as [p|] eqn:Ep; cbn [bind or_self].
  - rewrite (get_set_properties n p _ Ep). cbn [bind or_self NodeLabel_text Fill_color].
    apply set_node_properties_twice.
  - rewrite Ep. reflexivity.
Qed.

Lemma tmapn_resize_twice (z z' : Z) (m : nat) :
  forall n nm, size n < m ->
    tmapn (walk_fn (resize_visit z')) nm (tmapn (walk_fn (resize_visit z)) nm n)
    = tmapn (walk_fn (resize_visit z')) nm n.
Proof.
  induction m as [|m IH]; intros n nm Hm; [lia|].
  rewrite (tmapn_kids_eq (walk_fn (resize_visit z')) nm (tmapn _ nm n)).
  rewrite (kids_tmapn _ (style_only_resize z)).
  rewrite map_map.
  rewrite (tmapn_kids_eq (walk_fn (resize_visit z)) nm n) at 1.
  rewrite resize_fn_set_kids, resize_fn_twice.
  rewrite set_kids_twice.
  - rewrite (tmapn_kids_eq (walk_fn (resize_visit z')) nm n). f_equal.
    apply map_ext_in. intros c Hc.
    rewrite (label_tmapn _ (style_only_resize z)).
    apply IH. pose proof (size_in_kids _ _ Hc). lia.
  - rewrite length_map. f_equal. apply kids_same_graph.
    now destruct (style_only_resize z' nm n).
Qed.

Lemma resized_twice (z z' : Z) (g : document) :
  resized z' (resized z g) = resized z' g.
Proof.
  unfold resized. cbn [graphml]. f_equal.
  apply (tmapn_resize_twice z z' (S (size (graphml g)))). lia.
Qed.

Lemma resize_visit_propertied (z : Z) (n : node) :
  named n -> visitable (resize_visit z) n -> propertied n.
Proof.
  intros [Hid _] (x & Hx & _). split; [exact Hid|].
  destruct (resize_node_font_style _ _ _ Hx) as (_ & _ & _ & p & Hp & _).
  now exists p.
Qed.

(** X13: [_resize_fonts] returns exactly when every graph of the document
    has nodes and every node below the root has an identifier and a style
    block; the colours of the nodes play no part.  On any other document
    it raises. *)
Theorem resize_fonts_returns_iff (g : document) (z : Z) :
  (exists g', _resize_fonts g z = Ok g')
  <-> all_nodes graph_ok (graphml g) /\ all_below propertied (graphml g).
Proof.
  split.
  - intros [g' H].
    destruct (walk_passed _ _ _ (resize_visit_graph z) H) as [[Hg Hb] _].
    split; [exact Hg|]. intros p c Hp Hc. destruct (Hb p c Hp Hc).
    now apply (resize_visit_propertied z).
  - intros [Hg Hb]. eexists. now apply resize_fonts_closed_form.
Qed.

(** X14: what [_resize_fonts] leaves behind, when it returns: the nodes of
    the document are at the same places; every node below the root has the
    given font size, and its label, colour and identifier are as before;
    the top-level edges are as before.  A second pass overwrites the
    first: running the pass on the result with any size gives what running
    it on the original document with that size gives, and with the same
    size it changes nothing. *)
Theorem resize_fonts_result (g g' : document) (z : Z) :
  _resize_fonts g z = Ok g' ->
  (forall p n, p <> [] -> get_at (graphml g) p = Some n ->
     font_size_at g' p = Ok z
     /\ color_at g' p = _get_node_color n
     /\ name_at g' p = _get_node_name n
     /\ id_at g' p = Some (_get_node_id n))
  /\ (forall p, get_at (graphml g) p = None -> get_at (graphml g') p = None)
  /\ top_edges (graphml g') = top_edges (graphml g)
  /\ (forall z', _resize_fonts g' z' = _resize_fonts g z')
  /\ _resize_fonts g' z = Ok g'.
Proof.
  intros H.
  pose proof (walk_edges _ _ _ (resize_visit_graph z) H) as He.
  destruct (walk_passed _ _ _ (resize_visit_graph z) H) as [[Hg Hb] E].
  fold (resized z g) in E. subst g'.
  assert (Hprop : all_below propertied (graphml g)).
  { intros p c Hp Hc. destruct (Hb p c Hp Hc). now apply (resize_visit_propertied z). }
  assert (Hg' : all_nodes graph_ok (graphml (resized z g))).
  { unfold resized. cbn [graphml].
    apply (all_nodes_tmapn _ (style_only_resize z) graph_ok graph_ok); [|exact Hg].
    intros nm c. now apply graph_ok_tmapn, style_only_resize. }
  assert (Hprop' : all_below propertied (graphml (resized z g))).
  { unfold resized. cbn [graphml].
    apply (all_below_tmapn _ (style_only_resize z) propertied propertied); [|exact Hprop].
    intros nm c. now apply propertied_tmapn, style_only_resize. }
  assert (Htwice : forall z', _resize_fonts (resized z g) z' = _resize_fonts g z').
  { intros z'. rewrite (resize_fonts_closed_form _ z' Hg' Hprop').
    rewrite (resize_fonts_closed_form _ z' Hg Hprop). now rewrite resized_twice. }
  split; [|split; [|split; [exact He|split; [exact Htwice|]]]].
  - intros p n Hp Hn. destruct (Hprop p n Hp Hn) as [_ [pr Hpr]].
    destruct (resized_node z [] _ p n pr Hp Hn Hpr) as (m' & Hm' & Hid & Hpm').
    unfold font_size_at, color_at, name_at, id_at, resized. cbn [graphml].
    rewrite Hm'. cbn [from_option bind option_map].
    unfold _get_font_size, _get_node_color, _get_node_name, _get_node_id.
    rewrite Hpm', Hpr, Hid. cbn [bind NodeLabel_fontSize Fill_color NodeLabel_text].
    rewrite PyStrFacts.int_of_str_of_int. auto.
  - intros p Hn. unfold resized. cbn [graphml].
    now apply get_at_none_tmapn; [apply style_only_resize|].
  - rewrite Htwice. exact H.
Qed.

Lemma resize_fonts_result_witness :
  exists g',
    _resize_fonts Samples.doc_AacC 20 = Ok g'
    /\ font_size_at g' [1; 0; 0] = Ok 20%Z
    /\ _resize_fonts g' 20 = Ok g'.
Proof.
  destruct (_resize_fonts Samples.doc_AacC 20) as [g'|] eqn:E;
    [|vm_compute in E; discriminate].
  exists g'. split; [reflexivity|].
  destruct (resize_fonts_result _ _ _ E) as (H & _ & _ & _ & Hi).
  split; [|exact Hi].
  now destruct (H [1; 0; 0] (Samples.leaf "n1::n0::n0" "s" "#FFCC00" "10"))
    as (Hf & _); [discriminate | reflexivity |].
Defined.

(* ================================================================== *)
(** * Further properties of the Differ *)

Lemma pystr_eqb_refl (k : pystr) : pystr_eqb k k = true.
Proof. destruct k as [s|]; [apply String.eqb_refl | reflexivity]. Qed.

Lemma pystr_eqb_neq (a b : pystr) : a <> b -> pystr_eqb a b = false.
Proof. intros H. now destruct (pystr_eqb_spec a b). Qed.

Lemma dict_get_set_same (k v : pystr) (m : rename_map) :
  dict_get (dict_set k v m) k = Ok v.
Proof.
  induction m as [|[k0 v0] m IH]; cbn [dict_set dict_get].
  - now rewrite pystr_eqb_refl.
  - destruct (pystr_eqb k0 k) eqn:E; cbn [dict_get]; now rewrite E.
Qed.

Lemma dict_get_set_other (k v k' : pystr) (m : rename_map) :
  k' <> k -> dict_get (dict_set k v m) k' = dict_get m k'.
Proof.
  intros Hne. induction m as [|[k0 v0] m IH]; cbn [dict_set dict_get].
  - rewrite pystr_eqb_neq by congruence. reflexivity.
  - destruct (pystr_eqb_spec k0 k) as [->|Hk]; cbn [dict_get].
    + now rewrite pystr_eqb_neq by congruence.
    + destruct (pystr_eqb k0 k'); [reflexivity | exact IH].
Qed.

Lemma identity_map_set (k : pystr) (rm : rename_map) :
  identity_map rm -> identity_map (dict_set k k rm).
Proof.
  intros H k' v. destruct (pystr_eqb_spec k' k) as [->|Hne].
  - rewrite dict_get_set_same. congruence.
  - rewrite dict_get_set_other by assumption. apply H.
Qed.

Lemma push_children2_many (keys names dkeys dnames : list string) (p : path)
    (dn : node) (l : list node) :
  forall i pushed,
    mapM (fun inode_node : nat * node =>
            let '(inode, n) := inode_node in
            e <- child_entry keys names n ;;
            dnode <- subscript_dnode dn inode ;;
            did <- subscript_id dnode ;;
            dname <- _get_node_name dnode ;;
            Ok (e, (dkeys ++ [did], dnames ++ [dname], p ++ [inode])))
         (enumerate_from i l) = Ok pushed ->
    map (fun z : ventry * rentry => snd (fst z)) pushed = l.
Proof.
  induction l as [|n l IH]; intros i pushed H; cbn [enumerate_from mapM] in H.
  - now injection H as <-.
  - destruct (child_entry keys names n) as [e|] eqn:Ee; cbn [bind] in H; [|discriminate].
    destruct (subscript_dnode dn i) as [dnode|]; cbn [bind] in H; [|discriminate].
    destruct (subscript_id dnode) as [did|]; cbn [bind] in H; [|discriminate].
    destruct (_get_node_name dnode) as [dname|]; cbn [bind] in H; [|discriminate].
    match type of H with
    | bind ?r _ = _ => destruct r as [rest|] eqn:Er; cbn [bind] in H; [|discriminate]
    end.
    injection H as <-. cbn [map fst snd].
    destruct (child_entry_inv _ _ _ _ Ee) as [_ ->]. cbn [snd].
    f_equal. exact (IH _ _ Er).
Qed.

(** The entries pushed on the first stack of [_find_diff] hold the children
    of the node that was popped. *)
Lemma push_children2_nodes (keys names dkeys dnames : list string) (p : path)
    (cn dn : node) (pushed : list (ventry * rentry)) :
  push_children2 keys names cn dkeys dnames p dn = Ok pushed ->
  map (fun z : ventry * rentry => snd (fst z)) pushed = kids cn.
Proof.
  unfold push_children2, kids, graph_nodes.
  destruct (node_graph cn) as [g|]; [|now intros [= <-]].
  destruct (graph_node g) as [[c|l]|]; cbn [from_option bind]; [| |discriminate].
  - destruct (child_entry keys names c) as [e|] eqn:Ee; cbn [bind]; [|discriminate].
    destruct (subscript_graph_node dn) as [[dc|dl]|]; cbn [bind]; try discriminate.
    destruct (_get_node_name dc); cbn [bind]; [|discriminate].
    intros [= <-]. destruct (child_entry_inv _ _ _ _ Ee) as [_ ->]. reflexivity.
  - apply push_children2_many.
Qed.

Lemma find_diff_loop_rename_map (g2 : document) (colors : palette) (root : node)
    (fuel : nat) :
  forall ns ds dg rm dg' rm',
    find_diff_loop g2 colors fuel ns ds dg rm = Ok (dg', rm') ->
    identity_map rm ->
    (forall c, under root c ->
               (exists e, In e ns /\ under (snd e) c)
               \/ dict_get rm (_get_node_id c) = Ok (_get_node_id c)) ->
    identity_map rm'
    /\ forall c, under root c -> dict_get rm' (_get_node_id c) = Ok (_get_node_id c).
Proof.
  induction fuel as [|fuel IH]; intros [|e ns] ds dg rm dg' rm' H Hid Hcov;
    cbn [find_diff_loop] in H; try discriminate.
  - injection H as _ <-. split; [exact Hid|]. intros c Hc.
    destruct (Hcov c Hc) as [(e & [] & _)|Hr]. exact Hr.
  - injection H as _ <-. split; [exact Hid|]. intros c Hc.
    destruct (Hcov c Hc) as [(e & [] & _)|Hr]. exact Hr.
  - destruct ds as [|de ds]; [discriminate|].
    destruct (find_diff_body g2 colors e de dg rm) as [[[pushed dg1] rm1]|] eqn:Eb;
      cbn [bind] in H; [|discriminate].
    destruct e as [[keys names] cn], de as [[dkeys dnames] p].
    unfold find_diff_body in Eb.
    destruct (_get_node_from_names (Doc g2) names) as [r|]; cbn [bind] in Eb; [|discriminate].
    destruct (find_diff_paint colors names cn r p dg) as [dgp|]; cbn [bind] in Eb;
      [|discriminate].
    destruct (deref dgp p) as [cdn|]; cbn [bind] in Eb; [|discriminate].
    destruct (push_children2 keys names cn dkeys dnames p cdn) as [ps|] eqn:Ep;
      cbn [bind] in Eb; [|discriminate].
    injection Eb as <- <- <-.
    pose proof (push_children2_nodes _ _ _ _ _ _ _ _ Ep) as Hkids.
    apply (IH _ _ _ _ _ _ H); [now apply identity_map_set|].
    intros c Hc.
    destruct (pystr_eqb_spec (_get_node_id c) (_get_node_id cn)) as [E|Hne].
    { right. rewrite E. apply dict_get_set_same. }
    destruct (Hcov c Hc) as [(e & [<-|He] & Hu)|Hr].
    + left. cbn [snd] in Hu. destruct Hu as [[|i q] Hq].
      * injection Hq as <-. congruence.
      * cbn [get_at] in Hq. destruct (nth_error (kids cn) i) as [k|] eqn:Ei; [|discriminate].
        rewrite <- Hkids in Ei. apply nth_error_In in Ei.
        apply in_map_iff in Ei as (z & Hz & Hin).
        exists (fst z). split.
        -- apply in_or_app. left. apply -> in_rev. now apply in_map.
        -- exists q. now rewrite Hz.
    + left. exists e. split; [apply in_or_app; now right | exact Hu].
    + right. now rewrite dict_get_set_other.
Qed.

Lemma find_diff_rename_map (self : BNGGdiff) (g1 g2 : docref)
    (colors : palette) (self' : BNGGdiff) (dg : document) (rm : rename_map) :
  _find_diff self g1 g2 colors = Ok (self', dg, rm) ->
  identity_map rm
  /\ (forall p n, get_at (graphml (doc_of self g1)) p = Some n ->
                  dict_get rm (_get_node_id n) = Ok (_get_node_id n)).
Proof.
  intros H. unfold _find_diff in H. cbv zeta in H.
  match type of H with
  | bind ?r _ = _ => destruct r as [[dg0 rm0]|] eqn:El; cbn [bind] in H; [|discriminate]
  end.
  destruct (_recolor_graph (gdict_1 self) (pal_g1 self_colors)); cbn [bind] in H;
    [|discriminate].
  destruct (_recolor_graph (gdict_2 self) (pal_g2 self_colors)); cbn [bind] in H;
    [|discriminate].
  destruct (_resize_fonts (gdict_1 self) 20); cbn [bind] in H; [|discriminate].
  destruct (_resize_fonts (gdict_2 self) 20); cbn [bind] in H; [|discriminate].
  destruct (_resize_fonts (mkDocument dg0) 20); cbn [bind] in H; [|discriminate].
  injection H as _ _ <-.
  destruct (find_diff_loop_rename_map _ _ (graphml (doc_of self g1)) _ _ _ _ _ _ _ El)
    as [Hid Hcov].
  - intros k v Hk. discriminate.
  - intros c Hc. left. exists (["graphml"], [], graphml (doc_of self g1)).
    split; [now left | exact Hc].
  - split; [exact Hid|]. intros p n Hn. apply Hcov. now exists p.
Qed.

(** X15: the rename map [_find_diff] returns, whenever it returns, is the
    identity on the identifiers of the source document: every node of the
    source, the root included, has its identifier mapped to itself, and
    nothing is mapped to anything but itself. *)
Theorem find_diff_rename_map_identity (self : BNGGdiff) (g1 g2 : docref)
    (colors : palette) (self' : BNGGdiff) (dg : document) (rm : rename_map) :
  _find_diff self g1 g2 colors = Ok (self', dg, rm) ->
  (forall k v, dict_get rm k = Ok v -> v = k)
  /\ (forall p n, get_at (graphml (doc_of self g1)) p = Some n ->
                  dict_get rm (_get_node_id n) = Ok (_get_node_id n)).
Proof. apply find_diff_rename_map. Qed.

Lemma find_diff_rename_map_identity_witness :
  exists self' dg rm,
    _find_diff (Samples.engine Samples.doc_AabB Samples.doc_AacC "matrix")
      Gdict1 Gdict2 self_colors = Ok (self', dg, rm)
    /\ dict_get rm (Some "n0::n1") = Ok (Some "n0::n1").
Proof.
  destruct (_find_diff (Samples.engine Samples.doc_AabB Samples.doc_AacC "matrix")
              Gdict1 Gdict2 self_colors) as [[[self' dg] rm]|] eqn:E;
    [|vm_compute in E; discriminate].
  exists self', dg, rm. split; [reflexivity|].
  destruct (find_diff_rename_map_identity _ _ _ _ _ _ _ E) as [_ H].
  exact (H [0; 1] (Samples.leaf "n0::n1" "b" "#FFFFFF" "12") eq_refl).
Defined.

(** X16: [_find_diff] never touches an edge: whenever it returns, the
    top-level edges of the painted copy are those of the source, and the
    edges of the two documents of the engine are as they were. *)
Theorem find_diff_keeps_edges (self : BNGGdiff) (g1 g2 : docref) (colors : palette)
    (self' : BNGGdiff) (dg : document) (rm : rename_map) :
  _find_diff self g1 g2 colors = Ok (self', dg, rm) ->
  subscript_edges dg = subscript_edges (doc_of self g1)
  /\ subscript_edges (gdict_1 self') = subscript_edges (gdict_1 self)
  /\ subscript_edges (gdict_2 self') = subscript_edges (gdict_2 self).
Proof.
  intros H. destruct (find_diff_edges _ _ _ _ _ _ _ H) as [H1 H2].
  pose proof (H2 Gdict1) as Ha. pose proof (H2 Gdict2) as Hb. cbn [doc_of] in Ha, Hb.
  rewrite !subscript_edges_top, H1, Ha, Hb. auto.
Qed.

Lemma find_diff_keeps_edges_witness :
  exists self' dg rm,
    _find_diff (Samples.engine Samples.doc_AabB Samples.doc_AacC "matrix")
      Gdict1 Gdict2 self_colors = Ok (self', dg, rm)
    /\ subscript_edges dg = subscript_edges Samples.doc_AabB.
Proof.
  destruct (_find_diff (Samples.engine Samples.doc_AabB Samples.doc_AacC "matrix")
              Gdict1 Gdict2 self_colors) as [[[self' dg] rm]|] eqn:E;
    [|vm_compute in E; discriminate].
  exists self', dg, rm. split; [reflexivity|].
  now destruct (find_diff_keeps_edges _ _ _ _ _ _ _ E).
Defined.

Lemma recolorable_styled (color_list : list string) (n : node) :
  recolorable color_list n -> styled n.
Proof.
  intros (Hid & pr & cid & c & Hpr & Hcl & _). split; [exact Hid|].
  exists pr. split; [exact Hpr|]. unfold known_color. unfold class_of_color in Hcl.
  destruct (String.eqb_spec (Fill_color pr) "#D2D2D2"); [auto|].
  destruct (String.eqb_spec (Fill_color pr) "#FFFFFF"); [auto|].
  destruct (String.eqb_spec (Fill_color pr) "#FFCC00"); [auto | discriminate].
Qed.

(** [_find_diff] recolours the two documents of the engine, whichever the
    documents it was called on: it returns only if both can be. *)
Lemma find_diff_requires_styled (self : BNGGdiff) (g1 g2 : docref) (colors : palette)
    (r : BNGGdiff * document * rename_map) :
  _find_diff self g1 g2 colors = Ok r ->
  (all_nodes graph_ok (graphml (gdict_1 self)) /\ all_below styled (graphml (gdict_1 self)))
  /\ (all_nodes graph_ok (graphml (gdict_2 self))
      /\ all_below styled (graphml (gdict_2 self))).
Proof.
  intros H. unfold _find_diff in H. cbv zeta in H.
  match type of H with
  | bind ?x _ = _ => destruct x as [[dg0 rm0]|]; cbn [bind] in H; [|discriminate]
  end.
  destruct (_recolor_graph (gdict_1 self) (pal_g1 self_colors)) as [r1|] eqn:E1;
    cbn [bind] in H; [|discriminate].
  destruct (_recolor_graph (gdict_2 self) (pal_g2 self_colors)) as [r2|] eqn:E2;
    cbn [bind] in H; [|discriminate].
  split.
  - destruct (proj1 (recolor_graph_returns_iff_aux _ _) (ex_intro _ r1 E1)) as [Hg Hb].
    split; [exact Hg|]. intros p c Hp Hc. exact (recolorable_styled _ _ (Hb p c Hp Hc)).
  - destruct (proj1 (recolor_graph_returns_iff_aux _ _) (ex_intro _ r2 E2)) as [Hg Hb].
    split; [exact Hg|]. intros p c Hp Hc. exact (recolorable_styled _ _ (Hb p c Hp Hc)).
Qed.

(** X17: the engine returns only on styled documents and in one of its two
    modes.  Whenever [diff_graphs] returns, the mode is ["matrix"] or
    ["union"], every graph of the two documents of the engine has nodes,
    and every node below their roots has an identifier, a style block and
    one of the three recognised fill colours.  In any other mode it raises
    without looking at the documents. *)
Theorem diff_graphs_returns_only_if (self : BNGGdiff) (g1 g2 : docref)
    (colors : palette) :
  (forall self' graphs,
     diff_graphs self g1 g2 colors = Ok (self', graphs) ->
     (mode self = "matrix" \/ mode self = "union")
     /\ (all_nodes graph_ok (graphml (gdict_1 self))
         /\ all_below styled (graphml (gdict_1 self)))
     /\ (all_nodes graph_ok (graphml (gdict_2 self))
         /\ all_below styled (graphml (gdict_2 self))))
  /\ (mode self <> "matrix" -> mode self <> "union" ->
      diff_graphs self g1 g2 colors = Err (invalid_mode (mode self))).
Proof.
  split.
  - intros self' graphs H. unfold diff_graphs in H.
    destruct (String.eqb_spec (mode self) "matrix") as [Em|_].
    + destruct (_find_diff self g1 g2 colors) as [[[self1 dg] rm]|] eqn:Ef;
        cbn [bind] in H; [|discriminate].
      destruct (find_diff_requires_styled _ _ _ _ _ Ef) as [H1 H2]. auto.
    + destruct (String.eqb_spec (mode self) "union") as [Eu|_]; [|discriminate].
      unfold _find_diff_union in H.
      destruct (_find_diff self g1 g2 colors) as [[[self1 dg] rm]|] eqn:Ef;
        cbn [bind] in H; [|discriminate].
      destruct (find_diff_requires_styled _ _ _ _ _ Ef) as [H1 H2]. auto.
  - intros Hm Hu. unfold diff_graphs.
    apply String.eqb_neq in Hm, Hu. now rewrite Hm, Hu.
Qed.

Lemma diff_graphs_returns_only_if_witness :
  diff_graphs (Samples.engine Samples.doc_AabB Samples.doc_AacC "both")
    Gdict1 Gdict2 self_colors
  = Err (invalid_mode "both")
  /\ all_below styled (graphml Samples.doc_AabB).
Proof.
  split.
  - apply (diff_graphs_returns_only_if
             (Samples.engine Samples.doc_AabB Samples.doc_AacC "both")
             Gdict1 Gdict2 self_colors); discriminate.
  - destruct (diff_graphs (Samples.engine Samples.doc_AabB Samples.doc_AacC "union")
                Gdict1 Gdict2 self_colors) as [[self' graphs]|] eqn:E;
      [|vm_compute in E; discriminate].
    now destruct (proj1 (diff_graphs_returns_only_if
                           (Samples.engine Samples.doc_AabB Samples.doc_AacC "union")
                           Gdict1 Gdict2 self_colors) _ _ E) as (_ & [_ H] & _).
Defined.

(* ================================================================== *)
(** * What the Differ paints, on well-formed documents *)

(** A node whose label path does not resolve in the other document is
    painted from the source-only slot. *)
Lemma paint_fn_missing (g2 : document) (colors : palette) (names : list string)
    (n : node) :
  palette_ok colors -> styled n -> nonempty names = true ->
  _get_node_from_names (Doc g2) names = Ok None ->
  exists cid c pr,
    _get_node_properties n = Ok pr
    /\ _get_color_id n = Ok cid
    /\ nth_error (pal_g1 colors) cid = Some c
    /\ _get_node_properties (paint_fn g2 colors names n)
       = Ok (mkProperties (NodeLabel_text pr) (NodeLabel_fontSize pr) c).
Proof.
  intros (H1 & _ & _) Hst Hne Hr.
  destruct (paint_spec n (pal_g1 colors) Hst H1)
    as (x1 & cid1 & c1 & pr1 & Hpr1 & Hcid1 & Hnth1 & _ & Hp1 & _ & _ & Hx1).
  pose proof (named_label _ (styled_named _ Hst)) as Hn.
  unfold paint_fn. rewrite Hr. unfold find_diff_paint. rewrite Hne, Hn.
  cbn [bind]. unfold deref. cbn [get_at from_option bind].
  rewrite (named_has_data _ _ Hn), Hp1. cbn [set_at or_self].
  exists cid1, c1, pr1. auto.
Qed.

Lemma paint_fn_by_lookup (g2 : document) (colors : palette) (names : list string)
    (n : node) (r : option (path * node)) :
  palette_ok colors -> styled n -> nonempty names = true ->
  last names EmptyString = label_of n ->
  _get_node_from_names (Doc g2) names = Ok r ->
  exists cid c pr,
    _get_node_properties n = Ok pr
    /\ _get_color_id n = Ok cid
    /\ nth_error (match r with
                  | Some _ => pal_intersect colors
                  | None => pal_g1 colors
                  end) cid = Some c
    /\ _get_node_properties (paint_fn g2 colors names n)
       = Ok (mkProperties (NodeLabel_text pr) (NodeLabel_fontSize pr) c).
Proof.
  intros Hpal Hst Hne Hlast Hr. destruct r as [[q m]|].
  - destruct (resolver_sound (Doc g2) names q m) as (_ & _ & Hm);
      [destruct names; discriminate | exact Hr |].
    destruct (paint_fn_shared g2 colors names n q m Hpal Hst Hne Hr)
      as (cid & c & pr & H1 & H2 & H3 & _ & H4).
    { rewrite Hm, Hlast. symmetry. apply named_label. now apply styled_named. }
    exists cid, c, pr. auto.
  - now apply paint_fn_missing.
Qed.

(** X18: the Differ on well-formed documents, the top-level nodes of the
    other document being a list.  [_find_diff] returns; the painted copy
    has the nodes of the source at the same places and no others; a node
    below the root is painted with the intersect colour of its class when
    the resolver finds its label path in the other document, and with the
    source-only colour of its class when the resolver finds nothing; its
    label and identifier are kept and its font size is 20. *)
Theorem find_diff_paints_by_lookup (self : BNGGdiff) (g1 g2 : docref)
    (colors : palette) :
  well_formed_b (gdict_1 self) = true -> well_formed_b (gdict_2 self) = true ->
  top_level_list_b (doc_of self g2) = true ->
  palette_ok_b colors = true ->
  exists self' dg rm,
    _find_diff self g1 g2 colors = Ok (self', dg, rm)
    /\ (forall p n, p <> [] -> get_at (graphml (doc_of self g1)) p = Some n ->
          exists r cid c,
            _get_node_from_names (Doc (doc_of self g2))
              (labels_along (graphml (doc_of self g1)) p) = Ok r
            /\ _get_color_id n = Ok cid
            /\ nth_error (match r with
                          | Some _ => pal_intersect colors
                          | None => pal_g1 colors
                          end) cid = Some c
            /\ color_at dg p = Ok c
            /\ name_at dg p = _get_node_name n
            /\ font_size_at dg p = Ok 20%Z
            /\ id_at dg p = Some (_get_node_id n))
    /\ (forall p, get_at (graphml (doc_of self g1)) p = None ->
                  get_at (graphml dg) p = None).
Proof.
  intros Hw1b Hw2b Ht2b Hpalb.
  pose proof (well_formed_b_sound _ Hw1b) as Hw1.
  pose proof (well_formed_b_sound _ Hw2b) as Hw2.
  pose proof (top_level_list_b_sound _ Ht2b) as Ht2.
  pose proof (palette_ok_b_sound _ Hpalb) as Hpal.
  destruct (well_formed_basic _ Hw1) as [Hg1 Hs1].
  destruct (well_formed_basic _ Hw2) as [Hg2 Hs2].
  assert (Hwd1 : well_formed (doc_of self g1)) by (destruct g1; assumption).
  assert (Hwd2 : well_formed (doc_of self g2)) by (destruct g2; assumption).
  destruct (well_formed_basic _ Hwd1) as [Hgd Hsd].
  pose proof (well_formed_resolver_total _ Hwd2 Ht2) as Htot.
  destruct (find_diff_closed_form self g1 g2 colors Hpal Hg1 Hs1 Hg2 Hs2
              (total_resolves _ _ Htot)) as [rm Hrm].
  do 3 eexists. split; [exact Hrm|]. split.
  - intros p n Hp Hn.
    destruct (Htot (labels_along (graphml (doc_of self g1)) p)) as [r Hr].
    pose proof (nonempty_app_labels [] _ p n Hp Hn) as Hne. cbn [app] in Hne.
    destruct (paint_fn_by_lookup (doc_of self g2) colors _ n r Hpal (Hsd p n Hp Hn) Hne
                (labels_along_last p _ n Hp Hn) Hr)
      as (cid & c & pr & Hpr & Hcid & Hslot & Hpx).
    exists r, cid, c. split; [exact Hr|]. split; [exact Hcid|]. split; [exact Hslot|].
    unfold color_at, name_at, font_size_at, id_at, resized, painted. cbn [graphml].
    set (fp := paint_fn (doc_of self g2) colors) in *.
    assert (Hpn : get_at (tmapn fp [] (graphml (doc_of self g1))) p
                  = Some (tmapn fp (labels_along (graphml (doc_of self g1)) p) n)).
    { rewrite (get_at_tmapn fp (style_only_paint _ _)), Hn. reflexivity. }
    destruct (resized_node 20 [] _ p _
                (mkProperties (NodeLabel_text pr) (NodeLabel_fontSize pr) c) Hp Hpn)
      as (n' & Hn' & Hid' & Hpn').
    { now rewrite properties_tmapn. }
    rewrite Hn'. cbn [from_option bind option_map].
    unfold _get_node_color, _get_node_name, _get_font_size, _get_node_id.
    rewrite Hpn', Hpr, Hid', (id_tmapn fp (style_only_paint _ _)).
    cbn [bind Fill_color NodeLabel_text NodeLabel_fontSize]. auto.
  - intros p Hn. unfold resized, painted. cbn [graphml].
    apply get_at_none_tmapn; [apply style_only_resize|].
    now apply get_at_none_tmapn; [apply style_only_paint|].
Qed.

Lemma find_diff_paints_by_lookup_witness :
  exists self' dg rm,
    _find_diff (Samples.engine Samples.doc_AabB Samples.doc_AacC "matrix")
      Gdict1 Gdict2 self_colors = Ok (self', dg, rm)
    /\ color_at dg [0; 0] = Ok "#d9f4be"
    /\ color_at dg [0; 1] = Ok "#e6e7fe".
Proof.
  destruct (find_diff_paints_by_lookup
              (Samples.engine Samples.doc_AabB Samples.doc_AacC "matrix")
              Gdict1 Gdict2 self_colors)
    as (self' & dg & rm & H & Hp & _); try reflexivity.
  exists self', dg, rm. split; [exact H|]. split.
  - destruct (Hp [0; 0] (Samples.leaf "n0::n0" "a" "#FFFFFF" "12"))
      as (r & cid & c & Hr & Hcid & Hnth & Hc & _); [discriminate | reflexivity |].
    vm_compute in Hr. injection Hr as <-. vm_compute in Hcid. injection Hcid as <-.
    vm_compute in Hnth. injection Hnth as <-. exact Hc.
  - destruct (Hp [0; 1] (Samples.leaf "n0::n1" "b" "#FFFFFF" "12"))
      as (r & cid & c & Hr & Hcid & Hnth & Hc & _); [discriminate | reflexivity |].
    vm_compute in Hr. injection Hr as <-. vm_compute in Hcid. injection Hcid as <-.
    vm_compute in Hnth. injection Hnth as <-. exact Hc.
Defined.

(* ================================================================== *)
(** * Properties of the key-list resolver *)

(** X19: on a document whose top-level nodes are a single node, not a
    list, the key-list resolver raises [UnboundLocalError] for every key
    list of two keys or more, the identifier of that node included: the
    branch for a single node reads the loop variable [cnode] of a loop that
    never ran. *)
Theorem keylist_single_node_unbound (g : document) (n : node)
    (key : string) (rest : list string) :
  subscript_graph_node (graphml g) = Ok (One n) ->
  _get_node_from_keylist g ("graphml" :: key :: rest) = Err UnboundLocalError.
Proof.
  unfold subscript_graph_node, _get_node_from_keylist.
  cbn [String.eqb Ascii.eqb Bool.eqb].
  destruct (node_graph (graphml g)) as [gr|]; cbn [from_option bind]; [|discriminate].
  destruct (graph_node gr) as [[c|l]|]; cbn [from_option bind]; try discriminate.
  reflexivity.
Qed.

Lemma keylist_single_node_unbound_witness :
  _get_node_from_keylist Samples.doc_X ["graphml"; "n0"] = Err UnboundLocalError.
Proof.
  apply (keylist_single_node_unbound Samples.doc_X
           (Samples.leaf "n0" "X" "#D2D2D2" "12")).
  reflexivity.
Defined.

Lemma keyed_tree_unfold (n : node) :
  keyed_tree_b n = keyed_b n && forallb keyed_tree_b (kids n).
Proof.
  destruct n as [i d [[gi [[c|l]|] ge]|]]; cbn [keyed_tree_b]; try reflexivity;
    unfold kids, graph_nodes; cbn [node_graph graph_node forallb];
    try (now rewrite andb_true_r).
Qed.

Lemma keylist_scan_nomatch (key : string) (owner : path) (l : list node) :
  forall i st,
    Forall (fun k => node_id k <> None) l ->
    ~ In key (map id_of l) ->
    exists cn,
      keylist_scan l key owner i st
      = Ok (mkKeylistState (ks_found st) (ks_node st) (ks_nodes st) (ks_owner st) cn)
      /\ (l = [] -> cn = ks_cnode st).
Proof.
  induction l as [|c l IH]; intros i st Hid Hk.
  - exists (ks_cnode st). split; [now destruct st | reflexivity].
  - inversion Hid as [|? ? Hc Hl]; subst. cbn [keylist_scan].
    unfold subscript_id. destruct (node_id c) as [ci|] eqn:Ec; [|congruence].
    cbn [from_option bind].
    assert (Hne : String.eqb ci key = false).
    { apply String.eqb_neq. intros ->. apply Hk. left. unfold id_of. now rewrite Ec. }
    rewrite Hne.
    destruct (IH (S i)
                (mkKeylistState (ks_found st) (ks_node st) (ks_nodes st) (ks_owner st)
                   (Some (owner ++ [i], c))) Hl) as (cn & Hcn & _).
    { intros H. apply Hk. now right. }
    exists cn. split; [exact Hcn | discriminate].
Qed.

(** The [for] loop on a list with distinct identifiers: the node whose
    identifier is the key is found, and [nodes] is rebound to its nodes
    when it has any. *)
Lemma keylist_scan_found (owner : path) (l : list node) :
  forall i0 j k st,
    Forall (fun c => node_id c <> None) l ->
    NoDup (map id_of l) ->
    nth_error l j = Some k ->
    exists cn,
      keylist_scan l (id_of k) owner i0 st
      = Ok (match subscript_graph_node k with
            | Ok nodes' =>
                mkKeylistState true (Some (owner ++ [i0 + j], k)) nodes'
                  (owner ++ [i0 + j]) cn
            | Err _ =>
                mkKeylistState true (Some (owner ++ [i0 + j], k)) (ks_nodes st)
                  (ks_owner st) cn
            end).
Proof.
  induction l as [|c l IH]; intros i0 j k st Hid Hnd Hj; [destruct j; discriminate|].
  inversion Hid as [|? ? Hc Hl]; subst.
  cbn [map] in Hnd. inversion Hnd as [|? ? Hnotin Hnd']; subst.
  destruct j as [|j].
  - injection Hj as ->. cbn [keylist_scan]. unfold subscript_id.
    destruct (node_id k) as [ki|] eqn:Ek; [|congruence]. cbn [from_option bind].
    unfold id_of at 1. rewrite Ek, String.eqb_refl, Nat.add_0_r.
    destruct (subscript_graph_node k) as [nodes'|] eqn:Eg.
    + destruct (keylist_scan_nomatch (id_of k) owner l (S i0)
                  (mkKeylistState true (Some (owner ++ [i0], k)) nodes' (owner ++ [i0])
                     (Some (owner ++ [i0], k))) Hl Hnotin) as (cn & Hcn & _).
      exists cn. exact Hcn.
    + eexists. reflexivity.
  - cbn [nth_error] in Hj. cbn [keylist_scan]. unfold subscript_id.
    destruct (node_id c) as [ci|] eqn:Ec; [|congruence]. cbn [from_option bind].
    assert (Hne : String.eqb ci (id_of k) = false).
    { apply String.eqb_neq. intros E. apply Hnotin.
      replace (id_of c) with (id_of k) by (unfold id_of at 2; now rewrite Ec).
      apply in_map. eapply nth_error_In; eauto. }
    rewrite Hne. rewrite Nat.add_succ_r.
    destruct (IH (S i0) j k
                (mkKeylistState (ks_found st) (ks_node st) (ks_nodes st) (ks_owner st)
                   (Some (owner ++ [i0], c))) Hl Hnd' Hj) as (cn & Hcn).
    exists cn. rewrite Hcn. cbn [Nat.add ks_nodes ks_owner]. reflexivity.
Qed.

Lemma keyed_b_sound (n : node) :
  keyed_b n = true ->
  (forall g c, node_graph n = Some g -> graph_node g <> Some (One c))
  /\ Forall (fun k => node_id k <> None) (kids n)
  /\ NoDup (map id_of (kids n)).
Proof.
  unfold keyed_b. intros [[H1 H2]%andb_prop H3]%andb_prop.
  split; [|split].
  - intros g c Eg En. rewrite Eg, En in H1. discriminate.
  - rewrite Forall_forall. rewrite forallb_forall in H2. intros k Hk.
    specialize (H2 k Hk). destruct (node_id k); [discriminate | discriminate].
  - now apply nodup_b_sound.
Qed.

Lemma keyed_kids_list (n : node) (i : nat) (k : node) :
  keyed_b n = true -> nth_error (kids n) i = Some k ->
  subscript_graph_node n = Ok (Many (kids n)).
Proof.
  intros Hk Hi. destruct (keyed_b_sound _ Hk) as (Hl & _ & _).
  unfold subscript_graph_node, kids, graph_nodes in *.
  destruct (node_graph n) as [g|]; [|destruct i; discriminate].
  cbn [from_option bind].
  destruct (graph_node g) as [[c|l]|] eqn:En; [| reflexivity | destruct i; discriminate].
  now destruct (Hl g c eq_refl).
Qed.

Lemma keylist_loop_complete (q : path) :
  forall m n owner bound cnode,
    q <> [] -> keyed_tree_b m = true -> get_at m q = Some n ->
    keylist_loop (ids_along m q) (Many (kids m)) owner bound cnode
    = Ok (Some (owner ++ q, n)).
Proof.
  induction q as [|i q IH]; intros m n owner bound cnode Hq Hm Hn; [congruence|].
  cbn [get_at ids_along] in *.
  destruct (nth_error (kids m) i) as [k|] eqn:Ei; [|discriminate].
  rewrite keyed_tree_unfold in Hm. apply andb_prop in Hm as [Hkm Hall].
  destruct (keyed_b_sound _ Hkm) as (_ & Hids & Hnd).
  rewrite forallb_forall in Hall. pose proof (Hall k (nth_error_In _ _ Ei)) as Hk.
  cbn [keylist_loop].
  destruct (keylist_scan_found owner (kids m) 0 i k
              (mkKeylistState false bound (Many (kids m)) owner cnode) Hids Hnd Ei)
    as (cn & Hscan).
  rewrite Hscan. cbn [Nat.add].
  destruct q as [|j q'].
  - cbn [get_at] in Hn. injection Hn as <-. cbn [ids_along].
    destruct (subscript_graph_node k); reflexivity.
  - pose proof Hk as Hk'. rewrite keyed_tree_unfold in Hk'.
    apply andb_prop in Hk' as [Hkk _].
    assert (Ej : exists c, nth_error (kids k) j = Some c).
    { cbn [get_at] in Hn. destruct (nth_error (kids k) j) as [c|]; [now exists c | discriminate]. }
    destruct Ej as [c Ej].
    rewrite (keyed_kids_list k j c Hkk Ej). cbn [bind ks_found ks_nodes ks_owner ks_node ks_cnode].
    rewrite (IH k n (owner ++ [i]) _ _ (ltac:(discriminate)) Hk Hn).
    now rewrite <- app_assoc.
Qed.

(** X20: on a document in which the nodes of every graph are a list of
    nodes with distinct identifiers, the key list of a node, that is
    ["graphml"] followed by the identifiers met on the way down to it,
    resolves to that very node. *)
Theorem keylist_finds_every_node (g : document) (p : path) (n : node) :
  keyed_tree_b (graphml g) = true ->
  get_at (graphml g) p = Some n ->
  _get_node_from_keylist g ("graphml" :: ids_along (graphml g) p) = Ok (Some (p, n)).
Proof.
  intros Hk Hn. unfold _get_node_from_keylist. cbn [String.eqb Ascii.eqb Bool.eqb].
  destruct p as [|i q].
  - cbn [ids_along get_at] in *. now injection Hn as <-.
  - assert (Ei : exists c, nth_error (kids (graphml g)) i = Some c).
    { cbn [get_at] in Hn. destruct (nth_error (kids (graphml g)) i) as [c|];
        [now exists c | discriminate]. }
    destruct Ei as [c Ei].
    pose proof Hk as Hk'. rewrite keyed_tree_unfold in Hk'.
    apply andb_prop in Hk' as [Hkr _].
    pose proof (keyed_kids_list _ _ _ Hkr Ei) as Hnodes.
    unfold subscript_graph_node in Hnodes.
    destruct (ids_along (graphml g) (i :: q)) as [|key ks] eqn:Eids.
    { cbn [ids_along] in Eids. rewrite Ei in Eids. discriminate. }
    destruct (node_graph (graphml g)) as [gr|]; cbn [from_option bind] in Hnodes;
      [|discriminate].
    destruct (graph_node gr) as [nodes|]; cbn [from_option bind] in Hnodes; [|discriminate].
    injection Hnodes as ->. cbn [from_option bind].
    rewrite <- Eids.
    exact (keylist_loop_complete (i :: q) _ n [] None None (ltac:(discriminate)) Hk Hn).
Qed.

Lemma keylist_finds_every_node_witness :
  _get_node_from_keylist Samples.doc_AabB ["graphml"; "n0"; "n0::n1"]
  = Ok (Some ([0; 1], Samples.leaf "n0::n1" "b" "#FFFFFF" "12")).
Proof.
  apply (keylist_finds_every_node Samples.doc_AabB [0; 1]
           (Samples.leaf "n0::n1" "b" "#FFFFFF" "12")); reflexivity.
Defined.

(* ================================================================== *)
(** * The Merger on a document and itself *)

Lemma dict_set_noop (k v : pystr) (rm : rename_map) :
  dict_get rm k = Ok v -> dict_set k v rm = rm.
Proof.
  induction rm as [|[k0 v0] rm IH]; cbn [dict_get dict_set]; [discriminate|].
  destruct (pystr_eqb k0 k); [now intros [= ->] | intros H; now rewrite IH].
Qed.

Lemma list_sum_rev (l : list nat) : list_sum (rev l) = list_sum l.
Proof.
  induction l as [|a l IH]; [reflexivity|].
  cbn [rev]. rewrite list_sum_app, IH. simpl. lia.
Qed.

(** A loop whose body leaves the state alone on every entry it meets runs
    through a tree in as many iterations as the tree has nodes. *)
Section ConstantWalk.
Variables E St : Type.
Variable step : E -> St -> result (list E * St).
Variable s : St.
Variable nd : E -> node.
Variable fine : E -> Prop.
Hypothesis step_constant : forall e, fine e ->
    exists pushed, step e s = Ok (pushed, s)
                   /\ map nd pushed = kids (nd e) /\ Forall fine pushed.

Lemma run_constant_bounded (m : nat) :
    forall e, size (nd e) < m -> fine e ->
    forall rest fuel,
      run step (size (nd e) + fuel) (e :: rest) s = run step fuel rest s.
  Proof.
    induction m as [|m IH]; intros e Hm He rest fuel; [lia|].
    destruct (step_constant e He) as (pushed & Hstep & Hkids & Hfine).
    rewrite (size_kids (nd e)). cbn [plus run]. rewrite Hstep. cbn [bind].
    rewrite <- Hkids, <- list_sum_rev, <- map_rev, <- map_rev.
    assert (Hall : Forall (fun x => fine x /\ size (nd x) < m) (rev pushed)).
    { rewrite Forall_forall in *. intros x Hx%in_rev. split; [now apply Hfine|].
      assert (Hin : In (nd x) (kids (nd e))) by (rewrite <- Hkids; now apply in_map).
      pose proof (size_in_kids _ _ Hin). lia. }
    induction (rev pushed) as [|x es IHes]; [reflexivity|].
    inversion Hall as [|? ? [Hx Hsz] Hes]; subst.
    change (list_sum (map size (map nd (x :: es))))
      with (size (nd x) + list_sum (map size (map nd es))).
    cbn [app].
    rewrite <- Nat.add_assoc, (IH x Hsz Hx). now apply IHes.
  Qed.
End ConstantWalk.

Lemma labels_along_snoc (p : path) :
  forall t n i k, get_at t p = Some n -> nth_error (kids n) i = Some k ->
                  labels_along t (p ++ [i]) = labels_along t p ++ [label_of k].
Proof.
  induction p as [|j p IH]; intros t n i k Hn Hi; cbn [get_at app labels_along] in *.
  - injection Hn as <-. now rewrite Hi.
  - destruct (nth_error (kids t) j) as [c|]; [|discriminate].
    cbn [app]. f_equal. now apply (IH c n).
Qed.

Lemma get_at_snoc (p : path) (t n : node) (i : nat) :
  get_at t p = Some n -> get_at t (p ++ [i]) = nth_error (kids n) i.
Proof.
  intros H. rewrite get_at_app, H. cbn [get_at].
  now destruct (nth_error (kids n) i).
Qed.

(** One iteration of the loop over the second document on a node that the
    resolver finds in the first, the rename map holding its identifier
    already: nothing changes. *)
Lemma union_step_known (g1 : document) (colors : palette) (dg : document)
    (rm : rename_map) (keys names : list string) (cn : node) (q : path) (dn : node) :
  _get_node_from_names (Doc g1) names = Ok (Some (q, dn)) ->
  (nonempty names = true ->
   dict_get rm (_get_node_id cn) = Ok (_get_node_id dn)) ->
  graph_ok cn -> Forall named (kids cn) ->
  union_step g1 colors (keys, names, cn) (dg, rm)
  = Ok (map (fun k => (keys ++ [id_of k], names ++ [label_of k], k)) (kids cn),
        (dg, rm)).
Proof.
  intros Hl Hrm Hg Hk. unfold union_step. rewrite Hl. cbn [bind].
  rewrite (push_children_named keys names cn Hg Hk).
  destruct (nonempty names).
  - rewrite (dict_set_noop _ _ _ (Hrm eq_refl)). reflexivity.
  - reflexivity.
Qed.

Lemma union_run_self (g : document) (colors : palette) (dg : document)
    (rm : rename_map) :
  well_formed g ->
  (forall p n, get_at (graphml g) p = Some n ->
               dict_get rm (_get_node_id n) = Ok (_get_node_id n)) ->
  run (union_step g colors) (size (graphml g))
      [(["graphml"], [], graphml g)] (dg, rm) = Ok (dg, rm).
Proof.
  intros Hw Hrm.
  pose proof Hw as (Hroot & Hgok & Hst & _).
  pose (fine := fun e : ventry =>
                  exists p, get_at (graphml g) p = Some (snd e)
                            /\ snd (fst e) = labels_along (graphml g) p).
  assert (Hstep : forall e, fine e ->
            exists pushed, union_step g colors e (dg, rm) = Ok (pushed, (dg, rm))
                           /\ map (fun x : ventry => snd x) pushed = kids (snd e)
                           /\ Forall fine pushed).
  { intros [[keys names] cn] (p & Hp & Hnames). cbn [fst snd] in *. subst names.
    assert (Hkids : Forall named (kids cn)).
    { rewrite Forall_forall. intros k [i Hi]%In_nth_error.
      apply styled_named, (Hst (p ++ [i]) k); [apply snoc_nonempty|].
      now rewrite (get_at_snoc _ _ _ _ Hp). }
    assert (Hl : exists q dn,
               _get_node_from_names (Doc g) (labels_along (graphml g) p)
               = Ok (Some (q, dn))
               /\ (nonempty (labels_along (graphml g) p) = true -> dn = cn)).
    { destruct p as [|i p'].
      - cbn [labels_along]. exists [], (graphml g). split; [|discriminate].
        unfold _get_node_from_names, subscript_graph_node. cbn [gdict_root].
        destruct (node_graph (graphml g)) as [gr|] eqn:Eg; [|congruence].
        pose proof (Hgok [] (graphml g) eq_refl gr Eg) as Hgn.
        cbn [from_option bind].
        destruct (graph_node gr); [|congruence]. reflexivity.
      - exists (i :: p'), cn. split; [|reflexivity].
        apply resolver_complete; [assumption | discriminate | assumption]. }
    destruct Hl as (q & dn & Hl & Hdn).
    eexists. split; [|split].
    - apply (union_step_known g colors dg rm keys _ cn q dn Hl).
      + intros Hne. rewrite (Hdn Hne). now apply (Hrm p).
      + exact (Hgok p cn Hp).
      + exact Hkids.
    - rewrite map_map. cbn [snd]. apply map_id.
    - rewrite Forall_forall. intros e [k [<- Hk]]%in_map_iff.
      apply In_nth_error in Hk as [i Hi].
      exists (p ++ [i]). cbn [fst snd]. split.
      + now rewrite (get_at_snoc _ _ _ _ Hp).
      + symmetry. now apply (labels_along_snoc p _ cn). }
  pose proof (run_constant_bounded _ _ (union_step g colors) (dg, rm)
                (fun x : ventry => snd x) fine Hstep (S (size (graphml g)))
                (["graphml"], [], graphml g)) as Hrun.
  cbn [snd] in Hrun. specialize (Hrun (Nat.lt_succ_diag_r _)).
  rewrite <- (Nat.add_0_r (size (graphml g))).
  rewrite Hrun; [reflexivity|]. now exists [].
Qed.

Lemma node_ids_kids (n : node) :
  node_ids n = _get_node_id n :: flat_map node_ids (kids n).
Proof.
  destruct n as [i d [[gi [[c|l]|] ge]|]]; cbn [node_ids]; try reflexivity.
  unfold kids, graph_nodes. cbn [node_graph graph_node flat_map].
  now rewrite app_nil_r.
Qed.

Lemma node_ids_under (m : nat) :
  forall n k, size n < m -> In k (node_ids n) ->
              exists c, under n c /\ _get_node_id c = k.
Proof.
  induction m as [|m IH]; intros n k Hm Hk; [lia|].
  rewrite node_ids_kids in Hk. destruct Hk as [<-|Hk].
  - exists n. split; [now exists [] | reflexivity].
  - apply in_flat_map in Hk as (c & Hc & Hk).
    pose proof (size_in_kids _ _ Hc) as Hsz.
    destruct (IH c k (ltac:(lia)) Hk) as (x & [q Hq] & Hx).
    apply In_nth_error in Hc as [i Hi].
    exists x. split; [|exact Hx]. exists (i :: q). cbn [get_at]. now rewrite Hi.
Qed.

Lemma existsb_pystr_in (k : pystr) (l : list pystr) :
  existsb (pystr_eqb k) l = true -> In k l.
Proof.
  intros H. apply existsb_exists in H as (x & Hx & E).
  now destruct (pystr_eqb_spec k x) as [->|]; [|discriminate].
Qed.

(** An edge of the list is found in the list: the loop over the edges of
    the merged document ends with [to_add = False]. *)
Lemma edge_present_in (dl : list edge) (e : edge) (s t : pystr) :
  Forall (fun d => edge_source d <> None /\ edge_target d <> None) dl ->
  In e dl -> edge_source e = Some s -> edge_target e = Some t ->
  edge_present dl s t = Ok true.
Proof.
  intros Hall Hin Hs Ht. induction dl as [|d dl IH]; [contradiction|].
  inversion Hall as [|? ? [Hds Hdt] Hdl]; subst.
  cbn [edge_present].
  destruct (edge_source d) as [ds|] eqn:Eds; [|congruence].
  destruct (edge_target d) as [dt|] eqn:Edt; [|congruence].
  cbn [from_option bind].
  destruct (pystr_eqb_spec ds s) as [->|Hne1]; cbn [bind].
  - destruct (pystr_eqb_spec dt t) as [->|Hne2]; [reflexivity|].
    destruct (pystr_eqb_spec dt s) as [->|Hne3]; cbn [bind].
    + destruct (pystr_eqb s t); [reflexivity|].
      destruct Hin as [->|Hin]; [congruence | now apply IH].
    + destruct Hin as [->|Hin]; [congruence | now apply IH].
  - destruct (pystr_eqb_spec dt s) as [->|Hne3]; cbn [bind].
    + destruct (pystr_eqb ds t); [reflexivity|].
      destruct Hin as [->|Hin]; [congruence | now apply IH].
    + destruct Hin as [->|Hin]; [congruence | now apply IH].
Qed.

Lemma fold_union_edge_noop (rm : rename_map) (dl : list edge) (c : Z) (el : list edge) :
  (forall e, In e el -> union_edge rm (Many dl, c) e = Ok (Many dl, c)) ->
  foldM (union_edge rm) (Many dl, c) el = Ok (Many dl, c).
Proof.
  induction el as [|e el IH]; intros H; [reflexivity|].
  cbn [foldM]. rewrite (H e (or_introl eq_refl)). cbn [bind].
  apply IH. intros x Hx. apply H. now right.
Qed.

Lemma edge_closed_sound (ids : list pystr) (e : edge) :
  edge_closed_b ids e = true ->
  exists s t, edge_source e = Some s /\ edge_target e = Some t
              /\ In s ids /\ In t ids.
Proof.
  unfold edge_closed_b. destruct (edge_source e) as [s|]; [|discriminate].
  destruct (edge_target e) as [t|]; [|discriminate].
  intros [H1 H2]%andb_prop. exists s, t.
  repeat split; now apply existsb_pystr_in.
Qed.

Lemma union_edges_self (rm : rename_map) (dg g : document) (el : list edge) :
  top_edges (graphml dg) = Some (Many el) ->
  top_edges (graphml g) = Some (Many el) ->
  Forall (fun e => exists s t, edge_source e = Some s /\ edge_target e = Some t
                               /\ dict_get rm s = Ok s /\ dict_get rm t = Ok t) el ->
  union_edges rm dg g = Ok dg.
Proof.
  intros Hdg Hg Hall. unfold union_edges.
  rewrite !subscript_edges_top, Hdg, Hg. cbn [from_option bind edges_iter].
  rewrite fold_union_edge_noop.
  - cbn [bind]. unfold top_edges in Hdg.
    destruct dg as [[i d [[gi gn ge]|]]]; cbn [graphml node_graph graph_edge] in *;
      [|discriminate].
    now rewrite Hdg.
  - intros e He. rewrite Forall_forall in Hall.
    destruct (Hall e He) as (s & t & Hs & Ht & Hrs & Hrt).
    unfold union_edge. rewrite Hs, Ht. cbn [from_option bind].
    rewrite Hrs, Hrt. cbn [bind].
    rewrite (edge_present_in el e s t); [reflexivity | | exact He | exact Hs | exact Ht].
    rewrite Forall_forall. intros d Hd.
    destruct (Hall d Hd) as (s' & t' & -> & -> & _). split; discriminate.
Qed.

(** X21: merging a document with itself adds nothing.  On an engine whose
    two documents are one well-formed document, with a list of top-level
    nodes and a list of top-level edges that join nodes of the document,
    [_find_diff_union] returns, and what it returns is the painted copy
    that [_find_diff] returns: no node and no edge is added. *)
Theorem union_self_is_diff (self : BNGGdiff) (colors : palette) :
  gdict_2 self = gdict_1 self ->
  well_formed_b (gdict_1 self) = true ->
  top_level_list_b (gdict_1 self) = true ->
  edges_closed_b (gdict_1 self) = true ->
  palette_ok_b colors = true ->
  exists self' dg rm,
    _find_diff self Gdict1 Gdict2 colors = Ok (self', dg, rm)
    /\ _find_diff_union self Gdict1 Gdict2 colors = Ok (self', dg).
Proof.
  intros H2 Hwb Htb Heb Hpalb.
  pose proof (well_formed_b_sound _ Hwb) as Hw.
  pose proof (top_level_list_b_sound _ Htb) as Ht.
  pose proof (palette_ok_b_sound _ Hpalb) as Hpal.
  assert (Hw2 : well_formed (gdict_2 self)) by now rewrite H2.
  assert (Ht2 : top_level_list (gdict_2 self)) by now rewrite H2.
  destruct (find_diff_on_lists self Gdict1 Gdict2 colors Hpal Hw Hw2 Ht Ht2) as [rm Hfd].
  cbn [doc_of] in Hfd. rewrite H2 in Hfd.
  destruct (find_diff_rename_map _ _ _ _ _ _ _ Hfd) as [_ Hrm].
  destruct (find_diff_edges _ _ _ _ _ _ _ Hfd) as [Hedg Heds].
  cbn [doc_of] in Hrm, Hedg.
  do 3 eexists. split; [exact Hfd|].
  unfold _find_diff_union. rewrite Hfd. cbn [bind doc_of gdict_1 gdict_2].
  assert (Hids : forall p n, get_at (graphml (resized 20 (gdict_1 self))) p = Some n ->
                             dict_get rm (_get_node_id n) = Ok (_get_node_id n)).
  { intros p n Hn. unfold resized in Hn. cbn [graphml] in Hn.
    rewrite (get_at_tmapn _ (style_only_resize 20)) in Hn.
    destruct (get_at (graphml (gdict_1 self)) p) as [n0|] eqn:E0; [|discriminate].
    injection Hn as <-. unfold _get_node_id.
    rewrite (id_tmapn _ (style_only_resize 20)). exact (Hrm p n0 E0). }
  rewrite (union_run_self (resized 20 (gdict_1 self)) colors _ rm
             (well_formed_resized 20 _ Hw) Hids).
  cbn [bind].
  unfold edges_closed_b in Heb.
  destruct (top_edges (graphml (gdict_1 self))) as [[e1|el]|] eqn:Ee; try discriminate.
  rewrite (union_edges_self rm _ (resized 20 (gdict_1 self)) el); [reflexivity | | |].
  - exact Hedg.
  - pose proof (Heds Gdict1) as H. cbn [doc_of gdict_1] in H. now rewrite H.
  - rewrite Forall_forall. rewrite forallb_forall in Heb. intros e He.
    destruct (edge_closed_sound _ _ (Heb e He)) as (s & t & Hs & Ht' & Hins & Hint).
    exists s, t. split; [exact Hs|]. split; [exact Ht'|].
    destruct (node_ids_under _ _ s (Nat.lt_succ_diag_r _) Hins) as (c & [q Hq] & <-).
    destruct (node_ids_under _ _ t (Nat.lt_succ_diag_r _) Hint) as (c' & [q' Hq'] & <-).
    split; [exact (Hrm q c Hq) | exact (Hrm q' c' Hq')].
Qed.

Lemma union_self_is_diff_witness :
  exists self' dg rm,
    _find_diff (Samples.engine Samples.doc_AabB Samples.doc_AabB "union")
      Gdict1 Gdict2 self_colors = Ok (self', dg, rm)
    /\ _find_diff_union (Samples.engine Samples.doc_AabB Samples.doc_AabB "union")
         Gdict1 Gdict2 self_colors = Ok (self', dg).
Proof.
  apply (union_self_is_diff
           (Samples.engine Samples.doc_AabB Samples.doc_AabB "union") self_colors);
    reflexivity.
Defined.

(* ================================================================== *)
(** * Further properties of the Merger *)

Lemma resolver_valid (g : gdict) (names : list string) (q : path) (m : node) :
  _get_node_from_names g names = Ok (Some (q, m)) ->
  get_at (gdict_root g) q = Some m.
Proof.
  intros H. destruct names as [|k names].
  - unfold _get_node_from_names in H.
    destruct (subscript_graph_node (gdict_root g)); cbn [bind] in H; [|discriminate].
    now injection H as <- <-.
  - now destruct (resolver_sound g (k :: names) q m (ltac:(discriminate)) H).
Qed.

Lemma extends_refl (a : node) : extends a a.
Proof. intros p n H. now exists n. Qed.

Lemma extends_trans (a b c : node) : extends a b -> extends b c -> extends a c.
Proof.
  intros Hab Hbc p n Hn.
  destruct (Hab p n Hn) as (n1 & H1 & Hi1 & Hd1).
  destruct (Hbc p n1 H1) as (n2 & H2 & Hi2 & Hd2).
  exists n2. split; [exact H2|]. split; congruence.
Qed.

(** Replacing a node by one with the same identifier and data, whose
    children begin with the children of the old one. *)
Lemma set_at_extends (r : path) :
  forall s old x,
    get_at s r = Some old ->
    node_id x = node_id old -> node_data x = node_data old ->
    (forall i k, nth_error (kids old) i = Some k -> nth_error (kids x) i = Some k) ->
    extends s (set_at s r x).
Proof.
  induction r as [|j r IH]; intros s old x Hold Hid Hdata Hkids p n Hn.
  - cbn [get_at set_at] in *. injection Hold as <-.
    destruct p as [|i q].
    + cbn [get_at] in *. injection Hn as <-. now exists x.
    + cbn [get_at] in *. destruct (nth_error (kids s) i) as [k|] eqn:Ei; [|discriminate].
      rewrite (Hkids _ _ Ei). now exists n.
  - cbn [get_at] in Hold. destruct (nth_error (kids s) j) as [c|] eqn:Ej; [|discriminate].
    cbn [set_at]. rewrite Ej.
    destruct p as [|i q].
    + cbn [get_at] in *. injection Hn as <-. eexists. split; [reflexivity|].
      apply set_kids_graph_free.
    + cbn [get_at] in *. rewrite kids_set_kids by apply set_nth_length.
      destruct (Nat.eq_dec j i) as [<-|Hji].
      * rewrite (nth_error_set_nth _ _ _ _ Ej). rewrite Ej in Hn.
        exact (IH c old x Hold Hid Hdata Hkids q n Hn).
      * rewrite (nth_error_set_nth_other _ _ _ _ Hji).
        destruct (nth_error (kids s) i); [|discriminate]. now exists n.
Qed.

Lemma kids_set_node_list (n : node) (g : graph) (l : list node) :
  node_graph n = Some g -> kids (set_node_list n l) = l.
Proof. unfold set_node_list, kids, graph_nodes. now intros ->. Qed.

Lemma set_node_list_frame (n : node) (l : list node) :
  node_id (set_node_list n l) = node_id n
  /\ node_data (set_node_list n l) = node_data n.
Proof. unfold set_node_list. now destruct (node_graph n). Qed.

Lemma nth_error_app_some {A} (l l' : list A) (i : nat) (x : A) :
  nth_error l i = Some x -> nth_error (l ++ l') i = Some x.
Proof.
  intros H. rewrite nth_error_app1; [exact H|].
  apply nth_error_Some. congruence.
Qed.

Lemma add_node_extends (n : node) (dg : document) (names : list string)
    (colors : palette) (rmap : rename_map) (dg' : document) (rmap' : rename_map) :
  _add_node_to_graph n dg names colors rmap = Ok (dg', rmap') ->
  extends (graphml dg) (graphml dg').
Proof.
  intros H. unfold _add_node_to_graph in H.
  destruct (_get_node_from_names (Doc dg) (removelast names)) as [r|] eqn:Er;
    cbn [bind] in H; [|discriminate].
  destruct (_get_color_id n) as [cid|]; cbn [bind] in H; [|discriminate].
  destruct (index (pal_g2 colors) cid) as [c|]; cbn [bind] in H; [|discriminate].
  destruct (_color_node n c); cbn [bind] in H; [|discriminate].
  destruct r as [[pref parent]|]; [|discriminate].
  destruct (node_graph parent) as [g|] eqn:Eg;
    [|injection H as <- _; apply extends_refl].
  destruct (graph_node g) as [nodes|] eqn:En; cbn [from_option bind] in H; [|discriminate].
  destruct (fresh_sibling_id nodes); cbn [bind] in H; [|discriminate].
  match type of H with
  | bind ?r _ = _ => destruct r as [[c2 rm2]|]; cbn [bind] in H; [|discriminate]
  end.
  injection H as <- _. unfold doc_set_at. cbn [graphml].
  pose proof (resolver_valid _ _ _ _ Er) as Hp. cbn [gdict_root] in Hp.
  apply (set_at_extends pref _ parent _ Hp).
  - apply set_node_list_frame.
  - apply set_node_list_frame.
  - intros i k Hi. rewrite (kids_set_node_list _ _ _ Eg).
    rewrite (kids_siblings _ _ _ Eg En) in Hi.
    apply nth_error_app_some.
    destruct nodes; exact Hi.
Qed.

Lemma union_step_extends (g1 : document) (colors : palette) (e : ventry)
    (s : document * rename_map) (cs : list ventry) (s' : document * rename_map) :
  union_step g1 colors e s = Ok (cs, s') ->
  extends (graphml (fst s)) (graphml (fst s')).
Proof.
  destruct e as [[keys names] cn], s as [dg rm]. unfold union_step. intros H.
  destruct (_get_node_from_names (Doc g1) names) as [dnode|]; cbn [bind] in H;
    [|discriminate].
  match type of H with
  | bind ?r _ = _ => destruct r as [s1|] eqn:E1; cbn [bind] in H; [|discriminate]
  end.
  destruct (push_children keys names cn); cbn [bind] in H; [|discriminate].
  injection H as _ <-. cbn [fst].
  destruct (nonempty names); [|injection E1 as <-; apply extends_refl].
  destruct dnode as [[q dn]|]; [injection E1 as <-; apply extends_refl|].
  destruct (_get_node_from_names (Doc dg) names) as [[[q dgn]|]|]; cbn [bind] in E1;
    [injection E1 as <-; apply extends_refl | | discriminate].
  destruct s1 as [dg1 rm1]. cbn [fst]. exact (add_node_extends _ _ _ _ _ _ _ E1).
Qed.

Lemma union_edges_extends (rm : rename_map) (dg g2 dg' : document) :
  union_edges rm dg g2 = Ok dg' -> extends (graphml dg) (graphml dg').
Proof.
  unfold union_edges. intros H.
  destruct (subscript_edges dg); cbn [bind] in H; [|discriminate].
  destruct (subscript_edges g2) as [g2e|]; cbn [bind] in H; [|discriminate].
  destruct (edges_iter g2e); cbn [bind] in H; [|discriminate].
  match type of H with
  | bind ?r _ = _ => destruct r as [[de' ctr]|]; cbn [bind] in H; [|discriminate]
  end.
  destruct (node_graph (graphml dg)) as [g|] eqn:Eg; [|discriminate].
  injection H as <-. cbn [graphml].
  intros [|i q] n Hn.
  - cbn [get_at] in *. injection Hn as <-. eexists. split; [reflexivity|]. now split.
  - cbn [get_at] in *.
    assert (Hk : kids (mkNode (node_id (graphml dg)) (node_data (graphml dg))
                         (Some (mkGraph (graph_id g) (graph_node g) (Some de'))))
                 = kids (graphml dg)).
    { unfold kids, graph_nodes. cbn [node_graph graph_node]. now rewrite Eg. }
    rewrite Hk. destruct (nth_error (kids (graphml dg)) i); [|discriminate].
    now exists n.
Qed.

(** X22: the merge never loses a node of the diff.  Whenever
    [_find_diff_union] returns, [_find_diff] had returned a painted copy of
    the source, and every node of that copy is in the merged document, at
    the same place and with the same identifier, label, colour and font
    size: nodes are only ever added. *)
Theorem union_keeps_diff_nodes (self : BNGGdiff) (g1 g2 : docref) (colors : palette)
    (self' : BNGGdiff) (dg : document) :
  _find_diff_union self g1 g2 colors = Ok (self', dg) ->
  exists dg0 rm,
    _find_diff self g1 g2 colors = Ok (self', dg0, rm)
    /\ forall p n, get_at (graphml dg0) p = Some n ->
         exists n', get_at (graphml dg) p = Some n'
                    /\ _get_node_id n' = _get_node_id n
                    /\ _get_node_properties n' = _get_node_properties n.
Proof.
  intros H. unfold _find_diff_union in H.
  destruct (_find_diff self g1 g2 colors) as [[[self1 dg0] rm0]|] eqn:Ef;
    cbn [bind] in H; [|discriminate].
  match type of H with
  | bind ?r _ = _ => destruct r as [[dg1 rm1]|] eqn:Er; cbn [bind] in H; [|discriminate]
  end.
  destruct (union_edges rm1 dg1 (doc_of self1 g2)) as [dg2|] eqn:Ee;
    cbn [bind] in H; [|discriminate].
  injection H as <- <-.
  exists dg0, rm0. split; [reflexivity|].
  assert (H1 : extends (graphml dg0) (graphml dg1)).
  { assert (Hpres : forall e s cs s',
              extends (graphml dg0) (graphml (fst s)) ->
              union_step (doc_of self1 g1) colors e s = Ok (cs, s') ->
              extends (graphml dg0) (graphml (fst s'))).
    { intros e s cs s' Hs Hstep.
      exact (extends_trans _ _ _ Hs (union_step_extends _ _ _ _ _ _ Hstep)). }
    exact (run_invariant (union_step (doc_of self1 g1) colors)
             (fun s => extends (graphml dg0) (graphml (fst s)))
             Hpres _ _ (dg0, rm0) (dg1, rm1) (extends_refl _) Er). }
  pose proof (extends_trans _ _ _ H1 (union_edges_extends _ _ _ _ Ee)) as H2.
  intros p n Hn. destruct (H2 p n Hn) as (n' & Hn' & Hid & Hdata).
  exists n'. split; [exact Hn'|]. split; [exact Hid|].
  now apply properties_same_data.
Qed.

Lemma union_keeps_diff_nodes_witness :
  exists self' dg dg0 rm,
    _find_diff_union (Samples.engine Samples.doc_AabB Samples.doc_AacC "union")
      Gdict1 Gdict2 self_colors = Ok (self', dg)
    /\ _find_diff (Samples.engine Samples.doc_AabB Samples.doc_AacC "union")
         Gdict1 Gdict2 self_colors = Ok (self', dg0, rm)
    /\ exists n', get_at (graphml dg) [0; 1] = Some n'
                  /\ _get_node_id n' = Some "n0::n1".
Proof.
  destruct (_find_diff_union (Samples.engine Samples.doc_AabB Samples.doc_AacC "union")
              Gdict1 Gdict2 self_colors) as [[self' dg]|] eqn:E;
    [|vm_compute in E; discriminate].
  destruct (union_keeps_diff_nodes _ _ _ _ _ _ E) as (dg0 & rm & Hfd & Hkeep).
  exists self', dg, dg0, rm. split; [reflexivity|]. split; [exact Hfd|].
  destruct (get_at (graphml dg0) [0; 1]) as [n|] eqn:En.
  - destruct (Hkeep _ _ En) as (n' & Hn' & Hid & _).
    exists n'. split; [exact Hn'|]. rewrite Hid.
    vm_compute in Hfd. injection Hfd as _ <- _. vm_compute in En.
    injection En as <-. reflexivity.
  - exfalso. vm_compute in Hfd. injection Hfd as _ <- _. vm_compute in En. discriminate.
Defined.

(** X23: adding a node without children under a parent that has nodes.
    The coloured, re-identified copy is appended to the nodes of the
    parent, a single node becoming a list of two; the nodes that were
    there stay where they were; the copy has the other-only colour of the
    class of the node, its label, and the fresh identifier; the rename
    map sends the identifier of the node to that of the copy and is
    otherwise as before; nodes outside the parent are untouched. *)
Theorem add_leaf_to_graph (n : node) (dg : document) (names : list string)
    (colors : palette) (rmap : rename_map)
    (pref : path) (parent : node) (nodes : one_or_many node)
    (pr : properties) (cid : nat) (c new_id old_id : string) :
  _get_node_from_names (Doc dg) (removelast names) = Ok (Some (pref, parent)) ->
  subscript_graph_node parent = Ok nodes ->
  fresh_sibling_id nodes = Ok new_id ->
  _get_node_properties n = Ok pr ->
  class_of_color (Fill_color pr) = Some cid ->
  nth_error (pal_g2 colors) cid = Some c ->
  node_id n = Some old_id -> node_graph n = None ->
  exists copy dg' rmap',
    _add_node_to_graph n dg names colors rmap = Ok (dg', rmap')
    /\ get_at (graphml dg') (pref ++ [length (siblings_of nodes)]) = Some copy
    /\ _get_node_id copy = Some new_id
    /\ _get_node_color copy = Ok c
    /\ _get_node_name copy = _get_node_name n
    /\ (forall i k, nth_error (siblings_of nodes) i = Some k ->
                    get_at (graphml dg') (pref ++ [i]) = Some k)
    /\ (forall q, apart pref q -> get_at (graphml dg') q = get_at (graphml dg) q)
    /\ dict_get rmap' (Some old_id) = Ok (Some new_id)
    /\ (forall k, k <> Some old_id -> dict_get rmap' k = dict_get rmap k).
Proof.
  intros Hl Hnodes Hfresh Hpr Hcl Hnth Hid Hleaf.
  pose proof (resolver_valid _ _ _ _ Hl) as Hp. cbn [gdict_root] in Hp.
  destruct (color_node_spec n pr c Hpr) as (x & Hx & Hxid & Hxg & Hxp).
  unfold subscript_graph_node in Hnodes.
  destruct (node_graph parent) as [g|] eqn:Eg; cbn [from_option bind] in Hnodes;
    [|discriminate].
  destruct (graph_node g) as [nodes0|] eqn:En; cbn [from_option] in Hnodes; [|discriminate].
  injection Hnodes as ->.
  set (copy := _set_node_id x new_id).
  assert (Hcopy : copy = mkNode (Some new_id) (node_data x) (node_graph x)).
  { unfold copy, _set_node_id. now rewrite Hxid, Hid. }
  assert (Hcg : node_graph copy = None) by (rewrite Hcopy; cbn; congruence).
  exists copy, (doc_set_at dg pref
                  (set_node_list parent (siblings_of nodes ++ [copy]))),
    (dict_set (Some old_id) (Some new_id) rmap).
  assert (Hk : kids (set_node_list parent (siblings_of nodes ++ [copy]))
               = siblings_of nodes ++ [copy]) by exact (kids_set_node_list _ _ _ Eg).
  split; [|split; [|split; [|split; [|split; [|split; [|split; [|split]]]]]]].
  - unfold _add_node_to_graph. rewrite Hl. cbn [bind].
    rewrite (class_of_color_id _ _ Hpr), Hcl. cbn [bind]. unfold index.
    rewrite Hnth. cbn [from_option bind]. rewrite Hx. cbn [bind].
    rewrite Eg, En. cbn [from_option bind]. rewrite Hfresh. cbn [bind].
    fold copy. rewrite Hcg. cbn [bind].
    unfold _get_node_id. rewrite Hid. rewrite Hcopy at 2. cbn [node_id].
    now destruct nodes.
  - unfold doc_set_at. cbn [graphml].
    rewrite (get_at_below _ _ _ _ _ Hp). cbn [get_at]. rewrite Hk.
    now rewrite nth_error_middle.
  - rewrite Hcopy. reflexivity.
  - unfold _get_node_color.
    rewrite (properties_same_data copy x) by (rewrite Hcopy; reflexivity).
    now rewrite Hxp.
  - unfold _get_node_name.
    rewrite (properties_same_data copy x) by (rewrite Hcopy; reflexivity).
    now rewrite Hxp, Hpr.
  - intros i k Hi. unfold doc_set_at. cbn [graphml].
    rewrite (get_at_below _ _ _ _ _ Hp). cbn [get_at]. rewrite Hk.
    now rewrite (nth_error_app_some _ _ _ _ Hi).
  - intros q Hq. unfold doc_set_at. cbn [graphml]. now apply get_at_set_at_apart.
  - apply dict_get_set_same.
  - intros k Hk'. now apply dict_get_set_other.
Qed.

Lemma add_leaf_to_graph_witness :
  exists copy dg' rmap',
    _add_node_to_graph (Samples.leaf "n5::n7" "z" "#FFFFFF" "12") Samples.doc_AabB
      ["A"; "z"] self_colors [] = Ok (dg', rmap')
    /\ get_at (graphml dg') [0; 2] = Some copy
    /\ _get_node_id copy = Some "n0::n2"
    /\ _get_node_color copy = Ok "#ffbfaa".
Proof.
  destruct (add_leaf_to_graph (Samples.leaf "n5::n7" "z" "#FFFFFF" "12")
              Samples.doc_AabB ["A"; "z"] self_colors [] [0]
              (Samples.group "n0" "A" "#D2D2D2" "12"
                 (Many [Samples.leaf "n0::n0" "a" "#FFFFFF" "12";
                        Samples.leaf "n0::n1" "b" "#FFFFFF" "12"]))
              (Many [Samples.leaf "n0::n0" "a" "#FFFFFF" "12";
                     Samples.leaf "n0::n1" "b" "#FFFFFF" "12"])
              (mkProperties "z" "12" "#FFFFFF") 1 "#ffbfaa" "n0::n2" "n5::n7")
    as (copy & dg' & rmap' & H1 & H2 & H3 & H4 & _); try reflexivity.
  exists copy, dg', rmap'. auto.
Defined.

(* ================================================================== *)
(** * The fresh identifier and the order of the siblings *)

(** X24: the identifier made for an inserted node is read off the last
    node of the list it is appended to, and off that node only: it is the
    identifier of that node with its last segment incremented, whatever
    the identifiers of the nodes before it, provided they parse.  When the
    list is not in ascending order the result can be the identifier of a
    node that is already there. *)
Theorem fresh_sibling_id_last_only (l : list node) (k : node)
    (ls : list (list Z)) (pre : list Z) (z : Z) :
  mapM (fun n => id_list_of (_get_node_id n)) l = Ok ls ->
  id_list_of (_get_node_id k) = Ok (pre ++ [z]) ->
  fresh_sibling_id (Many (l ++ [k])) = Ok (_get_id_str (pre ++ [(z + 1)%Z])).
Proof.
  intros Hl Hk. unfold fresh_sibling_id.
  assert (Hk' : mapM (fun n => id_list_of (_get_node_id n)) [k] = Ok [pre ++ [z]]).
  { cbn [mapM]. now rewrite Hk. }
  rewrite (mapM_app _ _ _ _ _ Hl Hk'). cbn [bind].
  rewrite last_map_some. cbn [from_option bind].
  now rewrite incr_last_app.
Qed.

Lemma fresh_sibling_id_last_only_witness :
  fresh_sibling_id
    (Many [Samples.leaf "n0::n2" "a" "#FFFFFF" "12";
           Samples.leaf "n0::n1" "b" "#FFFFFF" "12"])
  = Ok "n0::n2".
Proof.
  apply (fresh_sibling_id_last_only
           [Samples.leaf "n0::n2" "a" "#FFFFFF" "12"]
           (Samples.leaf "n0::n1" "b" "#FFFFFF" "12")
           [[0%Z; 2%Z]] [0%Z] 1%Z); reflexivity.
Defined.

(* ================================================================== *)
(** * The top-level nodes of a merged document *)

Lemma same_names_refl (a : node) : same_names a a.
Proof. intros p n H. now exists n. Qed.

Lemma same_names_trans (a b c : node) :
  same_names a b -> same_names b c -> same_names a c.
Proof.
  intros Hab Hbc p n Hn.
  destruct (Hab p n Hn) as (n1 & H1 & Hi1 & Hd1).
  destruct (Hbc p n1 H1) as (n2 & H2 & Hi2 & Hd2).
  exists n2. split; [exact H2|]. split; congruence.
Qed.

Lemma extends_same_names (a b : node) : extends a b -> same_names a b.
Proof.
  intros H p n Hn. destruct (H p n Hn) as (n' & Hn' & Hid & Hd).
  exists n'. split; [exact Hn'|]. split; [exact Hid|].
  unfold _get_node_name. now rewrite (properties_same_data _ _ Hd).
Qed.

Lemma name_set_kids (n : node) (l : list node) :
  _get_node_name (set_kids n l) = _get_node_name n.
Proof. unfold _get_node_name. now rewrite properties_set_kids. Qed.

Lemma set_at_same_names (r : path) :
  forall s old x,
    get_at s r = Some old ->
    node_id x = node_id old -> _get_node_name x = _get_node_name old ->
    kids x = kids old ->
    same_names s (set_at s r x).
Proof.
  induction r as [|j r IH]; intros s old x Hold Hid Hname Hkids p n Hn.
  - cbn [get_at set_at] in *. injection Hold as <-.
    destruct p as [|i q].
    + cbn [get_at] in *. injection Hn as <-. now exists x.
    + cbn [get_at] in *. rewrite Hkids.
      destruct (nth_error (kids s) i) as [k|]; [|discriminate]. now exists n.
  - cbn [get_at] in Hold. destruct (nth_error (kids s) j) as [c|] eqn:Ej; [|discriminate].
    cbn [set_at]. rewrite Ej.
    destruct p as [|i q].
    + cbn [get_at] in *. injection Hn as <-. eexists. split; [reflexivity|].
      split; [apply set_kids_graph_free | apply name_set_kids].
    + cbn [get_at] in *. rewrite kids_set_kids by apply set_nth_length.
      destruct (Nat.eq_dec j i) as [<-|Hji].
      * rewrite (nth_error_set_nth _ _ _ _ Ej). rewrite Ej in Hn.
        exact (IH c old x Hold Hid Hname Hkids q n Hn).
      * rewrite (nth_error_set_nth_other _ _ _ _ Hji).
        destruct (nth_error (kids s) i); [|discriminate]. now exists n.
Qed.

Lemma paint_same_names (dg : node) (p : path) (cur : node) (slot : list string)
    (dg' : node) :
  get_at dg p = Some cur -> paint dg p cur slot = Ok dg' -> same_names dg dg'.
Proof.
  intros Hget H. unfold paint in H.
  destruct (_get_color_id cur) as [cid|]; cbn [bind] in H; [|discriminate].
  destruct (index slot cid) as [c|]; cbn [bind] in H; [|discriminate].
  destruct (_color_node cur c) as [x|] eqn:Ex; cbn [bind] in H; [|discriminate].
  injection H as <-. destruct (color_node_style _ _ _ Ex) as (Hg & Hid & Hname & _).
  apply (set_at_same_names p dg cur x Hget Hid Hname). now apply kids_same_graph.
Qed.

Lemma find_diff_paint_same_names (colors : palette) (names : list string) (n : node)
    (r : option (path * node)) (p : path) (dg dg' : node) :
  find_diff_paint colors names n r p dg = Ok dg' -> same_names dg dg'.
Proof.
  unfold find_diff_paint, deref.
  destruct (nonempty names); [|intros [= <-]; apply same_names_refl].
  destruct (_get_node_name n) as [nm|]; cbn [bind]; [|discriminate].
  destruct (get_at dg p) as [cur|] eqn:Ec; cbn [from_option bind]; [|discriminate].
  destruct r as [[q g2n]|].
  - destruct (has_data g2n); [|intros [= <-]; apply same_names_refl].
    destruct (_get_node_name g2n) as [nm2|]; cbn [bind]; [|discriminate].
    destruct (String.eqb nm2 nm); now apply paint_same_names.
  - destruct (has_data cur); [|intros [= <-]; apply same_names_refl].
    now apply paint_same_names.
Qed.

Lemma find_diff_loop_same_names (g2 : document) (colors : palette) (fuel : nat) :
  forall ns ds dg rm dg' rm',
    find_diff_loop g2 colors fuel ns ds dg rm = Ok (dg', rm') ->
    same_names dg dg'.
Proof.
  induction fuel as [|fuel IH]; intros [|e ns] ds dg rm dg' rm' H; simpl in H;
    try discriminate; try (injection H as <- _; apply same_names_refl).
  destruct ds as [|de ds]; [discriminate|].
  destruct (find_diff_body g2 colors e de dg rm) as [[[pushed dg1] rm1]|] eqn:Eb;
    cbn [bind] in H; [|discriminate].
  apply (same_names_trans _ dg1); [|exact (IH _ _ _ _ _ _ H)].
  destruct e as [[keys names] cn], de as [[dkeys dnames] p].
  unfold find_diff_body in Eb.
  destruct (_get_node_from_names (Doc g2) names) as [r|]; cbn [bind] in Eb; [|discriminate].
  destruct (find_diff_paint colors names cn r p dg) as [dgp|] eqn:Ep;
    cbn [bind] in Eb; [|discriminate].
  destruct (deref dgp p); cbn [bind] in Eb; [|discriminate].
  destruct (push_children2 keys names cn dkeys dnames p a); cbn [bind] in Eb; [|discriminate].
  injection Eb as _ <- _. now apply find_diff_paint_same_names in Ep.
Qed.

Lemma resized_same_names (z : Z) (d : document) :
  same_names (graphml d) (graphml (resized z d)).
Proof.
  intros p n Hn. unfold resized. cbn [graphml].
  rewrite (get_at_tmapn _ (style_only_resize z)), Hn. cbn [option_map].
  eexists. split; [reflexivity|].
  split; [apply id_tmapn | apply name_tmapn]; apply style_only_resize.
Qed.

Lemma resize_fonts_inv (g g' : document) (z : Z) :
  _resize_fonts g z = Ok g' -> g' = resized z g.
Proof.
  intros H. now destruct (walk_passed _ _ _ (resize_visit_graph z) H).
Qed.

(** What is known of [_find_diff] once it returned. *)
Lemma find_diff_inv (self : BNGGdiff) (g1 g2 : docref) (colors : palette)
    (self1 : BNGGdiff) (dg0 : document) (rm : rename_map) :
  _find_diff self g1 g2 colors = Ok (self1, dg0, rm) ->
  gdict_1 self1 = resized 20 (gdict_1 self)
  /\ gdict_2 self1 = resized 20 (gdict_2 self)
  /\ same_names (graphml (doc_of self g1)) (graphml dg0).
Proof.
  intros H. unfold _find_diff in H. cbv zeta in H.
  match type of H with
  | bind ?r _ = _ => destruct r as [[dgr rm0]|] eqn:El; cbn [bind] in H; [|discriminate]
  end.
  destruct (_recolor_graph (gdict_1 self) (pal_g1 self_colors)); cbn [bind] in H;
    [|discriminate].
  destruct (_recolor_graph (gdict_2 self) (pal_g2 self_colors)); cbn [bind] in H;
    [|discriminate].
  destruct (_resize_fonts (gdict_1 self) 20) as [r1|] eqn:E1; cbn [bind] in H;
    [|discriminate].
  destruct (_resize_fonts (gdict_2 self) 20) as [r2|] eqn:E2; cbn [bind] in H;
    [|discriminate].
  destruct (_resize_fonts (mkDocument dgr) 20) as [r3|] eqn:E3; cbn [bind] in H;
    [|discriminate].
  injection H as <- <- _. cbn [gdict_1 gdict_2].
  split; [now apply resize_fonts_inv|]. split; [now apply resize_fonts_inv|].
  apply resize_fonts_inv in E3. subst r3.
  apply (same_names_trans _ dgr).
  - exact (find_diff_loop_same_names _ _ _ _ _ _ _ _ _ El).
  - exact (resized_same_names 20 (mkDocument dgr)).
Qed.

(** A single name resolves to a top-level node. *)
Lemma resolver_single_name (g : gdict) (key : string) (q : path) (m : node) :
  _get_node_from_names g [key] = Ok (Some (q, m)) -> exists i, q = [i].
Proof.
  unfold _get_node_from_names.
  destruct (subscript_graph_node (gdict_root g)) as [nodes|]; cbn [bind]; [|discriminate].
  cbn [names_loop]. destruct nodes as [n|l].
  - destruct (_get_node_name n) as [cname|]; cbn [bind]; [|discriminate].
    destruct (String.eqb cname key); [|discriminate]. cbn [app].
    destruct (node_graph n) as [gr|].
    + destruct (graph_node gr); cbn [from_option bind]; [|discriminate].
      cbn [names_loop]. intros [= <- _]. now exists 0.
    + cbn [names_loop]. intros [= <- _]. now exists 0.
  - destruct (scan_nodes l key 0) as [[[i cnode]|]|]; cbn [bind]; [| |discriminate].
    + cbn [app]. destruct (node_graph cnode) as [gr|].
      * destruct (graph_node gr); cbn [from_option bind]; [|discriminate].
        cbn [names_loop]. intros [= <- _]. now exists i.
      * cbn [names_loop]. intros [= <- _]. now exists i.
    + cbn [names_loop]. discriminate.
Qed.

Lemma resolver_top_level (g : gdict) (key : string) (q : path) (m : node) :
  _get_node_from_names g [key] = Ok (Some (q, m)) ->
  has_top_level key (gdict_root g).
Proof.
  intros H. destruct (resolver_single_name _ _ _ _ H) as [i ->].
  destruct (resolver_sound g [key] [i] m (ltac:(discriminate)) H) as (Hm & _ & Hn).
  now exists i, m.
Qed.

Lemma has_top_level_same_names (L : string) (a b : node) :
  same_names a b -> has_top_level L a -> has_top_level L b.
Proof.
  intros Hab (j & n & Hn & Hname).
  destruct (Hab [j] n Hn) as (n' & Hn' & _ & Hname').
  exists j, n'. split; [exact Hn' | congruence].
Qed.

(** The loop that re-identifies the descendants of an inserted node leaves
    the data of the node itself alone. *)
Lemma relabel_run_root_data (colors : palette) (fuel : nat) (renamed : node)
    (rmap : rename_map) (c2 : node) (rm2 : rename_map) :
  run (relabel_step colors) fuel [([], [], [])] (renamed, rmap) = Ok (c2, rm2) ->
  node_data c2 = node_data renamed.
Proof.
  intros H.
  pose (I := fun (stack : list rentry) (s : node * rename_map) =>
               (forall e, In e stack -> snd e = [] -> snd (fst e) = [])
               /\ node_data (fst s) = node_data renamed).
  assert (Hstep : forall e rest s pushed s',
             I (e :: rest) s -> relabel_step colors e s = Ok (pushed, s') ->
             I (rev pushed ++ rest) s').
  { intros [[keys names] ref] rest [cn rm] pushed s' [Hroot Hdata] Hs.
    unfold relabel_step in Hs.
    destruct (deref cn ref) as [cur|] eqn:Ed; cbn [bind] in Hs; [|discriminate].
    match type of Hs with
    | bind ?r _ = _ => destruct r as [[cur' rm']|] eqn:Ev; cbn [bind] in Hs; [|discriminate]
    end.
    destruct (push_children_ref keys names ref cur') as [ps|] eqn:Ep; cbn [bind] in Hs;
      [|discriminate].
    injection Hs as <- <-.
    destruct (push_children_ref_inv _ _ _ _ _ Ep) as (_ & _ & ->).
    split.
    - intros e He Hr. apply in_app_or in He as [He|He].
      + apply In_rev in He. apply in_child_refs in He as (j & k & _ & ->).
        cbn [snd] in Hr. now destruct (snoc_nonempty ref (0 + j)).
      + apply Hroot; [now right | exact Hr].
    - cbn [fst] in *. destruct ref as [|i r].
      + pose proof (Hroot _ (or_introl eq_refl) eq_refl) as Hn. cbn [fst snd] in Hn.
        subst names. cbn [nonempty] in Ev. injection Ev as <- _.
        unfold deref in Ed. cbn [get_at from_option] in Ed. injection Ed as <-.
        exact Hdata.
      + cbn [set_at]. destruct (nth_error (kids cn) i); [|exact Hdata].
        rewrite <- Hdata. apply set_kids_graph_free. }
  assert (Hinit : I [([], [], [])] (renamed, rmap)).
  { split; [|reflexivity]. now intros e [<-|[]] _. }
  now destruct (run_invariant_stack (relabel_step colors) I Hstep fuel _ _ _ Hinit H).
Qed.

Lemma set_node_id_data (n : node) (s : string) :
  node_data (_set_node_id n s) = node_data n.
Proof. unfold _set_node_id. now destruct (node_id n). Qed.

Lemma rename_graph_data (n n' : node) :
  rename_graph n = Ok n' -> node_data n' = node_data n.
Proof.
  unfold rename_graph. destruct (node_graph n) as [g|]; [|now intros [= <-]].
  destruct (graph_id g); [|now intros [= <-]].
  destruct (_get_node_id n); cbn [from_option bind]; [|discriminate].
  now intros [= <-].
Qed.

(** A node added at the top level: the merged document then has a
    top-level node of its label. *)
Lemma add_node_top_level (k : node) (dg : document) (L : string)
    (colors : palette) (rmap : rename_map) (dg' : document) (rmap' : rename_map) :
  _get_node_name k = Ok L ->
  _get_node_from_names (Doc dg) [L] = Ok None ->
  _add_node_to_graph k dg [L] colors rmap = Ok (dg', rmap') ->
  has_top_level L (graphml dg').
Proof.
  intros Hname Hnone H. unfold _add_node_to_graph in H. cbn [removelast] in H.
  unfold _get_node_from_names in Hnone, H. cbn [gdict_root] in *.
  unfold subscript_graph_node in *.
  destruct (node_graph (graphml dg)) as [gr|] eqn:Eg; cbn [from_option bind] in *;
    [|discriminate].
  destruct (graph_node gr) as [nodes|] eqn:En; cbn [from_option bind] in *;
    [|discriminate].
  destruct (_get_color_id k) as [cid|]; cbn [bind] in H; [|discriminate].
  destruct (index (pal_g2 colors) cid) as [c|]; cbn [bind] in H; [|discriminate].
  destruct (_color_node k c) as [x|] eqn:Ex; cbn [bind] in H; [|discriminate].
  rewrite Eg, En in H. cbn [from_option bind] in H.
  destruct (fresh_sibling_id nodes) as [new_id|]; cbn [bind] in H; [|discriminate].
  match type of H with
  | bind ?r _ = _ => destruct r as [[c2 rm2]|] eqn:Er; cbn [bind] in H; [|discriminate]
  end.
  injection H as <- _. unfold doc_set_at. cbn [graphml set_at].
  assert (Hc2 : node_data c2 = node_data x).
  { destruct (node_graph (_set_node_id x new_id)).
    - destruct (rename_graph (_set_node_id x new_id)) as [rn|] eqn:Ern;
        cbn [bind] in Er; [|discriminate].
      rewrite (relabel_run_root_data _ _ _ _ _ _ Er), (rename_graph_data _ _ Ern).
      apply set_node_id_data.
    - injection Er as <- _. apply set_node_id_data. }
  exists (length (match nodes with One og => [og] | Many l => l end)), c2.
  split.
  - cbn [get_at]. rewrite (kids_set_node_list _ _ _ Eg).
    now rewrite nth_error_middle.
  - unfold _get_node_name. rewrite (properties_same_data c2 x Hc2).
    destruct (color_node_style _ _ _ Ex) as (_ & _ & Hn & _).
    unfold _get_node_name in Hn, Hname. now rewrite Hn.
Qed.

(** The loop over the second document: once an entry for a top-level node
    was popped, the merged document has a top-level node of its label. *)
Lemma union_run_top_level (g1 : document) (colors : palette) (root2 dg0 : node)
    (fuel : nat) (s0 s1 : document * rename_map) :
  (forall L q dn, _get_node_from_names (Doc g1) [L] = Ok (Some (q, dn)) ->
                  has_top_level L dg0) ->
  same_names dg0 (graphml (fst s0)) ->
  run (union_step g1 colors) fuel [(["graphml"], [], root2)] s0 = Ok s1 ->
  forall k, In k (kids root2) -> has_top_level (label_of k) (graphml (fst s1)).
Proof.
  intros Hg1 H0 Hrun.
  pose (I := fun (stack : list ventry) (s : document * rename_map) =>
               same_names dg0 (graphml (fst s))
               /\ forall k, In k (kids root2) ->
                    In (["graphml"], [], root2) stack
                    \/ (named k /\ exists keys, In (keys, [label_of k], k) stack)
                    \/ has_top_level (label_of k) (graphml (fst s))).
  assert (Hstep : forall e rest s pushed s',
             I (e :: rest) s -> union_step g1 colors e s = Ok (pushed, s') ->
             I (rev pushed ++ rest) s').
  { intros e rest s pushed s' [Hsn Hcov] Hs.
    pose proof (extends_same_names _ _ (union_step_extends _ _ _ _ _ _ Hs)) as Hext.
    split; [exact (same_names_trans _ _ _ Hsn Hext)|].
    intros k Hk. destruct (Hcov k Hk) as [[He|Hin]|[[Hnm (keys & [He|Hin])]|Hh]].
    - (* the root is popped: its children are pushed *)
      subst e. destruct s as [dg rm]. unfold union_step in Hs.
      destruct (_get_node_from_names (Doc g1) []); cbn [bind nonempty] in Hs;
        [|discriminate].
      destruct (push_children ["graphml"] [] root2) as [es|] eqn:Ep; cbn [bind] in Hs;
        [|discriminate].
      injection Hs as <- <-.
      destruct (push_children_inv _ _ _ _ Ep) as (_ & Hnamed & ->).
      right. left. split.
      + rewrite Forall_forall in Hnamed. now apply Hnamed.
      + exists (["graphml"] ++ [id_of k]). apply in_or_app. left. apply -> in_rev.
        apply in_map_iff. now exists k.
    - left. apply in_or_app. now right.
    - (* the entry of [k] is popped *)
      subst e. right. right. destruct s as [dg rm]. unfold union_step in Hs.
      destruct (_get_node_from_names (Doc g1) [label_of k]) as [dnode|] eqn:El;
        cbn [bind nonempty] in Hs; [|discriminate].
      match type of Hs with
      | bind ?r _ = _ => destruct r as [s1'|] eqn:E1; cbn [bind] in Hs; [|discriminate]
      end.
      destruct (push_children keys [label_of k] k); cbn [bind] in Hs; [|discriminate].
      injection Hs as _ <-.
      destruct dnode as [[q dn]|].
      + injection E1 as <-. cbn [fst] in *.
        exact (has_top_level_same_names _ _ _ Hsn (Hg1 _ _ _ El)).
      + destruct (_get_node_from_names (Doc dg) [label_of k]) as [[[q dgn]|]|] eqn:Ed;
          cbn [bind] in E1; [| |discriminate].
        * injection E1 as <-. cbn [fst].
          exact (resolver_top_level (Doc dg) _ _ _ Ed).
        * destruct s1' as [dg1 rm1]. cbn [fst].
          exact (add_node_top_level k dg _ colors rm dg1 rm1
                   (named_label _ Hnm) Ed E1).
    - right. left. split; [exact Hnm|]. exists keys. apply in_or_app. now right.
    - right. right. exact (has_top_level_same_names _ _ _ Hext Hh). }
  assert (Hinit : I [(["graphml"], [], root2)] s0).
  { split; [exact H0|]. intros k _. left. now left. }
  destruct (run_invariant_stack (union_step g1 colors) I Hstep fuel _ _ _ Hinit Hrun)
    as [_ Hfin].
  intros k Hk. destruct (Hfin k Hk) as [[]|[[_ (keys & [])]|Hh]]. exact Hh.
Qed.

(** X25: whenever the merge returns, the merged document has, for every
    top-level node of either document, a top-level node of the same label:
    those of the first document are where they were, and those of the
    second are found in the first or appended. *)
Theorem union_has_top_level_of_both (self : BNGGdiff) (g1 g2 : docref)
    (colors : palette) (self' : BNGGdiff) (dg : document) :
  _find_diff_union self g1 g2 colors = Ok (self', dg) ->
  (forall i k, get_at (graphml (doc_of self g1)) [i] = Some k ->
     exists n', get_at (graphml dg) [i] = Some n'
                /\ _get_node_name n' = _get_node_name k)
  /\ (forall i k, get_at (graphml (doc_of self g2)) [i] = Some k ->
        exists j n', get_at (graphml dg) [j] = Some n'
                     /\ _get_node_name n' = _get_node_name k).
Proof.
  intros H. unfold _find_diff_union in H.
  destruct (_find_diff self g1 g2 colors) as [[[self1 dg0] rm0]|] eqn:Ef;
    cbn [bind] in H; [|discriminate].
  match type of H with
  | bind ?r _ = _ => destruct r as [[dg1 rm1]|] eqn:Er; cbn [bind] in H; [|discriminate]
  end.
  destruct (union_edges rm1 dg1 (doc_of self1 g2)) as [dg2|] eqn:Ee;
    cbn [bind] in H; [|discriminate].
  injection H as <- <-.
  destruct (find_diff_inv _ _ _ _ _ _ _ Ef) as (Hd1 & Hd2 & Hsn0).
  destruct (find_diff_requires_styled _ _ _ _ _ Ef) as [[_ Hst1] [_ Hst2]].
  assert (Hdoc : forall g, doc_of self1 g = resized 20 (doc_of self g))
    by (intros [|]; assumption).
  assert (Hstyled : forall g, all_below styled (graphml (doc_of self g)))
    by (intros [|]; assumption).
  pose proof (extends_same_names _ _ (union_edges_extends _ _ _ _ Ee)) as Hedges.
  assert (Hstep : forall e s cs s',
            same_names (graphml dg0) (graphml (fst s)) ->
            union_step (doc_of self1 g1) colors e s = Ok (cs, s') ->
            same_names (graphml dg0) (graphml (fst s'))).
  { intros e s cs s' Hs Hst.
    exact (same_names_trans _ _ _ Hs
             (extends_same_names _ _ (union_step_extends _ _ _ _ _ _ Hst))). }
  pose proof (run_invariant (union_step (doc_of self1 g1) colors)
                (fun s => same_names (graphml dg0) (graphml (fst s)))
                Hstep _ _ (dg0, rm0) (dg1, rm1) (same_names_refl _) Er) as Hloop.
  cbn [fst] in Hloop.
  split.
  - intros i k Hk.
    destruct (same_names_trans _ _ _ Hsn0 (same_names_trans _ _ _ Hloop Hedges) [i] k Hk)
      as (n' & Hn' & _ & Hname).
    now exists n'.
  - intros i k Hk.
    assert (Hk' : exists k', In k' (kids (graphml (doc_of self1 g2)))
                             /\ label_of k' = label_of k).
    { destruct (resized_same_names 20 (doc_of self g2) [i] k Hk) as (k' & Hk' & _ & Hn).
      rewrite <- Hdoc in Hk'. cbn [get_at] in Hk'.
      destruct (nth_error (kids (graphml (doc_of self1 g2))) i) as [x|] eqn:Ei;
        [|discriminate].
      injection Hk' as ->. exists k'. split; [eapply nth_error_In; eauto|].
      unfold label_of. now rewrite Hn. }
    destruct Hk' as (k' & Hin & Hlab).
    assert (Hg1 : forall L q dn,
               _get_node_from_names (Doc (doc_of self1 g1)) [L] = Ok (Some (q, dn)) ->
               has_top_level L (graphml dg0)).
    { intros L q dn Hl. apply resolver_top_level in Hl. cbn [gdict_root] in Hl.
      rewrite Hdoc in Hl. destruct Hl as (j & m & Hm & Hname).
      unfold resized in Hm. cbn [graphml] in Hm.
      rewrite (get_at_tmapn _ (style_only_resize 20)) in Hm.
      destruct (get_at (graphml (doc_of self g1)) [j]) as [m0|] eqn:E0; [|discriminate].
      injection Hm as <-. rewrite (name_tmapn _ (style_only_resize 20)) in Hname.
      destruct (Hsn0 [j] m0 E0) as (m1 & Hm1 & _ & Hn1).
      exists j, m1. split; [exact Hm1 | congruence]. }
    pose proof (union_run_top_level (doc_of self1 g1) colors
                  (graphml (doc_of self1 g2)) (graphml dg0) _ (dg0, rm0) (dg1, rm1)
                  Hg1 (same_names_refl _) Er k' Hin) as Htop.
    cbn [fst] in Htop.
    destruct (has_top_level_same_names _ _ _ Hedges Htop) as (j & n' & Hn' & Hname).
    exists j, n'. split; [exact Hn'|]. rewrite Hname, Hlab. symmetry.
    apply named_label, styled_named. exact (Hstyled g2 [i] k (ltac:(discriminate)) Hk).
Qed.

Lemma union_has_top_level_of_both_witness :
  exists self' dg j n',
    _find_diff_union (Samples.engine Samples.doc_AabB Samples.doc_AacC "union")
      Gdict1 Gdict2 self_colors = Ok (self', dg)
    /\ get_at (graphml dg) [j] = Some n'
    /\ _get_node_name n' = Ok "C".
Proof.
  destruct (_find_diff_union (Samples.engine Samples.doc_AabB Samples.doc_AacC "union")
              Gdict1 Gdict2 self_colors) as [[self' dg]|] eqn:E;
    [|vm_compute in E; discriminate].
  destruct (union_has_top_level_of_both _ _ _ _ _ _ E) as [_ H].
  destruct (H 1 (Samples.group "n1" "C" "#D2D2D2" "12"
                   (One (Samples.group "n1::n0" "x" "#FFFFFF" "12"
                           (One (Samples.leaf "n1::n0::n0" "s" "#FFCC00" "10")))))
              eq_refl) as (j & n' & Hn' & Hname).
  exists self', dg, j, n'. auto.
Defined.

(* ================================================================== *)
(** * The identifier of an inserted node *)

(** The loop that re-identifies the descendants of the inserted node
    leaves the identifier of that node alone. *)
Lemma relabel_run_root_id (colors : palette) (fuel : nat) (renamed : node)
    (rmap : rename_map) (c2 : node) (rm2 : rename_map) :
  run (relabel_step colors) fuel [([], [], [])] (renamed, rmap) = Ok (c2, rm2) ->
  node_id c2 = node_id renamed.
Proof.
  intros H.
  pose (I := fun (stack : list rentry) (s : node * rename_map) =>
               (forall e, In e stack -> snd e = [] -> snd (fst e) = [])
               /\ node_id (fst s) = node_id renamed).
  assert (Hstep : forall e rest s pushed s',
             I (e :: rest) s -> relabel_step colors e s = Ok (pushed, s') ->
             I (rev pushed ++ rest) s').
  { intros [[keys names] ref] rest [cn rm] pushed s' [Hroot Hid] Hs.
    unfold relabel_step in Hs.
    destruct (deref cn ref) as [cur|] eqn:Ed; cbn [bind] in Hs; [|discriminate].
    match type of Hs with
    | bind ?r _ = _ => destruct r as [[cur' rm']|] eqn:Ev; cbn [bind] in Hs; [|discriminate]
    end.
    destruct (push_children_ref keys names ref cur') as [ps|] eqn:Ep; cbn [bind] in Hs;
      [|discriminate].
    injection Hs as <- <-.
    destruct (push_children_ref_inv _ _ _ _ _ Ep) as (_ & _ & ->).
    split.
    - intros e He Hr. apply in_app_or in He as [He|He].
      + apply In_rev in He. apply in_child_refs in He as (j & k & _ & ->).
        cbn [snd] in Hr. now destruct (snoc_nonempty ref (0 + j)).
      + apply Hroot; [now right | exact Hr].
    - cbn [fst] in *. destruct ref as [|i r].
      + pose proof (Hroot _ (or_introl eq_refl) eq_refl) as Hn. cbn [fst snd] in Hn.
        subst names. cbn [nonempty] in Ev. injection Ev as <- _.
        unfold deref in Ed. cbn [get_at from_option] in Ed. injection Ed as <-.
        exact Hid.
      + cbn [set_at]. destruct (nth_error (kids cn) i); [|exact Hid].
        rewrite <- Hid. apply set_kids_graph_free. }
  assert (Hinit : I [([], [], [])] (renamed, rmap)).
  { split; [|reflexivity]. now intros e [<-|[]] _. }
  now destruct (run_invariant_stack (relabel_step colors) I Hstep fuel _ _ _ Hinit H).
Qed.

Lemma rename_graph_id (n n' : node) :
  rename_graph n = Ok n' -> node_id n' = node_id n.
Proof.
  unfold rename_graph. destruct (node_graph n) as [g|]; [|now intros [= <-]].
  destruct (graph_id g); [|now intros [= <-]].
  destruct (_get_node_id n); cbn [from_option bind]; [|discriminate].
  now intros [= <-].
Qed.

(** C8: a node with an identifier is inserted under a parent, the
    identifiers of the nodes already there being a prefix, that of the
    parent, followed by indices stored in ascending order.  The document
    returned has one node more under that parent, at the end of its nodes,
    which are where they were; the identifier of that node is the prefix
    followed by the greatest index plus one, rendered as an identifier; it
    differs from the identifier of every node that was there.  The node
    keeps its label, whatever descendants it has. *)
Theorem inserted_node_gets_fresh_id (n : node) (dg : document) (names : list string)
    (colors : palette) (rmap : rename_map)
    (pref : path) (parent : node) (nodes : one_or_many node)
    (prefix ks : list Z) (k : Z) (old_id : string)
    (dg' : document) (rmap' : rename_map) :
  _get_node_from_names (Doc dg) (removelast names) = Ok (Some (pref, parent)) ->
  subscript_graph_node parent = Ok nodes ->
  mapM (fun s => id_list_of (_get_node_id s)) (siblings_of nodes)
  = Ok (map (fun i => prefix ++ [i]) (ks ++ [k])) ->
  StronglySorted Z.le (ks ++ [k]) ->
  node_id n = Some old_id ->
  _add_node_to_graph n dg names colors rmap = Ok (dg', rmap') ->
  exists copy,
    get_at (graphml dg') (pref ++ [length (siblings_of nodes)]) = Some copy
    /\ _get_node_id copy = Some (_get_id_str (prefix ++ [(k + 1)%Z]))
    /\ _get_id_list (_get_id_str (prefix ++ [(k + 1)%Z])) = Ok (prefix ++ [(k + 1)%Z])
    /\ _get_node_name copy = _get_node_name n
    /\ (forall i s, nth_error (siblings_of nodes) i = Some s ->
          get_at (graphml dg') (pref ++ [i]) = Some s
          /\ _get_node_id s <> _get_node_id copy)
    /\ get_at (graphml dg) (pref ++ [length (siblings_of nodes)]) = None
    /\ get_at (graphml dg') (pref ++ [S (length (siblings_of nodes))]) = None.
Proof.
  intros Hl Hnodes Hids Hsorted Hid H.
  destruct (fresh_sibling_id_after_max nodes prefix ks k Hids Hsorted)
    as (Hfresh & _ & Hnew).
  pose proof (resolver_valid _ _ _ _ Hl) as Hp. cbn [gdict_root] in Hp.
  unfold _add_node_to_graph in H. rewrite Hl in H. cbn [bind] in H.
  destruct (_get_color_id n) as [cid|]; cbn [bind] in H; [|discriminate].
  destruct (index (pal_g2 colors) cid) as [c|]; cbn [bind] in H; [|discriminate].
  destruct (_color_node n c) as [x|] eqn:Ex; cbn [bind] in H; [|discriminate].
  destruct (color_node_style _ _ _ Ex) as (Hxg & Hxid & Hxname & _).
  unfold subscript_graph_node in Hnodes.
  destruct (node_graph parent) as [g|] eqn:Eg; cbn [from_option bind] in Hnodes;
    [|discriminate].
  destruct (graph_node g) as [nodes0|] eqn:En; cbn [from_option] in Hnodes; [|discriminate].
  injection Hnodes as ->. cbn [from_option bind] in H.
  rewrite Hfresh in H. cbn [bind] in H.
  set (new_id := _get_id_str (prefix ++ [(k + 1)%Z])) in *.
  assert (Hx1 : _set_node_id x new_id = mkNode (Some new_id) (node_data x) (node_graph x)).
  { unfold _set_node_id. now rewrite Hxid, Hid. }
  match type of H with
  | bind ?r _ = _ => destruct r as [[c2 rm2]|] eqn:Er; cbn [bind] in H; [|discriminate]
  end.
  assert (Hc2 : node_id c2 = Some new_id /\ node_data c2 = node_data x).
  { destruct (node_graph (_set_node_id x new_id)).
    - destruct (rename_graph (_set_node_id x new_id)) as [rn|] eqn:Ern;
        cbn [bind] in Er; [|discriminate].
      rewrite (relabel_run_root_id _ _ _ _ _ _ Er), (rename_graph_id _ _ Ern).
      rewrite (relabel_run_root_data _ _ _ _ _ _ Er), (rename_graph_data _ _ Ern).
      rewrite Hx1. split; reflexivity.
    - injection Er as <- _. rewrite Hx1. split; reflexivity. }
  destruct Hc2 as [Hc2id Hc2data].
  injection H as <- _. unfold doc_set_at. cbn [graphml].
  assert (Hsib : (match nodes with One og => [og] | Many l => l end) = siblings_of nodes)
    by now destruct nodes.
  rewrite Hsib.
  assert (Hk : kids (set_node_list parent (siblings_of nodes ++ [c2]))
               = siblings_of nodes ++ [c2]) by exact (kids_set_node_list _ _ _ Eg).
  exists c2.
  split; [|split; [|split; [|split; [|split; [|split]]]]].
  - rewrite (get_at_below _ _ _ _ _ Hp). cbn [get_at]. rewrite Hk.
    now rewrite nth_error_middle.
  - exact Hc2id.
  - apply get_id_list_of_str. destruct prefix; discriminate.
  - unfold _get_node_name. rewrite (properties_same_data c2 x Hc2data).
    exact Hxname.
  - intros i s Hi. split.
    + rewrite (get_at_below _ _ _ _ _ Hp). cbn [get_at]. rewrite Hk.
      now rewrite (nth_error_app_some _ _ _ _ Hi).
    + unfold _get_node_id at 2. rewrite Hc2id.
      rewrite Forall_forall in Hnew. apply Hnew. eapply nth_error_In; eauto.
  - rewrite get_at_app, Hp. cbn [get_at].
    rewrite (kids_siblings _ _ _ Eg En).
    assert (E : nth_error (siblings_of nodes) (length (siblings_of nodes)) = None)
      by (apply nth_error_None; lia).
    now rewrite E.
  - rewrite (get_at_below _ _ _ _ _ Hp). cbn [get_at]. rewrite Hk.
    assert (E : nth_error (siblings_of nodes ++ [c2]) (S (length (siblings_of nodes)))
                = None)
      by (apply nth_error_None; rewrite length_app; cbn [length]; lia).
    now rewrite E.
Qed.

(** The molecule [C] of the sample document, which has a component with a
    state, inserted at the top level of a document whose molecules are
    identified [n0] and [n1]: it is the third molecule, identified [n2]. *)
Lemma inserted_node_gets_fresh_id_witness :
  exists dg' rmap' copy,
    _add_node_to_graph
      (Samples.group "n1" "C" "#D2D2D2" "12"
         (One (Samples.group "n1::n0" "x" "#FFFFFF" "12"
                 (One (Samples.leaf "n1::n0::n0" "s" "#FFCC00" "10")))))
      Samples.doc_AabB ["C"] self_colors [] = Ok (dg', rmap')
    /\ get_at (graphml dg') [2] = Some copy
    /\ _get_node_id copy = Some "n2"
    /\ _get_node_name copy = Ok "C"
    /\ get_at (graphml Samples.doc_AabB) [2] = None.
Proof.
  destruct (_add_node_to_graph
              (Samples.group "n1" "C" "#D2D2D2" "12"
                 (One (Samples.group "n1::n0" "x" "#FFFFFF" "12"
                         (One (Samples.leaf "n1::n0::n0" "s" "#FFCC00" "10")))))
              Samples.doc_AabB ["C"] self_colors []) as [[dg' rmap']|] eqn:E;
    [|vm_compute in E; discriminate].
  destruct (inserted_node_gets_fresh_id
              (Samples.group "n1" "C" "#D2D2D2" "12"
                 (One (Samples.group "n1::n0" "x" "#FFFFFF" "12"
                         (One (Samples.leaf "n1::n0::n0" "s" "#FFCC00" "10")))))
              Samples.doc_AabB ["C"] self_colors [] []
              (graphml Samples.doc_AabB)
              (Many [Samples.group "n0" "A" "#D2D2D2" "12"
                       (Many [Samples.leaf "n0::n0" "a" "#FFFFFF" "12";
                              Samples.leaf "n0::n1" "b" "#FFFFFF" "12"]);
                     Samples.leaf "n1" "B" "#D2D2D2" "12"])
              [] [0%Z] 1%Z "n1" dg' rmap')
    as (copy & H1 & H2 & _ & H3 & _ & H4 & _);
    [reflexivity | reflexivity | reflexivity | repeat constructor; lia
     | reflexivity | exact E |].
  exists dg', rmap', copy. repeat split; assumption.
Defined.

